(** * Chameleon: a recording HTTP proxy (Go) — a shallow embedding in Rocq

    The development follows the packages of the repository:

    - [hash]    : internal/hash/hash.go      (request fingerprint)
    - [storage] : internal/storage/storage.go (record files and body encoding)
    - [config]  : internal/config/config.go   (operating mode, loading)
    - [gendocs] : cmd/gen-docs                (body formatting of the documentation)
    - [proxy]   : internal/proxy/handler.go   (record / replay / passthrough)

    The parts of Go's standard library that the code calls (crypto/sha256,
    encoding/hex, encoding/base64, encoding/json, net/textproto, net/http,
    net/http/httputil, strings, strconv) are modelled in modules of the same
    names, as far as the repository uses them.

    Go's [string] is modelled by [string], Go's [[]byte] by [list ascii]; the
    conversions [[]byte(s)] and [string(b)] are [list_ascii_of_string] and
    [string_of_list_ascii]. Go's [int] is [Z]. *)

From Stdlib Require Import ZArith NArith Ascii String List Lia DecimalString.
From Stdlib Require DecimalZ DecimalPos DecimalFacts.
From stdpp Require Import gmap strings list fin_maps.

Set Warnings "-register-all".

Open Scope string_scope.
Open Scope list_scope.
Open Scope stdpp_scope.

(* ===================================================================== *)
(** * Bytes and strings *)
(* ===================================================================== *)

Abbreviation bytes := (list ascii).

(** [[]byte(s)] *)
Abbreviation bytes_of := list_ascii_of_string.
(** [string(b)] *)
Abbreviation string_of := string_of_list_ascii.

(** The numeric value of a byte. *)
Definition byte_val (c : ascii) : Z := Z.of_N (N_of_ascii c).

(** The byte of a number (taken modulo 256, as Go's [byte(x)] conversion). *)
Definition byte_of (z : Z) : ascii := ascii_of_N (Z.to_N (z mod 256)).

(** The double quote character (it cannot be written inside a literal). *)
Definition dquote : ascii := "034"%char.
Definition backslash : ascii := "\"%char.

(** Literals in the examples below write ['] where the byte is a double
    quote: [lit "{'a': 1}"] are the bytes of [{"a": 1}]. *)
Definition lit (s : string) : bytes :=
  map (fun c => if Ascii.eqb c "'" then dquote else c) (bytes_of s).

(** Go's result pairs [(value, error)]: either a value or an error message. *)
Inductive result (A : Type) : Type :=
| Ok (a : A)
| Err (msg : string).
Arguments Ok {A} a.
Arguments Err {A} msg.

(* ===================================================================== *)
(** * crypto/sha256 *)
(* ===================================================================== *)

Module sha256.
Local Open Scope Z_scope.

(** Arithmetic on [uint32] wraps around. *)
Definition u32 (x : Z) : Z := x mod 2 ^ 32.
Definition add32 (x y : Z) : Z := u32 (x + y).

(** [bits.RotateLeft32(x, -n)] *)
Definition rotr (x n : Z) : Z :=
  Z.lor (Z.shiftr x n) (u32 (Z.shiftl x (32 - n))).

(** [^x] on [uint32] *)
Definition not32 (x : Z) : Z := Z.lxor x (2 ^ 32 - 1).

(** The round constants [_K] are the first 32 bits of the fractional parts of
    the cube roots of the first 64 primes, the initial state [init0..init7]
    those of the square roots of the first 8 primes (FIPS 180-4, 4.2.2 and
    5.3.3). They are computed here rather than listed. *)
Definition is_prime (n : Z) : bool :=
  (2 <=? n) && forallb (fun d => negb (n mod d =? 0)) (map Z.of_nat (seq 2 (Z.to_nat n - 2))).

Definition primes64 : list Z :=
  Eval vm_compute in filter is_prime (map Z.of_nat (seq 2 310)).

(** Integer cube root by descent over the bits 40 .. 0. *)
Definition icbrt (n : Z) : Z :=
  fold_left (fun r b => let r' := r + 2 ^ Z.of_nat b in
                        if r' * r' * r' <=? n then r' else r)
            (rev (seq 0 41)) 0.

Definition K : list Z :=
  Eval vm_compute in map (fun p => u32 (icbrt (p * 2 ^ 96))) primes64.

Definition init : list Z :=
  Eval vm_compute in map (fun p => u32 (Z.sqrt (p * 2 ^ 64))) (firstn 8 primes64).

(** Big-endian words of a 64-byte chunk:
    [w[i] = uint32(p[j])<<24 | uint32(p[j+1])<<16 | uint32(p[j+2])<<8 | uint32(p[j+3])] *)
Fixpoint be_words (p : list Z) : list Z :=
  match p with
  | a :: b :: c :: d :: rest =>
      Z.lor (Z.lor (Z.lor (Z.shiftl a 24) (Z.shiftl b 16)) (Z.shiftl c 8)) d
      :: be_words rest
  | _ => []
  end.

Definition at_ (w : list Z) (i : nat) : Z := nth i w 0.

(** The message schedule: [w[i] = t1 + w[i-7] + t2 + w[i-16]] for [i = 16..63]. *)
Definition schedule_step (w : list Z) (i : nat) : list Z :=
  let v1 := at_ w (i - 2) in
  let t1 := Z.lxor (Z.lxor (rotr v1 17) (rotr v1 19)) (Z.shiftr v1 10) in
  let v2 := at_ w (i - 15) in
  let t2 := Z.lxor (Z.lxor (rotr v2 7) (rotr v2 18)) (Z.shiftr v2 3) in
  w ++ [add32 (add32 (add32 t1 (at_ w (i - 7))) t2) (at_ w (i - 16))].

Definition schedule (chunk : list Z) : list Z :=
  fold_left schedule_step (seq 16 48) (be_words chunk).

(** The working variables [a, b, c, d, e, f, g, h]. *)
Record regs := Regs { ra : Z; rb : Z; rc : Z; rd : Z; re : Z; rf : Z; rg : Z; rh : Z }.

Definition round (w : list Z) (s : regs) (i : nat) : regs :=
  let '(Regs a b c d e f g h) := s in
  let t1 := add32 (add32 (add32 (add32 h
              (Z.lxor (Z.lxor (rotr e 6) (rotr e 11)) (rotr e 25)))
              (Z.lxor (Z.land e f) (Z.land (not32 e) g)))
              (at_ K i)) (at_ w i) in
  let t2 := add32 (Z.lxor (Z.lxor (rotr a 2) (rotr a 13)) (rotr a 22))
                  (Z.lxor (Z.lxor (Z.land a b) (Z.land a c)) (Z.land b c)) in
  Regs (add32 t1 t2) a b c (add32 d t1) e f g.

(** [blockGeneric] on one chunk. *)
Definition block (hs : regs) (chunk : list Z) : regs :=
  let w := schedule chunk in
  let '(Regs a b c d e f g h) := fold_left (round w) (seq 0 64) hs in
  let '(Regs h0 h1 h2 h3 h4 h5 h6 h7) := hs in
  Regs (add32 h0 a) (add32 h1 b) (add32 h2 c) (add32 h3 d)
       (add32 h4 e) (add32 h5 f) (add32 h6 g) (add32 h7 h).

Fixpoint blocks (n : nat) (hs : regs) (p : list Z) : regs :=
  match n with
  | O => hs
  | S n => blocks n (block hs (firstn 64 p)) (skipn 64 p)
  end.

(** [checkSum]: a 0x80 byte, zeros up to 56 mod 64, the bit length on 8 bytes. *)
Definition be_bytes (n : nat) (x : Z) : list Z :=
  map (fun i => Z.shiftr x (8 * Z.of_nat i) mod 256) (rev (seq 0 n)).

Definition pad (len : Z) : list Z :=
  128 :: repeat 0 (Z.to_nat ((55 - len) mod 64)) ++ be_bytes 8 (8 * len).

Definition init_regs : regs :=
  Regs (at_ init 0) (at_ init 1) (at_ init 2) (at_ init 3)
       (at_ init 4) (at_ init 5) (at_ init 6) (at_ init 7).

(** [sha256.New()], [Write] of all of [msg], then [Sum(nil)]: 32 bytes. *)
Definition Sum256 (msg : bytes) : bytes :=
  let p := map byte_val msg in
  let p := p ++ pad (Z.of_nat (length msg)) in
  let '(Regs h0 h1 h2 h3 h4 h5 h6 h7) := blocks (length p / 64) init_regs p in
  map byte_of (flat_map (be_bytes 4) [h0; h1; h2; h3; h4; h5; h6; h7]).

End sha256.

(* ===================================================================== *)
(** * encoding/hex *)
(* ===================================================================== *)

Module hex.

Definition hextable : bytes := bytes_of "0123456789abcdef".

Definition digit (n : Z) : ascii := nth (Z.to_nat n) hextable "0"%char.

(** [hex.EncodeToString] *)
Definition EncodeToString (src : bytes) : string :=
  string_of (flat_map (fun c => [digit (byte_val c / 16); digit (byte_val c mod 16)]) src).

End hex.

(* ===================================================================== *)
(** * io.Reader *)
(* ===================================================================== *)

(** A reader delivers some bytes and then ends, with [io.EOF] or with a read
    error. [bytes.NewReader(b)] never fails. *)
Record Reader := mkReader { rd_data : bytes; rd_err : option string }.

Definition bytes_NewReader (b : bytes) : Reader := mkReader b None.

(** [io.ReadAll] *)
Definition io_ReadAll (r : Reader) : result bytes :=
  match rd_err r with
  | None => Ok (rd_data r)
  | Some e => Err e
  end.

(* ===================================================================== *)
(** * internal/hash *)
(* ===================================================================== *)

Module hash.

(** [Generate]: SHA-256 over ["%s:%s:"] of method and path, followed by the
    body read to its end; hex-encoded. A write to the hash never fails; the
    copy of the body fails when the reader does. [body] is [None] for a nil
    reader. *)
Definition Generate (method path : string) (body : option Reader) : result string :=
  let h := bytes_of (method +:+ ":" +:+ path +:+ ":") in
  match body with
  | None => Ok (hex.EncodeToString (sha256.Sum256 h))
  | Some rd =>
      match rd_err rd with
      | Some e => Err ("failed to read request body for hashing: " +:+ e)
      | None => Ok (hex.EncodeToString (sha256.Sum256 (h ++ rd_data rd)))
      end
  end.

End hash.

(* ===================================================================== *)
(** * net/textproto and net/http: header maps *)
(* ===================================================================== *)

Module http.

(** [http.Header] is [map[string][]string]. *)
Abbreviation Header := (gmap string (list string)).

Definition is_lower (c : ascii) : bool := (("a" <=? c) && (c <=? "z"))%char.
Definition is_upper (c : ascii) : bool := (("A" <=? c) && (c <=? "Z"))%char.
Definition is_digit (c : ascii) : bool := (("0" <=? c) && (c <=? "9"))%char.
Definition to_upper (c : ascii) : ascii := byte_of (byte_val c - 32).
Definition to_lower (c : ascii) : ascii := byte_of (byte_val c + 32).

(** [validHeaderFieldByte]: the token characters of RFC 7230. *)
Definition validHeaderFieldByte (c : ascii) : bool :=
  is_lower c || is_upper c || is_digit c ||
  existsb (Ascii.eqb c) (bytes_of "!#$%&'*+-.^_`|~").

(** The rewriting loop of [canonicalMIMEHeaderKey]: upper case for the first
    letter and for a letter after a dash, lower case for the others. *)
Fixpoint canonical_loop (upper : bool) (a : bytes) : bytes :=
  match a with
  | [] => []
  | c :: a' =>
      let c' := if upper && is_lower c then to_upper c
                else if negb upper && is_upper c then to_lower c
                else c in
      c' :: canonical_loop (Ascii.eqb c' "-") a'
  end.

(** [textproto.CanonicalMIMEHeaderKey]: a key holding a byte that is not a
    token character (a space included) is returned unchanged. *)
Definition CanonicalMIMEHeaderKey (s : string) : string :=
  if forallb validHeaderFieldByte (bytes_of s)
  then string_of (canonical_loop true (bytes_of s))
  else s.

(** [Header.Get]: the first value under the canonical key, [""] when there is
    none. *)
Definition Header_Get (h : Header) (key : string) : string :=
  match h !! CanonicalMIMEHeaderKey key with
  | Some (v :: _) => v
  | _ => ""
  end.

(** [Header.Set] *)
Definition Header_Set (h : Header) (key value : string) : Header :=
  <[CanonicalMIMEHeaderKey key := [value]]> h.

(** [Header.Add] *)
Definition Header_Add (h : Header) (key value : string) : Header :=
  let k := CanonicalMIMEHeaderKey key in
  <[k := default [] (h !! k) ++ [value]]> h.

(** [Header.Del] *)
Definition Header_Del (h : Header) (key : string) : Header :=
  delete (CanonicalMIMEHeaderKey key) h.

(** [url.URL], as far as the proxy reads it. *)
Record URL := mkURL {
  Scheme : string;
  URL_Host : string;
  Path : string;
  RawQuery : string;
}.

(** [http.Request] *)
Record Request := mkRequest {
  Method : string;
  URL_ : URL;
  Header_ : Header;
  Body : Reader;
  Host : string;
  RemoteAddr : string;
}.

Definition StatusOK : Z := 200.
Definition StatusNotFound : Z := 404.
Definition StatusInternalServerError : Z := 500.

(** ** The server's response writer

    The state of net/http's [*response] behind an [http.ResponseWriter]:
    the header map the handler edits, the status and the headers that were
    committed by the first [WriteHeader], the body bytes accepted so far, and
    the [WriteHeader] and [Write] calls received, in order. Not modelled: the
    enforcement of a declared Content-Length, HEAD requests, hijacking. *)
Inductive call :=
| CallWriteHeader (code : Z)
| CallWrite (b : bytes).

Record response := mkResponse {
  handlerHeader : Header;
  wroteHeader : bool;
  status : Z;
  sentHeader : Header;
  informational : list (Z * Header);
  body : bytes;
  calls : list call;
}.

(** The writer the server hands to [ServeHTTP]. *)
Definition new_response : response :=
  mkResponse ∅ false 0 ∅ [] [] [].

(** [bodyAllowedForStatus] *)
Definition bodyAllowedForStatus (code : Z) : bool :=
  if ((100 <=? code) && (code <=? 199))%Z then false
  else if (code =? 204)%Z then false
  else if (code =? 304)%Z then false
  else true.

End http.

(* ===================================================================== *)
(** * unicode/utf8 *)
(* ===================================================================== *)

Module utf8.
Local Open Scope Z_scope.

Definition RuneError : Z := 0xFFFD.

Definition cont (c : ascii) : bool := (0x80 <=? byte_val c) && (byte_val c <=? 0xBF).
Definition between (lo hi : Z) (c : ascii) : bool := (lo <=? byte_val c) && (byte_val c <=? hi).

(** [utf8.DecodeRune]: the rune that starts [p] and its width in bytes;
    [(RuneError, 1)] when the encoding is invalid, [(RuneError, 0)] when [p]
    is empty. *)
Definition DecodeRune (p : bytes) : Z * nat :=
  match p with
  | [] => (RuneError, 0%nat)
  | c0 :: p1 =>
      let b0 := byte_val c0 in
      if b0 <? 0x80 then (b0, 1%nat)
      else if between 0xC2 0xDF c0 then
        match p1 with
        | c1 :: _ => if cont c1 then ((b0 mod 32) * 64 + byte_val c1 mod 64, 2%nat)
                     else (RuneError, 1%nat)
        | _ => (RuneError, 1%nat)
        end
      else if between 0xE0 0xEF c0 then
        match p1 with
        | c1 :: c2 :: _ =>
            let lo := if b0 =? 0xE0 then 0xA0 else 0x80 in
            let hi := if b0 =? 0xED then 0x9F else 0xBF in
            if between lo hi c1 && cont c2
            then ((b0 mod 16) * 4096 + (byte_val c1 mod 64) * 64 + byte_val c2 mod 64, 3%nat)
            else (RuneError, 1%nat)
        | _ => (RuneError, 1%nat)
        end
      else if between 0xF0 0xF4 c0 then
        match p1 with
        | c1 :: c2 :: c3 :: _ =>
            let lo := if b0 =? 0xF0 then 0x90 else 0x80 in
            let hi := if b0 =? 0xF4 then 0x8F else 0xBF in
            if between lo hi c1 && cont c2 && cont c3
            then ((b0 mod 8) * 262144 + (byte_val c1 mod 64) * 4096 +
                  (byte_val c2 mod 64) * 64 + byte_val c3 mod 64, 4%nat)
            else (RuneError, 1%nat)
        | _ => (RuneError, 1%nat)
        end
      else (RuneError, 1%nat)
  end.

(** [utf8.EncodeRune]: a surrogate or a value past U+10FFFF is written as
    [RuneError]. *)
Definition EncodeRune (r : Z) : bytes :=
  let r := if (r <? 0) || (0x10FFFF <? r) || ((0xD800 <=? r) && (r <=? 0xDFFF))
           then RuneError else r in
  if r <? 0x80 then [byte_of r]
  else if r <? 0x800 then [byte_of (0xC0 + r / 64); byte_of (0x80 + r mod 64)]
  else if r <? 0x10000 then
    [byte_of (0xE0 + r / 4096); byte_of (0x80 + (r / 64) mod 64); byte_of (0x80 + r mod 64)]
  else
    [byte_of (0xF0 + r / 262144); byte_of (0x80 + (r / 4096) mod 64);
     byte_of (0x80 + (r / 64) mod 64); byte_of (0x80 + r mod 64)].

End utf8.

(* ===================================================================== *)
(** * encoding/base64 *)
(* ===================================================================== *)

Module base64.
Local Open Scope Z_scope.

(** The alphabet of [StdEncoding]; the padding character is ["="]. *)
Definition encodeStd : bytes :=
  bytes_of "ABCDEFGHIJKLMNOPQRSTUVWXYZabcdefghijklmnopqrstuvwxyz0123456789+/".

Definition enc (n : Z) : ascii := nth (Z.to_nat n) encodeStd "A"%char.

(** [decodeMap]: the 6-bit value of a character of the alphabet. *)
Fixpoint index_of (c : ascii) (l : bytes) (i : Z) : option Z :=
  match l with
  | [] => None
  | x :: l' => if Ascii.eqb x c then Some i else index_of c l' (i + 1)
  end.

Definition decodeMap (c : ascii) : option Z := index_of c encodeStd 0.

(** [Encoding.Encode]: three bytes give four characters; a rest of one or two
    bytes is padded. *)
Fixpoint Encode (src : bytes) : bytes :=
  match src with
  | [] => []
  | [a] =>
      let a := byte_val a in
      [enc (a / 4); enc ((a mod 4) * 16); "="%char; "="%char]
  | [a; b] =>
      let a := byte_val a in let b := byte_val b in
      [enc (a / 4); enc ((a mod 4) * 16 + b / 16); enc ((b mod 16) * 4); "="%char]
  | a :: b :: c :: rest =>
      let a := byte_val a in let b := byte_val b in let c := byte_val c in
      enc (a / 4) :: enc ((a mod 4) * 16 + b / 16) ::
      enc ((b mod 16) * 4 + c / 64) :: enc (c mod 64) :: Encode rest
  end.

Definition EncodeToString (src : bytes) : string := string_of (Encode src).

Definition is_newline (c : ascii) : bool :=
  Ascii.eqb c "010"%char || Ascii.eqb c "013"%char.

Fixpoint skip_newlines (s : bytes) : bytes :=
  match s with
  | c :: r => if is_newline c then skip_newlines r else s
  | [] => []
  end.

(** [Encoding.Decode] with [decodeQuantum]: [q] holds the 6-bit values read
    for the current quantum. Line breaks are skipped; padding is required and
    only line breaks may follow it; the bits left over in a padded quantum
    are not checked (the encoding is not strict). [None] stands for a
    [CorruptInputError]. *)
Fixpoint decode_loop (src : bytes) (q : list Z) : option bytes :=
  match src with
  | [] => match q with [] => Some [] | _ => None end
  | c :: r =>
      match decodeMap c with
      | Some v =>
          match q with
          | [d0; d1; d2] =>
              match decode_loop r [] with
              | Some out =>
                  Some (byte_of (d0 * 4 + d1 / 16) :: byte_of (d1 * 16 + d2 / 4) ::
                        byte_of (d2 * 64 + v) :: out)
              | None => None
              end
          | _ => decode_loop r (q ++ [v])
          end
      | None =>
          if is_newline c then decode_loop r q
          else if Ascii.eqb c "="%char then
            match q with
            | [d0; d1] =>
                match skip_newlines r with
                | c' :: r' =>
                    if Ascii.eqb c' "="%char then
                      match skip_newlines r' with
                      | [] => Some [byte_of (d0 * 4 + d1 / 16)]
                      | _ => None
                      end
                    else None
                | [] => None
                end
            | [d0; d1; d2] =>
                match skip_newlines r with
                | [] => Some [byte_of (d0 * 4 + d1 / 16); byte_of (d1 * 16 + d2 / 4)]
                | _ => None
                end
            | _ => None
            end
          else None
      end
  end.

(** [StdEncoding.DecodeString] *)
Definition DecodeString (s : string) : option bytes := decode_loop (bytes_of s) [].

End base64.

(* ===================================================================== *)
(** * encoding/json *)
(* ===================================================================== *)

Module json.

(** ** The scanner: syntax of JSON texts *)

Definition is_space (c : ascii) : bool :=
  Ascii.eqb c " " || Ascii.eqb c "009" || Ascii.eqb c "013" || Ascii.eqb c "010".

Fixpoint skip_space (s : bytes) : bytes :=
  match s with
  | c :: r => if is_space c then skip_space r else s
  | [] => []
  end.

Definition is_hex (c : ascii) : bool :=
  http.is_digit c || (("a" <=? c) && (c <=? "f"))%char || (("A" <=? c) && (c <=? "F"))%char.

Definition hex_val (c : ascii) : Z :=
  if http.is_digit c then byte_val c - 48
  else if (("a" <=? c) && (c <=? "f"))%char then byte_val c - 87
  else byte_val c - 55.

(** Where the scanner stands inside a string literal: on ordinary bytes,
    after a backslash, or inside [\uXXXX] with [n] digits to come. *)
Inductive strstate :=
| SNormal
| SEscape
| SUnicode (n : nat).

Definition cons_fst {A B} (a : A) (r : option (list A * B)) : option (list A * B) :=
  match r with
  | Some (l, b) => Some (a :: l, b)
  | None => None
  end.

(** [stateInString] and the states after it: from behind the opening quote,
    the bytes of the literal up to its closing quote, and the rest of the
    input behind that quote. A byte below 0x20 or a bad escape is an error. *)
Fixpoint scan_string (st : strstate) (s : bytes) : option (bytes * bytes) :=
  match s with
  | [] => None
  | c :: r =>
      match st with
      | SNormal =>
          if Ascii.eqb c dquote then Some ([], r)
          else if Ascii.eqb c backslash then cons_fst c (scan_string SEscape r)
          else if (byte_val c <? 32)%Z then None
          else cons_fst c (scan_string SNormal r)
      | SEscape =>
          if existsb (Ascii.eqb c) (dquote :: bytes_of "bfnrt\/")
          then cons_fst c (scan_string SNormal r)
          else if Ascii.eqb c "u" then cons_fst c (scan_string (SUnicode 4) r)
          else None
      | SUnicode n =>
          if is_hex c
          then cons_fst c (scan_string (match n with
                                        | S (S k) => SUnicode (S k)
                                        | _ => SNormal
                                        end) r)
          else None
      end
  end.

(** Numbers: an optional minus sign; a zero, or a digit from 1 to 9 and
    more digits; optionally a dot and digits; optionally an exponent
    ([e] or [E], an optional sign, digits). *)
Fixpoint digits (s : bytes) : bytes * bytes :=
  match s with
  | c :: r => if http.is_digit c then let '(d, r') := digits r in (c :: d, r') else ([], s)
  | [] => ([], [])
  end.

Definition scan_exp (pre s : bytes) : option (bytes * bytes) :=
  match s with
  | e :: r =>
      if Ascii.eqb e "e" || Ascii.eqb e "E" then
        let '(sg, r1) := match r with
                         | c :: r1 => if Ascii.eqb c "+" || Ascii.eqb c "-"
                                      then ([c], r1) else ([], r)
                         | [] => ([], r)
                         end in
        let '(d, r2) := digits r1 in
        match d with
        | [] => None
        | _ => Some (pre ++ e :: sg ++ d, r2)
        end
      else Some (pre, s)
  | [] => Some (pre, s)
  end.

Definition scan_frac (pre s : bytes) : option (bytes * bytes) :=
  match s with
  | c :: r =>
      if Ascii.eqb c "." then
        let '(d, r1) := digits r in
        match d with
        | [] => None
        | _ => scan_exp (pre ++ c :: d) r1
        end
      else scan_exp pre s
  | [] => scan_exp pre s
  end.

Definition scan_number (s : bytes) : option (bytes * bytes) :=
  let '(sg, s1) := match s with
                   | c :: r => if Ascii.eqb c "-" then ([c], r) else ([], s)
                   | [] => ([], s)
                   end in
  match s1 with
  | c :: r =>
      if Ascii.eqb c "0" then scan_frac (sg ++ [c]) r
      else if http.is_digit c then
        let '(d, r1) := digits r in scan_frac (sg ++ c :: d) r1
      else None
  | [] => None
  end.

Fixpoint strip_prefix (p s : bytes) : option bytes :=
  match p, s with
  | [], _ => Some s
  | a :: p', b :: s' => if Ascii.eqb a b then strip_prefix p' s' else None
  | _ :: _, [] => None
  end.

(** ** Decoding of string literals *)

(** [getu4] on the four hex digits behind [\u]: the rune, or -1. *)
Definition getu4 (s : bytes) : Z :=
  match s with
  | a :: b :: c :: d :: _ =>
      if is_hex a && is_hex b && is_hex c && is_hex d
      then (((hex_val a * 16 + hex_val b) * 16 + hex_val c) * 16 + hex_val d)%Z
      else (-1)%Z
  | _ => (-1)%Z
  end.

(** [getu4] on [\uXXXX]. *)
Definition getu4_escaped (s : bytes) : Z :=
  match s with
  | b :: u :: r => if Ascii.eqb b backslash && Ascii.eqb u "u" then getu4 r else (-1)%Z
  | _ => (-1)%Z
  end.

Definition IsSurrogate (r : Z) : bool := ((0xD800 <=? r) && (r <? 0xE000))%Z.

(** [utf16.DecodeRune] *)
Definition utf16_DecodeRune (r1 r2 : Z) : Z :=
  if ((0xD800 <=? r1) && (r1 <? 0xDC00) && (0xDC00 <=? r2) && (r2 <? 0xE000))%Z
  then ((r1 - 0xD800) * 1024 + (r2 - 0xDC00) + 0x10000)%Z
  else utf8.RuneError.

Definition unescape (e : ascii) : ascii :=
  if Ascii.eqb e "b" then "008" else if Ascii.eqb e "f" then "012"
  else if Ascii.eqb e "n" then "010" else if Ascii.eqb e "r" then "013"
  else if Ascii.eqb e "t" then "009" else e.

(** [unquoteBytes] on the bytes between the quotes of a scanned literal:
    escapes are replaced, a lone surrogate and every byte that is not part
    of a valid UTF-8 sequence become U+FFFD. [skip] counts bytes that the
    previous step has consumed already. *)
Fixpoint unquote (skip : nat) (s : bytes) : bytes :=
  match s with
  | [] => []
  | c :: r =>
      match skip with
      | S k => unquote k r
      | O =>
          if Ascii.eqb c backslash then
            match r with
            | e :: r' =>
                if Ascii.eqb e "u" then
                  let rr := getu4 r' in
                  if IsSurrogate rr then
                    let dec := utf16_DecodeRune rr (getu4_escaped (skipn 4 r')) in
                    if (dec =? utf8.RuneError)%Z
                    then utf8.EncodeRune utf8.RuneError ++ unquote 5 r
                    else utf8.EncodeRune dec ++ unquote 11 r
                  else utf8.EncodeRune rr ++ unquote 5 r
                else unescape e :: unquote 1 r
            | [] => []
            end
          else if (byte_val c <? 128)%Z then c :: unquote 0 r
          else
            let '(rr, size) := utf8.DecodeRune s in
            utf8.EncodeRune rr ++ unquote (size - 1) r
      end
  end.

(** ** Values *)

(** A parsed JSON text. An object keeps its members in the order of the
    text, each with its decoded key and the bytes of its value as they stand
    in the text. A number keeps its literal. *)
Inductive value :=
| JNull
| JBool (b : bool)
| JNumber (literal : bytes)
| JString (s : bytes)
| JArray (l : list value)
| JObject (l : list (bytes * bytes * value)).

(** [maxNestingDepth] *)
Definition maxNestingDepth : N := 10000.

(** The parser: [checkValid]'s grammar, producing the value. [fuel] bounds
    the number of nested calls; [depth] counts the arrays and objects that
    are open. *)
Fixpoint parse_value (fuel : nat) (depth : N) (s : bytes) : option (value * bytes) :=
  match fuel with
  | O => None
  | S fuel =>
      match skip_space s with
      | [] => None
      | c :: r =>
          if Ascii.eqb c "{" then
            if (maxNestingDepth <? depth + 1)%N then None
            else match skip_space r with
                 | c' :: r' => if Ascii.eqb c' "}" then Some (JObject [], r')
                               else parse_members fuel (depth + 1)%N r []
                 | [] => None
                 end
          else if Ascii.eqb c "[" then
            if (maxNestingDepth <? depth + 1)%N then None
            else match skip_space r with
                 | c' :: r' => if Ascii.eqb c' "]" then Some (JArray [], r')
                               else parse_elements fuel (depth + 1)%N r []
                 | [] => None
                 end
          else if Ascii.eqb c dquote then
            match scan_string SNormal r with
            | Some (raw, r') => Some (JString (unquote 0 raw), r')
            | None => None
            end
          else if Ascii.eqb c "-" || http.is_digit c then
            match scan_number (c :: r) with
            | Some (l, r') => Some (JNumber l, r')
            | None => None
            end
          else if Ascii.eqb c "t" then
            option_map (fun r' => (JBool true, r')) (strip_prefix (bytes_of "rue") r)
          else if Ascii.eqb c "f" then
            option_map (fun r' => (JBool false, r')) (strip_prefix (bytes_of "alse") r)
          else if Ascii.eqb c "n" then
            option_map (fun r' => (JNull, r')) (strip_prefix (bytes_of "ull") r)
          else None
      end
  end
with parse_members (fuel : nat) (depth : N) (s : bytes) (acc : list (bytes * bytes * value))
  : option (value * bytes) :=
  match fuel with
  | O => None
  | S fuel =>
      match skip_space s with
      | q :: r =>
          if Ascii.eqb q dquote then
            match scan_string SNormal r with
            | Some (kraw, r1) =>
                match skip_space r1 with
                | c :: r2 =>
                    if Ascii.eqb c ":" then
                      let r2 := skip_space r2 in
                      match parse_value fuel depth r2 with
                      | Some (v, r3) =>
                          let raw := firstn (length r2 - length r3) r2 in
                          let acc := acc ++ [(unquote 0 kraw, raw, v)] in
                          match skip_space r3 with
                          | c' :: r4 =>
                              if Ascii.eqb c' "," then parse_members fuel depth r4 acc
                              else if Ascii.eqb c' "}" then Some (JObject acc, r4)
                              else None
                          | [] => None
                          end
                      | None => None
                      end
                    else None
                | [] => None
                end
            | None => None
            end
          else None
      | [] => None
      end
  end
with parse_elements (fuel : nat) (depth : N) (s : bytes) (acc : list value)
  : option (value * bytes) :=
  match fuel with
  | O => None
  | S fuel =>
      match parse_value fuel depth s with
      | Some (v, r) =>
          let acc := acc ++ [v] in
          match skip_space r with
          | c :: r' =>
              if Ascii.eqb c "," then parse_elements fuel depth r' acc
              else if Ascii.eqb c "]" then Some (JArray acc, r')
              else None
          | [] => None
          end
      | None => None
      end
  end.

(** A whole text: one value, with white space around it. [None] is a
    [SyntaxError] of [checkValid]. *)
Definition parse (data : bytes) : option value :=
  match parse_value (S (length data)) 0 data with
  | Some (v, r) => match skip_space r with [] => Some v | _ => None end
  | None => None
  end.

Definition checkValid (data : bytes) : bool :=
  match parse data with Some _ => true | None => false end.

(** ** [json.Unmarshal] into a [string] variable

    [str] is the variable's value before the call. A string literal is
    stored, [null] leaves the variable as it is, any other value is an
    [UnmarshalTypeError]. *)
Definition Unmarshal_string (data : bytes) (str : string) : result string :=
  match parse data with
  | None => Err "invalid character"
  | Some (JString s) => Ok (string_of s)
  | Some JNull => Ok str
  | Some _ => Err "json: cannot unmarshal into Go value of type string"
  end.

(** ** [json.Unmarshal] into an [interface{}] variable, and [json.Marshal]

    A number decodes to a [float64]. Floating point is not modelled here: the
    type, [strconv.ParseFloat] on a number literal ([None] when the number
    is out of range) and the encoder's rendering of a finite [float64] are
    the three members of [Float64]. *)
Class Float64 := {
  float64 : Type;
  ParseFloat : bytes -> option float64;
  FormatFloat : float64 -> bytes;
}.

Section Interface.
Context `{Float64}.

(** The Go values [json.Unmarshal] stores in an [interface{}]: [nil],
    [bool], [float64], [string], [[]interface{}], [map[string]interface{}].
    A map is kept as the list of its entries in the order of their keys,
    which is the order [json.Marshal] writes them in. *)
Inductive any :=
| ANil
| ABool (b : bool)
| AFloat (f : float64)
| AString (s : string)
| ASlice (l : list any)
| AMap (m : list (string * any)).

(** [m[k] = v] *)
Fixpoint map_store {V} (k : string) (v : V) (m : list (string * V)) : list (string * V) :=
  match m with
  | [] => [(k, v)]
  | (k', v') :: m' =>
      match String.compare k k' with
      | Lt => (k, v) :: m
      | Eq => (k, v) :: m'
      | Gt => (k', v') :: map_store k v m'
      end
  end.

(** [valueInterface]: [None] when a number is out of range
    ([convertNumber] fails and [Unmarshal] returns the error). *)
Fixpoint to_any (v : value) : option any :=
  match v with
  | JNull => Some ANil
  | JBool b => Some (ABool b)
  | JNumber l => option_map AFloat (ParseFloat l)
  | JString s => Some (AString (string_of s))
  | JArray l =>
      option_map ASlice
        (fold_right (fun x acc => match to_any x, acc with
                                  | Some a, Some l' => Some (a :: l')
                                  | _, _ => None
                                  end) (Some []) l)
  | JObject l =>
      option_map AMap
        (fold_left (fun acc m => match acc, to_any (snd m) with
                                 | Some m', Some a => Some (map_store (string_of (fst (fst m))) a m')
                                 | _, _ => None
                                 end) l (Some []))
  end.

Definition Unmarshal_any (data : bytes) : result any :=
  match parse data with
  | None => Err "invalid character"
  | Some v => match to_any v with
              | Some a => Ok a
              | None => Err "json: cannot unmarshal number into Go value of type float64"
              end
  end.

(** [htmlSafeSet] *)
Definition htmlSafe (c : ascii) : bool :=
  (32 <=? byte_val c)%Z && (byte_val c <? 128)%Z &&
  negb (existsb (Ascii.eqb c) (dquote :: bytes_of "\<>&")).

Definition u00 (c : ascii) : bytes :=
  bytes_of "\u00" ++ [hex.digit (byte_val c / 16); hex.digit (byte_val c mod 16)].

Definition escape_ascii (c : ascii) : bytes :=
  if Ascii.eqb c backslash || Ascii.eqb c dquote then [backslash; c]
  else if Ascii.eqb c "008" then bytes_of "\b"
  else if Ascii.eqb c "012" then bytes_of "\f"
  else if Ascii.eqb c "010" then bytes_of "\n"
  else if Ascii.eqb c "013" then bytes_of "\r"
  else if Ascii.eqb c "009" then bytes_of "\t"
  else u00 c.

(** The loop of [appendString] with [escapeHTML]; [skip] counts the
    continuation bytes of a rune that is being copied. *)
Fixpoint encode_chars (skip : nat) (s : bytes) : bytes :=
  match s with
  | [] => []
  | c :: r =>
      match skip with
      | S k => c :: encode_chars k r
      | O =>
          if (byte_val c <? 128)%Z then
            (if htmlSafe c then [c] else escape_ascii c) ++ encode_chars 0 r
          else
            let '(rr, size) := utf8.DecodeRune s in
            if (rr =? utf8.RuneError)%Z && (size =? 1)%nat
            then bytes_of "\ufffd" ++ encode_chars 0 r
            else if (rr =? 0x2028)%Z || (rr =? 0x2029)%Z then
              match r with
              | _ :: _ :: r' =>
                  bytes_of "\u202" ++ [hex.digit (rr mod 16)] ++ encode_chars 0 r'
              | _ => []
              end
            else c :: encode_chars (size - 1) r
      end
  end.

Definition encode_string (s : bytes) : bytes :=
  dquote :: encode_chars 0 s ++ [dquote].

Fixpoint join (sep : bytes) (l : list bytes) : bytes :=
  match l with
  | [] => []
  | [x] => x
  | x :: l' => x ++ sep ++ join sep l'
  end.

(** The encoder on the values of an [interface{}]. *)
Fixpoint encode_any (v : any) : bytes :=
  match v with
  | ANil => bytes_of "null"
  | ABool true => bytes_of "true"
  | ABool false => bytes_of "false"
  | AFloat f => FormatFloat f
  | AString s => encode_string (bytes_of s)
  | ASlice l => bytes_of "[" ++ join (bytes_of ",") (map encode_any l) ++ bytes_of "]"
  | AMap m =>
      bytes_of "{" ++
      join (bytes_of ",")
           (map (fun kv => encode_string (bytes_of (fst kv)) ++ bytes_of ":" ++ encode_any (snd kv)) m)
      ++ bytes_of "}"
  end.

Definition Marshal_any (v : any) : result bytes := Ok (encode_any v).

End Interface.

(** [json.Marshal] of a [string] *)
Definition Marshal_string (s : string) : result bytes := Ok (encode_string (bytes_of s)).

(** ** [Compact] and [Indent] *)

(** Whether the scanner is outside a string literal, inside one, or behind
    a backslash inside one. *)
Inductive where_ :=
| Outside
| Inside
| Escaped.

Definition step_string (w : where_) (c : ascii) : where_ :=
  match w with
  | Outside => if Ascii.eqb c dquote then Inside else Outside
  | Inside => if Ascii.eqb c dquote then Outside
              else if Ascii.eqb c backslash then Escaped else Inside
  | Escaped => Inside
  end.

(** The loop of [appendCompact] with [escape] on a valid text: white space
    outside string literals is dropped, [<], [>], [&], U+2028 and U+2029 are
    written as escapes. [drop] counts the bytes of a rune already written. *)
Fixpoint compact_loop (w : where_) (drop : nat) (s : bytes) : bytes :=
  match s with
  | [] => []
  | c :: r =>
      let w' := step_string w c in
      match drop with
      | S k => compact_loop w' k r
      | O =>
          if existsb (Ascii.eqb c) (bytes_of "<>&") then u00 c ++ compact_loop w' 0 r
          else
            match r with
            | c1 :: c2 :: _ =>
                if ((byte_val c =? 0xE2) && (byte_val c1 =? 0x80) &&
                    ((byte_val c2 =? 0xA8) || (byte_val c2 =? 0xA9)))%Z
                then bytes_of "\u202" ++ [hex.digit (byte_val c2 mod 16)] ++ compact_loop w' 2 r
                else if match w with Outside => is_space c | _ => false end
                     then compact_loop w' 0 r
                     else c :: compact_loop w' 0 r
            | _ =>
                if match w with Outside => is_space c | _ => false end
                then compact_loop w' 0 r
                else c :: compact_loop w' 0 r
            end
      end
  end.

(** [appendCompact]: an error when the text is not valid JSON. *)
Definition compact (src : bytes) : result bytes :=
  if checkValid src then Ok (compact_loop Outside 0 src)
  else Err "invalid character".

(** [appendNewline] with an empty prefix and an indent of two spaces. *)
Definition newline (depth : nat) : bytes :=
  "010"%char :: concat (repeat (bytes_of "  ") depth).

(** The loop of [appendIndent] on a valid text. *)
Fixpoint indent_loop (w : where_) (needIndent : bool) (depth : nat) (s : bytes) : bytes :=
  match s with
  | [] => []
  | c :: r =>
      match w with
      | Inside | Escaped => c :: indent_loop (step_string w c) needIndent depth r
      | Outside =>
          if is_space c then indent_loop Outside needIndent depth r
          else
            let closing := Ascii.eqb c "}" || Ascii.eqb c "]" in
            if closing then
              if needIndent then c :: indent_loop Outside false depth r
              else newline (depth - 1) ++ c :: indent_loop Outside false (depth - 1) r
            else
              let pre := if needIndent then newline (S depth) else [] in
              let depth := if needIndent then S depth else depth in
              if Ascii.eqb c "{" || Ascii.eqb c "[" then
                pre ++ c :: indent_loop Outside true depth r
              else if Ascii.eqb c "," then
                pre ++ c :: newline depth ++ indent_loop Outside false depth r
              else if Ascii.eqb c ":" then
                pre ++ c :: " "%char :: indent_loop Outside false depth r
              else
                pre ++ c :: indent_loop (step_string Outside c) false depth r
      end
  end.

(** [json.Indent(dst, src, "", "  ")] *)
Definition Indent (src : bytes) : result bytes :=
  if checkValid src then Ok (indent_loop Outside false 0 src)
  else Err "invalid character".

End json.

(* ===================================================================== *)
(** * os and path/filepath *)
(* ===================================================================== *)

Module os.

(** The file system: the regular files by name, and whether writes succeed
    (they fail on a full disk, a read-only mount, missing permissions). *)
Record FS := mkFS {
  files : gmap string bytes;
  writable : bool;
}.

(** [os.Stat(name)] returns no error *)
Definition Stat (fs : FS) (name : string) : bool :=
  match files fs !! name with Some _ => true | None => false end.

Definition ReadFile (fs : FS) (name : string) : result bytes :=
  match files fs !! name with
  | Some data => Ok data
  | None => Err ("open " +:+ name +:+ ": no such file or directory")
  end.

Definition WriteFile (fs : FS) (name : string) (data : bytes) : result unit * FS :=
  if writable fs then (Ok tt, mkFS (<[name := data]> (files fs)) true)
  else (Err ("open " +:+ name +:+ ": permission denied"), fs).

(** [filepath.Join] of a directory and a file name; the lexical cleaning of
    the result is not modelled. *)
Definition filepath_Join (dir name : string) : string :=
  match dir with
  | EmptyString => name
  | _ => dir +:+ "/" +:+ name
  end.

End os.

(* ===================================================================== *)
(** * strings and strconv *)
(* ===================================================================== *)

Module strings.

(** [strings.ToLower] and [strings.TrimSpace] follow the Unicode tables,
    which are not modelled here: they are the two members of [Unicode]. *)
Class Unicode := {
  ToLower : string -> string;
  TrimSpace : string -> string;
}.

(** [strings.HasPrefix] *)
Definition HasPrefix (s prefix : string) : bool := String.prefix prefix s.

End strings.

Module strconv.
Local Open Scope Z_scope.

(** [strconv.Atoi] where [int] has 64 bits: an optional sign and decimal
    digits; [None] is a [*NumError], for bad syntax or a value out of
    range. *)
Definition Atoi (s : string) : option Z :=
  let l := bytes_of s in
  let '(neg, d) := match l with
                   | c :: r => if Ascii.eqb c "-" then (true, r)
                               else if Ascii.eqb c "+" then (false, r)
                               else (false, l)
                   | [] => (false, l)
                   end in
  if forallb http.is_digit d && negb (length d =? 0)%nat then
    let n := fold_left (fun acc c => acc * 10 + (byte_val c - 48)) d 0 in
    let n := if neg then - n else n in
    if (- 2 ^ 63 <=? n) && (n <? 2 ^ 63) then Some n else None
  else None.

(** The verb [%d] on an [int]. *)
Definition Itoa (z : Z) : string := NilZero.string_of_int (Z.to_int z).

End strconv.

(* ===================================================================== *)
(** * internal/config *)
(* ===================================================================== *)

Module config.

(** [type Mode string] *)
Definition Mode := string.
Definition ModeRecord : Mode := "record".
Definition ModeReplay : Mode := "replay".
Definition ModePassthrough : Mode := "passthrough".

Record Config := mkConfig {
  Mode_ : Mode;
  BackendURL : string;
  Port : Z;
  StoragePath : string;
}.

(** [LoadOptions]: a nil pointer is [None]. *)
Record LoadOptions := mkLoadOptions {
  OptPort : option Z;
  OptBackend : option string;
}.

Definition with_Mode (c : Config) (m : Mode) : Config :=
  mkConfig m (BackendURL c) (Port c) (StoragePath c).
Definition with_BackendURL (c : Config) (u : string) : Config :=
  mkConfig (Mode_ c) u (Port c) (StoragePath c).
Definition with_Port (c : Config) (p : Z) : Config :=
  mkConfig (Mode_ c) (BackendURL c) p (StoragePath c).
Definition with_StoragePath (c : Config) (p : string) : Config :=
  mkConfig (Mode_ c) (BackendURL c) (Port c) p.

(** The backend of the command line, when [opts], its [Backend] and the
    string it points to are not nil or empty; the port of the command line,
    when [opts] and its [Port] are not nil. *)
Definition cli_backend (opts : option LoadOptions) : option string :=
  match opts with
  | Some o => match OptBackend o with
              | Some b => if negb (String.eqb b "") then Some b else None
              | None => None
              end
  | None => None
  end.

Definition cli_port (opts : option LoadOptions) : option Z :=
  match opts with
  | Some o => OptPort o
  | None => None
  end.

Section WithUnicode.
Context `{strings.Unicode}.

(** [normalizeBackendURL] *)
Definition normalizeBackendURL (backend : string) : string :=
  let backend := strings.TrimSpace backend in
  if String.eqb backend "" then backend
  else if strings.HasPrefix backend "http://" || strings.HasPrefix backend "https://"
       then backend
       else "http://" +:+ backend.

(** [Config.Validate]: the error, or nil. *)
Definition Validate (c : Config) : option string :=
  if String.eqb (BackendURL c) "" then Some "BACKEND_URL cannot be empty"
  else if ((Port c <? 1) || (65535 <? Port c))%Z then
    Some ("invalid PORT: " +:+ strconv.Itoa (Port c) +:+ " (must be between 1 and 65535)")
  else if String.eqb (StoragePath c) "" then Some "STORAGE_PATH cannot be empty"
  else None.

(** [Load]; [env] is [os.Getenv], [opts] the options of the command
    line. *)
Definition Load (env : string -> string) (opts : option LoadOptions) : result Config :=
  let cfg := mkConfig ModeRecord "http://localhost:8080" 3000 "./recordings" in
  let modeStr := env "MODE" in
  let mode := strings.ToLower modeStr in
  if negb (String.eqb modeStr "") &&
     (negb (String.eqb mode ModeRecord) && negb (String.eqb mode ModeReplay) &&
      negb (String.eqb mode ModePassthrough))
  then Err ("invalid MODE: " +:+ modeStr +:+ " (must be record, replay, or passthrough)")
  else
    let cfg := if negb (String.eqb modeStr "") then with_Mode cfg mode else cfg in
    let cfg :=
      match cli_backend opts with
      | Some backend => with_BackendURL cfg (normalizeBackendURL backend)
      | None =>
          let backendURL := env "BACKEND_URL" in
          if negb (String.eqb backendURL "") then with_BackendURL cfg backendURL else cfg
      end in
    let with_port : result Config :=
      match cli_port opts with
      | Some p => Ok (with_Port cfg p)
      | None =>
          let portStr := env "PORT" in
          if negb (String.eqb portStr "") then
            match strconv.Atoi portStr with
            | None => Err ("invalid PORT: " +:+ portStr)
            | Some port =>
                if ((port <? 1) || (65535 <? port))%Z
                then Err ("invalid PORT: " +:+ strconv.Itoa port +:+
                          " (must be between 1 and 65535)")
                else Ok (with_Port cfg port)
            end
          else Ok cfg
      end in
    match with_port with
    | Err e => Err e
    | Ok cfg =>
        let storagePath := env "STORAGE_PATH" in
        let cfg := if negb (String.eqb storagePath "") then with_StoragePath cfg storagePath
                   else cfg in
        match Validate cfg with
        | Some err => Err err
        | None => Ok cfg
        end
    end.

End WithUnicode.

End config.

(* ===================================================================== *)
(** * internal/storage *)
(* ===================================================================== *)

Module storage.

(** [type ResponseBody []byte] *)
Definition ResponseBody := bytes.

(** [CachedResponse]. A nil map and an empty map are not told apart, nor a
    nil and an empty slice: [Save] is only called on maps and slices made
    by [make]. *)
Record CachedResponse := mkCachedResponse {
  Method : string;
  Path : string;
  StatusCode : Z;
  Headers : http.Header;
  Body : ResponseBody;
}.

Record Storage := mkStorage { basePath : string }.

(** [ResponseBody.UnmarshalJSON]: the new value of [*rb]; the error it
    returns is always nil. *)
Definition UnmarshalJSON (data : bytes) : ResponseBody :=
  match json.Unmarshal_string data "" with
  | Ok str =>
      match base64.DecodeString str with
      | Some decoded => decoded
      | None => bytes_of str
      end
  | Err _ => data
  end.

(** ** [json.Unmarshal] into a [CachedResponse] *)

(** [foldName] as far as the field names can tell: ASCII letters in upper
    case; the two runes outside ASCII whose case folding reaches an ASCII
    letter, U+017F and U+212A, as [S] and [K]. *)
Fixpoint foldName (s : bytes) : bytes :=
  match s with
  | [] => []
  | c :: r =>
      if http.is_lower c then http.to_upper c :: foldName r
      else match r with
           | c1 :: r1 =>
               if ((byte_val c =? 0xC5) && (byte_val c1 =? 0xBF))%Z
               then "S"%char :: foldName r1
               else match r1 with
                    | c2 :: r2 =>
                        if ((byte_val c =? 0xE2) && (byte_val c1 =? 0x84) &&
                            (byte_val c2 =? 0xAA))%Z
                        then "K"%char :: foldName r2
                        else c :: foldName r
                    | [] => c :: foldName r
                    end
           | [] => c :: foldName r
           end
  end.

Definition is_field (key : bytes) (name : string) : bool :=
  if decide (foldName key = foldName (bytes_of name)) then true else false.

(** [strconv.ParseInt(s, 10, 64)] on a JSON number literal. *)
Definition ParseInt (l : bytes) : option Z :=
  let '(neg, d) := match l with
                   | c :: r => if Ascii.eqb c "-" then (true, r) else (false, l)
                   | [] => (false, l)
                   end in
  if forallb http.is_digit d && negb (length d =? 0)%nat then
    let n := fold_left (fun acc c => acc * 10 + (byte_val c - 48))%Z d 0%Z in
    let n := if neg then (- n)%Z else n in
    if ((- 2 ^ 63 <=? n) && (n <? 2 ^ 63))%Z then Some n else None
  else None.

(** A value for a field of each type; [None] is an [UnmarshalTypeError].
    [null] leaves a string or an int as it is and makes a slice nil. *)
Definition decode_string (v : json.value) (cur : string) : option string :=
  match v with
  | json.JString s => Some (string_of s)
  | json.JNull => Some cur
  | _ => None
  end.

Definition decode_int (v : json.value) (cur : Z) : option Z :=
  match v with
  | json.JNumber l => ParseInt l
  | json.JNull => Some cur
  | _ => None
  end.

Definition decode_strings (v : json.value) : option (list string) :=
  match v with
  | json.JArray l =>
      fold_right (fun x acc => match decode_string x "", acc with
                               | Some s, Some l' => Some (s :: l')
                               | _, _ => None
                               end) (Some []) l
  | json.JNull => Some []
  | _ => None
  end.

Definition decode_headers (v : json.value) (cur : http.Header) : option http.Header :=
  match v with
  | json.JObject ms =>
      fold_left (fun acc m => match acc, decode_strings (snd m) with
                              | Some h, Some vs => Some (<[string_of (fst (fst m)) := vs]> h)
                              | _, _ => None
                              end) ms (Some cur)
  | json.JNull => Some cur
  | _ => None
  end.

(** One member of the top-level object: the field whose name matches the
    key, without regard to case, takes the value; [body] is handed the bytes
    of its value; a key that matches no field is skipped. *)
Definition decode_member (c : CachedResponse) (m : bytes * bytes * json.value)
  : option CachedResponse :=
  let '(key, raw, v) := m in
  if is_field key "method" then
    option_map (fun x => mkCachedResponse x (Path c) (StatusCode c) (Headers c) (Body c))
               (decode_string v (Method c))
  else if is_field key "path" then
    option_map (fun x => mkCachedResponse (Method c) x (StatusCode c) (Headers c) (Body c))
               (decode_string v (Path c))
  else if is_field key "status_code" then
    option_map (fun x => mkCachedResponse (Method c) (Path c) x (Headers c) (Body c))
               (decode_int v (StatusCode c))
  else if is_field key "headers" then
    option_map (fun x => mkCachedResponse (Method c) (Path c) (StatusCode c) x (Body c))
               (decode_headers v (Headers c))
  else if is_field key "body" then
    Some (mkCachedResponse (Method c) (Path c) (StatusCode c) (Headers c) (UnmarshalJSON raw))
  else Some c.

Definition zero : CachedResponse := mkCachedResponse "" "" 0 ∅ [].

Definition Unmarshal_CachedResponse (data : bytes) : result CachedResponse :=
  match json.parse data with
  | None => Err "invalid character"
  | Some json.JNull => Ok zero
  | Some (json.JObject ms) =>
      match fold_left (fun acc m => match acc with
                                    | Some c => decode_member c m
                                    | None => None
                                    end) ms (Some zero) with
      | Some c => Ok c
      | None => Err "json: cannot unmarshal value into Go struct field of CachedResponse"
      end
  | Some _ => Err "json: cannot unmarshal value into Go value of type storage.CachedResponse"
  end.

(** [Storage.getFilename] *)
Definition getFilename (s : Storage) (hash : string) : string :=
  os.filepath_Join (basePath s) (hash +:+ ".json").

(** [Storage.Exists] *)
Definition Exists (s : Storage) (fs : os.FS) (hash : string) : bool :=
  os.Stat fs (getFilename s hash).

(** [Storage.Load] *)
Definition Load (s : Storage) (fs : os.FS) (hash : string) : result CachedResponse :=
  let filename := getFilename s hash in
  match os.ReadFile fs filename with
  | Err e => Err ("failed to read cached response: " +:+ e)
  | Ok data =>
      match Unmarshal_CachedResponse data with
      | Err e => Err ("failed to unmarshal cached response: " +:+ e)
      | Ok cached => Ok cached
      end
  end.

Section WithFloat64.
Context `{json.Float64}.

(** [ResponseBody.MarshalJSON] *)
Definition MarshalJSON (rb : ResponseBody) : result bytes :=
  if (length rb =? 0)%nat then Ok (bytes_of "null")
  else
    match json.Unmarshal_any rb with
    | Ok jsonValue => json.Marshal_any jsonValue
    | Err _ =>
        let encoded := base64.EncodeToString rb in
        json.Marshal_string encoded
    end.

(** ** [json.MarshalIndent] of a [CachedResponse] *)

Definition encode_int (z : Z) : bytes :=
  bytes_of (NilZero.string_of_int (Z.to_int z)).

Definition encode_strings (l : list string) : bytes :=
  bytes_of "[" ++ json.join (bytes_of ",") (map (fun s => json.encode_string (bytes_of s)) l)
  ++ bytes_of "]".

(** The entries of a map in the order of their keys. *)
Definition sorted_entries (h : http.Header) : list (string * list string) :=
  fold_right (fun kv acc => json.map_store (fst kv) (snd kv) acc) [] (map_to_list h).

Definition encode_headers (h : http.Header) : bytes :=
  bytes_of "{" ++
  json.join (bytes_of ",")
    (map (fun kv => json.encode_string (bytes_of (fst kv)) ++ bytes_of ":" ++ encode_strings (snd kv))
         (sorted_entries h))
  ++ bytes_of "}".

(** The encoder on the struct: the fields in their order; the body through
    [MarshalJSON], whose output is checked and compacted. *)
Definition Marshal_CachedResponse (c : CachedResponse) : result bytes :=
  match MarshalJSON (Body c) with
  | Err e => Err ("json: error calling MarshalJSON for type storage.ResponseBody: " +:+ e)
  | Ok b =>
      match json.compact b with
      | Err e => Err ("json: error calling MarshalJSON for type storage.ResponseBody: " +:+ e)
      | Ok body =>
          Ok (lit "{'method':" ++ json.encode_string (bytes_of (Method c)) ++
              lit ",'path':" ++ json.encode_string (bytes_of (Path c)) ++
              lit ",'status_code':" ++ encode_int (StatusCode c) ++
              lit ",'headers':" ++ encode_headers (Headers c) ++
              lit ",'body':" ++ body ++ lit "}")
      end
  end.

Definition MarshalIndent_CachedResponse (c : CachedResponse) : result bytes :=
  match Marshal_CachedResponse c with
  | Err e => Err e
  | Ok b => json.Indent b
  end.

(** [Storage.Save] *)
Definition Save (s : Storage) (fs : os.FS) (hash : string) (response : CachedResponse)
  : result unit * os.FS :=
  let filename := getFilename s hash in
  match MarshalIndent_CachedResponse response with
  | Err e => (Err ("failed to marshal cached response: " +:+ e), fs)
  | Ok data =>
      match os.WriteFile fs filename data with
      | (Err e, fs') => (Err ("failed to write cached response: " +:+ e), fs')
      | (Ok _, fs') => (Ok tt, fs')
      end
  end.

End WithFloat64.

End storage.

(* ===================================================================== *)
(** * cmd/gen-docs *)
(* ===================================================================== *)

Module gendocs.

Section WithLibraries.
Context `{json.Float64} `{strings.Unicode}.

(** [json.MarshalIndent(v, "", "  ")] on the value of an [interface{}]. *)
Definition MarshalIndent_any (v : json.any) : result bytes :=
  match json.Marshal_any v with
  | Err e => Err e
  | Ok b => json.Indent b
  end.

(** The text of a body that is JSON, pretty printed. *)
Definition pretty (data : bytes) : option string :=
  match json.Unmarshal_any data with
  | Ok jsonValue =>
      match MarshalIndent_any jsonValue with
      | Ok prettyJSON => Some (string_of prettyJSON)
      | Err _ => None
      end
  | Err _ => None
  end.

(** [formatBody]: the text to show and the type of the body. *)
Definition formatBody (body : storage.ResponseBody) : string * string :=
  if (length body =? 0)%nat then ("", "empty")
  else
    match pretty body with
    | Some prettyJSON => (prettyJSON, "json")
    | None =>
        let bodyStr := string_of body in
        if strings.HasPrefix (strings.TrimSpace bodyStr) "<" then (bodyStr, "html")
        else
          match base64.DecodeString bodyStr with
          | Some decoded =>
              if (0 <? length decoded)%nat then
                let decodedStr := string_of decoded in
                if strings.HasPrefix (strings.TrimSpace decodedStr) "<" then (decodedStr, "html")
                else match pretty decoded with
                     | Some prettyJSON => (prettyJSON, "json")
                     | None => (decodedStr, "text")
                     end
              else (bodyStr, "text")
          | None => (bodyStr, "text")
          end
    end.

End WithLibraries.

End gendocs.

(* ===================================================================== *)
(** * internal/proxy *)
(* ===================================================================== *)

Module proxy.
Import http.

(** ** The world a handler runs in *)

(** The lines the handler logs, by the message; the time a line carries is
    left out. *)
Inductive LogEntry :=
| LogReadBodyFailed (err : string)
| LogHashFailed (err : string)
| LogRequest (method path remote hash16 : string) (mode : config.Mode)
| LogUnknownMode (mode : config.Mode)
| LogReplayMiss (hash : string)
| LogReplayLoadFailed (err : string)
| LogReplayServing (method path : string) (status : Z) (hash16 : string)
| LogWriteBodyFailed (err : string)
| LogReplayCompleted
| LogRecordProxying (backend : string)
| LogStripped
| LogSaveFailed (err : string)
| LogRecordSaved (method path : string) (status : Z) (hash16 : string)
| LogRecordCompleted
| LogPassthroughProxying (backend : string)
| LogPassthroughCompleted.

(** The state around one call of [ServeHTTP]: the response writer [w] of the
    request, the file system, the log, and the requests that were sent to
    the backend. *)
Record World := mkWorld {
  client : response;
  disk : os.FS;
  logs : list LogEntry;
  contacted : list Request;
}.

(** A computation ends with a value or in a panic. *)
Inductive outcome (A : Type) : Type :=
| Done (a : A)
| Panicked (msg : string).
Arguments Done {A} a.
Arguments Panicked {A} msg.

Definition M (A : Type) : Type := World -> outcome A * World.

#[global] Instance M_ret : MRet M := fun A a s => (Done a, s).
#[global] Instance M_bind : MBind M := fun A B f m s =>
  match m s with
  | (Done a, s') => f a s'
  | (Panicked msg, s') => (Panicked msg, s')
  end.

Definition panic {A} (msg : string) : M A := fun s => (Panicked msg, s).
Definition get_client : M response := fun s => (Done (client s), s).
Definition put_client (w : response) : M unit :=
  fun s => (Done tt, mkWorld w (disk s) (logs s) (contacted s)).
Definition get_disk : M os.FS := fun s => (Done (disk s), s).
Definition put_disk (fs : os.FS) : M unit :=
  fun s => (Done tt, mkWorld (client s) fs (logs s) (contacted s)).
(** [h.logger.Printf] *)
Definition logf (e : LogEntry) : M unit :=
  fun s => (Done tt, mkWorld (client s) (disk s) (logs s ++ [e]) (contacted s)).
(** The round trip to the backend. *)
Definition contact (req : Request) : M unit :=
  fun s => (Done tt, mkWorld (client s) (disk s) (logs s) (contacted s ++ [req])).

(** The world after a computation, and whether it ended in a panic. *)
Definition exec {A} (m : M A) (s : World) : World := snd (m s).
Definition panicked {A} (m : M A) (s : World) : bool :=
  match fst (m s) with Panicked _ => true | Done _ => false end.

(** The order in which [for key, values := range m] visits a map is not
    specified: [range] is any enumeration of the entries. *)
Class MapRange := {
  range : Header -> list (string * list string);
  range_perm : forall m, range m ≡ₚ map_to_list m;
}.

(** ** net/http's response writer *)

Definition set_handlerHeader (w : response) (h : Header) : response :=
  mkResponse h (wroteHeader w) (status w) (sentHeader w) (informational w) (body w) (calls w).

Definition record_call (w : response) (c : call) : response :=
  mkResponse (handlerHeader w) (wroteHeader w) (status w) (sentHeader w) (informational w)
             (body w) (calls w ++ [c]).

(** [response.WriteHeader] without the record of the call: nothing happens
    when the header is written already; a code outside 100..999 panics; a
    1xx code other than 101 sends an informational response and commits
    nothing; any other code commits the status and the header map. *)
Definition commit_header (code : Z) : M unit :=
  w ← get_client;
  if wroteHeader w then mret tt
  else if ((code <? 100) || (999 <? code))%Z then panic "invalid WriteHeader code"
  else if ((100 <=? code) && (code <=? 199) && negb (code =? 101))%Z then
    put_client (mkResponse (handlerHeader w) false (status w) (sentHeader w)
                           (informational w ++ [(code, handlerHeader w)]) (body w) (calls w))
  else
    put_client (mkResponse (handlerHeader w) true code (handlerHeader w)
                           (informational w) (body w) (calls w)).

Definition response_WriteHeader (code : Z) : M unit :=
  w ← get_client;
  put_client (record_call w (CallWriteHeader code));;
  commit_header code.

(** [response.Write]: the first write commits status 200 when no status was
    written; the bytes are refused when the status allows no body. *)
Definition response_Write (b : bytes) : M (result nat) :=
  w ← get_client;
  put_client (record_call w (CallWrite b));;
  commit_header StatusOK;;
  w ← get_client;
  if (length b =? 0)%nat then mret (Ok 0%nat)
  else if negb (bodyAllowedForStatus (status w))
  then mret (Err "http: request method or response status code does not allow body")
  else
    put_client (mkResponse (handlerHeader w) (wroteHeader w) (status w) (sentHeader w)
                           (informational w) (body w ++ b) (calls w));;
    mret (Ok (length b)).

Definition response_Header_update (f : Header -> Header) : M unit :=
  w ← get_client;
  put_client (set_handlerHeader w (f (handlerHeader w))).

(** [http.ResponseWriter]: [Header_update] stands for [Header()] followed
    by an update of the map it returns. *)
Class ResponseWriter (W : Type) := {
  Header_update : W -> (Header -> Header) -> M W;
  WriteHeader : W -> Z -> M W;
  Write : W -> bytes -> M (W * result nat);
}.

(** The writer of the server: its state is [client]. *)
#[global] Instance server_writer : ResponseWriter unit := {
  Header_update _ f := response_Header_update f;
  WriteHeader _ code := response_WriteHeader code;
  Write _ b := r ← response_Write b; mret (tt, r);
}.

(** [http.Error] *)
Definition http_Error `{ResponseWriter W} (w : W) (error : string) (code : Z) : M W :=
  w ← Header_update w (fun h => Header_Del h "Content-Length");
  w ← Header_update w (fun h => Header_Set h "Content-Type" "text/plain; charset=utf-8");
  w ← Header_update w (fun h => Header_Set h "X-Content-Type-Options" "nosniff");
  w ← WriteHeader w code;
  '(w, _) ← Write w (bytes_of error ++ ["010"%char]);
  mret w.

(** ** The response capturer *)

(** [responseCapturer]; the embedded [http.ResponseWriter] is [client]. *)
Record responseCapturer := mkCapturer {
  statusCode : Z;
  headers : Header;
  body_ : bytes;
}.

Section Handlers.
Context `{json.Float64} `{MapRange}.

(** [responseCapturer.WriteHeader] *)
Definition capturer_WriteHeader (rc : responseCapturer) (code : Z) : M responseCapturer :=
  let rc := mkCapturer code (headers rc) (body_ rc) in
  w ← get_client;
  let header := handlerHeader w in
  let rc := fold_left (fun rc kv => mkCapturer (statusCode rc)
                                               (<[fst kv := snd kv]> (headers rc)) (body_ rc))
                      (range header) rc in
  response_WriteHeader code;;
  mret rc.

(** [responseCapturer.Write] *)
Definition capturer_Write (rc : responseCapturer) (b : bytes) : M (responseCapturer * result nat) :=
  let rc := mkCapturer (statusCode rc) (headers rc) (body_ rc ++ b) in
  r ← response_Write b;
  mret (rc, r).

(** [responseCapturer.Header] returns the map of the embedded writer. *)
#[global] Instance capturer_writer : ResponseWriter responseCapturer := {
  Header_update rc f := response_Header_update f;; mret rc;
  WriteHeader := capturer_WriteHeader;
  Write := capturer_Write;
}.

(** ** net/http/httputil's reverse proxy *)

(** What the proxy does to the response writer it was given. *)
Inductive rwop :=
| OpHeaderSet (key value : string)
| OpHeaderAdd (key value : string)
| OpHeaderDel (key : string)
| OpWriteHeader (code : Z)
| OpWrite (b : bytes).

Definition run_op `{ResponseWriter W} (rw : W) (op : rwop) : M W :=
  match op with
  | OpHeaderSet k v => Header_update rw (fun h => Header_Set h k v)
  | OpHeaderAdd k v => Header_update rw (fun h => Header_Add h k v)
  | OpHeaderDel k => Header_update rw (fun h => Header_Del h k)
  | OpWriteHeader code => WriteHeader rw code
  | OpWrite b => '(rw, _) ← Write rw b; mret rw
  end.

Fixpoint run_ops `{ResponseWriter W} (rw : W) (ops : list rwop) : M W :=
  match ops with
  | [] => mret rw
  | op :: ops' => rw ← run_op rw op; run_ops rw ops'
  end.

(** [httputil.ReverseProxy]: its director, and its transport together with
    the backend behind it, given as the calls the proxy makes on the
    response writer once the outgoing request was sent. *)
Record ReverseProxy := mkReverseProxy {
  Director : Request -> M Request;
  Transport : Request -> list rwop;
}.

(** [ReverseProxy.ServeHTTP]: the director works on a clone of the request. *)
Definition ReverseProxy_ServeHTTP `{ResponseWriter W} (p : ReverseProxy) (rw : W) (req : Request)
  : M W :=
  outreq ← Director p req;
  contact outreq;;
  run_ops rw (Transport p outreq).

(** [singleJoiningSlash] *)
Definition singleJoiningSlash (a b : string) : string :=
  let aslash := match rev (bytes_of a) with c :: _ => Ascii.eqb c "/" | [] => false end in
  match b with
  | String c b' =>
      if Ascii.eqb c "/" then (if aslash then a +:+ b' else a +:+ b)
      else (if aslash then a +:+ b else a +:+ "/" +:+ b)
  | EmptyString => if aslash then a else a +:+ "/"
  end.

(** The director of [httputil.NewSingleHostReverseProxy(target)]:
    [rewriteRequestURL]. *)
Definition originalDirector (target : URL) (req : Request) : Request :=
  let u := URL_ req in
  let query := match RawQuery target, RawQuery u with
               | EmptyString, q => q
               | tq, EmptyString => tq
               | tq, q => tq +:+ "&" +:+ q
               end in
  mkRequest (Method req)
            (mkURL (Scheme target) (URL_Host target) (singleJoiningSlash (Path target) (Path u)) query)
            (Header_ req) (Body req) (Host req) (RemoteAddr req).

(** ** The handler *)

Definition conditionalHeaders : list string :=
  ["If-None-Match"; "If-Modified-Since"; "If-Range"; "If-Match"; "If-Unmodified-Since"].

(** [stripConditionalHeaders]: the request with its header map edited, and
    whether anything was removed. *)
Definition stripConditionalHeaders (req : Request) : Request * bool :=
  let '(hd, stripped) :=
    fold_left (fun '(hd, stripped) header =>
                 if negb (String.eqb (Header_Get hd header) "")
                 then (Header_Del hd header, true)
                 else (hd, stripped))
              conditionalHeaders (Header_ req, false) in
  let cacheControl := Header_Get hd "Cache-Control" in
  let '(hd, stripped) :=
    if String.eqb cacheControl "no-cache" || String.eqb cacheControl "max-age=0"
    then (Header_Del hd "Cache-Control", true)
    else (hd, stripped) in
  (mkRequest (Method req) (URL_ req) hd (Body req) (Host req) (RemoteAddr req), stripped).

Record Handler := mkHandler {
  config_ : config.Config;
  storage_ : storage.Storage;
  proxy_ : ReverseProxy;
}.

(** The director [New] installs. *)
Definition director (mode : config.Mode) (backendURL : URL) (req : Request) : M Request :=
  let req := originalDirector backendURL req in
  let req := mkRequest (Method req) (URL_ req) (Header_ req) (Body req)
                       (URL_Host backendURL) (RemoteAddr req) in
  if String.eqb mode config.ModeRecord then
    let '(req, stripped) := stripConditionalHeaders req in
    (if stripped then logf LogStripped else mret tt);;
    mret req
  else mret req.

(** [New]; [backendURL] is [url.Parse(cfg.BackendURL)], and [transport] what
    stands behind [httputil.NewSingleHostReverseProxy]. *)
Definition New (cfg : config.Config) (st : storage.Storage) (backendURL : URL)
    (transport : Request -> list rwop) : Handler :=
  mkHandler cfg st (mkReverseProxy (director (config.Mode_ cfg) backendURL) transport).

Definition hash16 (requestHash : string) : string := String.substring 0 16 requestHash.

(** The loop over [cached.Headers] in [handleReplay]. *)
Definition set_headers (cached_Headers : Header) : M unit :=
  fold_left (fun (m : M unit) kv =>
               m;;
               let '(key, values) := kv in
               if String.eqb key "Content-Length" then mret tt
               else match values with
                    | v0 :: rest =>
                        Header_update tt (fun h => Header_Set h key v0);;
                        fold_left (fun (m : M unit) v =>
                                     m;; Header_update tt (fun h => Header_Add h key v))
                                  rest (mret tt)
                    | [] => mret tt
                    end)
            (range cached_Headers) (mret tt).

(** [Handler.handleReplay] *)
Definition handleReplay (h : Handler) (r : Request) (requestHash : string) : M unit :=
  fs ← get_disk;
  if negb (storage.Exists (storage_ h) fs requestHash) then
    logf (LogReplayMiss requestHash);;
    http_Error tt ("no cached response found for request (hash: " +:+ requestHash +:+ ")")
               StatusNotFound
  else
    match storage.Load (storage_ h) fs requestHash with
    | Err err =>
        logf (LogReplayLoadFailed err);;
        http_Error tt ("failed to load cached response: " +:+ err) StatusInternalServerError
    | Ok cached =>
        logf (LogReplayServing (storage.Method cached) (storage.Path cached)
                               (storage.StatusCode cached) (hash16 requestHash));;
        let code := storage.StatusCode cached in
        let statusAllowsBody :=
          negb ((code =? 204) || (code =? 304) || ((100 <=? code) && (code <? 200)))%Z in
        set_headers (storage.Headers cached);;
        WriteHeader tt code;;
        let bodyStr := string_of (storage.Body cached) in
        (if statusAllowsBody && (0 <? length (storage.Body cached))%nat &&
            negb (String.eqb bodyStr "null") && negb (String.eqb bodyStr "")
         then
           '(_, res) ← Write tt (storage.Body cached);
           match res with
           | Err err => logf (LogWriteBodyFailed err)
           | Ok _ => mret tt
           end
         else mret tt);;
        logf LogReplayCompleted
    end.

(** The first half of [handleRecord]: the request is proxied through a
    capturer, and the record is built from what it captured. *)
Definition capture (h : Handler) (r : Request) (bodyBytes : bytes) : M storage.CachedResponse :=
  logf (LogRecordProxying (config.BackendURL (config_ h)));;
  let capturer := mkCapturer StatusOK ∅ [] in
  let r := mkRequest (Method r) (URL_ r) (Header_ r) (bytes_NewReader bodyBytes)
                     (Host r) (RemoteAddr r) in
  capturer ← ReverseProxy_ServeHTTP (proxy_ h) capturer r;
  mret (storage.mkCachedResponse (Method r) (Path (URL_ r)) (statusCode capturer)
                                 (headers capturer) (body_ capturer)).

(** [Handler.handleRecord] *)
Definition handleRecord (h : Handler) (r : Request) (requestHash : string) (bodyBytes : bytes)
  : M unit :=
  cached ← capture h r bodyBytes;
  fs ← get_disk;
  let '(res, fs) := storage.Save (storage_ h) fs requestHash cached in
  put_disk fs;;
  match res with
  | Err err => logf (LogSaveFailed err)
  | Ok _ => logf (LogRecordSaved (storage.Method cached) (storage.Path cached)
                                 (storage.StatusCode cached) (hash16 requestHash))
  end;;
  logf LogRecordCompleted.

(** [Handler.handlePassthrough] *)
Definition handlePassthrough (h : Handler) (r : Request) : M unit :=
  logf (LogPassthroughProxying (config.BackendURL (config_ h)));;
  ReverseProxy_ServeHTTP (proxy_ h) tt r;;
  logf LogPassthroughCompleted.

(** [Handler.ServeHTTP] *)
Definition ServeHTTP (h : Handler) (r : Request) : M unit :=
  match io_ReadAll (Body r) with
  | Err err =>
      logf (LogReadBodyFailed err);;
      http_Error tt ("failed to read request body: " +:+ err) StatusInternalServerError
  | Ok bodyBytes =>
      let r := mkRequest (Method r) (URL_ r) (Header_ r) (bytes_NewReader bodyBytes)
                         (Host r) (RemoteAddr r) in
      match hash.Generate (Method r) (Path (URL_ r)) (Some (bytes_NewReader bodyBytes)) with
      | Err err =>
          logf (LogHashFailed err);;
          http_Error tt ("failed to generate hash: " +:+ err) StatusInternalServerError
      | Ok requestHash =>
          let mode := config.Mode_ (config_ h) in
          logf (LogRequest (Method r) (Path (URL_ r)) (RemoteAddr r) (hash16 requestHash) mode);;
          if String.eqb mode config.ModeReplay then handleReplay h r requestHash
          else if String.eqb mode config.ModeRecord then handleRecord h r requestHash bodyBytes
          else if String.eqb mode config.ModePassthrough then handlePassthrough h r
          else
            logf (LogUnknownMode mode);;
            http_Error tt ("unknown mode: " +:+ mode) StatusInternalServerError
      end
  end.

End Handlers.

(** A world in which a request has just arrived. *)
Definition new_world (fs : os.FS) : World := mkWorld new_response fs [] [].

(** [requestHash] and [bodyBytes] as [ServeHTTP] computes them from the
    request, or the error that ends the request with status 500. *)
Definition requestHash_of (r : Request) : result (string * bytes) :=
  match io_ReadAll (Body r) with
  | Err err => Err err
  | Ok bodyBytes =>
      match hash.Generate (Method r) (Path (URL_ r)) (Some (bytes_NewReader bodyBytes)) with
      | Err err => Err err
      | Ok requestHash => Ok (requestHash, bodyBytes)
      end
  end.

(** The request with another query string. *)
Definition with_query (r : Request) (q : string) : Request :=
  mkRequest (Method r) (mkURL (Scheme (URL_ r)) (URL_Host (URL_ r)) (Path (URL_ r)) q)
            (Header_ r) (Body r) (Host r) (RemoteAddr r).

End proxy.

(* ===================================================================== *)
(** * Instances for the examples *)
(* ===================================================================== *)

(** Numbers that keep their literal: an instance of [Float64] on which the
    examples below run. No example has a number in a body. *)
Definition literal_floats : json.Float64 :=
  {| json.float64 := bytes; json.ParseFloat := Some; json.FormatFloat := fun l => l |}.

(** The iteration that follows the order of [map_to_list]. *)
Definition range_in_order : proxy.MapRange :=
  {| proxy.range := map_to_list; proxy.range_perm := fun m => reflexivity _ |}.

Module Examples.
Import http proxy.

Definition st : storage.Storage := storage.mkStorage "./recordings".
Definition cfg (mode : config.Mode) : config.Config :=
  config.mkConfig mode "http://localhost:8080" 3000 "./recordings".
Definition backendURL : URL := mkURL "http" "localhost:8080" "" "".

(** A backend whose answer makes the proxy write status 200 and a body. *)
Definition answer_hello (req : Request) : list rwop :=
  [OpHeaderAdd "Content-Type" "text/plain"; OpWriteHeader 200; OpWrite (bytes_of "hello")].

Definition handler (mode : config.Mode) : Handler :=
  @New (cfg mode) st backendURL answer_hello.

Definition get (path query : string) (hd : Header) : Request :=
  mkRequest "GET" (mkURL "" "" path query) hd (bytes_NewReader []) "localhost:3000" "127.0.0.1:50000".

(** The file system with one record file, stored under the fingerprint of
    [GET /a] with an empty body. *)
Definition hash_get_a : string :=
  Eval vm_compute in
    match hash.Generate "GET" "/a" (Some (bytes_NewReader [])) with
    | Ok h => h
    | Err _ => ""
    end.

Definition one_file (content : bytes) : os.FS :=
  os.mkFS {[ storage.getFilename st hash_get_a := content ]} true.

End Examples.

(* ===================================================================== *)
(** * Functions used to state the theorems *)
(* ===================================================================== *)

Module spec.
Import http proxy.

(** What one entry of the stored header map does to the header map of the
    response in [handleReplay]. *)
Definition apply_entry (h : Header) (kv : string * list string) : Header :=
  let '(key, values) := kv in
  if String.eqb key "Content-Length" then h
  else match values with
       | v0 :: rest => fold_left (fun h v => Header_Add h key v) rest (Header_Set h key v0)
       | [] => h
       end.

Definition apply_entries (l : list (string * list string)) (h : Header) : Header :=
  fold_left apply_entry l h.

(** The world with another response writer state, log, or file system. *)
Definition with_client (s : World) (w : response) : World :=
  mkWorld w (disk s) (logs s) (contacted s).
Definition with_disk (s : World) (fs : os.FS) : World :=
  mkWorld (client s) fs (logs s) (contacted s).
Definition with_logs (s : World) (l : list LogEntry) : World :=
  mkWorld (client s) (disk s) l (contacted s).

(** The status codes for which [handleReplay] writes no body. *)
Definition bodiless (code : Z) : bool :=
  ((code =? 204) || (code =? 304) || ((100 <=? code) && (code <? 200)))%Z.

(** A status code [WriteHeader] accepts. *)
Definition valid_code (code : Z) : bool := ((100 <=? code) && (code <=? 999))%Z.

(** The header names of a map are in canonical form. *)
Definition canonical_keys (h : Header) : Prop :=
  forall k vs, h !! k = Some vs -> CanonicalMIMEHeaderKey k = k.


(** The test under which [handleReplay] writes the stored body. *)
Definition writes_body (cached : storage.CachedResponse) : bool :=
  negb (bodiless (storage.StatusCode cached)) &&
  (0 <? length (storage.Body cached))%nat &&
  negb (String.eqb (string_of (storage.Body cached)) "null") &&
  negb (String.eqb (string_of (storage.Body cached)) "").

(** The state of a fresh response writer after the replay of a record,
    [hd] being the header map the loop over the stored headers has built:
    a status code outside 100..999 makes [WriteHeader] panic; a 1xx code
    other than 101 is sent as an informational response; any other code is
    committed with the headers, and the body follows if [writes_body]. *)
Definition replay_response (cached : storage.CachedResponse) (hd : Header) : response :=
  let code := storage.StatusCode cached in
  if negb (valid_code code) then
    mkResponse hd false 0 ∅ [] [] [CallWriteHeader code]
  else if ((code <=? 199) && negb (code =? 101))%Z then
    mkResponse hd false 0 ∅ [(code, hd)] [] [CallWriteHeader code]
  else if writes_body cached then
    mkResponse hd true code hd [] (storage.Body cached)
               [CallWriteHeader code; CallWrite (storage.Body cached)]
  else
    mkResponse hd true code hd [] [] [CallWriteHeader code].

(** [m] relates the world it starts in to the world it ends in by [P]. *)
Definition keeps {A} (P : relation World) (m : M A) : Prop :=
  forall s, P s (snd (m s)).

Definition same_contacted : relation World := fun s s' => contacted s' = contacted s.
Definition same_disk : relation World := fun s s' => disk s' = disk s.

(** A computation that only touches the response writer and the log. *)
Definition local_ {A} (m : M A) : Prop :=
  keeps same_contacted m /\ keeps same_disk m.

(** The header map [http.Error] leaves. *)
Definition error_headers (h : Header) : Header :=
  Header_Set (Header_Set (Header_Del h "Content-Length")
                         "Content-Type" "text/plain; charset=utf-8")
             "X-Content-Type-Options" "nosniff".

Definition miss_message (requestHash : string) : string :=
  "no cached response found for request (hash: " +:+ requestHash +:+ ")".

(** The entries of a stored header map that [handleReplay] puts on the
    response: not [Content-Length], and at least one value. *)
Definition replayed_entry (kv : string * list string) : Prop :=
  fst kv <> "Content-Length" /\ snd kv <> [].

#[global] Instance replayed_entry_dec kv : Decision (replayed_entry kv).
Proof. unfold replayed_entry. apply _. Defined.

(** A computation that neither reads nor writes the file system: it runs
    the same way on any file system and leaves it as it is. *)
Definition disk_blind {A} (m : M A) : Prop :=
  forall s fs', m (with_disk s fs') = (fst (m s), with_disk (snd (m s)) fs').

(** The request [ServeHTTP] passes on: its body is restored from the bytes
    that were read. *)
Definition restored (r : Request) (bodyBytes : bytes) : Request :=
  mkRequest (Method r) (URL_ r) (Header_ r) (bytes_NewReader bodyBytes) (Host r) (RemoteAddr r).

(** The line [handleRecord] logs about the save. *)
Definition save_line (res : result unit) (cached : storage.CachedResponse) (requestHash : string)
  : LogEntry :=
  match res with
  | Err err => LogSaveFailed err
  | Ok _ => LogRecordSaved (storage.Method cached) (storage.Path cached)
                           (storage.StatusCode cached) (hash16 requestHash)
  end.

(** The request the director of a recording handler hands to the
    transport. *)
Definition outgoing (backendURL : URL) (req : Request) : Request :=
  let req := originalDirector backendURL req in
  fst (stripConditionalHeaders
         (mkRequest (Method req) (URL_ req) (Header_ req) (Body req)
                    (URL_Host backendURL) (RemoteAddr req))).

(** A byte that [json.Marshal] writes as it is inside a string literal. *)
Definition plain (c : ascii) : Prop := json.htmlSafe c = true.

(** The bytes of the body writes among the calls of the proxy. *)
Definition writes (ops : list rwop) : list bytes :=
  flat_map (fun op => match op with OpWrite b => [b] | _ => [] end) ops.

(** Two runs end alike: in the same world, both with a value or both in a
    panic; [Q] relates the values. *)
Definition alike {A B} (Q : A -> B -> Prop) (x : outcome A * World) (y : outcome B * World) : Prop :=
  snd x = snd y /\
  match fst x, fst y with
  | Done a, Done b => Q a b
  | Panicked _, Panicked _ => True
  | _, _ => False
  end.

(** The characters [hex.EncodeToString] writes. *)
Definition lower_hex (c : ascii) : bool :=
  is_digit c || (("a" <=? c) && (c <=? "f"))%char.

(** The loop of [stripConditionalHeaders] over the names. *)
Definition strip_loop (names : list string) (st : Header * bool) : Header * bool :=
  fold_left (fun '(hd, stripped) header =>
               if negb (String.eqb (Header_Get hd header) "")
               then (Header_Del hd header, true)
               else (hd, stripped)) names st.



(** What an operation on the header map of a response writer makes of the
    map. *)
Definition apply_op (h : Header) (op : rwop) : Header :=
  match op with
  | OpHeaderSet k v => Header_Set h k v
  | OpHeaderAdd k v => Header_Add h k v
  | OpHeaderDel k => Header_Del h k
  | _ => h
  end.

Definition header_op (op : rwop) : bool :=
  match op with
  | OpHeaderSet _ _ | OpHeaderAdd _ _ | OpHeaderDel _ => true
  | _ => false
  end.

Definition write_op (op : rwop) : bool :=
  match op with OpWrite _ => true | _ => false end.

(** A status code that [WriteHeader] commits: from 200 to 999, or 101. *)
Definition final_code (code : Z) : bool :=
  valid_code code && negb ((code <=? 199) && negb (code =? 101))%Z.

(** The entries that [responseCapturer.WriteHeader] copies. *)
Definition snapshot (l : list (string * list string)) (rc : responseCapturer) : responseCapturer :=
  fold_left (fun rc kv => mkCapturer (statusCode rc) (<[fst kv := snd kv]> (headers rc)) (body_ rc))
            l rc.

End spec.

Module ReplayExamples.
Import http proxy Examples.

(** A record file by hand: status 200 and a body that decodes to the four
    bytes [null]. *)
Definition null_body_file : os.FS :=
  one_file (lit "{'status_code': 200, 'body': 'bnVsbA=='}").

Definition null_body_record : storage.CachedResponse :=
  storage.mkCachedResponse "" "" 200 ∅ (bytes_of "null").


(** A record file as record mode writes it. *)
Definition hello_file : os.FS :=
  one_file (lit "{'method': 'GET', 'path': '/a', 'status_code': 200, 'headers': {'Content-Length': ['5'], 'Set-Cookie': ['a=1', 'b=2'], 'X-Empty': []}, 'body': 'aGVsbG8='}").




Definition replay_of (fs : os.FS) : World :=
  @exec unit (@ServeHTTP literal_floats range_in_order (handler config.ModeReplay) (get "/a" "" ∅))
        (new_world fs).

End ReplayExamples.

Module RecordExamples.
Import http proxy Examples.



Definition recorder (transport : Request -> list rwop) : Handler :=
  @New (cfg config.ModeRecord) st backendURL transport.

Definition writable_store : os.FS := os.mkFS ∅ true.
Definition read_only_store : os.FS := os.mkFS ∅ false.

Definition record_of (transport : Request -> list rwop) (r : Request) (fs : os.FS) : World :=
  @exec unit (@ServeHTTP literal_floats range_in_order (recorder transport) r) (new_world fs).

End RecordExamples.

Module FingerprintExamples.
Import http proxy Examples RecordExamples.

(** A request with two [If-None-Match] lines, the first of them empty. *)
Definition etag1 : string := string_of (lit "'etag1'").

Definition conditional_request : Request :=
  get "/a" "" (<["If-None-Match" := [""; etag1]]> ∅).

(** A request with two [Cache-Control] lines. *)
Definition revalidating_request : Request :=
  get "/a" "" (<["Cache-Control" := ["public"; "no-cache"]]> ∅).

(** A request whose conditional headers all have a value. *)
Definition plain_conditional_request : Request :=
  get "/a" "" (<["If-None-Match" := [etag1]]> (<["Cache-Control" := ["no-cache"]]>
              (<["Accept" := ["*/*"]]> ∅))).

(** A record whose body is a JSON string. *)
Definition string_body_record : storage.CachedResponse :=
  storage.mkCachedResponse "GET" "/a" 200 ∅ (lit "'abcd'").

(** A record whose body is not JSON. *)
Definition binary_body_record : storage.CachedResponse :=
  storage.mkCachedResponse "GET" "/a" 200 ∅ (map byte_of [0; 255; 0; 1]%Z).

End FingerprintExamples.

Module ScenarioExamples.
Import http proxy spec Examples RecordExamples.

(** [POST /api/users] with the body [{"name":"John"}]. *)
Definition post_john : Request :=
  mkRequest "POST" (mkURL "" "" "/api/users" "") ∅ (bytes_NewReader (lit "{'name':'John'}"))
            "localhost:3000" "127.0.0.1:50000".

(** A backend that answers with status 200, a JSON content type and the
    body [{"name":"John"}]. *)
Definition answer_john (req : Request) : list rwop :=
  [OpHeaderAdd "Content-Type" "application/json"; OpWriteHeader 200;
   OpWrite (lit "{'name':'John'}")].

(** A backend that answers with bytes that are not UTF-8. *)
Definition raw_bytes : bytes := map byte_of [0; 255; 254; 0; 128]%Z.

Definition answer_raw (req : Request) : list rwop :=
  [OpHeaderAdd "Content-Type" "application/octet-stream"; OpWriteHeader 200;
   OpWrite (firstn 2 raw_bytes); OpWrite (skipn 2 raw_bytes)].

(** The world after [r] was served in record mode on an empty store, and
    the world after it was then served in replay mode on the store left. *)
Definition recorded (transport : Request -> list rwop) (r : Request) : World :=
  record_of transport r writable_store.

Definition replayed (transport : Request -> list rwop) (r : Request) : World :=
  @exec unit (@ServeHTTP literal_floats range_in_order (handler config.ModeReplay) r)
        (new_world (disk (recorded transport r))).

End ScenarioExamples.

Module RefusalExamples.
Import http proxy Examples.

(** A request whose body fails to be read. *)
Definition broken_request : Request :=
  mkRequest "POST" (mkURL "" "" "/a" "") ∅ (mkReader (bytes_of "par") (Some "unexpected EOF"))
            "localhost:3000" "127.0.0.1:50000".

(** A record file that is not JSON. *)
Definition garbled_file : os.FS := one_file (bytes_of "<html>").

End RefusalExamples.

(* ===================================================================== *)
(** * JSON texts as trees *)
(* ===================================================================== *)

Module syntax.
Import json.

(** A JSON text as a tree: a scalar (null, true, false or a number) with
    its text and its value, a string literal with the bytes between its
    quotes, an array, an object with the bytes between the quotes of each
    key. *)
Inductive tree :=
| TScalar (text : bytes) (v : value)
| TString (raw : bytes)
| TArray (l : list tree)
| TObject (l : list (bytes * tree)).

(** The two layouts the encoder writes: compact ([None]), and indented by
    two spaces a level ([Some d] at depth [d]). *)
Definition nl (ind : option nat) : bytes :=
  match ind with Some d => newline d | None => [] end.
Definition sp (ind : option nat) : bytes :=
  match ind with Some _ => [" "%char] | None => [] end.
Definition deeper (ind : option nat) : option nat := option_map S ind.
Definition quoted (raw : bytes) : bytes := dquote :: raw ++ [dquote].

Fixpoint print (ind : option nat) (t : tree) : bytes :=
  match t with
  | TScalar text _ => text
  | TString raw => quoted raw
  | TArray [] => bytes_of "[]"
  | TArray l =>
      bytes_of "[" ++ nl (deeper ind) ++
      join (bytes_of "," ++ nl (deeper ind)) (map (print (deeper ind)) l) ++
      nl ind ++ bytes_of "]"
  | TObject [] => bytes_of "{}"
  | TObject l =>
      bytes_of "{" ++ nl (deeper ind) ++
      join (bytes_of "," ++ nl (deeper ind))
           (map (fun kv => quoted (fst kv) ++ bytes_of ":" ++ sp ind ++ print (deeper ind) (snd kv))
                l) ++
      nl ind ++ bytes_of "}"
  end.

(** The value the parser makes of the printed tree. *)
Fixpoint value_of (ind : option nat) (t : tree) : value :=
  match t with
  | TScalar _ v => v
  | TString raw => JString (unquote 0 raw)
  | TArray l => JArray (map (value_of (deeper ind)) l)
  | TObject l =>
      JObject (map (fun kv => (unquote 0 (fst kv), print (deeper ind) (snd kv),
                               value_of (deeper ind) (snd kv))) l)
  end.

(** The bytes between the quotes of a string literal: ordinary bytes,
    two-byte escapes, and [\u] with four hexadecimal digits. *)
Inductive literal : bytes -> Prop :=
| literal_nil : literal []
| literal_byte c e :
    (32 <=? byte_val c)%Z = true -> c <> dquote -> c <> backslash ->
    literal e -> literal (c :: e)
| literal_escape c e :
    existsb (Ascii.eqb c) (dquote :: bytes_of "bfnrt\/") = true ->
    literal e -> literal (backslash :: c :: e)
| literal_unicode a b c d e :
    is_hex a = true -> is_hex b = true -> is_hex c = true -> is_hex d = true ->
    literal e -> literal (backslash :: "u"%char :: a :: b :: c :: d :: e).

(** What may follow a value in a text. *)
Definition delimited (rest : bytes) : Prop :=
  match rest with
  | [] => True
  | c :: _ => is_space c = true \/ c = ","%char \/ c = "]"%char \/ c = "}"%char
  end.

Definition numchar (c : ascii) : bool :=
  http.is_digit c || existsb (Ascii.eqb c) (bytes_of "+-.eE").

(** A number literal. *)
Definition number (text : bytes) : Prop :=
  (exists c r, text = c :: r /\ (c = "-"%char \/ http.is_digit c = true)) /\
  forallb numchar text = true /\
  forall rest, delimited rest -> scan_number (text ++ rest) = Some (text, rest).

Definition scalar (text : bytes) (v : value) : Prop :=
  (text = bytes_of "null" /\ v = JNull) \/
  (text = bytes_of "true" /\ v = JBool true) \/
  (text = bytes_of "false" /\ v = JBool false) \/
  (number text /\ v = JNumber text).

(** A tree whose scalars and literals are well formed. *)
Fixpoint wf (t : tree) : Prop :=
  match t with
  | TScalar text v => scalar text v
  | TString raw => literal raw
  | TArray l => fold_right (fun x acc => wf x /\ acc) True l
  | TObject l => fold_right (fun kv acc => literal (fst kv) /\ wf (snd kv) /\ acc) True l
  end.

(** The number of arrays and objects around the innermost value. *)
Fixpoint height (t : tree) : N :=
  match t with
  | TArray l => 1 + fold_right (fun x acc => N.max (height x) acc) 0%N l
  | TObject l => 1 + fold_right (fun kv acc => N.max (height (snd kv)) acc) 0%N l
  | _ => 0
  end.

(** A number of nested calls that is enough for the parser. *)
Fixpoint size (t : tree) : nat :=
  match t with
  | TArray l => S (fold_right (fun x acc => S (size x + acc)) 0%nat l)
  | TObject l => S (fold_right (fun kv acc => S (size (snd kv) + acc)) 0%nat l)
  | _ => 1
  end.

(** The first byte of a printed tree opens a value. *)
Definition opener (c : ascii) : Prop :=
  is_space c = false /\ c <> "]"%char /\ c <> "}"%char /\ c <> ","%char /\ c <> ":"%char.

(** What the parser makes of a printed tree that is followed by [rest]. *)
Definition parses (t : tree) : Prop :=
  forall (ind : option nat) (fuel : nat) (depth : N) (rest : bytes),
    size t <= fuel -> (depth + height t <= maxNestingDepth)%N -> delimited rest ->
    parse_value fuel depth (print ind t ++ rest) = Some (value_of ind t, rest).

(** A byte of a scalar: the indenter copies it and stays outside string
    literals. *)
Definition scalar_char (c : ascii) : bool :=
  negb (is_space c) && negb (existsb (Ascii.eqb c) (dquote :: bytes_of "{}[],:")).

(** What the indenter makes of a compact tree that is followed by [rest];
    [need] tells whether a bracket was just opened. *)
Definition indents (t : tree) : Prop :=
  forall (need : bool) (d : nat) (rest : bytes),
    indent_loop Outside need d (print None t ++ rest)
    = (if need then newline (S d) else []) ++
      print (Some (if need then S d else d)) t ++
      indent_loop Outside false (if need then S d else d) rest.

(** A byte outside ASCII. *)
Definition high (c : ascii) : bool := (128 <=? byte_val c)%Z.

End syntax.

Module spec_utf.
Import json.

(** Whether [p] consists entirely of valid UTF-8-encoded runes; [skip]
    counts the bytes of a rune that was decoded already. *)
Fixpoint valid_loop (skip : nat) (p : bytes) : bool :=
  match p with
  | [] => true
  | c :: r =>
      match skip with
      | S k => valid_loop k r
      | O =>
          let '(rr, size) := utf8.DecodeRune p in
          if (rr =? utf8.RuneError)%Z && (size =? 1)%nat then false
          else valid_loop (size - 1) r
      end
  end.

Definition valid_utf8 (s : string) : bool := valid_loop 0 (bytes_of s).

End spec_utf.

Module record_syntax.
Import json syntax spec_utf.

(** The tree of the text [json.Marshal] writes for a string, for a slice
    of strings, for a header map, and for a [CachedResponse] whose body is
    written as [body]. *)
Definition string_tree (s : string) : tree := TString (encode_chars 0 (bytes_of s)).

Definition strings_tree (l : list string) : tree := TArray (map string_tree l).

Definition headers_tree (h : http.Header) : tree :=
  TObject (map (fun kv => (encode_chars 0 (bytes_of (fst kv)), strings_tree (snd kv)))
               (storage.sorted_entries h)).

Definition int_tree (z : Z) : tree :=
  TScalar (storage.encode_int z) (JNumber (storage.encode_int z)).

Definition record_tree (c : storage.CachedResponse) (body : tree) : tree :=
  TObject [(bytes_of "method", string_tree (storage.Method c));
           (bytes_of "path", string_tree (storage.Path c));
           (bytes_of "status_code", int_tree (storage.StatusCode c));
           (bytes_of "headers", headers_tree (storage.Headers c));
           (bytes_of "body", body)].

(** The strings of a record are valid UTF-8. *)
Definition utf8_record (c : storage.CachedResponse) : Prop :=
  valid_utf8 (storage.Method c) = true /\ valid_utf8 (storage.Path c) = true /\
  forall k vs, storage.Headers c !! k = Some vs ->
               valid_utf8 k = true /\ Forall (fun v => valid_utf8 v = true) vs.

(** The values of Go's [int] on a 64-bit machine. *)
Definition int64 (z : Z) : Prop := (- 2 ^ 63 <= z < 2 ^ 63)%Z.

End record_syntax.

Module any_syntax.
Import json syntax spec_utf record_syntax.

(** The strings of a parsed text are valid UTF-8. *)
Fixpoint value_ok (v : value) : Prop :=
  match v with
  | JString s => valid_loop 0 s = true
  | JArray l => fold_right (fun x acc => value_ok x /\ acc) True l
  | JObject l =>
      fold_right (fun m acc => valid_loop 0 (fst (fst m)) = true /\ value_ok (snd m) /\ acc) True l
  | _ => True
  end.

(** The number of arrays and objects around the innermost value. *)
Fixpoint value_depth (v : value) : N :=
  match v with
  | JArray l => 1 + fold_right (fun x acc => N.max (value_depth x) acc) 0%N l
  | JObject l => 1 + fold_right (fun m acc => N.max (value_depth (snd m)) acc) 0%N l
  | _ => 0
  end.

(** Keys in strictly ascending order. *)
Fixpoint ascending (l : list string) : Prop :=
  match l with
  | [] => True
  | k :: r => Forall (fun k' => String.compare k k' = Lt) r /\ ascending r
  end.

(** The bytes between the quotes of a string literal that [Compact] copies
    as they are: no [<], [>] or [&], and no U+2028 or U+2029. *)
Definition special (c : ascii) : bool :=
  existsb (Ascii.eqb c) (bytes_of "<>&") || (byte_val c =? 226)%Z.

Inductive tidy : bytes -> Prop :=
| tidy_nil : tidy []
| tidy_byte c e :
    special c = false -> c <> dquote -> c <> backslash -> tidy e -> tidy (c :: e)
| tidy_escape c e :
    special c = false -> tidy e -> tidy (backslash :: c :: e)
| tidy_rune c1 c2 e :
    negb ((byte_val c1 =? 128) && ((byte_val c2 =? 168) || (byte_val c2 =? 169)))%Z = true ->
    tidy (c1 :: c2 :: e) -> tidy (byte_of 226 :: c1 :: c2 :: e).

(** A byte outside string literals that [Compact] copies. *)
Definition outside_char (c : ascii) : bool :=
  negb (is_space c) && negb (special c) && negb (Ascii.eqb c dquote).

(** A tree whose text [Compact] leaves as it is. *)
Fixpoint tidy_tree (t : tree) : Prop :=
  match t with
  | TScalar text _ => forallb outside_char text = true
  | TString raw => tidy raw
  | TArray l => fold_right (fun x acc => tidy_tree x /\ acc) True l
  | TObject l => fold_right (fun kv acc => tidy (fst kv) /\ tidy_tree (snd kv) /\ acc) True l
  end.


Section WithFloat64.
Context `{F : Float64}.

(** The tree of the text [json.Marshal] writes for the value of an
    [interface{}]. *)
Fixpoint tree_of (a : any) : tree :=
  match a with
  | ANil => TScalar (bytes_of "null") JNull
  | ABool true => TScalar (bytes_of "true") (JBool true)
  | ABool false => TScalar (bytes_of "false") (JBool false)
  | AFloat f => TScalar (FormatFloat f) (JNumber (FormatFloat f))
  | AString s => string_tree s
  | ASlice l => TArray (map tree_of l)
  | AMap m => TObject (map (fun kv => (encode_chars 0 (bytes_of (fst kv)), tree_of (snd kv))) m)
  end.

(** A value whose text [UnmarshalJSON] keeps as the body: not [nil],
    whose text it turns into the empty body, and not a string, which it
    decodes. *)
Definition kept (a : any) : bool :=
  match a with
  | ANil | AString _ => false
  | _ => true
  end.

(** The number of slices and maps around the innermost value. *)
Fixpoint nesting (a : any) : N :=
  match a with
  | ASlice l => 1 + fold_right (fun x acc => N.max (nesting x) acc) 0%N l
  | AMap m => 1 + fold_right (fun kv acc => N.max (nesting (snd kv)) acc) 0%N m
  | _ => 0
  end.

(** A value as [json.Unmarshal] makes it: the strings are valid UTF-8, and
    the keys of a map are in ascending order. *)
Fixpoint any_ok (a : any) : Prop :=
  match a with
  | AString s => valid_utf8 s = true
  | ASlice l => fold_right (fun x acc => any_ok x /\ acc) True l
  | AMap m =>
      ascending (map fst m) /\
      fold_right (fun kv acc => valid_utf8 (fst kv) = true /\ any_ok (snd kv) /\ acc) True m
  | _ => True
  end.

(** [strconv.FormatFloat] writes a finite [float64] as a JSON number, and
    [strconv.ParseFloat] reads that number back as the same [float64]. *)
Definition formats_numbers : Prop := forall f : float64, number (FormatFloat f).
Definition parses_back : Prop := forall f : float64, ParseFloat (FormatFloat f) = Some f.

End WithFloat64.

End any_syntax.

Module JsonExamples.
Import http proxy spec Examples RecordExamples ScenarioExamples.

(** Numbers that are integers: an instance of [Float64] whose floats are
    the integers, read from a literal without fraction or exponent and
    written in decimal. *)
Definition parse_integer (l : bytes) : option Z :=
  let '(neg, d) := match l with
                   | c :: r => if Ascii.eqb c "-" then (true, r) else (false, l)
                   | [] => (false, l)
                   end in
  if forallb http.is_digit d && negb (length d =? 0)%nat then
    let n := fold_left (fun acc c => acc * 10 + (byte_val c - 48))%Z d 0%Z in
    Some (if neg then (- n)%Z else n)
  else None.

Definition integer_floats : json.Float64 :=
  {| json.float64 := Z; json.ParseFloat := parse_integer; json.FormatFloat := storage.encode_int |}.

(** A record whose body is a JSON object, and the value of that body. *)
Definition json_body_record : storage.CachedResponse :=
  storage.mkCachedResponse "GET" "/a" 200 ∅ (lit "{'b': [1, true], 'a': 'x'}").

Definition json_body_value : @json.any integer_floats :=
  @json.AMap integer_floats
    [("a", @json.AString integer_floats "x");
     ("b", @json.ASlice integer_floats [@json.AFloat integer_floats 1%Z;
                                        @json.ABool integer_floats true])].

(** A backend that answers with that body in two writes. *)
Definition answer_json (req : Request) : list rwop :=
  [OpHeaderAdd "Content-Type" "application/json"; OpWriteHeader 200;
   OpWrite (lit "{'b': [1, "); OpWrite (lit "true], 'a': 'x'}")].

Definition recorded_json : World :=
  @exec unit (@ServeHTTP integer_floats range_in_order (recorder answer_json) post_john)
        (new_world writable_store).

Definition replayed_json : World :=
  @exec unit (@ServeHTTP integer_floats range_in_order (handler config.ModeReplay) post_john)
        (new_world (disk recorded_json)).

End JsonExamples.

Module ConfigExamples.

(** An instance of [Unicode] for the examples: letters of ASCII in lower
    case, and white space of ASCII removed at both ends. *)
Definition lower (c : ascii) : ascii :=
  if (("A" <=? c) && (c <=? "Z"))%char then byte_of (byte_val c + 32) else c.

Fixpoint trim_left (s : bytes) : bytes :=
  match s with
  | c :: r => if json.is_space c then trim_left r else s
  | [] => []
  end.

Definition ascii_strings : strings.Unicode :=
  {| strings.ToLower := fun s => string_of (map lower (bytes_of s));
     strings.TrimSpace := fun s => string_of (rev (trim_left (rev (trim_left (bytes_of s))))) |}.

(** An environment with [MODE=Replay] and [PORT=8080], and one with a
    [PORT] and a [BACKEND_URL] that are not used. *)
Definition replay_env (name : string) : string :=
  if String.eqb name "MODE" then "Replay"
  else if String.eqb name "PORT" then "8080"
  else "".

Definition noisy_env (name : string) : string :=
  if String.eqb name "MODE" then "Replay"
  else if String.eqb name "PORT" then "eighty"
  else if String.eqb name "BACKEND_URL" then "ftp://elsewhere"
  else "".

Definition cli_options : option config.LoadOptions :=
  Some (config.mkLoadOptions (Some 9000%Z) (Some " api.example.com ")).

End ConfigExamples.

(* ===================================================================== *)
(** * Theorems *)
(* ===================================================================== *)
(* ===================================================================== *)
(** * Test vectors *)
(* ===================================================================== *)

Example sha256_K_ends :
  sha256.at_ sha256.K 0 = 0x428a2f98%Z /\ sha256.at_ sha256.K 63 = 0xc67178f2%Z /\
  sha256.at_ sha256.init 0 = 0x6a09e667%Z /\ length sha256.K = 64.
Proof. vm_compute. auto. Qed.

Example sha256_abc :
  hex.EncodeToString (sha256.Sum256 (bytes_of "abc")) =
  "ba7816bf8f01cfea414140de5dae2223b00361a396177a9cb410ff61f20015ad".
Proof. vm_compute. reflexivity. Qed.

Example sha256_empty :
  hex.EncodeToString (sha256.Sum256 []) =
  "e3b0c44298fc1c149afbf4c8996fb92427ae41e4649b934ca495991b7852b855".
Proof. vm_compute. reflexivity. Qed.

(* ===================================================================== *)
(** * Running computations *)
(* ===================================================================== *)

Section Running.
Import http proxy spec.

Lemma run_bind {A B} (m : M A) (f : A -> M B) (s : World) :
  (m ≫= f) s = match m s with
               | (Done a, s') => f a s'
               | (Panicked msg, s') => (Panicked msg, s')
               end.
Proof. reflexivity. Qed.

Lemma run_bind_done {A B} (m : M A) (f : A -> M B) (s s' : World) a :
  m s = (Done a, s') -> (m ≫= f) s = f a s'.
Proof. intros E. rewrite run_bind, E. reflexivity. Qed.

Lemma run_bind_panic {A B} (m : M A) (f : A -> M B) (s s' : World) msg :
  m s = (Panicked msg, s') -> (m ≫= f) s = (Panicked msg, s').
Proof. intros E. rewrite run_bind, E. reflexivity. Qed.

(** The loop of [handleReplay] only edits the header map of the writer. *)
Lemma add_loop_run key (rest : list string) : forall (m : M unit) s s1,
  m s = (Done tt, s1) ->
  fold_left (fun (m : M unit) v => m;; Header_update tt (fun h => Header_Add h key v)) rest m s
  = (Done tt, with_client s1 (set_handlerHeader (client s1)
       (fold_left (fun h v => Header_Add h key v) rest (handlerHeader (client s1))))).
Proof.
  induction rest as [|v rest IH]; intros m s s1 E; simpl.
  - rewrite E. destruct s1 as [[] ? ? ?]. reflexivity.
  - erewrite IH; [|erewrite run_bind_done by exact E; reflexivity].
    destruct s1 as [[] ? ? ?]. reflexivity.
Qed.

Lemma set_headers_step (kv : string * list string) (s : World) :
  (let '(key, values) := kv in
   if String.eqb key "Content-Length" then mret tt
   else match values with
        | v0 :: rest =>
            Header_update tt (fun h => Header_Set h key v0);;
            fold_left (fun (m : M unit) v =>
                         m;; Header_update tt (fun h => Header_Add h key v))
                      rest (mret tt)
        | [] => mret tt
        end) s
  = (Done tt, with_client s (set_handlerHeader (client s)
                               (apply_entry (handlerHeader (client s)) kv))).
Proof.
  destruct kv as [key values]. unfold apply_entry.
  destruct (String.eqb key "Content-Length").
  { destruct s as [[] ? ? ?]. reflexivity. }
  destruct values as [|v0 rest].
  { destruct s as [[] ? ? ?]. reflexivity. }
  erewrite run_bind_done by reflexivity.
  erewrite add_loop_run by reflexivity.
  destruct s as [[] ? ? ?]. reflexivity.
Qed.

Lemma set_headers_loop (l : list (string * list string)) : forall (m : M unit) s s1,
  m s = (Done tt, s1) ->
  fold_left (fun (m : M unit) kv =>
               m;;
               let '(key, values) := kv in
               if String.eqb key "Content-Length" then mret tt
               else match values with
                    | v0 :: rest =>
                        Header_update tt (fun h => Header_Set h key v0);;
                        fold_left (fun (m : M unit) v =>
                                     m;; Header_update tt (fun h => Header_Add h key v))
                                  rest (mret tt)
                    | [] => mret tt
                    end) l m s
  = (Done tt, with_client s1 (set_handlerHeader (client s1)
                                (apply_entries l (handlerHeader (client s1))))).
Proof.
  induction l as [|kv l IH]; intros m s s1 E; simpl.
  - rewrite E. destruct s1 as [[] ? ? ?]. reflexivity.
  - erewrite IH.
    2:{ erewrite run_bind_done by exact E. apply set_headers_step. }
    destruct s1 as [[] ? ? ?]. reflexivity.
Qed.

Lemma set_headers_run `{MapRange} (hd : Header) (s : World) :
  set_headers hd s
  = (Done tt, with_client s (set_handlerHeader (client s)
                               (apply_entries (range hd) (handlerHeader (client s))))).
Proof. unfold set_headers. apply set_headers_loop. reflexivity. Qed.

End Running.

Section Replay.
Import http proxy spec.
Context `{F : json.Float64} `{R : MapRange}.

Lemma Load_Exists (st : storage.Storage) fs hash cached :
  storage.Load st fs hash = Ok cached -> storage.Exists st fs hash = true.
Proof.
  unfold storage.Load, storage.Exists, os.ReadFile, os.Stat.
  destruct (os.files fs !! storage.getFilename st hash); [reflexivity|discriminate].
Qed.

(** [WriteHeader] on a writer that has not committed a status. *)
Lemma WriteHeader_run (code : Z) (s : World) :
  wroteHeader (client s) = false ->
  response_WriteHeader code s =
    let w := record_call (client s) (CallWriteHeader code) in
    if ((code <? 100) || (999 <? code))%Z
    then (Panicked "invalid WriteHeader code", with_client s w)
    else if ((100 <=? code) && (code <=? 199) && negb (code =? 101))%Z
    then (Done tt, with_client s
            (mkResponse (handlerHeader w) false (status w) (sentHeader w)
                        (informational w ++ [(code, handlerHeader w)]) (body w) (calls w)))
    else (Done tt, with_client s
            (mkResponse (handlerHeader w) true code (handlerHeader w)
                        (informational w) (body w) (calls w))).
Proof.
  intros Hw. destruct s as [[] ? ? ?]; simpl in Hw; subst.
  unfold response_WriteHeader, commit_header. cbn.
  destruct ((code <? 100) || (999 <? code))%Z; [reflexivity|].
  destruct ((100 <=? code) && (code <=? 199) && negb (code =? 101))%Z; reflexivity.
Qed.

(** [Write] of a non-empty body on a writer that has committed a status
    which allows one. *)
Lemma Write_run (b : bytes) (s : World) :
  wroteHeader (client s) = true ->
  bodyAllowedForStatus (status (client s)) = true ->
  response_Write b s =
    (Done (Ok (length b)),
     with_client s (mkResponse (handlerHeader (client s)) true (status (client s))
                               (sentHeader (client s)) (informational (client s))
                               (body (client s) ++ b)
                               (calls (client s) ++ [CallWrite b]))).
Proof.
  intros Hw Hb. destruct s as [[] ? ? ?]; simpl in *; subst.
  unfold response_Write, commit_header, mbind, M_bind, mret, M_ret, get_client, put_client.
  cbn -[bodyAllowedForStatus]. rewrite Hb.
  destruct b; cbn; [rewrite app_nil_r|]; reflexivity.
Qed.

(** [handleReplay] when the record is there and decodes. *)
Lemma handleReplay_hit (h : Handler) (r : Request) (requestHash : string) (s : World) cached :
  storage.Load (storage_ h) (disk s) requestHash = Ok cached ->
  handleReplay h r requestHash s =
    (logf (LogReplayServing (storage.Method cached) (storage.Path cached)
                            (storage.StatusCode cached) (hash16 requestHash));;
     set_headers (storage.Headers cached);;
     WriteHeader tt (storage.StatusCode cached);;
     (if negb (bodiless (storage.StatusCode cached)) &&
         (0 <? length (storage.Body cached))%nat &&
         negb (String.eqb (string_of (storage.Body cached)) "null") &&
         negb (String.eqb (string_of (storage.Body cached)) "")
      then
        '(_, res) ← Write tt (storage.Body cached);
        match res with
        | Err err => logf (LogWriteBodyFailed err)
        | Ok _ => mret tt
        end
      else mret tt);;
     logf LogReplayCompleted) s.
Proof.
  intros HL. unfold handleReplay. rewrite run_bind. cbn [get_disk].
  rewrite (Load_Exists _ _ _ _ HL), HL. reflexivity.
Qed.

Lemma ServeHTTP_replay (h : Handler) (r : Request) requestHash bodyBytes :
  config.Mode_ (config_ h) = config.ModeReplay ->
  requestHash_of r = Ok (requestHash, bodyBytes) ->
  ServeHTTP h r =
    (logf (LogRequest (Method r) (Path (URL_ r)) (RemoteAddr r) (hash16 requestHash)
                      config.ModeReplay);;
     handleReplay h r requestHash).
Proof.
  unfold requestHash_of, ServeHTTP. intros Hm Hh.
  destruct (io_ReadAll (Body r)) as [b|e]; [|discriminate]. cbn [Method URL_ RemoteAddr].
  destruct (hash.Generate _ _ _) as [x|e]; [|discriminate].
  injection Hh as -> ->. rewrite Hm. reflexivity.
Qed.

Lemma bodiless_not_allowed code :
  bodiless code = false -> bodyAllowedForStatus code = true.
Proof.
  unfold bodiless, bodyAllowedForStatus. intros Hb.
  destruct (code =? 204)%Z eqn:E1; [discriminate|].
  destruct (code =? 304)%Z eqn:E2; [discriminate|].
  simpl in Hb.
  destruct (100 <=? code)%Z eqn:E3; destruct (code <=? 199)%Z eqn:E4; try reflexivity.
  simpl in Hb. lia.
Qed.

(** What [ServeHTTP] makes of a fresh response writer when the mode is
    replay and the record of the request is there and decodes. *)
Lemma replay_hit_client (h : Handler) (r : Request) (fs : os.FS) requestHash bodyBytes cached :
  config.Mode_ (config_ h) = config.ModeReplay ->
  requestHash_of r = Ok (requestHash, bodyBytes) ->
  storage.Load (storage_ h) fs requestHash = Ok cached ->
  client (exec (ServeHTTP h r) (new_world fs)) =
  replay_response cached (apply_entries (range (storage.Headers cached)) ∅).
Proof.
  intros Hm Hh HL. unfold exec.
  rewrite (ServeHTTP_replay _ _ _ _ Hm Hh).
  erewrite run_bind_done by reflexivity.
  rewrite (handleReplay_hit _ _ _ _ cached) by exact HL.
  erewrite run_bind_done by reflexivity.
  erewrite run_bind_done by apply set_headers_run.
  rewrite run_bind. change (WriteHeader tt ?c) with (response_WriteHeader c).
  rewrite WriteHeader_run by reflexivity. cbv zeta.
  unfold replay_response, valid_code.
  fold (writes_body cached).
  set (code := storage.StatusCode cached).
  destruct (code <? 100)%Z eqn:E1.
  { replace (100 <=? code)%Z with false by lia. reflexivity. }
  destruct (999 <? code)%Z eqn:E2.
  { replace (code <=? 999)%Z with false by lia. rewrite andb_false_r. reflexivity. }
  replace (100 <=? code)%Z with true by lia. replace (code <=? 999)%Z with true by lia.
  cbn [orb andb negb].
  destruct ((code <=? 199) && negb (code =? 101))%Z eqn:E3.
  { assert (Hb : bodiless code = true).
    { unfold bodiless. replace (100 <=? code)%Z with true by lia.
      replace (code <? 200)%Z with true by lia. cbn. apply orb_true_r. }
    unfold writes_body. fold code. rewrite Hb. reflexivity. }
  destruct (writes_body cached) eqn:Hwb; [|reflexivity].
  assert (Hb : bodyAllowedForStatus code = true).
  { apply bodiless_not_allowed. unfold writes_body in Hwb. fold code in Hwb.
    destruct (bodiless code); [discriminate|reflexivity]. }
  rewrite run_bind. cbn [Write server_writer]. rewrite run_bind, run_bind.
  rewrite Write_run by (try reflexivity; exact Hb).
  reflexivity.
Qed.

End Replay.

(* ===================================================================== *)
(** * What a computation leaves alone *)
(* ===================================================================== *)

Section Keeps.
Import http proxy spec.


Context (P : relation World) `{!PreOrder P}.

Lemma keeps_ret {A} (a : A) : keeps P (mret a).
Proof. intros s. reflexivity. Qed.

Lemma keeps_bind {A B} (m : M A) (f : A -> M B) :
  keeps P m -> (forall a, keeps P (f a)) -> keeps P (m ≫= f).
Proof.
  intros Hm Hf s. rewrite run_bind. specialize (Hm s).
  destruct (m s) as [[a|msg] s']; simpl in *; [|exact Hm].
  etransitivity; [exact Hm|apply Hf].
Qed.

Lemma keeps_panic {A} msg : keeps P (@panic A msg).
Proof. intros s. reflexivity. Qed.

Lemma keeps_fold_left {X} (g : X -> M unit) (l : list X) : forall m : M unit,
  keeps P m -> (forall x, keeps P (g x)) ->
  keeps P (fold_left (fun (m : M unit) x => m;; g x) l m).
Proof.
  induction l as [|x l IH]; intros m Hm Hg; simpl; [exact Hm|].
  apply IH; [|exact Hg]. apply keeps_bind; [exact Hm|intros _; apply Hg].
Qed.

End Keeps.

(** The relations kept: the requests sent to the backend, the file system,
    the response writer. *)
Section Kept.
Import http proxy spec.


#[local] Instance same_contacted_preorder : PreOrder same_contacted.
Proof. split; unfold same_contacted; [intros x|intros x y z]; congruence. Qed.

#[local] Instance same_disk_preorder : PreOrder same_disk.
Proof. split; unfold same_disk; [intros x|intros x y z]; congruence. Qed.


Lemma local_ret {A} (a : A) : local_ (mret a).
Proof. split; apply keeps_ret; apply _. Qed.

Lemma local_bind {A B} (m : M A) (f : A -> M B) :
  local_ m -> (forall a, local_ (f a)) -> local_ (m ≫= f).
Proof.
  intros [? ?] Hf. split; (apply keeps_bind; [apply _|assumption|intros a; apply Hf]).
Qed.

Lemma local_prim {A} (m : M A) :
  (forall s, contacted (snd (m s)) = contacted s /\ disk (snd (m s)) = disk s) -> local_ m.
Proof. intros Hs. split; intros s; apply Hs. Qed.

Lemma local_logf e : local_ (logf e).
Proof. apply local_prim. intros s. split; reflexivity. Qed.

Lemma local_get_client : local_ get_client.
Proof. apply local_prim. intros s. split; reflexivity. Qed.

Lemma local_put_client w : local_ (put_client w).
Proof. apply local_prim. intros s. split; reflexivity. Qed.

Lemma local_get_disk : local_ get_disk.
Proof. apply local_prim. intros s. split; reflexivity. Qed.

Lemma local_panic {A} msg : local_ (@panic A msg).
Proof. apply local_prim. intros s. split; reflexivity. Qed.

Lemma local_if {A} (b : bool) (m1 m2 : M A) : local_ m1 -> local_ m2 -> local_ (if b then m1 else m2).
Proof. destruct b; auto. Qed.

Create HintDb local_db.
#[local] Hint Resolve local_ret local_logf local_get_client local_put_client local_get_disk
  local_panic : local_db.

Ltac local_step :=
  first [ apply local_bind; [|intros ?]
        | apply local_if
        | solve [auto with local_db]
        | match goal with |- local_ (match ?x with _ => _ end) => destruct x end ].

Lemma local_commit_header code : local_ (commit_header code).
Proof. unfold commit_header. repeat local_step. Qed.

Lemma local_WriteHeader code : local_ (response_WriteHeader code).
Proof. unfold response_WriteHeader. repeat local_step. Qed.

Lemma local_Write b : local_ (response_Write b).
Proof. unfold response_Write. repeat local_step. Qed.

Lemma local_Header_update f : local_ (response_Header_update f).
Proof. unfold response_Header_update. repeat local_step. Qed.

#[local] Hint Resolve local_WriteHeader local_Write local_Header_update : local_db.

Lemma local_http_Error error code : local_ (http_Error tt error code).
Proof. unfold http_Error. cbn [Header_update WriteHeader Write server_writer]. repeat local_step. Qed.

Lemma local_set_headers `{MapRange} hd : local_ (set_headers hd).
Proof.
  apply local_prim. intros s. rewrite set_headers_run. split; reflexivity.
Qed.

#[local] Hint Resolve local_http_Error local_set_headers : local_db.

Lemma local_handleReplay `{MapRange} h r requestHash : local_ (handleReplay h r requestHash).
Proof.
  unfold handleReplay. cbn [WriteHeader Write server_writer]. repeat local_step.
Qed.

(** In replay mode [ServeHTTP] sends nothing to the backend and leaves the
    file system as it is, whatever the request. *)
Lemma local_ServeHTTP_replay `{json.Float64} `{MapRange} (h : Handler) (r : Request) :
  config.Mode_ (config_ h) = config.ModeReplay -> local_ (ServeHTTP h r).
Proof.
  intros Hm. unfold ServeHTTP. rewrite Hm. cbn [String.eqb Ascii.eqb Bool.eqb config.ModeReplay].
  destruct (io_ReadAll (Body r)); [|repeat local_step].
  destruct (hash.Generate _ _ _); [|repeat local_step].
  apply local_bind; [auto with local_db|intros _].
  change (String.eqb config.ModeReplay config.ModeReplay) with true. cbv iota.
  apply local_handleReplay.
Qed.

End Kept.

Section ReplayMiss.
Import http proxy spec.
Context `{F : json.Float64} `{R : MapRange}.


(** [http.Error] with status 404 on a writer that has committed nothing. *)
Lemma http_Error_404_run (error : string) (s : World) :
  wroteHeader (client s) = false ->
  let msg := bytes_of error ++ ["010"%char] in
  let hd := error_headers (handlerHeader (client s)) in
  http_Error tt error StatusNotFound s =
    (Done tt,
     with_client s (mkResponse hd true StatusNotFound hd (informational (client s))
                               (body (client s) ++ msg)
                               (calls (client s) ++ [CallWriteHeader StatusNotFound; CallWrite msg]))).
Proof.
  intros Hw. cbv zeta. unfold http_Error.
  cbn [Header_update WriteHeader Write server_writer].
  do 3 (erewrite run_bind_done by reflexivity).
  erewrite run_bind_done.
  2:{ rewrite WriteHeader_run by (destruct s as [[] ? ? ?]; exact Hw). reflexivity. }
  erewrite run_bind_done.
  2:{ erewrite run_bind_done by (apply Write_run; reflexivity). reflexivity. }
  destruct s as [[] ? ? ?]. cbn. rewrite <- app_assoc. reflexivity.
Qed.


Lemma replay_miss_response (h : Handler) (r : Request) (fs : os.FS) requestHash bodyBytes :
  config.Mode_ (config_ h) = config.ModeReplay ->
  requestHash_of r = Ok (requestHash, bodyBytes) ->
  storage.Exists (storage_ h) fs requestHash = false ->
  let w := client (exec (ServeHTTP h r) (new_world fs)) in
  status w = StatusNotFound /\ wroteHeader w = true /\
  sentHeader w !! "Content-Type" = Some ["text/plain; charset=utf-8"] /\
  body w = bytes_of (miss_message requestHash) ++ ["010"%char].
Proof.
  intros Hm Hh He. cbv zeta. unfold exec.
  rewrite (ServeHTTP_replay _ _ _ _ Hm Hh).
  erewrite run_bind_done by reflexivity.
  unfold handleReplay. rewrite run_bind. cbn [get_disk disk new_world]. rewrite He.
  cbn [negb].
  erewrite run_bind_done by reflexivity.
  rewrite http_Error_404_run by reflexivity.
  cbn [snd with_client client status wroteHeader sentHeader body new_response].
  repeat split; try reflexivity.
Qed.

End ReplayMiss.

(* ===================================================================== *)
(** * The headers of a replayed response *)
(* ===================================================================== *)

Section ReplayHeaders.
Import http proxy spec.


Lemma add_loop_canonical (k : string) (rest : list string) : forall (acc : list string) (h : Header),
  CanonicalMIMEHeaderKey k = k ->
  fold_left (fun h v => Header_Add h k v) rest (<[k := acc]> h) = <[k := acc ++ rest]> h.
Proof.
  induction rest as [|v rest IH]; intros acc h Hk; simpl.
  - by rewrite app_nil_r.
  - unfold Header_Add at 2. rewrite Hk, lookup_insert_eq. simpl.
    rewrite insert_insert_eq, IH by done. by rewrite <- app_assoc.
Qed.

Lemma apply_entry_canonical (h : Header) (kv : string * list string) :
  CanonicalMIMEHeaderKey (fst kv) = fst kv ->
  apply_entry h kv = if decide (replayed_entry kv) then <[fst kv := snd kv]> h else h.
Proof.
  destruct kv as [k vs]. simpl. intros Hk. unfold apply_entry, replayed_entry. simpl.
  destruct (String.eqb_spec k "Content-Length") as [->|Hne].
  { rewrite decide_False; [done|]. intros [? _]. done. }
  destruct vs as [|v0 rest].
  { rewrite decide_False; [done|]. intros [_ ?]. done. }
  rewrite decide_True by done.
  unfold Header_Set. rewrite Hk. by rewrite add_loop_canonical.
Qed.

Lemma apply_entries_canonical (l : list (string * list string)) : forall h0 : Header,
  NoDup (l.*1) ->
  (forall kv, kv ∈ l -> CanonicalMIMEHeaderKey (fst kv) = fst kv) ->
  apply_entries l h0 = list_to_map (filter replayed_entry l) ∪ h0.
Proof.
  induction l as [|kv l IH]; intros h0 Hnd Hc; simpl.
  - by rewrite (left_id_L ∅ (∪)).
  - rewrite fmap_cons in Hnd. apply NoDup_cons in Hnd as [Hnotin Hnd].
    unfold apply_entries in *. simpl.
    rewrite IH; [|done|intros ??; apply Hc; by right].
    rewrite apply_entry_canonical by (apply Hc; by left).
    rewrite filter_cons. destruct (decide (replayed_entry kv)); [|done].
    destruct kv as [k vs]. simpl in *.
    rewrite <- insert_union_l.
    rewrite insert_union_r; [done|].
    apply not_elem_of_list_to_map_1. intros Hin. apply Hnotin.
    apply list_elem_of_fmap in Hin as [[k' vs'] [-> Hin]].
    apply list_elem_of_fmap. exists (k', vs'). split; [done|].
    by apply list_elem_of_filter in Hin as [_ ?].
Qed.

(** Whatever the order of the iteration, a stored map with canonical keys
    is put on a fresh response without its [Content-Length] and without the
    names that have no value. *)
Lemma replayed_headers `{MapRange} (hd : Header) :
  canonical_keys hd ->
  apply_entries (range hd) ∅ = filter replayed_entry hd.
Proof.
  intros Hc.
  assert (Hnd : NoDup ((range hd).*1)).
  { rewrite (range_perm hd). apply NoDup_fst_map_to_list. }
  rewrite apply_entries_canonical; [|done|].
  - rewrite (right_id_L ∅ (∪)), map_filter_alt.
    apply list_to_map_proper.
    + eapply sublist_NoDup; [exact Hnd|]. apply fmap_sublist, sublist_filter.
    + by rewrite (range_perm hd).
  - intros [k vs] Hin. simpl. apply (Hc k vs).
    rewrite (range_perm hd) in Hin. by apply elem_of_map_to_list in Hin.
Qed.

End ReplayHeaders.

(* ===================================================================== *)
(** * Record mode *)
(* ===================================================================== *)

Section DiskBlind.
Import http proxy spec.


Lemma blind_ret {A} (a : A) : disk_blind (mret a).
Proof. intros s fs'. reflexivity. Qed.

Lemma blind_bind {A B} (m : M A) (f : A -> M B) :
  disk_blind m -> (forall a, disk_blind (f a)) -> disk_blind (m ≫= f).
Proof.
  intros Hm Hf s fs'. rewrite !run_bind, Hm.
  destruct (m s) as [[a|msg] s1]; simpl; [apply Hf|reflexivity].
Qed.

Lemma blind_logf e : disk_blind (logf e).
Proof. intros s fs'. reflexivity. Qed.

Lemma blind_contact req : disk_blind (contact req).
Proof. intros s fs'. reflexivity. Qed.

Lemma blind_get_client : disk_blind get_client.
Proof. intros s fs'. reflexivity. Qed.

Lemma blind_put_client w : disk_blind (put_client w).
Proof. intros s fs'. reflexivity. Qed.

Lemma blind_panic {A} msg : disk_blind (@panic A msg).
Proof. intros s fs'. reflexivity. Qed.

Lemma blind_if {A} (b : bool) (m1 m2 : M A) :
  disk_blind m1 -> disk_blind m2 -> disk_blind (if b then m1 else m2).
Proof. destruct b; auto. Qed.

Create HintDb blind_db.
#[local] Hint Resolve blind_ret blind_logf blind_contact blind_get_client blind_put_client
  blind_panic : blind_db.

Ltac blind_step :=
  first [ apply blind_bind; [|intros ?]
        | apply blind_if
        | solve [auto with blind_db]
        | match goal with |- disk_blind (match ?x with _ => _ end) => destruct x end ].

Lemma blind_WriteHeader code : disk_blind (response_WriteHeader code).
Proof. unfold response_WriteHeader. repeat blind_step. Qed.

Lemma blind_Write b : disk_blind (response_Write b).
Proof. unfold response_Write. repeat blind_step. Qed.

Lemma blind_Header_update f : disk_blind (response_Header_update f).
Proof. unfold response_Header_update. repeat blind_step. Qed.

#[local] Hint Resolve blind_WriteHeader blind_Write blind_Header_update : blind_db.

Lemma blind_http_Error error code : disk_blind (http_Error tt error code).
Proof. unfold http_Error. cbn [Header_update WriteHeader Write server_writer]. repeat blind_step. Qed.

Context `{R : MapRange}.

Lemma blind_capturer_op (rc : responseCapturer) (op : rwop) : disk_blind (run_op rc op).
Proof.
  destruct op; cbn [run_op Header_update WriteHeader Write capturer_writer];
    unfold capturer_WriteHeader, capturer_Write; repeat blind_step.
Qed.

Lemma blind_capturer_ops (ops : list rwop) : forall rc : responseCapturer,
  disk_blind (run_ops rc ops).
Proof.
  induction ops as [|op ops IH]; intros rc; cbn [run_ops].
  - apply blind_ret.
  - apply blind_bind; [apply blind_capturer_op|intros rc'; apply IH].
Qed.

Lemma blind_director mode backendURL req : disk_blind (director mode backendURL req).
Proof.
  unfold director. destruct (String.eqb mode config.ModeRecord); [|apply blind_ret].
  destruct (stripConditionalHeaders _) as [req' stripped]. repeat blind_step.
Qed.

Lemma blind_capture cfg st backendURL transport (r : Request) (bodyBytes : bytes) :
  disk_blind (capture (New cfg st backendURL transport) r bodyBytes).
Proof.
  unfold capture, ReverseProxy_ServeHTTP. cbn [New proxy_ Director Transport].
  apply blind_bind; [apply blind_logf|intros _].
  apply blind_bind; [|intros rc; apply blind_ret].
  apply blind_bind; [apply blind_director|intros outreq].
  apply blind_bind; [apply blind_contact|intros _].
  apply blind_capturer_ops.
Qed.

End DiskBlind.

Section RecordRun.
Import http proxy spec.
Context `{F : json.Float64} `{R : MapRange}.


Lemma ServeHTTP_record (h : Handler) (r : Request) requestHash bodyBytes :
  config.Mode_ (config_ h) = config.ModeRecord ->
  requestHash_of r = Ok (requestHash, bodyBytes) ->
  ServeHTTP h r =
    (logf (LogRequest (Method r) (Path (URL_ r)) (RemoteAddr r) (hash16 requestHash)
                      config.ModeRecord);;
     handleRecord h (restored r bodyBytes) requestHash bodyBytes).
Proof.
  unfold requestHash_of, ServeHTTP. intros Hm Hh.
  destruct (io_ReadAll (Body r)) as [b|e]; [|discriminate]. cbn [Method URL_ RemoteAddr].
  destruct (hash.Generate _ _ _) as [x|e]; [|discriminate].
  injection Hh as -> ->. rewrite Hm. reflexivity.
Qed.

Lemma ServeHTTP_unreadable (h : Handler) (r : Request) err :
  requestHash_of r = Err err ->
  exists e msg, ServeHTTP h r = (logf e;; http_Error tt msg StatusInternalServerError).
Proof.
  unfold requestHash_of, ServeHTTP. intros Hh.
  destruct (io_ReadAll (Body r)) as [b|e]; [|eauto]. cbn [Method URL_ RemoteAddr].
  destruct (hash.Generate _ _ _) as [x|e]; [discriminate|eauto].
Qed.


(** [handleRecord] after the capture: the record is saved, the outcome of
    the save is logged, and nothing else changes. *)
Lemma handleRecord_run (h : Handler) (r : Request) requestHash bodyBytes (s : World) :
  handleRecord h r requestHash bodyBytes s =
  match capture h r bodyBytes s with
  | (Done cached, sc) =>
      let sv := storage.Save (storage_ h) (disk sc) requestHash cached in
      (Done tt, mkWorld (client sc) (snd sv)
                        (logs sc ++ [save_line (fst sv) cached requestHash; LogRecordCompleted])
                        (contacted sc))
  | (Panicked msg, sc) => (Panicked msg, sc)
  end.
Proof.
  unfold handleRecord. rewrite run_bind.
  destruct (capture h r bodyBytes s) as [[cached|msg] sc]; [|reflexivity].
  rewrite run_bind. cbn [get_disk].
  destruct (storage.Save (storage_ h) (disk sc) requestHash cached) as [[u|err] fs1];
    unfold mbind, M_bind, put_disk, logf; cbn; rewrite <- app_assoc; reflexivity.
Qed.

End RecordRun.

(* ===================================================================== *)
(** * Replay mode: claims C3, C4, C7, C10 *)
(* ===================================================================== *)

Section ReplayClaims.
Import http proxy spec Examples ReplayExamples.

(** C3. In replay mode no request is ever sent to the backend, whatever the
    request (hit, miss or failure); and when the store has no record under
    the fingerprint of the request, the response has status 404, is plain
    text, and its body is the message that names the fingerprint. *)
Theorem replay_miss_is_404_and_backend_untouched
    `{json.Float64} `{MapRange} (h : Handler) (r : Request) (fs : os.FS) :
  config.Mode_ (config_ h) = config.ModeReplay ->
  let s' := exec (ServeHTTP h r) (new_world fs) in
  contacted s' = [] /\
  forall requestHash bodyBytes,
    requestHash_of r = Ok (requestHash, bodyBytes) ->
    storage.Exists (storage_ h) fs requestHash = false ->
    status (client s') = 404%Z /\ wroteHeader (client s') = true /\
    sentHeader (client s') !! "Content-Type" = Some ["text/plain; charset=utf-8"] /\
    body (client s') =
      bytes_of ("no cached response found for request (hash: " +:+ requestHash +:+ ")")
      ++ ["010"%char].
Proof.
  intros Hm s'. split.
  - destruct (local_ServeHTTP_replay h r Hm) as [Hc _]. apply (Hc (new_world fs)).
  - intros requestHash bodyBytes Hh He.
    apply (replay_miss_response h r fs requestHash bodyBytes Hm Hh He).
Qed.

Lemma replay_miss_is_404_and_backend_untouched_witness :
  let s' := replay_of (os.mkFS ∅ true) in
  contacted s' = [] /\
  status (client s') = 404%Z /\ wroteHeader (client s') = true /\
  sentHeader (client s') !! "Content-Type" = Some ["text/plain; charset=utf-8"] /\
  body (client s') =
    bytes_of ("no cached response found for request (hash: " +:+ hash_get_a +:+ ")")
    ++ ["010"%char].
Proof.
  destruct (@replay_miss_is_404_and_backend_untouched literal_floats range_in_order
              (handler config.ModeReplay) (get "/a" "" ∅) (os.mkFS ∅ true) eq_refl)
    as [Hc Hmiss].
  split; [exact Hc|].
  apply (Hmiss hash_get_a []); vm_compute; reflexivity.
Defined.

(** C10. In replay mode a stored record whose loaded body is empty, or is
    the four bytes [null], is replayed without a body whatever its status
    code: [Write] is never called and the response body stays empty. *)
Theorem replay_writes_no_empty_or_null_body
    `{json.Float64} `{MapRange} (h : Handler) (r : Request) (fs : os.FS)
    requestHash bodyBytes cached :
  config.Mode_ (config_ h) = config.ModeReplay ->
  requestHash_of r = Ok (requestHash, bodyBytes) ->
  storage.Load (storage_ h) fs requestHash = Ok cached ->
  storage.Body cached = [] \/ storage.Body cached = bytes_of "null" ->
  let w := client (exec (ServeHTTP h r) (new_world fs)) in
  calls w = [CallWriteHeader (storage.StatusCode cached)] /\ body w = [].
Proof.
  intros Hm Hh HL Hb w. subst w.
  rewrite (replay_hit_client h r fs requestHash bodyBytes cached Hm Hh HL).
  assert (Hw : writes_body cached = false).
  { unfold writes_body. destruct Hb as [-> | ->]; destruct (bodiless _); reflexivity. }
  unfold replay_response. rewrite Hw.
  destruct (negb _); [split; reflexivity|].
  destruct (_ && _)%Z; split; reflexivity.
Qed.

Lemma replay_writes_no_empty_or_null_body_witness :
  storage.Load st null_body_file hash_get_a = Ok null_body_record /\
  calls (client (replay_of null_body_file)) = [CallWriteHeader 200] /\
  body (client (replay_of null_body_file)) = [].
Proof.
  split; [vm_compute; reflexivity|].
  apply (@replay_writes_no_empty_or_null_body literal_floats range_in_order
           (handler config.ModeReplay) (get "/a" "" ∅) null_body_file hash_get_a []
           null_body_record).
  - reflexivity.
  - vm_compute. reflexivity.
  - vm_compute. reflexivity.
  - right. reflexivity.
Defined.







End ReplayClaims.

Section RecordClaims.
Import http proxy spec Examples.

Lemma Save_unwritable `{json.Float64} (st : storage.Storage) (fs : os.FS) hash cached :
  os.writable fs = false ->
  exists err, storage.Save st fs hash cached = (Err err, fs).
Proof.
  intros Hw. unfold storage.Save.
  destruct (storage.MarshalIndent_CachedResponse cached) as [data|e]; [|eauto].
  unfold os.WriteFile. rewrite Hw. eauto.
Qed.

(** C6. In record mode the response delivered to the client (status,
    headers, body, and whether the handler panicked) and the requests sent
    to the backend are the same whatever the state of the store, so they are
    the same whether the save succeeds or fails; a save that fails leaves
    the store as it was and is logged. *)
Theorem record_response_independent_of_save
    `{json.Float64} `{MapRange} (cfg : config.Config) (st : storage.Storage) (backendURL : URL)
    (transport : Request -> list rwop) (r : Request) (s : World) (fs' : os.FS) :
  config.Mode_ cfg = config.ModeRecord ->
  let run := ServeHTTP (New cfg st backendURL transport) r in
  client (exec run (with_disk s fs')) = client (exec run s) /\
  contacted (exec run (with_disk s fs')) = contacted (exec run s) /\
  panicked run (with_disk s fs') = panicked run s /\
  (os.writable fs' = false ->
     disk (exec run (with_disk s fs')) = fs' /\
     (forall requestHash bodyBytes,
        requestHash_of r = Ok (requestHash, bodyBytes) ->
        panicked run (with_disk s fs') = false ->
        exists l err, logs (exec run (with_disk s fs')) = l ++ [LogSaveFailed err; LogRecordCompleted])).
Proof.
  intros Hm run. subst run.
  assert (Hmh : config.Mode_ (config_ (New cfg st backendURL transport)) = config.ModeRecord)
    by exact Hm.
  unfold exec, panicked.
  destruct (requestHash_of r) as [[requestHash bodyBytes]|err] eqn:Hh.
  - rewrite (ServeHTTP_record _ r requestHash bodyBytes Hmh Hh).
    rewrite !run_bind. cbn [logf with_disk client disk logs contacted].
    rewrite !handleRecord_run.
    set (s0 := mkWorld (client s) (disk s) _ (contacted s)).
    change (mkWorld (client s) fs' _ (contacted s)) with (with_disk s0 fs').
    rewrite (blind_capture cfg st backendURL transport _ _ s0 fs').
    destruct (capture _ _ _ s0) as [[cached|msg] sc]; cbn [fst snd with_disk client contacted disk].
    + do 3 (split; [reflexivity|]). intros Hw.
      destruct (Save_unwritable st fs' requestHash cached Hw) as [err Hs].
      cbn [New storage_]. rewrite Hs.
      split; [reflexivity|].
      intros ? ? _ _. cbn. eauto.
    + do 3 (split; [reflexivity|]). intros Hw. split; [reflexivity|].
      intros ? ? _ Hp. discriminate.
  - destruct (ServeHTTP_unreadable (New cfg st backendURL transport) r err Hh) as (e & msg & ->).
    assert (Hb : disk_blind (logf e;; http_Error tt msg StatusInternalServerError)).
    { apply blind_bind; [apply blind_logf|intros _; apply blind_http_Error]. }
    rewrite (Hb s fs'). cbn [fst snd with_disk client contacted disk].
    do 3 (split; [reflexivity|]). intros Hw. split; [reflexivity|].
    intros ? ? Heq. discriminate.
Qed.

End RecordClaims.

Section CaptureClaims.
Import http proxy spec Examples RecordExamples.









Lemma record_response_independent_of_save_witness :
  let ok := record_of answer_hello (get "/a" "" ∅) writable_store in
  let failed := record_of answer_hello (get "/a" "" ∅) read_only_store in
  client failed = client ok /\ contacted failed = contacted ok /\
  disk failed = read_only_store /\
  exists l err, logs failed = l ++ [LogSaveFailed err; LogRecordCompleted].
Proof.
  cbv zeta. unfold record_of, recorder.
  destruct (@record_response_independent_of_save literal_floats range_in_order
              (cfg config.ModeRecord) st backendURL answer_hello (get "/a" "" ∅)
              (new_world writable_store) read_only_store eq_refl)
    as (Hc & Hb & Hp & Hfail).
  destruct (Hfail eq_refl) as [Hd Hl].
  split; [exact Hc|]. split; [exact Hb|]. split; [exact Hd|].
  apply (Hl hash_get_a []); vm_compute; reflexivity.
Defined.

End CaptureClaims.

(* ===================================================================== *)
(** * The fingerprint: claims C2 and C9 *)
(* ===================================================================== *)

Section FingerprintClaims.
Import http proxy spec Examples ReplayExamples FingerprintExamples.

(** C2. The fingerprint is a function of method, path and body: equal
    triples have equal fingerprints; and the fingerprints of
    [(GET, "/a", "")], [(POST, "/a", "")] and [(GET, "/b", "")] exist and
    are pairwise distinct. *)
Theorem fingerprint_deterministic_and_distinct :
  (forall m p b m' p' b',
     (m, p, b) = (m', p', b') -> hash.Generate m p b = hash.Generate m' p' b') /\
  exists f1 f2 f3,
    hash.Generate "GET" "/a" (Some (bytes_NewReader [])) = Ok f1 /\
    hash.Generate "POST" "/a" (Some (bytes_NewReader [])) = Ok f2 /\
    hash.Generate "GET" "/b" (Some (bytes_NewReader [])) = Ok f3 /\
    f1 <> f2 /\ f2 <> f3 /\ f1 <> f3.
Proof.
  split.
  - intros m p b m' p' b' Heq. by injection Heq as -> -> ->.
  - eexists _, _, _. split; [vm_compute; reflexivity|].
    split; [vm_compute; reflexivity|]. split; [vm_compute; reflexivity|].
    repeat split; discriminate.
Qed.

(** C9. Two requests that agree on method, URL path and body have the same
    fingerprint, whatever their query strings, and so name the same record
    file; in replay mode a request and the same request with any other query
    string are served alike. *)
Theorem fingerprint_ignores_query_string
    `{json.Float64} `{MapRange} (r1 r2 : Request) :
  Method r1 = Method r2 ->
  Path (URL_ r1) = Path (URL_ r2) ->
  Body r1 = Body r2 ->
  requestHash_of r1 = requestHash_of r2 /\
  (forall st f1 f2 b1 b2, requestHash_of r1 = Ok (f1, b1) -> requestHash_of r2 = Ok (f2, b2) ->
                          storage.getFilename st f1 = storage.getFilename st f2) /\
  (forall (h : Handler) (q : string) (s : World),
     config.Mode_ (config_ h) = config.ModeReplay ->
     ServeHTTP h (with_query r1 q) s = ServeHTTP h r1 s).
Proof.
  intros Hm Hp Hb. split; [|split].
  - unfold requestHash_of. by rewrite Hm, Hp, Hb.
  - intros st f1 f2 b1 b2 H1 H2.
    assert (Heq : requestHash_of r1 = requestHash_of r2)
      by (unfold requestHash_of; by rewrite Hm, Hp, Hb).
    rewrite Heq, H2 in H1. by injection H1 as <- <-.
  - intros h q s Hmode.
    destruct (requestHash_of r1) as [[f b]|err] eqn:Hh.
    + rewrite (ServeHTTP_replay h r1 f b Hmode Hh).
      rewrite (ServeHTTP_replay h (with_query r1 q) f b Hmode); [reflexivity|].
      exact Hh.
    + unfold ServeHTTP. unfold requestHash_of in Hh. cbn [with_query Body Method URL_ Path].
      destruct (io_ReadAll (Body r1)); [|reflexivity].
      cbn [Method URL_ Path]. destruct (hash.Generate _ _ _); [discriminate|reflexivity].
Qed.

Lemma fingerprint_ignores_query_string_witness :
  requestHash_of (get "/a" "page=1" ∅) = requestHash_of (get "/a" "page=2&sort=asc" ∅) /\
  requestHash_of (get "/a" "page=1" ∅) = Ok (hash_get_a, []) /\
  @exec unit (@ServeHTTP literal_floats range_in_order (handler config.ModeReplay)
                         (with_query (get "/a" "page=1" ∅) "page=2&sort=asc")) (new_world hello_file)
  = @exec unit (@ServeHTTP literal_floats range_in_order (handler config.ModeReplay)
                           (get "/a" "page=1" ∅)) (new_world hello_file).
Proof.
  destruct (@fingerprint_ignores_query_string literal_floats range_in_order
              (get "/a" "page=1" ∅) (get "/a" "page=2&sort=asc" ∅) eq_refl eq_refl eq_refl)
    as (Hh & _ & _).
  destruct (@fingerprint_ignores_query_string literal_floats range_in_order
              (get "/a" "page=1" ∅) (get "/a" "page=1" ∅) eq_refl eq_refl eq_refl)
    as (_ & _ & Hs).
  split; [exact Hh|]. split; [vm_compute; reflexivity|].
  unfold exec. by rewrite Hs.
Defined.

End FingerprintClaims.

(* ===================================================================== *)
(** * Where the code departs from the claims C1 and C5 *)
(* ===================================================================== *)

Section Departures.
Import http proxy spec Examples ReplayExamples RecordExamples FingerprintExamples.

(** C1 (the code does not keep it). A body that is a JSON string does not
    survive the round trip through the store: the six bytes ["abcd"], quotes
    included, are saved as the JSON string they are, and loaded as the
    three bytes that [abcd] decodes to in base64. This holds whatever the
    treatment of floating point numbers. *)
Theorem json_string_body_is_not_recovered `{json.Float64} :
  let saved := storage.Save st writable_store hash_get_a string_body_record in
  fst saved = Ok tt /\
  option_map string_of (os.files (snd saved) !! storage.getFilename st hash_get_a) =
    Some (string_of (lit "{
  'method': 'GET',
  'path': '/a',
  'status_code': 200,
  'headers': {},
  'body': 'abcd'
}")) /\
  storage.Load st (snd saved) hash_get_a =
    Ok (storage.mkCachedResponse "GET" "/a" 200 ∅ (map byte_of [0x69; 0xB7; 0x1D]%Z)).
Proof. vm_compute. repeat split; reflexivity. Qed.

(** C5 (the code does not keep it). In record mode a request with two
    [If-None-Match] lines, the first of them empty, reaches the backend with
    both; a request with the [Cache-Control] lines [public] and [no-cache]
    reaches it with both. *)
Theorem empty_first_value_reaches_backend :
  map (fun outreq => Header_ outreq !! "If-None-Match")
      (contacted (record_of answer_hello conditional_request writable_store))
    = [Some [""; etag1]] /\
  map (fun outreq => Header_ outreq !! "Cache-Control")
      (contacted (record_of answer_hello revalidating_request writable_store))
    = [Some ["public"; "no-cache"]].
Proof. vm_compute. split; reflexivity. Qed.

End Departures.

(* ===================================================================== *)
(** * What [stripConditionalHeaders] does remove *)
(* ===================================================================== *)

Section Strip.
Import http proxy spec.

(** The loop over [conditionalHeaders]: a name of the list whose first
    value is not empty is gone afterwards; every other name keeps its
    values. *)
Lemma strip_loop_lookup (names : list string) : forall (hd : Header) (b : bool) (name : string),
  (forall n, n ∈ names -> CanonicalMIMEHeaderKey n = n) ->
  CanonicalMIMEHeaderKey name = name ->
  fst (fold_left (fun '(hd, stripped) header =>
                    if negb (String.eqb (Header_Get hd header) "")
                    then (Header_Del hd header, true)
                    else (hd, stripped)) names (hd, b)) !! name
  = if decide (name ∈ names /\ Header_Get hd name <> "") then None else hd !! name.
Proof.
  induction names as [|n names IH]; intros hd b name Hc Hname; cbn [fold_left].
  - rewrite decide_False; [done|]. intros [Hin _]. by apply elem_of_nil in Hin.
  - assert (Hn : CanonicalMIMEHeaderKey n = n) by (apply Hc; by left).
    assert (Hc' : forall n', n' ∈ names -> CanonicalMIMEHeaderKey n' = n')
      by (intros ??; apply Hc; by right).
    destruct (String.eqb_spec (Header_Get hd n) "") as [He|He]; cbn [negb].
    + rewrite IH by done.
      destruct (decide (name ∈ names /\ Header_Get hd name <> "")) as [[Hin Hg]|Hno].
      * rewrite decide_True; [done|]. split; [by right|done].
      * rewrite decide_False; [done|]. intros [Hin Hg].
        apply elem_of_cons in Hin as [->|Hin]; [done|]. by apply Hno.
    + rewrite IH by done. unfold Header_Del, Header_Get. rewrite Hn, Hname.
      destruct (decide (name = n)) as [->|Hne].
      * rewrite lookup_delete_eq.
        rewrite decide_False by (intros [_ ?]; done).
        rewrite decide_True; [done|]. split; [by left|].
        unfold Header_Get in He. by rewrite Hn in He.
      * rewrite lookup_delete_ne by done.
        destruct (decide (name ∈ names /\ _)) as [[Hin Hg]|Hno].
        -- rewrite decide_True; [done|]. split; [by right|done].
        -- destruct (hd !! name) as [vs|] eqn:E.
           ++ rewrite decide_False; [done|]. intros [Hin Hg].
              apply elem_of_cons in Hin as [->|Hin]; [done|]. by apply Hno.
           ++ by destruct (decide _).
Qed.

(** In record mode, a conditional header whose first value is not empty
    does not reach the backend, and neither does a [Cache-Control] header
    whose first value is [no-cache] or [max-age=0]; a header that is not
    one of these six reaches it as it came. *)
Theorem strip_removes_headers_with_a_first_value (req : Request) (name : string) :
  name ∈ conditionalHeaders ->
  Header_Get (Header_ req) name <> "" ->
  Header_ (fst (stripConditionalHeaders req)) !! name = None.
Proof.
  intros Hin Hg. unfold stripConditionalHeaders.
  assert (Hcan : forall n, n ∈ conditionalHeaders -> CanonicalMIMEHeaderKey n = n).
  { intros n Hn. unfold conditionalHeaders in Hn.
    repeat (apply elem_of_cons in Hn as [->|Hn]; [reflexivity|]).
    by apply elem_of_nil in Hn. }
  pose proof (strip_loop_lookup conditionalHeaders (Header_ req) false name Hcan (Hcan _ Hin)) as HL.
  destruct (fold_left _ conditionalHeaders (Header_ req, false)) as [hd stripped].
  cbn [fst] in HL. rewrite decide_True in HL by done.
  assert (Hne : name <> "Cache-Control").
  { intros ->. unfold conditionalHeaders in Hin.
    repeat (apply elem_of_cons in Hin as [Hin|Hin]; [discriminate|]).
    by apply elem_of_nil in Hin. }
  destruct (_ || _); cbn [fst Header_]; [|exact HL].
  unfold Header_Del. change (CanonicalMIMEHeaderKey "Cache-Control") with "Cache-Control".
  by rewrite lookup_delete_ne.
Qed.

End Strip.

Section StripOnTheWire.
Import http proxy spec.
Context `{F : json.Float64} `{R : MapRange}.

Lemma local_capturer_ops (ops : list rwop) : forall rc : responseCapturer,
  local_ (run_ops rc ops).
Proof.
  induction ops as [|op ops IH]; intros rc; cbn [run_ops]; [apply local_ret|].
  apply local_bind; [|intros rc'; apply IH].
  destruct op; cbn [run_op Header_update WriteHeader Write capturer_writer];
    unfold capturer_WriteHeader, capturer_Write;
    repeat first [ apply local_bind; [|intros ?]
                 | apply local_ret | apply local_get_client | apply local_Header_update
                 | apply local_WriteHeader | apply local_Write
                 | match goal with |- local_ (match ?x with _ => _ end) => destruct x end ].
Qed.


Lemma director_record backendURL req s :
  exists s', director config.ModeRecord backendURL req s = (Done (outgoing backendURL req), s')
             /\ contacted s' = contacted s.
Proof.
  unfold director, outgoing. cbn [String.eqb].
  change (String.eqb config.ModeRecord config.ModeRecord) with true. cbv iota.
  destruct (stripConditionalHeaders _) as [req' [|]]; eexists; split; reflexivity.
Qed.

(** In record mode exactly one request goes to the backend: the inbound
    request as the director rewrites it. *)
Lemma record_contacts_once (cfg : config.Config) (st : storage.Storage) (backendURL : URL)
    (transport : Request -> list rwop) (r : Request) (fs : os.FS) requestHash bodyBytes :
  config.Mode_ cfg = config.ModeRecord ->
  requestHash_of r = Ok (requestHash, bodyBytes) ->
  contacted (exec (ServeHTTP (New cfg st backendURL transport) r) (new_world fs))
  = [outgoing backendURL (restored r bodyBytes)].
Proof.
  intros Hm Hh. unfold exec.
  rewrite (ServeHTTP_record (New cfg st backendURL transport) r requestHash bodyBytes Hm Hh).
  rewrite run_bind. cbn [logf]. rewrite handleRecord_run.
  unfold capture, ReverseProxy_ServeHTTP. cbn [New proxy_ Director Transport config_].
  rewrite Hm. rewrite run_bind. cbn [logf]. rewrite run_bind, run_bind.
  match goal with |- context [director _ ?u ?q ?w] =>
    destruct (director_record u q w) as (s1 & -> & Hc1) end.
  rewrite run_bind. cbn [contact].
  match goal with |- context [run_ops ?rc ?ops ?w] =>
    destruct (local_capturer_ops ops rc) as [Hk _]; specialize (Hk w);
    destruct (run_ops rc ops w) as [[rc'|msg] s2] end.
  all: unfold same_contacted in Hk; cbn [snd contacted] in Hk.
  all: cbn [contacted new_world] in Hc1.
  all: unfold mret, M_ret; cbv zeta; cbn [snd contacted].
  all: rewrite Hk, Hc1; reflexivity.
Qed.

(** In record mode, a conditional header of the inbound request whose first
    value is not empty is absent from the request that reaches the
    backend. *)
Theorem record_strips_conditional_headers (cfg : config.Config) (st : storage.Storage)
    (backendURL : URL) (transport : Request -> list rwop) (r : Request) (fs : os.FS)
    requestHash bodyBytes (name : string) :
  config.Mode_ cfg = config.ModeRecord ->
  requestHash_of r = Ok (requestHash, bodyBytes) ->
  name ∈ conditionalHeaders ->
  Header_Get (Header_ r) name <> "" ->
  forall outreq,
    outreq ∈ contacted (exec (ServeHTTP (New cfg st backendURL transport) r) (new_world fs)) ->
    Header_ outreq !! name = None.
Proof.
  intros Hm Hh Hin Hg outreq Hout.
  rewrite (record_contacts_once cfg st backendURL transport r fs requestHash bodyBytes Hm Hh)
    in Hout.
  apply list_elem_of_singleton in Hout as ->.
  unfold outgoing. apply strip_removes_headers_with_a_first_value; [exact Hin|exact Hg].
Qed.

End StripOnTheWire.

(* ===================================================================== *)
(** * Base64: decoding undoes encoding *)
(* ===================================================================== *)

Section Base64.
Local Open Scope Z_scope.

Ltac dlia := Z.to_euclidean_division_equations; lia.

Lemma byte_val_range (c : ascii) : 0 <= byte_val c < 256.
Proof.
  unfold byte_val. pose proof (N_ascii_bounded c). lia.
Qed.

Lemma byte_of_val (c : ascii) : byte_of (byte_val c) = c.
Proof.
  unfold byte_of. rewrite Z.mod_small by apply byte_val_range.
  unfold byte_val. rewrite N2Z.id. apply ascii_N_embedding.
Qed.

Lemma byte_of_val_mod (c : ascii) (z : Z) : z mod 256 = byte_val c -> byte_of z = c.
Proof.
  intros Hz. unfold byte_of. rewrite Hz. unfold byte_val. rewrite N2Z.id.
  apply ascii_N_embedding.
Qed.

(** Every 6-bit value is read back from its character. *)
Lemma decodeMap_enc (n : Z) : 0 <= n < 64 -> base64.decodeMap (base64.enc n) = Some n.
Proof.
  intros Hn.
  assert (Hall : forallb (fun i => match base64.decodeMap (base64.enc (Z.of_nat i)) with
                                   | Some m => m =? Z.of_nat i
                                   | None => false
                                   end) (seq 0 64) = true) by (vm_compute; reflexivity).
  rewrite forallb_forall in Hall. specialize (Hall (Z.to_nat n)).
  rewrite Z2Nat.id in Hall by lia.
  destruct (base64.decodeMap (base64.enc n)) as [m|].
  - f_equal. apply Z.eqb_eq. apply Hall. apply in_seq. lia.
  - exfalso. assert (false = true); [|discriminate]. apply Hall. apply in_seq. lia.
Qed.

Lemma decode_pad : base64.decodeMap "="%char = None /\ base64.is_newline "="%char = false.
Proof. split; reflexivity. Qed.

Lemma decode_quantum (a b c : ascii) (rest : bytes) :
  base64.decode_loop
    (base64.enc (byte_val a / 4) :: base64.enc (byte_val a mod 4 * 16 + byte_val b / 16) ::
     base64.enc (byte_val b mod 16 * 4 + byte_val c / 64) :: base64.enc (byte_val c mod 64) :: rest) []
  = option_map (fun out => a :: b :: c :: out) (base64.decode_loop rest []).
Proof.
  pose proof (byte_val_range a) as Ha. pose proof (byte_val_range b) as Hb.
  pose proof (byte_val_range c) as Hc.
  cbn [base64.decode_loop].
  rewrite decodeMap_enc by (split; [apply Z.div_pos|apply Z.div_lt_upper_bound]; dlia).
  cbn [app base64.decode_loop].
  rewrite decodeMap_enc.
  2:{ pose proof (Z.mod_pos_bound (byte_val a) 4). pose proof (Z.div_pos (byte_val b) 16).
      assert (byte_val b / 16 < 16) by (apply Z.div_lt_upper_bound; dlia). dlia. }
  cbn [app base64.decode_loop].
  rewrite decodeMap_enc.
  2:{ pose proof (Z.mod_pos_bound (byte_val b) 16). pose proof (Z.div_pos (byte_val c) 64).
      assert (byte_val c / 64 < 4) by (apply Z.div_lt_upper_bound; dlia). dlia. }
  cbn [app base64.decode_loop].
  rewrite decodeMap_enc by (apply Z.mod_pos_bound; dlia).
  destruct (base64.decode_loop rest []) as [out|]; [|reflexivity].
  cbn [option_map]. f_equal. f_equal; [|f_equal; [|f_equal]].
  - apply byte_of_val_mod. rewrite Z.mod_small; dlia.
  - apply byte_of_val_mod.
    replace ((byte_val a mod 4 * 16 + byte_val b / 16) * 16 +
             (byte_val b mod 16 * 4 + byte_val c / 64) / 4)
      with (byte_val b + (byte_val a mod 4) * 256) by dlia.
    rewrite Z.mod_add by dlia. apply Z.mod_small. lia.
  - apply byte_of_val_mod.
    replace ((byte_val b mod 16 * 4 + byte_val c / 64) * 64 + byte_val c mod 64)
      with (byte_val c + (byte_val b mod 16) * 256) by dlia.
    rewrite Z.mod_add by dlia. apply Z.mod_small. lia.
Qed.

(** Induction over a list three items at a time. *)
Lemma list_ind3 {A} (P : list A -> Prop) :
  P [] -> (forall a, P [a]) -> (forall a b, P [a; b]) ->
  (forall a b c l, P l -> P (a :: b :: c :: l)) ->
  forall l, P l.
Proof.
  intros H0 H1 H2 H3 l.
  assert (H : P l /\ (forall a, P (a :: l)) /\ (forall a b, P (a :: b :: l))).
  { induction l as [|x l (IH0 & IH1 & IH2)]; [by auto|].
    split; [apply IH1|]. split; [intros a; apply IH2|]. intros a b. by apply H3. }
  apply H.
Qed.

Theorem base64_decode_encode (src : bytes) :
  base64.decode_loop (base64.Encode src) [] = Some src.
Proof.
  induction src as [|a|a b|a b c rest IH] using list_ind3.
  - reflexivity.
  - pose proof (byte_val_range a) as Ha.
    cbn [base64.Encode base64.decode_loop].
    rewrite decodeMap_enc by (split; [apply Z.div_pos|apply Z.div_lt_upper_bound]; dlia).
    cbn [app base64.decode_loop].
    rewrite decodeMap_enc by (pose proof (Z.mod_pos_bound (byte_val a) 4); dlia).
    cbn [app base64.decode_loop].
    destruct decode_pad as [-> ->]. cbn.
    f_equal. f_equal. apply byte_of_val_mod. rewrite Z.mod_small; dlia.
  - pose proof (byte_val_range a) as Ha. pose proof (byte_val_range b) as Hb.
    cbn [base64.Encode base64.decode_loop].
    rewrite decodeMap_enc by (split; [apply Z.div_pos|apply Z.div_lt_upper_bound]; dlia).
    cbn [app base64.decode_loop].
    rewrite decodeMap_enc.
    2:{ pose proof (Z.mod_pos_bound (byte_val a) 4). pose proof (Z.div_pos (byte_val b) 16).
        assert (byte_val b / 16 < 16) by (apply Z.div_lt_upper_bound; dlia). dlia. }
    cbn [app base64.decode_loop].
    rewrite decodeMap_enc by (pose proof (Z.mod_pos_bound (byte_val b) 16); dlia).
    cbn [app base64.decode_loop].
    destruct decode_pad as [-> ->]. cbn.
    f_equal. f_equal; [|f_equal].
    + apply byte_of_val_mod. rewrite Z.mod_small; dlia.
    + apply byte_of_val_mod.
      replace ((byte_val a mod 4 * 16 + byte_val b / 16) * 16 + byte_val b mod 16 * 4 / 4)
        with (byte_val b + (byte_val a mod 4) * 256) by dlia.
      rewrite Z.mod_add by dlia. apply Z.mod_small. lia.
  - cbn [base64.Encode]. rewrite decode_quantum, IH. reflexivity.
Qed.

End Base64.

(* ===================================================================== *)
(** * Bodies that are not JSON survive the encoding *)
(* ===================================================================== *)

Section BinaryBody.
Import spec.


Lemma plain_facts (c : ascii) :
  plain c ->
  (byte_val c <? 128)%Z = true /\ (byte_val c <? 32)%Z = false /\
  Ascii.eqb c dquote = false /\ Ascii.eqb c backslash = false /\
  existsb (Ascii.eqb c) (bytes_of "<>&") = false.
Proof.
  unfold plain, json.htmlSafe. intros Hp.
  apply andb_true_iff in Hp as [Hp Hn]. apply andb_true_iff in Hp as [H32 H128].
  apply negb_true_iff in Hn. cbn [existsb bytes_of list_ascii_of_string] in Hn.
  repeat (apply orb_false_iff in Hn as [? Hn]).
  repeat split; try assumption; try lia.
  cbn [existsb bytes_of list_ascii_of_string]. by repeat (apply orb_false_iff; split).
Qed.

Lemma encode_chars_plain (t : bytes) : Forall plain t -> json.encode_chars 0 t = t.
Proof.
  induction 1 as [|c t Hc _ IH]; [reflexivity|]. cbn [json.encode_chars].
  destruct (plain_facts c Hc) as (-> & _). rewrite Hc, IH. reflexivity.
Qed.

Lemma scan_string_plain (t rest : bytes) :
  Forall plain t ->
  json.scan_string json.SNormal (t ++ dquote :: rest) = Some (t, rest).
Proof.
  induction 1 as [|c t Hc _ IH]; cbn [app json.scan_string].
  - change (Ascii.eqb dquote dquote) with true. reflexivity.
  - destruct (plain_facts c Hc) as (_ & -> & -> & -> & _). rewrite IH. reflexivity.
Qed.

Lemma unquote_plain (t : bytes) : Forall plain t -> json.unquote 0 t = t.
Proof.
  induction 1 as [|c t Hc _ IH]; [reflexivity|]. cbn [json.unquote].
  destruct (plain_facts c Hc) as (-> & _ & _ & -> & _). rewrite IH. reflexivity.
Qed.

Lemma compact_loop_plain (t rest : bytes) :
  Forall plain t ->
  json.compact_loop json.Inside 0 (t ++ dquote :: rest)
  = t ++ dquote :: json.compact_loop json.Outside 0 rest.
Proof.
  assert (Hq : forall r, json.compact_loop json.Inside 0 (dquote :: r)
                         = dquote :: json.compact_loop json.Outside 0 r).
  { intros r. cbn [json.compact_loop json.step_string].
    change (Ascii.eqb dquote dquote) with true.
    change (existsb (Ascii.eqb dquote) (bytes_of "<>&")) with false.
    change (byte_val dquote =? 226)%Z with false. cbn [andb].
    by destruct r as [|? [|? ?]]. }
  induction 1 as [|c t Hc _ IH]; cbn [app]; [apply Hq|].
  destruct (plain_facts c Hc) as (H128 & _ & Hnq & Hnb & Hh).
  cbn [json.compact_loop json.step_string]. rewrite Hh, Hnq, Hnb.
  assert (HE : (byte_val c =? 226)%Z = false) by lia. rewrite HE. cbn [andb].
  rewrite IH. by destruct (t ++ dquote :: rest) as [|? [|? ?]].
Qed.

Lemma indent_loop_plain (t rest : bytes) (n : bool) (d : nat) :
  Forall plain t ->
  json.indent_loop json.Inside n d (t ++ dquote :: rest)
  = t ++ dquote :: json.indent_loop json.Outside n d rest.
Proof.
  induction 1 as [|c t Hc _ IH]; cbn [app json.indent_loop json.step_string].
  - change (Ascii.eqb dquote dquote) with true. reflexivity.
  - destruct (plain_facts c Hc) as (_ & _ & -> & -> & _). rewrite IH. reflexivity.
Qed.

(** A literal of plain bytes is valid JSON and decodes to its bytes. *)
Lemma parse_plain_literal (t : bytes) :
  Forall plain t -> json.parse (dquote :: t ++ [dquote]) = Some (json.JString t).
Proof.
  intros Ht. unfold json.parse. cbn [length json.parse_value json.skip_space].
  change (json.is_space dquote) with false. cbv iota.
  change (Ascii.eqb dquote "{") with false. change (Ascii.eqb dquote "[") with false.
  change (Ascii.eqb dquote dquote) with true. cbv iota.
  rewrite scan_string_plain by done. rewrite unquote_plain by done. reflexivity.
Qed.

(** The characters of base64 are plain. *)
Lemma enc_plain (n : Z) : plain (base64.enc n).
Proof.
  unfold base64.enc.
  assert (Hall : forallb json.htmlSafe base64.encodeStd = true) by (vm_compute; reflexivity).
  rewrite forallb_forall in Hall.
  destruct (nth_in_or_default (Z.to_nat n) base64.encodeStd "A"%char) as [Hin| ->].
  - apply Hall, Hin.
  - reflexivity.
Qed.

Lemma Encode_plain (src : bytes) : Forall plain (base64.Encode src).
Proof.
  induction src as [|a|a b|a b c rest IH] using list_ind3; cbn [base64.Encode];
    repeat (apply Forall_cons; split; [first [apply enc_plain|reflexivity]|]);
    first [apply Forall_nil; done | exact IH].
Qed.

Lemma compact_plain_literal (t : bytes) :
  Forall plain t -> json.compact (dquote :: t ++ [dquote]) = Ok (dquote :: t ++ [dquote]).
Proof.
  intros Ht. unfold json.compact, json.checkValid. rewrite parse_plain_literal by done.
  f_equal.
  assert (Hq : forall r, json.compact_loop json.Outside 0 (dquote :: r)
                         = dquote :: json.compact_loop json.Inside 0 r).
  { intros r. cbn [json.compact_loop json.step_string].
    change (Ascii.eqb dquote dquote) with true.
    change (existsb (Ascii.eqb dquote) (bytes_of "<>&")) with false.
    change (byte_val dquote =? 226)%Z with false. change (json.is_space dquote) with false.
    cbn [andb]. by destruct r as [|? [|? ?]]. }
  rewrite Hq, (compact_loop_plain t [] Ht). reflexivity.
Qed.

Lemma Indent_plain_literal (t : bytes) :
  Forall plain t -> json.Indent (dquote :: t ++ [dquote]) = Ok (dquote :: t ++ [dquote]).
Proof.
  intros Ht. unfold json.Indent, json.checkValid. rewrite parse_plain_literal by done.
  f_equal. cbn [json.indent_loop]. change (json.is_space dquote) with false. cbv iota.
  change (Ascii.eqb dquote "}" || Ascii.eqb dquote "]") with false. cbv iota.
  change (Ascii.eqb dquote "{" || Ascii.eqb dquote "[") with false.
  change (Ascii.eqb dquote ",") with false. change (Ascii.eqb dquote ":") with false.
  cbv iota. cbn [app json.step_string]. change (Ascii.eqb dquote dquote) with true. cbv iota.
  by rewrite (indent_loop_plain t [] false 0 Ht).
Qed.

(** A body that [json.Unmarshal] rejects (the empty body included) is
    encoded by [MarshalJSON] into a text that [Compact] and [Indent] leave
    as it is, and [UnmarshalJSON] decodes that text into the bytes of the
    body. *)
Theorem body_that_is_not_json_round_trips `{json.Float64} (rb : storage.ResponseBody) :
  (forall v, json.Unmarshal_any rb <> Ok v) ->
  exists text,
    storage.MarshalJSON rb = Ok text /\
    json.compact text = Ok text /\ json.Indent text = Ok text /\
    storage.UnmarshalJSON text = rb.
Proof.
  intros Hn. unfold storage.MarshalJSON.
  destruct rb as [|b rb'].
  { exists (bytes_of "null"). repeat split; vm_compute; reflexivity. }
  cbn [length Nat.eqb]. set (rb := b :: rb') in *.
  destruct (json.Unmarshal_any rb) as [v|e] eqn:E; [by destruct (Hn v)|].
  exists (dquote :: base64.Encode rb ++ [dquote]).
  pose proof (Encode_plain rb) as Hp.
  split; [|split; [|split]].
  - unfold json.Marshal_string, json.encode_string, base64.EncodeToString.
    rewrite list_ascii_of_string_of_list_ascii, encode_chars_plain by done. reflexivity.
  - by apply compact_plain_literal.
  - by apply Indent_plain_literal.
  - unfold storage.UnmarshalJSON, json.Unmarshal_string.
    rewrite parse_plain_literal by done. unfold base64.DecodeString.
    rewrite list_ascii_of_string_of_list_ascii, base64_decode_encode. reflexivity.
Qed.

End BinaryBody.

(* ===================================================================== *)
(** * The capturer only observes *)
(* ===================================================================== *)

Section Transparent.
Import http proxy spec.
Context `{R : MapRange}.


Lemma snapshot_keeps_body (l : list (string * list string)) : forall rc : responseCapturer,
  body_ (fold_left (fun rc kv => mkCapturer (statusCode rc) (<[fst kv := snd kv]> (headers rc))
                                            (body_ rc)) l rc) = body_ rc.
Proof. induction l as [|kv l IH]; intros rc; cbn [fold_left]; [done|]. by rewrite IH. Qed.

Lemma capturer_op_alike (rc : responseCapturer) (op : rwop) (s : World) :
  alike (fun rc' _ => body_ rc' = body_ rc ++ concat (writes [op]))
        (run_op rc op s) (run_op tt op s).
Proof.
  destruct op as [k v|k v|k|code|b];
    cbn [run_op Header_update WriteHeader Write capturer_writer server_writer writes concat].
  1-3: split; [reflexivity|]; cbn; by rewrite app_nil_r.
  - unfold capturer_WriteHeader. rewrite run_bind. cbn [get_client].
    rewrite run_bind.
    destruct (response_WriteHeader code s) as [[[]|msg] s']; (split; [reflexivity|]); cbn;
      [by rewrite snapshot_keeps_body, app_nil_r|done].
  - unfold capturer_Write. rewrite !run_bind.
    destruct (response_Write b s) as [[res|msg] s']; (split; [reflexivity|]); cbn;
      [by rewrite app_nil_r|done].
Qed.

(** Whatever the proxy does to the capturer, the client receives what it
    would have received from the proxy directly, and the capturer holds the
    bytes of all the body writes, in order. *)
Theorem capture_is_transparent (ops : list rwop) : forall (rc : responseCapturer) (s : World),
  alike (fun rc' _ => body_ rc' = body_ rc ++ concat (writes ops))
        (run_ops rc ops s) (run_ops tt ops s).
Proof.
  induction ops as [|op ops IH]; intros rc s; cbn [run_ops].
  - split; [reflexivity|]. cbn. by rewrite app_nil_r.
  - rewrite !run_bind. destruct (capturer_op_alike rc op s) as [Hs Ho].
    destruct (run_op rc op s) as [[rc1|m1] s1]; destruct (run_op tt op s) as [[[]|m2] s2];
      cbn [fst snd] in *; try done; subst s2.
    destruct (IH rc1 s1) as [Hs' Ho']. split; [exact Hs'|].
    destruct (fst (run_ops rc1 ops s1)); destruct (fst (run_ops tt ops s1)); try done.
    rewrite Ho', Ho. cbn [writes concat]. rewrite <- app_assoc. f_equal.
    destruct op; cbn; try reflexivity. by rewrite app_nil_r.
Qed.

End Transparent.

Section MoreExamples.
Import http proxy spec Examples RecordExamples FingerprintExamples.

Lemma record_strips_conditional_headers_witness :
  Forall (fun outreq => Header_ outreq !! "If-None-Match" = None)
         (contacted (record_of answer_hello plain_conditional_request writable_store)).
Proof.
  apply Forall_forall.
  apply (@record_strips_conditional_headers literal_floats range_in_order
           (cfg config.ModeRecord) st backendURL answer_hello plain_conditional_request
           writable_store hash_get_a [] "If-None-Match").
  - reflexivity.
  - vm_compute. reflexivity.
  - by left.
  - vm_compute. discriminate.
Defined.

Lemma body_that_is_not_json_round_trips_witness :
  exists text,
    @storage.MarshalJSON literal_floats (storage.Body binary_body_record) = Ok text /\
    json.compact text = Ok text /\ json.Indent text = Ok text /\
    storage.UnmarshalJSON text = storage.Body binary_body_record.
Proof.
  apply (@body_that_is_not_json_round_trips literal_floats (storage.Body binary_body_record)).
  intros v. vm_compute. discriminate.
Defined.

(** The same through the store: a record with a body that is not JSON is
    saved and loaded back with the same body. *)
Example binary_body_through_the_store :
  storage.Load st (snd (@storage.Save literal_floats st writable_store hash_get_a
                                      binary_body_record)) hash_get_a
  = Ok binary_body_record.
Proof. vm_compute. reflexivity. Qed.

End MoreExamples.

(* ===================================================================== *)
(** * The scenarios of the specification *)
(* ===================================================================== *)

Section Scenarios.
Import http proxy spec Examples ReplayExamples RecordExamples ScenarioExamples.

(** A JSON answer is stored as a JSON object, not as a base64 string, and
    the replay of the same request returns status 200, the same header, and
    a body that parses to the same JSON value. *)
Example record_then_replay_json :
  map (fun kv => string_of (snd kv)) (map_to_list (os.files (disk (recorded answer_john post_john))))
    = [string_of (lit "{
  'method': 'POST',
  'path': '/api/users',
  'status_code': 200,
  'headers': {
    'Content-Type': [
      'application/json'
    ]
  },
  'body': {
    'name': 'John'
  }
}")] /\
  status (client (replayed answer_john post_john)) = 200%Z /\
  sentHeader (client (replayed answer_john post_john)) !! "Content-Type"
    = Some ["application/json"] /\
  json.parse (body (client (replayed answer_john post_john)))
    = json.parse (lit "{'name':'John'}") /\
  contacted (replayed answer_john post_john) = [].
Proof. vm_compute. repeat split; reflexivity. Qed.

(** An answer that is not text is stored as a base64 string, and the replay
    of the same request returns the original bytes. *)
Example record_then_replay_binary :
  map (fun kv => string_of (snd kv)) (map_to_list (os.files (disk (recorded answer_raw post_john))))
    = [string_of (lit "{
  'method': 'POST',
  'path': '/api/users',
  'status_code': 200,
  'headers': {
    'Content-Type': [
      'application/octet-stream'
    ]
  },
  'body': 'AP/+AIA='
}")] /\
  body (client (recorded answer_raw post_john)) = raw_bytes /\
  status (client (replayed answer_raw post_john)) = 200%Z /\
  body (client (replayed answer_raw post_john)) = raw_bytes.
Proof. vm_compute. repeat split; reflexivity. Qed.

(** In replay mode on an empty store every request whose body can be read
    is answered with status 404. *)
Theorem replay_on_empty_store_is_404
    `{json.Float64} `{MapRange} (h : Handler) (r : Request) requestHash bodyBytes :
  config.Mode_ (config_ h) = config.ModeReplay ->
  requestHash_of r = Ok (requestHash, bodyBytes) ->
  status (client (exec (ServeHTTP h r) (new_world (os.mkFS ∅ true)))) = 404%Z.
Proof.
  intros Hm Hh.
  apply (replay_miss_response h r (os.mkFS ∅ true) requestHash bodyBytes Hm Hh).
  unfold storage.Exists, os.Stat. cbn [os.files]. by rewrite lookup_empty.
Qed.

Lemma replay_on_empty_store_is_404_witness :
  status (client (replay_of (os.mkFS ∅ true))) = 404%Z.
Proof.
  apply (@replay_on_empty_store_is_404 literal_floats range_in_order
           (handler config.ModeReplay) (get "/a" "" ∅) hash_get_a []).
  - reflexivity.
  - vm_compute. reflexivity.
Defined.

End Scenarios.

(* ===================================================================== *)
(** * Requests that are refused *)
(* ===================================================================== *)

Section Refusals.
Import http proxy spec Examples ReplayExamples.
Context `{F : json.Float64} `{R : MapRange}.

(** [http.Error] with status 500 on a writer that has committed nothing. *)
Lemma http_Error_500_run (error : string) (s : World) :
  wroteHeader (client s) = false ->
  let msg := bytes_of error ++ ["010"%char] in
  let hd := error_headers (handlerHeader (client s)) in
  http_Error tt error StatusInternalServerError s =
    (Done tt,
     with_client s (mkResponse hd true StatusInternalServerError hd (informational (client s))
                               (body (client s) ++ msg)
                               (calls (client s) ++
                                [CallWriteHeader StatusInternalServerError; CallWrite msg]))).
Proof.
  intros Hw. cbv zeta. unfold http_Error.
  cbn [Header_update WriteHeader Write server_writer].
  do 3 (erewrite run_bind_done by reflexivity).
  erewrite run_bind_done.
  2:{ rewrite WriteHeader_run by (destruct s as [[] ? ? ?]; exact Hw). reflexivity. }
  erewrite run_bind_done.
  2:{ erewrite run_bind_done by (apply Write_run; reflexivity). reflexivity. }
  destruct s as [[] ? ? ?]. cbn. rewrite <- app_assoc. reflexivity.
Qed.

(** A request whose body cannot be read is answered with status 500 and
    the read error, in every mode; nothing is sent to the backend and the
    store is left as it is. *)
Theorem unreadable_request_body_is_500 (h : Handler) (r : Request) (fs : os.FS) (err : string) :
  io_ReadAll (Body r) = Err err ->
  let s' := exec (ServeHTTP h r) (new_world fs) in
  status (client s') = 500%Z /\
  sentHeader (client s') !! "Content-Type" = Some ["text/plain; charset=utf-8"] /\
  body (client s') = bytes_of ("failed to read request body: " +:+ err) ++ ["010"%char] /\
  contacted s' = [] /\ disk s' = fs /\ logs s' = [LogReadBodyFailed err].
Proof.
  intros Hr. cbv zeta. unfold exec, ServeHTTP. rewrite Hr.
  erewrite run_bind_done by reflexivity.
  rewrite http_Error_500_run by reflexivity.
  repeat split; reflexivity.
Qed.

(** A handler whose mode is none of [replay], [record], [passthrough]
    answers every request with status 500 and names the mode; nothing is
    sent to the backend and the store is left as it is. *)
Theorem unknown_mode_is_500 (h : Handler) (r : Request) (fs : os.FS) requestHash bodyBytes :
  requestHash_of r = Ok (requestHash, bodyBytes) ->
  config.Mode_ (config_ h) <> config.ModeReplay ->
  config.Mode_ (config_ h) <> config.ModeRecord ->
  config.Mode_ (config_ h) <> config.ModePassthrough ->
  let s' := exec (ServeHTTP h r) (new_world fs) in
  status (client s') = 500%Z /\
  body (client s') = bytes_of ("unknown mode: " +:+ config.Mode_ (config_ h)) ++ ["010"%char] /\
  contacted s' = [] /\ disk s' = fs.
Proof.
  intros Hh H1 H2 H3. cbv zeta. unfold exec, ServeHTTP.
  unfold requestHash_of in Hh.
  destruct (io_ReadAll (Body r)) as [b|e]; [|discriminate]. cbn [Method URL_ RemoteAddr] in *.
  destruct (hash.Generate _ _ _) as [x|e]; [|discriminate].
  apply String.eqb_neq in H1, H2, H3. rewrite H1, H2, H3.
  erewrite run_bind_done by reflexivity.
  erewrite run_bind_done by reflexivity.
  rewrite http_Error_500_run by reflexivity.
  repeat split; reflexivity.
Qed.

(** In replay mode, a record file that is there but does not decode is
    answered with status 500 and the decoding error; nothing is sent to the
    backend and the store is left as it is. *)
Theorem replay_of_undecodable_record_is_500 (h : Handler) (r : Request) (fs : os.FS)
    requestHash bodyBytes (data : bytes) (e : string) :
  config.Mode_ (config_ h) = config.ModeReplay ->
  requestHash_of r = Ok (requestHash, bodyBytes) ->
  os.files fs !! storage.getFilename (storage_ h) requestHash = Some data ->
  storage.Unmarshal_CachedResponse data = Err e ->
  let s' := exec (ServeHTTP h r) (new_world fs) in
  status (client s') = 500%Z /\
  body (client s') =
    bytes_of ("failed to load cached response: failed to unmarshal cached response: " +:+ e)
    ++ ["010"%char] /\
  contacted s' = [] /\ disk s' = fs.
Proof.
  intros Hm Hh Hf Hu. cbv zeta. unfold exec.
  rewrite (ServeHTTP_replay _ _ _ _ Hm Hh).
  erewrite run_bind_done by reflexivity.
  unfold handleReplay. rewrite run_bind. cbn [get_disk disk new_world].
  unfold storage.Exists, storage.Load, os.Stat, os.ReadFile. cbn [os.files]. rewrite Hf, Hu.
  cbn [negb].
  erewrite run_bind_done by reflexivity.
  rewrite http_Error_500_run by reflexivity.
  repeat split; reflexivity.
Qed.

(** In replay mode the store is never written: whatever the request and
    whatever the world the handler starts in, the file system is the same
    afterwards. *)
Theorem replay_never_writes_the_store (h : Handler) (r : Request) (s : World) :
  config.Mode_ (config_ h) = config.ModeReplay ->
  disk (exec (ServeHTTP h r) s) = disk s /\ contacted (exec (ServeHTTP h r) s) = contacted s.
Proof.
  intros Hm. destruct (local_ServeHTTP_replay h r Hm) as [Hc Hd].
  split; [apply (Hd s)|apply (Hc s)].
Qed.

End Refusals.

(* ===================================================================== *)
(** * The shape of a fingerprint, and the files of the store *)
(* ===================================================================== *)

Section Fingerprint.
Import http proxy spec.

Lemma bytes_of_app (s t : string) : bytes_of (s +:+ t) = bytes_of s ++ bytes_of t.
Proof. induction s as [|c s IH]; [reflexivity|]. simpl. f_equal. exact IH. Qed.

Lemma string_of_length (l : bytes) : String.length (string_of l) = length l.
Proof. induction l as [|c l IH]; [reflexivity|]. simpl. f_equal. exact IH. Qed.

Lemma Sum256_length (msg : bytes) : length (sha256.Sum256 msg) = 32%nat.
Proof.
  unfold sha256.Sum256.
  destruct (sha256.blocks _ _ _) as [h0 h1 h2 h3 h4 h5 h6 h7].
  reflexivity.
Qed.

Lemma digit_lower_hex (n : Z) : lower_hex (hex.digit n) = true.
Proof.
  unfold hex.digit. destruct (Z.to_nat n) as [|k]; [reflexivity|].
  do 15 (destruct k as [|k]; [reflexivity|]). cbn. by destruct k.
Qed.

Lemma EncodeToString_hex (src : bytes) :
  String.length (hex.EncodeToString src) = (2 * length src)%nat /\
  forallb lower_hex (bytes_of (hex.EncodeToString src)) = true.
Proof.
  unfold hex.EncodeToString. rewrite string_of_length, list_ascii_of_string_of_list_ascii.
  induction src as [|c src [IH1 IH2]]; [done|].
  cbn [flat_map length app forallb]. rewrite IH1, IH2, !digit_lower_hex. split; [lia|done].
Qed.

(** Every fingerprint is a string of 64 hexadecimal digits in lower case:
    it holds no path separator, and its first 16 characters, which the log
    lines show, exist. *)
Theorem fingerprint_is_64_hex_digits (method path : string) (body : option Reader) (h : string) :
  hash.Generate method path body = Ok h ->
  String.length h = 64%nat /\ forallb lower_hex (bytes_of h) = true /\
  String.length (hash16 h) = 16%nat /\ String.prefix (hash16 h) h = true.
Proof.
  intros Hg.
  assert (Hh : exists msg, h = hex.EncodeToString (sha256.Sum256 msg)).
  { unfold hash.Generate in Hg. destruct body as [rd|].
    - destruct (rd_err rd); [discriminate|]. injection Hg as <-. eauto.
    - injection Hg as <-. eauto. }
  destruct Hh as [msg ->].
  destruct (EncodeToString_hex (sha256.Sum256 msg)) as [Hl Hx].
  rewrite Sum256_length in Hl. split; [exact Hl|]. split; [exact Hx|].
  revert Hl. generalize (hex.EncodeToString (sha256.Sum256 msg)). intros s Hl.
  assert (H16 : String.length (hash16 s) = 16%nat).
  { unfold hash16. do 16 (destruct s as [|? s]; [discriminate|]). by destruct s. }
  split; [exact H16|]. apply String.prefix_correct. by rewrite H16.
Qed.

(** The fingerprint only depends on the bytes of method, [:], path, [:]
    and body written one after the other: two requests that differ in
    where the path ends and the body begins have the same fingerprint. *)
Theorem fingerprint_of_the_concatenation (m p m' p' : string) (b b' : bytes) :
  bytes_of m ++ ":"%char :: bytes_of p ++ ":"%char :: b
  = bytes_of m' ++ ":"%char :: bytes_of p' ++ ":"%char :: b' ->
  hash.Generate m p (Some (bytes_NewReader b)) = hash.Generate m' p' (Some (bytes_NewReader b')).
Proof.
  intros Heq. unfold hash.Generate. cbn [rd_err rd_data bytes_NewReader].
  assert (Hcat : forall (m p : string) (b : bytes),
            bytes_of (m +:+ ":" +:+ p +:+ ":") ++ b
            = bytes_of m ++ ":"%char :: bytes_of p ++ ":"%char :: b).
  { intros m0 p0 b0. rewrite !bytes_of_app. simpl. rewrite <- !app_assoc. simpl.
    rewrite <- !app_assoc. reflexivity. }
  by rewrite !Hcat, Heq.
Qed.

Lemma fingerprint_of_the_concatenation_witness :
  ("/a", bytes_of ":x") <> ("/a:", bytes_of "x") /\
  hash.Generate "GET" "/a" (Some (bytes_NewReader (bytes_of ":x")))
  = hash.Generate "GET" "/a:" (Some (bytes_NewReader (bytes_of "x"))).
Proof.
  split; [discriminate|].
  apply (fingerprint_of_the_concatenation "GET" "/a" "GET" "/a:" (bytes_of ":x") (bytes_of "x")).
  reflexivity.
Defined.

Lemma fingerprint_is_64_hex_digits_witness :
  String.length Examples.hash_get_a = 64%nat /\
  forallb lower_hex (bytes_of Examples.hash_get_a) = true /\
  String.length (hash16 Examples.hash_get_a) = 16%nat /\
  String.prefix (hash16 Examples.hash_get_a) Examples.hash_get_a = true.
Proof.
  apply (fingerprint_is_64_hex_digits "GET" "/a" (Some (bytes_NewReader []))).
  vm_compute. reflexivity.
Defined.

End Fingerprint.

Section Store.
Import http proxy spec.
Context `{F : json.Float64}.





(** [Load] of a fingerprint that has no record fails, and [Exists] tells
    exactly whether the file is there. *)
Theorem Load_of_a_missing_record (st : storage.Storage) (fs : os.FS) (hash : string) :
  storage.Exists st fs hash = false ->
  storage.Load st fs hash
  = Err ("failed to read cached response: open " +:+ storage.getFilename st hash
         +:+ ": no such file or directory").
Proof.
  unfold storage.Exists, storage.Load, os.Stat, os.ReadFile.
  destruct (os.files fs !! storage.getFilename st hash); [discriminate|reflexivity].
Qed.

End Store.

(* ===================================================================== *)
(** * [stripConditionalHeaders] once and twice *)
(* ===================================================================== *)

Section StripTwice.
Import http proxy spec.

Lemma Header_Get_nonempty (hd : Header) (name : string) :
  Header_Get hd name <> "" -> is_Some (hd !! CanonicalMIMEHeaderKey name).
Proof.
  unfold Header_Get. destruct (hd !! CanonicalMIMEHeaderKey name) as [vs|]; [eauto|done].
Qed.

Lemma Header_Get_subseteq (hd hd' : Header) (name : string) :
  hd' ⊆ hd -> Header_Get hd name = "" -> Header_Get hd' name = "".
Proof.
  intros Hsub. unfold Header_Get.
  destruct (hd' !! CanonicalMIMEHeaderKey name) as [vs|] eqn:E; [|done].
  by rewrite (lookup_weaken _ _ _ _ E Hsub).
Qed.

Lemma strip_loop_cons (n : string) (names : list string) (hd : Header) (b : bool) :
  strip_loop (n :: names) (hd, b)
  = strip_loop names (if negb (String.eqb (Header_Get hd n) "")
                      then (Header_Del hd n, true) else (hd, b)).
Proof. reflexivity. Qed.

(** The loop only deletes; it reports a deletion exactly when the map has
    changed; afterwards no name of the list has a first value. *)
Lemma strip_loop_spec (names : list string) : forall (hd : Header) (b : bool),
  let '(hd', b') := strip_loop names (hd, b) in
  hd' ⊆ hd /\ b' = b || bool_decide (hd' <> hd) /\
  (forall n, n ∈ names -> Header_Get hd' n = "").
Proof.
  induction names as [|n names IH]; intros hd b.
  - cbn. split; [done|]. split.
    + rewrite bool_decide_eq_false_2 by (intros Hne; by apply Hne). by rewrite orb_false_r.
    + intros n Hn. by apply elem_of_nil in Hn.
  - rewrite strip_loop_cons.
    destruct (String.eqb_spec (Header_Get hd n) "") as [He|He]; cbn [negb].
    + specialize (IH hd b). destruct (strip_loop names (hd, b)) as [hd' b'].
      cbv beta iota in IH. destruct IH as (Hsub & Hb & Hg). split; [done|]. split; [done|].
      intros n' Hn'. apply elem_of_cons in Hn' as [->|Hn']; [|by apply Hg].
      by apply (Header_Get_subseteq hd).
    + specialize (IH (Header_Del hd n) true).
      destruct (strip_loop names (Header_Del hd n, true)) as [hd' b'].
      cbv beta iota in IH. destruct IH as (Hsub & Hb & Hg).
      assert (Hdel : Header_Del hd n ⊆ hd) by apply delete_subseteq.
      assert (Hnone : hd' !! CanonicalMIMEHeaderKey n = None).
      { apply (lookup_weaken_None _ _ _ (lookup_delete_eq hd (CanonicalMIMEHeaderKey n))).
        exact Hsub. }
      split; [by trans (Header_Del hd n)|]. split.
      * rewrite Hb. cbn [orb]. rewrite bool_decide_eq_true_2; [by rewrite orb_true_r|].
        intros ->. destruct (Header_Get_nonempty _ _ He) as [vs Hvs]. congruence.
      * intros n' Hn'. apply elem_of_cons in Hn' as [->|Hn']; [|by apply Hg].
        unfold Header_Get. by rewrite Hnone.
Qed.

(** On a map in which no name of the list has a first value the loop
    does nothing. *)
Lemma strip_loop_stay (names : list string) : forall (hd : Header) (b : bool),
  (forall n, n ∈ names -> Header_Get hd n = "") -> strip_loop names (hd, b) = (hd, b).
Proof.
  induction names as [|n names IH]; intros hd b Hg; [done|].
  rewrite strip_loop_cons, (Hg n) by (by left). cbn [String.eqb negb].
  apply IH. intros n' Hn'. apply Hg. by right.
Qed.

Lemma stripConditionalHeaders_eq (req : Request) :
  stripConditionalHeaders req =
  let l := strip_loop conditionalHeaders (Header_ req, false) in
  let del := String.eqb (Header_Get (fst l) "Cache-Control") "no-cache" ||
             String.eqb (Header_Get (fst l) "Cache-Control") "max-age=0" in
  (mkRequest (Method req) (URL_ req)
             (if del then Header_Del (fst l) "Cache-Control" else fst l)
             (Body req) (Host req) (RemoteAddr req),
   if del then true else snd l).
Proof.
  unfold stripConditionalHeaders, strip_loop.
  destruct (fold_left _ conditionalHeaders (Header_ req, false)) as [hd b]. cbn [fst snd].
  by destruct (_ || _).
Qed.

(** [stripConditionalHeaders] only deletes headers; it returns [true]
    exactly when it has deleted one; and on its own result it deletes
    nothing and returns [false]. The request is otherwise left as it is. *)
Theorem stripConditionalHeaders_reports_and_settles (req : Request) :
  let req' := fst (stripConditionalHeaders req) in
  let stripped := snd (stripConditionalHeaders req) in
  Header_ req' ⊆ Header_ req /\
  (stripped = true <-> Header_ req' <> Header_ req) /\
  stripConditionalHeaders req' = (req', false) /\
  (Method req', URL_ req', Body req', Host req', RemoteAddr req')
  = (Method req, URL_ req, Body req, Host req, RemoteAddr req).
Proof.
  cbv zeta. rewrite stripConditionalHeaders_eq. cbv zeta.
  pose proof (strip_loop_spec conditionalHeaders (Header_ req) false) as H1.
  destruct (strip_loop conditionalHeaders (Header_ req, false)) as [hd1 b1].
  cbv beta iota in H1. destruct H1 as (Hsub1 & Hb1 & Hg1). cbn [orb] in Hb1.
  cbn [fst snd Header_ Method URL_ Body Host RemoteAddr].
  destruct (String.eqb (Header_Get hd1 "Cache-Control") "no-cache" ||
            String.eqb (Header_Get hd1 "Cache-Control") "max-age=0") eqn:Ecc;
    cbn [fst snd Header_ Method URL_ Body Host RemoteAddr].
  - (* Cache-Control is deleted *)
    assert (Hcc : is_Some (hd1 !! "Cache-Control")).
    { apply (Header_Get_nonempty hd1 "Cache-Control"). intros E. rewrite E in Ecc.
      discriminate. }
    assert (Hsub2 : Header_Del hd1 "Cache-Control" ⊆ hd1) by apply delete_subseteq.
    assert (Hgone : Header_Del hd1 "Cache-Control" !! "Cache-Control" = None)
      by apply lookup_delete_eq.
    split; [by trans hd1|]. split.
    { split; [|done]. intros _ Heq. destruct Hcc as [vs Hvs].
      assert (Hin : Header_ req !! "Cache-Control" = Some vs) by (by apply (lookup_weaken hd1)).
      rewrite <- Heq in Hin. congruence. }
    split; [|reflexivity].
    rewrite stripConditionalHeaders_eq. cbv zeta. cbn [Header_ Method URL_ Body Host RemoteAddr].
    rewrite strip_loop_stay.
    2:{ intros n Hn. apply (Header_Get_subseteq hd1); [done|by apply Hg1]. }
    assert (Hget : Header_Get (Header_Del hd1 "Cache-Control") "Cache-Control" = "").
    { unfold Header_Get. change (CanonicalMIMEHeaderKey "Cache-Control") with "Cache-Control".
      by rewrite Hgone. }
    cbn [fst snd]. rewrite Hget. reflexivity.
  - split; [done|]. split.
    { rewrite Hb1. split; [by intros ?%bool_decide_eq_true|by intros ?; apply bool_decide_eq_true]. }
    split; [|reflexivity].
    rewrite stripConditionalHeaders_eq. cbv zeta. cbn [Header_ Method URL_ Body Host RemoteAddr].
    rewrite strip_loop_stay by exact Hg1. cbn [fst snd]. rewrite Ecc. reflexivity.
Qed.

End StripTwice.

(* ===================================================================== *)
(** * Passthrough mode *)
(* ===================================================================== *)

Section Passthrough.
Import http proxy spec Examples.
Context `{F : json.Float64} `{R : MapRange}.











End Passthrough.

Section PassthroughExample.
Import http proxy spec Examples.


End PassthroughExample.

(* ===================================================================== *)
(** * What record mode hands to the store *)
(* ===================================================================== *)

Section Canonical.
Import http proxy spec.

Lemma canonical_char (u : bool) (c : ascii) :
  let f := fun (u : bool) (c : ascii) =>
             if u && is_lower c then to_upper c
             else if negb u && is_upper c then to_lower c else c in
  f u (f u c) = f u c /\ (validHeaderFieldByte c = true -> validHeaderFieldByte (f u c) = true).
Proof.
  destruct u; destruct c as [[] [] [] [] [] [] [] []]; vm_compute; split; first [reflexivity|done].
Qed.

Lemma canonical_loop_idem (a : bytes) : forall u,
  canonical_loop u (canonical_loop u a) = canonical_loop u a /\
  (forallb validHeaderFieldByte a = true ->
   forallb validHeaderFieldByte (canonical_loop u a) = true).
Proof.
  induction a as [|c a IH]; intros u; [done|].
  cbn [canonical_loop forallb]. destruct (canonical_char u c) as [H1 H2]. cbv zeta beta in H1, H2.
  rewrite H1. split.
  - f_equal. apply IH.
  - intros [Hc Ha]%andb_true_iff. rewrite H2 by done. cbn [andb]. by apply IH.
Qed.

(** The canonical form of a header name is canonical. *)
Lemma CanonicalMIMEHeaderKey_idem (s : string) :
  CanonicalMIMEHeaderKey (CanonicalMIMEHeaderKey s) = CanonicalMIMEHeaderKey s.
Proof.
  unfold CanonicalMIMEHeaderKey.
  destruct (forallb validHeaderFieldByte (bytes_of s)) eqn:E; [|by rewrite E].
  rewrite list_ascii_of_string_of_list_ascii.
  destruct (canonical_loop_idem (bytes_of s) true) as [H1 H2].
  by rewrite H2, H1.
Qed.

Lemma canonical_keys_empty : canonical_keys ∅.
Proof. intros k vs Hk. by rewrite lookup_empty in Hk. Qed.

Lemma canonical_keys_insert (h : Header) (k : string) (vs : list string) :
  canonical_keys h -> CanonicalMIMEHeaderKey k = k -> canonical_keys (<[k := vs]> h).
Proof.
  intros Hc Hk k' vs' Hin. apply lookup_insert_Some in Hin as [[<- _]|[_ Hin]]; [done|].
  by apply (Hc k' vs').
Qed.

(** The methods of [http.Header] keep the names of a map canonical. *)
Lemma canonical_keys_apply_op (h : Header) (op : rwop) :
  canonical_keys h -> canonical_keys (apply_op h op).
Proof.
  intros Hc. destruct op as [k v|k v|k|code|b]; cbn [apply_op]; try done.
  - apply canonical_keys_insert; [done|apply CanonicalMIMEHeaderKey_idem].
  - apply canonical_keys_insert; [done|apply CanonicalMIMEHeaderKey_idem].
  - intros k' vs' Hin. unfold Header_Del in Hin. apply lookup_delete_Some in Hin as [_ Hin].
    by apply (Hc k' vs').
Qed.

Lemma canonical_keys_apply_ops (ops : list rwop) : forall h : Header,
  canonical_keys h -> canonical_keys (fold_left apply_op ops h).
Proof.
  induction ops as [|op ops IH]; intros h Hc; cbn [fold_left]; [exact Hc|].
  apply IH. by apply canonical_keys_apply_op.
Qed.

End Canonical.

Section Recorded.
Import http proxy spec.
Context `{F : json.Float64} `{R : MapRange}.

Lemma snapshot_fields (l : list (string * list string)) : forall rc : responseCapturer,
  statusCode (snapshot l rc) = statusCode rc /\ body_ (snapshot l rc) = body_ rc /\
  headers (snapshot l rc) = fold_left (fun h kv => <[fst kv := snd kv]> h) l (headers rc).
Proof.
  induction l as [|kv l IH]; intros rc; [done|].
  change (snapshot (kv :: l) rc)
    with (snapshot l (mkCapturer (statusCode rc) (<[fst kv := snd kv]> (headers rc)) (body_ rc))).
  cbn [fold_left].
  destruct (IH (mkCapturer (statusCode rc) (<[fst kv := snd kv]> (headers rc))
                                              (body_ rc))) as (H1 & H2 & H3).
  rewrite H1, H2, H3. done.
Qed.

Lemma insert_all_union (l : list (string * list string)) : forall h : Header,
  NoDup (l.*1) ->
  fold_left (fun h kv => <[fst kv := snd kv]> h) l h = list_to_map l ∪ h.
Proof.
  induction l as [|[k v] l IH]; intros h Hnd; cbn [fold_left fst snd].
  - by rewrite list_to_map_nil, (left_id_L ∅ (∪)).
  - rewrite fmap_cons in Hnd. apply NoDup_cons in Hnd as [Hk Hnd]. rewrite IH by done.
    rewrite list_to_map_cons, <- insert_union_l. rewrite insert_union_r; [done|].
    by apply not_elem_of_list_to_map_1.
Qed.

(** Whatever the order of the iteration, the loop of
    [responseCapturer.WriteHeader] copies every entry of the header map of
    the writer over the entries it holds. *)
Lemma snapshot_headers (hd : Header) (rc : responseCapturer) :
  headers (snapshot (range hd) rc) = hd ∪ headers rc.
Proof.
  destruct (snapshot_fields (range hd) rc) as (_ & _ & ->).
  assert (Hnd : NoDup ((range hd).*1)).
  { rewrite (range_perm hd). apply NoDup_fst_map_to_list. }
  rewrite insert_all_union by done. f_equal.
  rewrite <- (list_to_map_to_list hd) at 2.
  apply list_to_map_proper; [done|apply range_perm].
Qed.

(** The capturer under an operation on the header map. *)
Lemma capturer_header_op (rc : responseCapturer) (op : rwop) (s : World) :
  header_op op = true ->
  run_op rc op s = (Done rc, with_client s (set_handlerHeader (client s)
                                              (apply_op (handlerHeader (client s)) op))).
Proof. destruct op; try discriminate; intros _; reflexivity. Qed.

Lemma capturer_header_ops (ops : list rwop) : forall (rc : responseCapturer) (s : World),
  forallb header_op ops = true ->
  run_ops rc ops s = (Done rc, with_client s (set_handlerHeader (client s)
                                               (fold_left apply_op ops (handlerHeader (client s))))).
Proof.
  induction ops as [|op ops IH]; intros rc s Hops; cbn [run_ops fold_left].
  - destruct s as [[] ? ? ?]. reflexivity.
  - apply andb_true_iff in Hops as [Hop Hops].
    erewrite run_bind_done by (by apply capturer_header_op). rewrite IH by done.
    destruct s as [[] ? ? ?]. reflexivity.
Qed.

(** The capturer under a body write, once a final status is committed. *)
Lemma capturer_write_op (rc : responseCapturer) (b : bytes) (s : World) :
  wroteHeader (client s) = true ->
  run_op rc (OpWrite b) s =
    (Done (mkCapturer (statusCode rc) (headers rc) (body_ rc ++ b)),
     with_client s
       (mkResponse (handlerHeader (client s)) true (status (client s)) (sentHeader (client s))
                   (informational (client s))
                   (body (client s) ++ (if bodyAllowedForStatus (status (client s)) then b else []))
                   (calls (client s) ++ [CallWrite b]))).
Proof.
  intros Hw. destruct s as [[hh wh stt sh inf bd cl] fs lg ct]. cbn in Hw. subst wh.
  cbn [run_op Write capturer_writer]. unfold capturer_Write, response_Write, commit_header.
  unfold mbind, M_bind, mret, M_ret, get_client, put_client.
  cbn -[bodyAllowedForStatus].
  destruct b as [|c b]; cbn -[bodyAllowedForStatus].
  - unfold record_call, with_client. cbn -[bodyAllowedForStatus].
    destruct (bodyAllowedForStatus stt); rewrite ?app_nil_r; reflexivity.
  - unfold record_call, with_client.
    destruct (bodyAllowedForStatus stt); cbn; rewrite ?app_nil_r; reflexivity.
Qed.

Lemma capturer_write_ops (ops : list rwop) : forall (rc : responseCapturer) (s : World),
  forallb write_op ops = true ->
  wroteHeader (client s) = true ->
  run_ops rc ops s =
    (Done (mkCapturer (statusCode rc) (headers rc) (body_ rc ++ concat (writes ops))),
     with_client s
       (mkResponse (handlerHeader (client s)) true (status (client s)) (sentHeader (client s))
                   (informational (client s))
                   (body (client s) ++
                    (if bodyAllowedForStatus (status (client s)) then concat (writes ops) else []))
                   (calls (client s) ++ map CallWrite (writes ops)))).
Proof.
  induction ops as [|op ops IH]; intros rc s Hops Hw; cbn [run_ops].
  - destruct rc, s as [[] ? ? ?]. cbn in Hw. subst. unfold with_client.
    cbn -[bodyAllowedForStatus].
    destruct (bodyAllowedForStatus _); rewrite ?app_nil_r; reflexivity.
  - apply andb_true_iff in Hops as [Hop Hops]. destruct op as [| | | |b]; try discriminate.
    erewrite run_bind_done by (by apply capturer_write_op).
    rewrite IH by done. cbn [client with_client statusCode headers body_ handlerHeader status
                              sentHeader informational body calls writes flat_map concat app map].
    destruct s as [[] ? ? ?]. unfold with_client. cbn -[bodyAllowedForStatus].
    rewrite <- !app_assoc. cbn [app].
    destruct (bodyAllowedForStatus _); rewrite ?app_nil_r; reflexivity.
Qed.

End Recorded.

Section RecordedResponse.
Import http proxy spec.
Context `{F : json.Float64} `{R : MapRange}.

(** The capturer under a status write with a final code, on a writer that
    has committed nothing. *)
Lemma capturer_status_op (rc : responseCapturer) (code : Z) (s : World) :
  wroteHeader (client s) = false ->
  final_code code = true ->
  run_op rc (OpWriteHeader code) s =
    (Done (mkCapturer code (handlerHeader (client s) ∪ headers rc) (body_ rc)),
     with_client s
       (mkResponse (handlerHeader (client s)) true code (handlerHeader (client s))
                   (informational (client s)) (body (client s))
                   (calls (client s) ++ [CallWriteHeader code]))).
Proof.
  intros Hw Hf. cbn [run_op WriteHeader capturer_writer]. unfold capturer_WriteHeader.
  rewrite run_bind. cbn [get_client]. rewrite run_bind.
  rewrite WriteHeader_run by exact Hw.
  unfold final_code, valid_code in Hf. apply andb_true_iff in Hf as [Hv Hi].
  assert (H1 : ((code <? 100) || (999 <? code))%Z = false) by lia.
  assert (H2 : ((100 <=? code) && (code <=? 199) && negb (code =? 101))%Z = false).
  { apply negb_true_iff in Hi. rewrite <- andb_assoc, Hi. apply andb_false_r. }
  cbv zeta. rewrite H1, H2. unfold mret, M_ret. f_equal.
  fold (snapshot (range (handlerHeader (client s)))
                 (mkCapturer code (headers rc) (body_ rc))).
  pose proof (snapshot_fields (range (handlerHeader (client s)))
                              (mkCapturer code (headers rc) (body_ rc))) as (Hs & Hb & _).
  pose proof (snapshot_headers (handlerHeader (client s))
                               (mkCapturer code (headers rc) (body_ rc))) as Hh.
  destruct (snapshot _ _) as [c h b]. cbn in *. by subst.
Qed.

(** The capturer under the calls of a plain exchange: operations on the
    header map, one status write with a final code, body writes. *)
Lemma capturer_plain_exchange (pre post : list rwop) (code : Z) (s : World) :
  client s = new_response ->
  forallb header_op pre = true -> forallb write_op post = true -> final_code code = true ->
  let hd := fold_left apply_op pre ∅ in
  run_ops (mkCapturer StatusOK ∅ []) (pre ++ OpWriteHeader code :: post) s =
    (Done (mkCapturer code hd (concat (writes post))),
     with_client s
       (mkResponse hd true code hd []
                   (if bodyAllowedForStatus code then concat (writes post) else [])
                   (CallWriteHeader code :: map CallWrite (writes post)))).
Proof.
  intros Hc Hpre Hpost Hf. cbv zeta.
  assert (Happ : forall (l1 l2 : list rwop) (rc : responseCapturer) (s0 s1 : World) rc1,
            run_ops rc l1 s0 = (Done rc1, s1) -> run_ops rc (l1 ++ l2) s0 = run_ops rc1 l2 s1).
  { induction l1 as [|op l1 IH]; intros l2 rc s0 s1 rc1 Hrun; cbn [run_ops app] in *.
    - by injection Hrun as -> ->.
    - rewrite run_bind in *. destruct (run_op rc op s0) as [[rc'|msg] s']; [|discriminate].
      by apply IH. }
  rewrite (Happ _ _ _ _ _ _ (capturer_header_ops pre _ s Hpre)).
  cbn [run_ops]. erewrite run_bind_done.
  2:{ apply capturer_status_op; [by rewrite Hc|exact Hf]. }
  rewrite capturer_write_ops by done.
  rewrite Hc. cbn -[bodyAllowedForStatus]. rewrite (right_id_L ∅ (∪)). reflexivity.
Qed.

Lemma director_record_run backendURL req s :
  exists l, director config.ModeRecord backendURL req s
            = (Done (outgoing backendURL req), with_logs s (logs s ++ l)).
Proof.
  unfold director, outgoing.
  change (String.eqb config.ModeRecord config.ModeRecord) with true. cbv iota.
  destruct (stripConditionalHeaders _) as [req' [|]].
  - exists [LogStripped]. reflexivity.
  - exists []. destruct s. cbn. by rewrite app_nil_r.
Qed.

(** In record mode, when the reverse proxy makes the calls of a plain
    exchange (operations on the header map, one status write with a final
    code, body writes), the record handed to the store has the method and
    the path of the request, the status and the headers that were sent to
    the client, and all the body bytes the proxy wrote; the names of its
    headers are canonical. *)
Theorem record_is_the_response_sent (cfg : config.Config) (st : storage.Storage)
    (backendURL : URL) (transport : Request -> list rwop) (r : Request) (fs : os.FS)
    requestHash bodyBytes (pre post : list rwop) (code : Z) :
  config.Mode_ cfg = config.ModeRecord ->
  requestHash_of r = Ok (requestHash, bodyBytes) ->
  transport (outgoing backendURL (restored r bodyBytes)) = pre ++ OpWriteHeader code :: post ->
  forallb header_op pre = true -> forallb write_op post = true -> final_code code = true ->
  let s' := exec (ServeHTTP (New cfg st backendURL transport) r) (new_world fs) in
  let cached := storage.mkCachedResponse (Method r) (Path (URL_ r)) (status (client s'))
                                         (sentHeader (client s')) (concat (writes post)) in
  disk s' = snd (storage.Save st fs requestHash cached) /\
  status (client s') = code /\
  sentHeader (client s') = fold_left apply_op pre ∅ /\
  body (client s') = (if bodyAllowedForStatus code then concat (writes post) else []) /\
  canonical_keys (sentHeader (client s')).
Proof.
  intros Hm Hh Ht Hpre Hpost Hf. cbv zeta. unfold exec.
  rewrite (ServeHTTP_record (New cfg st backendURL transport) r requestHash bodyBytes Hm Hh).
  rewrite run_bind. cbn [logf]. rewrite handleRecord_run.
  unfold capture, ReverseProxy_ServeHTTP. cbn [New proxy_ Director Transport config_ storage_].
  rewrite Hm. rewrite run_bind. cbn [logf]. rewrite run_bind, run_bind.
  change (mkRequest (Method (restored r bodyBytes)) (URL_ (restored r bodyBytes))
                    (Header_ (restored r bodyBytes)) (bytes_NewReader bodyBytes)
                    (Host (restored r bodyBytes)) (RemoteAddr (restored r bodyBytes)))
    with (restored r bodyBytes).
  match goal with |- context [director _ ?u ?q ?w] =>
    destruct (director_record_run u q w) as (l & ->) end.
  rewrite run_bind. cbn [contact]. rewrite Ht.
  rewrite capturer_plain_exchange by done.
  cbv zeta. unfold mret, M_ret, with_client, with_logs.
  cbn -[bodyAllowedForStatus storage.Save].
  split; [reflexivity|]. split; [reflexivity|]. split; [reflexivity|]. split; [reflexivity|].
  apply canonical_keys_apply_ops, canonical_keys_empty.
Qed.

End RecordedResponse.

Section RefusalWitnesses.
Import http proxy spec Examples ReplayExamples RecordExamples RefusalExamples.

Lemma unreadable_request_body_is_500_witness :
  let s' := @exec unit (@ServeHTTP literal_floats range_in_order (handler config.ModeRecord)
                                   broken_request) (new_world writable_store) in
  status (client s') = 500%Z /\
  sentHeader (client s') !! "Content-Type" = Some ["text/plain; charset=utf-8"] /\
  body (client s') = bytes_of "failed to read request body: unexpected EOF" ++ ["010"%char] /\
  contacted s' = [] /\ disk s' = writable_store /\ logs s' = [LogReadBodyFailed "unexpected EOF"].
Proof.
  apply (@unreadable_request_body_is_500 literal_floats range_in_order
           (handler config.ModeRecord) broken_request writable_store "unexpected EOF").
  reflexivity.
Defined.

Lemma unknown_mode_is_500_witness :
  let s' := @exec unit (@ServeHTTP literal_floats range_in_order (handler "Replay")
                                   (get "/a" "" ∅)) (new_world hello_file) in
  status (client s') = 500%Z /\
  body (client s') = bytes_of "unknown mode: Replay" ++ ["010"%char] /\
  contacted s' = [] /\ disk s' = hello_file.
Proof.
  apply (@unknown_mode_is_500 literal_floats range_in_order (handler "Replay") (get "/a" "" ∅)
           hello_file hash_get_a []); [vm_compute; reflexivity|discriminate..].
Defined.

Lemma replay_of_undecodable_record_is_500_witness :
  let s' := replay_of garbled_file in
  status (client s') = 500%Z /\
  body (client s') =
    bytes_of ("failed to load cached response: failed to unmarshal cached response: "
              +:+ "invalid character") ++ ["010"%char] /\
  contacted s' = [] /\ disk s' = garbled_file.
Proof.
  apply (@replay_of_undecodable_record_is_500 literal_floats range_in_order
           (handler config.ModeReplay) (get "/a" "" ∅) garbled_file hash_get_a []
           (bytes_of "<html>") "invalid character").
  - reflexivity.
  - vm_compute. reflexivity.
  - vm_compute. reflexivity.
  - vm_compute. reflexivity.
Defined.

Lemma replay_never_writes_the_store_witness :
  disk (replay_of hello_file) = hello_file /\ contacted (replay_of hello_file) = [].
Proof.
  apply (@replay_never_writes_the_store literal_floats range_in_order
           (handler config.ModeReplay) (get "/a" "" ∅) (new_world hello_file)).
  reflexivity.
Defined.

Lemma record_is_the_response_sent_witness :
  let s' := record_of answer_hello (get "/a" "" ∅) writable_store in
  let cached := storage.mkCachedResponse "GET" "/a" (status (client s')) (sentHeader (client s'))
                                         (bytes_of "hello") in
  disk s' = snd (@storage.Save literal_floats st writable_store hash_get_a cached) /\
  status (client s') = 200%Z /\
  sentHeader (client s') = {["Content-Type" := ["text/plain"]]} /\
  body (client s') = bytes_of "hello" /\
  canonical_keys (sentHeader (client s')).
Proof.
  apply (@record_is_the_response_sent literal_floats range_in_order
           (cfg config.ModeRecord) st backendURL answer_hello (get "/a" "" ∅) writable_store
           hash_get_a [] [OpHeaderAdd "Content-Type" "text/plain"] [OpWrite (bytes_of "hello")]
           200%Z); reflexivity.
Defined.

End RefusalWitnesses.

(* ===================================================================== *)
(** * The parser reads back what the encoder prints *)
(* ===================================================================== *)

Section Trees.
Import json syntax.

Lemma tree_ind' (P : tree -> Prop) :
  (forall text v, P (TScalar text v)) ->
  (forall raw, P (TString raw)) ->
  (forall l, Forall P l -> P (TArray l)) ->
  (forall l, Forall (fun kv => P (snd kv)) l -> P (TObject l)) ->
  forall t, P t.
Proof.
  intros Hs Hstr Ha Ho. fix IH 1. intros [text v|raw|l|l].
  - apply Hs.
  - apply Hstr.
  - apply Ha. induction l as [|x l IHl]; constructor; [apply IH|exact IHl].
  - apply Ho. induction l as [|[k x] l IHl]; constructor; [apply IH|exact IHl].
Qed.

(** ** White space *)

Lemma skip_space_spaces (ws s : bytes) :
  forallb is_space ws = true -> skip_space (ws ++ s) = skip_space s.
Proof.
  induction ws as [|c ws IH]; [done|]. cbn [forallb app skip_space].
  intros [Hc Hws]%andb_true_iff. rewrite Hc. by apply IH.
Qed.

Lemma skip_space_head (c : ascii) (s : bytes) :
  is_space c = false -> skip_space (c :: s) = c :: s.
Proof. intros Hc. cbn [skip_space]. by rewrite Hc. Qed.

Lemma newline_spaces (d : nat) : forallb is_space (newline d) = true.
Proof.
  unfold newline. cbn [forallb]. replace (is_space "010") with true by reflexivity.
  cbn [andb]. induction d as [|d IH]; [done|]. cbn [repeat concat]. by rewrite forallb_app, IH.
Qed.

Lemma nl_spaces (ind : option nat) : forallb is_space (nl ind) = true.
Proof. destruct ind; [apply newline_spaces|done]. Qed.

Lemma sp_spaces (ind : option nat) : forallb is_space (sp ind) = true.
Proof. by destruct ind. Qed.

(** ** String literals *)

Lemma literal_scan (e : bytes) : literal e ->
  forall rest, scan_string SNormal (e ++ dquote :: rest) = Some (e, rest).
Proof.
  induction 1 as [|c e Hc Hq Hb _ IH|c e Hc _ IH|a b c d e Ha Hb Hc Hd _ IH]; intros rest.
  - reflexivity.
  - cbn [app scan_string].
    apply Ascii.eqb_neq in Hq, Hb. rewrite Hq, Hb.
    replace (byte_val c <? 32)%Z with false by lia. by rewrite IH.
  - cbn [app scan_string]. rewrite Ascii.eqb_refl.
    change (Ascii.eqb backslash dquote) with false. cbv iota.
    rewrite Hc. by rewrite IH.
  - cbn [app scan_string]. rewrite Ascii.eqb_refl.
    change (Ascii.eqb backslash dquote) with false. cbv iota.
    change (existsb (Ascii.eqb "u") (dquote :: bytes_of "bfnrt\/")) with false. cbv iota.
    change (Ascii.eqb "u" "u") with true. cbv iota.
    rewrite Ha, Hb, Hc, Hd, IH. reflexivity.
Qed.

Lemma literal_indent (e : bytes) : literal e ->
  forall (n : bool) (d : nat) (rest : bytes),
    indent_loop Inside n d (e ++ dquote :: rest) = e ++ dquote :: indent_loop Outside n d rest.
Proof.
  induction 1 as [|c e Hc Hq Hb _ IH|c e Hc _ IH|a b c d0 e Ha Hb Hc Hd _ IH]; intros n d rest.
  - reflexivity.
  - cbn [app indent_loop step_string].
    apply Ascii.eqb_neq in Hq, Hb. rewrite Hq, Hb. by rewrite IH.
  - cbn [app indent_loop step_string].
    change (Ascii.eqb backslash dquote) with false. rewrite Ascii.eqb_refl. cbv iota.
    cbn [indent_loop step_string]. by rewrite IH.
  - assert (Hx : forall x, is_hex x = true ->
                           Ascii.eqb x dquote = false /\ Ascii.eqb x backslash = false).
    { intros x Hx. split; apply Ascii.eqb_neq; intros ->; discriminate. }
    cbn [app indent_loop step_string].
    change (Ascii.eqb backslash dquote) with false. rewrite Ascii.eqb_refl. cbv iota.
    cbn [indent_loop step_string].
    destruct (Hx a Ha) as [E1 E2]. rewrite E1, E2. cbn [indent_loop step_string].
    destruct (Hx b Hb) as [E3 E4]. rewrite E3, E4. cbn [indent_loop step_string].
    destruct (Hx c Hc) as [E5 E6]. rewrite E5, E6. cbn [indent_loop step_string].
    destruct (Hx d0 Hd) as [E7 E8]. rewrite E7, E8. cbn [indent_loop step_string].
    by rewrite IH.
Qed.

End Trees.

Section Parsing.
Import json syntax.

(** ** The parser on a printed tree *)

Lemma parse_value_S (fuel : nat) (depth : N) (s : bytes) :
  parse_value (S fuel) depth s =
  match skip_space s with
  | [] => None
  | c :: r =>
      if Ascii.eqb c "{" then
        if (maxNestingDepth <? depth + 1)%N then None
        else match skip_space r with
             | c' :: r' => if Ascii.eqb c' "}" then Some (JObject [], r')
                           else parse_members fuel (depth + 1)%N r []
             | [] => None
             end
      else if Ascii.eqb c "[" then
        if (maxNestingDepth <? depth + 1)%N then None
        else match skip_space r with
             | c' :: r' => if Ascii.eqb c' "]" then Some (JArray [], r')
                           else parse_elements fuel (depth + 1)%N r []
             | [] => None
             end
      else if Ascii.eqb c dquote then
        match scan_string SNormal r with
        | Some (raw, r') => Some (JString (unquote 0 raw), r')
        | None => None
        end
      else if Ascii.eqb c "-" || http.is_digit c then
        match scan_number (c :: r) with
        | Some (l, r') => Some (JNumber l, r')
        | None => None
        end
      else if Ascii.eqb c "t" then
        option_map (fun r' => (JBool true, r')) (strip_prefix (bytes_of "rue") r)
      else if Ascii.eqb c "f" then
        option_map (fun r' => (JBool false, r')) (strip_prefix (bytes_of "alse") r)
      else if Ascii.eqb c "n" then
        option_map (fun r' => (JNull, r')) (strip_prefix (bytes_of "ull") r)
      else None
  end.
Proof. reflexivity. Qed.

Lemma parse_members_S (fuel : nat) (depth : N) (s : bytes) (acc : list (bytes * bytes * value)) :
  parse_members (S fuel) depth s acc =
  match skip_space s with
  | q :: r =>
      if Ascii.eqb q dquote then
        match scan_string SNormal r with
        | Some (kraw, r1) =>
            match skip_space r1 with
            | c :: r2 =>
                if Ascii.eqb c ":" then
                  let r2 := skip_space r2 in
                  match parse_value fuel depth r2 with
                  | Some (v, r3) =>
                      let raw := firstn (length r2 - length r3) r2 in
                      let acc := acc ++ [(unquote 0 kraw, raw, v)] in
                      match skip_space r3 with
                      | c' :: r4 =>
                          if Ascii.eqb c' "," then parse_members fuel depth r4 acc
                          else if Ascii.eqb c' "}" then Some (JObject acc, r4)
                          else None
                      | [] => None
                      end
                  | None => None
                  end
                else None
            | [] => None
            end
        | None => None
        end
      else None
  | [] => None
  end.
Proof. reflexivity. Qed.

Lemma parse_elements_S (fuel : nat) (depth : N) (s : bytes) (acc : list value) :
  parse_elements (S fuel) depth s acc =
  match parse_value fuel depth s with
  | Some (v, r) =>
      let acc := acc ++ [v] in
      match skip_space r with
      | c :: r' =>
          if Ascii.eqb c "," then parse_elements fuel depth r' acc
          else if Ascii.eqb c "]" then Some (JArray acc, r')
          else None
      | [] => None
      end
  | None => None
  end.
Proof. reflexivity. Qed.

Lemma parse_value_spaces (fuel : nat) (depth : N) (ws s : bytes) :
  forallb is_space ws = true -> parse_value fuel depth (ws ++ s) = parse_value fuel depth s.
Proof.
  intros Hws. destruct fuel as [|fuel]; [reflexivity|].
  by rewrite !parse_value_S, skip_space_spaces.
Qed.

Lemma digit_not_space (c : ascii) : http.is_digit c = true -> is_space c = false.
Proof. destruct c as [[] [] [] [] [] [] [] []]; try discriminate; reflexivity. Qed.

Lemma digit_opener (c : ascii) : http.is_digit c = true -> opener c.
Proof.
  destruct c as [[] [] [] [] [] [] [] []]; try discriminate; intros _;
    repeat split; try reflexivity; discriminate.
Qed.

Lemma print_head (ind : option nat) (t : tree) :
  wf t -> exists c r, print ind t = c :: r /\ opener c.
Proof.
  assert (Hop : forall c : ascii, is_space c = false -> c <> "]"%char -> c <> "}"%char ->
                         c <> ","%char -> c <> ":"%char -> opener c)
    by (intros; by repeat split).
  destruct t as [text v|raw|[|x l]|[|kv l]]; cbn [wf print]; intros Hwf.
  - destruct Hwf as [[-> _]|[[-> _]|[[-> _]|[[(c & r & -> & Hc) _] _]]]].
    1-3: eexists _, _; split; [reflexivity|]; by apply Hop.
    eexists _, _; split; [reflexivity|].
    destruct Hc as [->|Hc]; [by apply Hop|by apply digit_opener].
  - eexists _, _; split; [reflexivity|]. by apply Hop.
  - eexists _, _; split; [reflexivity|]. by apply Hop.
  - eexists _, _; split; [reflexivity|]. by apply Hop.
  - eexists _, _; split; [reflexivity|]. by apply Hop.
  - eexists _, _; split; [reflexivity|]. by apply Hop.
Qed.

Lemma skip_space_print (ind : option nat) (t : tree) (ws rest : bytes) :
  wf t -> forallb is_space ws = true ->
  skip_space (ws ++ print ind t ++ rest) = print ind t ++ rest.
Proof.
  intros Hwf Hws. rewrite skip_space_spaces by done.
  destruct (print_head ind t Hwf) as (c & r & -> & Hc & _).
  by apply skip_space_head.
Qed.

Lemma firstn_printed (a b : bytes) : firstn (length (a ++ b) - length b) (a ++ b) = a.
Proof.
  rewrite length_app. replace (length a + length b - length b)%nat with (length a) by lia.
  by rewrite firstn_app, Nat.sub_diag, firstn_all, app_nil_r.
Qed.

Lemma delimited_close (ind : option nat) (c : ascii) (rest : bytes) :
  c = "]"%char \/ c = "}"%char -> delimited (nl ind ++ c :: rest).
Proof.
  intros Hc. destruct ind as [d|]; cbn; [by left|]. right. destruct Hc as [->| ->]; auto.
Qed.

Lemma parse_elements_print (ind ind' : option nat) (l : list tree) :
  Forall (fun t => wf t -> parses t) l ->
  forall (fuel : nat) (depth : N) (rest : bytes) (acc : list value),
    l <> [] ->
    fold_right (fun x acc => wf x /\ acc) True l ->
    fold_right (fun x acc => S (size x + acc)) 0%nat l <= fuel ->
    (depth + fold_right (fun x acc => N.max (height x) acc) 0%N l <= maxNestingDepth)%N ->
    parse_elements fuel depth
      (nl ind' ++ join (bytes_of "," ++ nl ind') (map (print ind') l) ++ nl ind ++
       "]"%char :: rest) acc
    = Some (JArray (acc ++ map (value_of ind') l), rest).
Proof.
  induction 1 as [|x l Hx _ IH]; intros fuel depth rest acc Hne Hwf Hfuel Hdepth; [done|].
  cbn [fold_right] in Hwf, Hfuel, Hdepth. destruct Hwf as [Hwx Hwl].
  destruct fuel as [|fuel]; [lia|]. rewrite parse_elements_S.
  rewrite parse_value_spaces by apply nl_spaces.
  destruct l as [|y l].
  - cbn [map join]. rewrite (Hx Hwx ind' fuel depth); [|lia|lia|by apply delimited_close; left].
    cbv zeta. rewrite skip_space_spaces by apply nl_spaces.
    rewrite skip_space_head by reflexivity.
    change (Ascii.eqb "]" ",") with false. change (Ascii.eqb "]" "]") with true. cbv iota.
    reflexivity.
  - set (J := join (bytes_of "," ++ nl ind') (map (print ind') (y :: l))).
    change (join (bytes_of "," ++ nl ind') (map (print ind') (x :: y :: l)))
      with (print ind' x ++ (bytes_of "," ++ nl ind') ++ J).
    rewrite <- !app_assoc. cbn [bytes_of list_ascii_of_string app].
    rewrite (Hx Hwx ind' fuel depth); [|lia|lia|by right; left].
    cbv zeta. rewrite skip_space_head by reflexivity.
    change (Ascii.eqb "," ",") with true. cbv iota. subst J.
    rewrite (IH fuel depth rest (acc ++ [value_of ind' x])); [|done|done|lia|lia].
    by rewrite <- app_assoc.
Qed.

Lemma parse_members_print (ind ind' : option nat) (l : list (bytes * tree)) :
  Forall (fun kv => wf (snd kv) -> parses (snd kv)) l ->
  forall (fuel : nat) (depth : N) (rest : bytes) (acc : list (bytes * bytes * value)),
    l <> [] ->
    fold_right (fun kv acc => literal (fst kv) /\ wf (snd kv) /\ acc) True l ->
    fold_right (fun kv acc => S (size (snd kv) + acc)) 0%nat l <= fuel ->
    (depth + fold_right (fun kv acc => N.max (height (snd kv)) acc) 0%N l <= maxNestingDepth)%N ->
    parse_members fuel depth
      (nl ind' ++
       join (bytes_of "," ++ nl ind')
            (map (fun kv => quoted (fst kv) ++ bytes_of ":" ++ sp ind ++ print ind' (snd kv)) l) ++
       nl ind ++ "}"%char :: rest) acc
    = Some (JObject (acc ++ map (fun kv => (unquote 0 (fst kv), print ind' (snd kv),
                                            value_of ind' (snd kv))) l), rest).
Proof.
  induction 1 as [|[k x] l Hx _ IH]; intros fuel depth rest acc Hne Hwf Hfuel Hdepth; [done|].
  cbn [fold_right fst snd] in Hwf, Hfuel, Hdepth, Hx. destruct Hwf as (Hk & Hwx & Hwl).
  destruct fuel as [|fuel]; [lia|]. rewrite parse_members_S.
  rewrite skip_space_spaces by apply nl_spaces.
  assert (Hstep : forall tail acc0,
            delimited tail ->
            (match skip_space
                     ((quoted k ++ bytes_of ":" ++ sp ind ++ print ind' x) ++ tail) with
             | q :: r =>
                 if Ascii.eqb q dquote then
                   match scan_string SNormal r with
                   | Some (kraw, r1) =>
                       match skip_space r1 with
                       | c :: r2 =>
                           if Ascii.eqb c ":" then
                             let r2 := skip_space r2 in
                             match parse_value fuel depth r2 with
                             | Some (v, r3) =>
                                 let raw := firstn (length r2 - length r3) r2 in
                                 let acc := acc0 ++ [(unquote 0 kraw, raw, v)] in
                                 match skip_space r3 with
                                 | c' :: r4 =>
                                     if Ascii.eqb c' "," then parse_members fuel depth r4 acc
                                     else if Ascii.eqb c' "}" then Some (JObject acc, r4)
                                     else None
                                 | [] => None
                                 end
                             | None => None
                             end
                           else None
                       | [] => None
                       end
                   | None => None
                   end
                 else None
             | [] => None
             end) =
            (let acc := acc0 ++ [(unquote 0 k, print ind' x, value_of ind' x)] in
             match skip_space tail with
             | c' :: r4 =>
                 if Ascii.eqb c' "," then parse_members fuel depth r4 acc
                 else if Ascii.eqb c' "}" then Some (JObject acc, r4)
                 else None
             | [] => None
             end)).
  { intros tail acc0 Htail. unfold quoted. rewrite <- !app_assoc.
    cbn [app bytes_of list_ascii_of_string]. rewrite <- !app_assoc. cbn [app].
    rewrite skip_space_head by reflexivity. rewrite Ascii.eqb_refl.
    rewrite (literal_scan k Hk). rewrite skip_space_head by reflexivity.
    change (Ascii.eqb ":" ":") with true. cbv iota.
    rewrite (skip_space_print ind' x (sp ind) tail Hwx (sp_spaces ind)).
    cbv zeta. rewrite (Hx Hwx ind' fuel depth tail); [|lia|lia|done].
    by rewrite firstn_printed. }
  destruct l as [|y l].
  - cbn [map join fst snd]. rewrite Hstep by (apply delimited_close; by right).
    cbv zeta. rewrite skip_space_spaces by apply nl_spaces.
    rewrite skip_space_head by reflexivity.
    change (Ascii.eqb "}" ",") with false. change (Ascii.eqb "}" "}") with true. cbv iota.
    reflexivity.
  - remember (y :: l) as l' eqn:El'.
    change (map (fun kv => quoted (fst kv) ++ bytes_of ":" ++ sp ind ++ print ind' (snd kv))
                ((k, x) :: l'))
      with ((quoted k ++ bytes_of ":" ++ sp ind ++ print ind' x) ::
            map (fun kv => quoted (fst kv) ++ bytes_of ":" ++ sp ind ++ print ind' (snd kv)) l').
    assert (Hj : forall (sep a : bytes) (bs : list bytes), bs <> [] ->
                   join sep (a :: bs) = a ++ sep ++ join sep bs)
      by (intros sep a [|b bs] Hbs; [done|reflexivity]).
    rewrite Hj by (subst l'; discriminate).
    match goal with |- context [join ?sep ?bs] => set (J := join sep bs) end.
    rewrite <- (app_assoc _ _ (nl ind ++ _)), <- (app_assoc (bytes_of "," ++ nl ind')).
    rewrite <- (app_assoc (bytes_of ",")). cbn [bytes_of list_ascii_of_string app].
    rewrite Hstep by (right; by left).
    cbv zeta. rewrite skip_space_head by reflexivity.
    change (Ascii.eqb "," ",") with true. cbv iota. subst J.
    rewrite (IH fuel depth rest); [|by subst l'|done|lia|lia].
    cbn [map fst snd]. by rewrite <- app_assoc.
Qed.

End Parsing.

Section ParsingTrees.
Import json syntax.

(** The parser reads a printed tree back, in both layouts. *)
Lemma print_parses (t : tree) : wf t -> parses t.
Proof.
  induction t as [text v|raw|l IH|l IH] using tree_ind';
    intros Hwf ind fuel depth rest Hfuel Hdepth Hrest;
    (destruct fuel as [|fuel]; [cbn [size] in Hfuel; lia|]); rewrite parse_value_S.
  - (* scalars *)
    cbn [print value_of]. cbn [wf] in Hwf.
    destruct Hwf as [[-> ->]|[[-> ->]|[[-> ->]|[(Hhd & Hch & Hscan) ->]]]].
    1-3: reflexivity.
    destruct Hhd as (c & r & -> & Hc). cbn [app].
    assert (Hsp : is_space c = false).
    { destruct Hc as [->|Hc]; [reflexivity|by apply digit_not_space]. }
    rewrite (skip_space_head _ _ Hsp).
    assert (Hbr : Ascii.eqb c "{" = false /\ Ascii.eqb c "[" = false /\ Ascii.eqb c dquote = false
                  /\ (Ascii.eqb c "-" || http.is_digit c) = true).
    { destruct Hc as [->|Hc]; [done|].
      destruct c as [[] [] [] [] [] [] [] []]; try discriminate; done. }
    destruct Hbr as (-> & -> & -> & ->).
    change (c :: r ++ rest) with ((c :: r) ++ rest). by rewrite (Hscan rest Hrest).
  - (* string literals *)
    cbn [print value_of]. unfold quoted. cbn [wf] in Hwf. cbn [app]. rewrite <- app_assoc. cbn [app].
    rewrite skip_space_head by reflexivity.
    change (Ascii.eqb dquote "{") with false. change (Ascii.eqb dquote "[") with false.
    rewrite Ascii.eqb_refl. cbv iota. by rewrite (literal_scan raw Hwf).
  - (* arrays *)
    cbn [size height] in Hfuel, Hdepth. cbn [wf] in Hwf.
    assert (Hd : (maxNestingDepth <? depth + 1)%N = false) by (apply N.ltb_ge; lia).
    destruct l as [|x l].
    + cbn [print value_of map app bytes_of list_ascii_of_string].
      rewrite skip_space_head by reflexivity.
      change (Ascii.eqb "[" "{") with false. change (Ascii.eqb "[" "[") with true. cbv iota.
      rewrite Hd. rewrite skip_space_head by reflexivity. reflexivity.
    + remember (x :: l) as l' eqn:El'.
      assert (Hp : print ind (TArray l') ++ rest
                   = "["%char :: nl (deeper ind) ++
                     join (bytes_of "," ++ nl (deeper ind)) (map (print (deeper ind)) l') ++
                     nl ind ++ "]"%char :: rest).
      { subst l'. cbn [print]. rewrite <- !app_assoc. reflexivity. }
      rewrite Hp. rewrite skip_space_head by reflexivity.
      change (Ascii.eqb "[" "{") with false. change (Ascii.eqb "[" "[") with true. cbv iota.
      rewrite Hd.
      assert (Hwx : wf x) by (subst l'; apply Hwf).
      assert (Hsk : exists c r, skip_space (nl (deeper ind) ++
                       join (bytes_of "," ++ nl (deeper ind)) (map (print (deeper ind)) l') ++
                       nl ind ++ "]"%char :: rest) = c :: r /\ Ascii.eqb c "]" = false).
      { rewrite skip_space_spaces by apply nl_spaces. subst l'.
        destruct (print_head (deeper ind) x Hwx) as (c & r & Hpr & Hsp & Hc & _).
        destruct l as [|y l]; cbn [map join]; rewrite Hpr; cbn [app];
          rewrite (skip_space_head _ _ Hsp); eexists _, _; (split; [reflexivity|]);
          by apply Ascii.eqb_neq. }
      destruct Hsk as (c & r & -> & ->).
      rewrite (parse_elements_print ind (deeper ind) l' IH); [|by subst l'|done|lia|lia].
      reflexivity.
  - (* objects *)
    cbn [size height] in Hfuel, Hdepth. cbn [wf] in Hwf.
    assert (Hd : (maxNestingDepth <? depth + 1)%N = false) by (apply N.ltb_ge; lia).
    destruct l as [|kv l].
    + cbn [print value_of map app bytes_of list_ascii_of_string].
      rewrite skip_space_head by reflexivity.
      change (Ascii.eqb "{" "{") with true. cbv iota.
      rewrite Hd. rewrite skip_space_head by reflexivity. reflexivity.
    + remember (kv :: l) as l' eqn:El'.
      assert (Hp : print ind (TObject l') ++ rest
                   = "{"%char :: nl (deeper ind) ++
                     join (bytes_of "," ++ nl (deeper ind))
                          (map (fun kv => quoted (fst kv) ++ bytes_of ":" ++ sp ind ++
                                          print (deeper ind) (snd kv)) l') ++
                     nl ind ++ "}"%char :: rest).
      { subst l'. cbn [print]. rewrite <- !app_assoc. reflexivity. }
      rewrite Hp. rewrite skip_space_head by reflexivity.
      change (Ascii.eqb "{" "{") with true. cbv iota.
      rewrite Hd.
      assert (Hsk : exists r, skip_space (nl (deeper ind) ++
                       join (bytes_of "," ++ nl (deeper ind))
                            (map (fun kv => quoted (fst kv) ++ bytes_of ":" ++ sp ind ++
                                            print (deeper ind) (snd kv)) l') ++
                       nl ind ++ "}"%char :: rest) = dquote :: r).
      { rewrite skip_space_spaces by apply nl_spaces. subst l'.
        destruct l as [|y l]; cbn [map join quoted app];
          rewrite skip_space_head by reflexivity; eauto. }
      destruct Hsk as (r & ->). change (Ascii.eqb dquote "}") with false. cbv iota.
      rewrite (parse_members_print ind (deeper ind) l' IH); [|by subst l'|done|lia|lia].
      reflexivity.
Qed.

(** A printed tree is no longer than the fuel the parser is given. *)
Lemma size_print (ind : option nat) (t : tree) : wf t -> size t <= length (print ind t).
Proof.
  revert ind. induction t as [text v|raw|l IH|l IH] using tree_ind'; intros ind Hwf.
  - destruct (print_head ind _ Hwf) as (c & r & -> & _). cbn. lia.
  - cbn. lia.
  - cbn [wf] in Hwf. cbn [size]. destruct l as [|x l]; [cbn; lia|].
    remember (x :: l) as l' eqn:El'.
    assert (Hp : print ind (TArray l')
                 = "["%char :: nl (deeper ind) ++
                   join (bytes_of "," ++ nl (deeper ind)) (map (print (deeper ind)) l') ++
                   nl ind ++ ["]"%char]).
    { subst l'. reflexivity. }
    rewrite Hp. cbn [length]. rewrite !length_app. cbn [length].
    assert (Hj : fold_right (fun x acc => S (size x + acc)) 0%nat l'
                 <= S (length (join (bytes_of "," ++ nl (deeper ind))
                                    (map (print (deeper ind)) l')))).
    { clear Hp El' x l. induction IH as [|x l Hx _ IHl]; [cbn; lia|].
      cbn [fold_right] in Hwf |- *. destruct Hwf as [Hwx Hwl].
      specialize (Hx (deeper ind) Hwx). specialize (IHl Hwl).
      destruct l as [|y l]; [cbn [map join fold_right]; lia|].
      change (join (bytes_of "," ++ nl (deeper ind)) (map (print (deeper ind)) (x :: y :: l)))
        with (print (deeper ind) x ++ (bytes_of "," ++ nl (deeper ind)) ++
              join (bytes_of "," ++ nl (deeper ind)) (map (print (deeper ind)) (y :: l))).
      rewrite !length_app. change (length (bytes_of ",")) with 1%nat. lia. }
    lia.
  - cbn [wf] in Hwf. cbn [size]. destruct l as [|kv l]; [cbn; lia|].
    remember (kv :: l) as l' eqn:El'.
    assert (Hp : print ind (TObject l')
                 = "{"%char :: nl (deeper ind) ++
                   join (bytes_of "," ++ nl (deeper ind))
                        (map (fun kv => quoted (fst kv) ++ bytes_of ":" ++ sp ind ++
                                        print (deeper ind) (snd kv)) l') ++
                   nl ind ++ ["}"%char]).
    { subst l'. reflexivity. }
    rewrite Hp. cbn [length]. rewrite !length_app. cbn [length].
    assert (Hj : fold_right (fun kv acc => S (size (snd kv) + acc)) 0%nat l'
                 <= S (length (join (bytes_of "," ++ nl (deeper ind))
                                    (map (fun kv => quoted (fst kv) ++ bytes_of ":" ++ sp ind ++
                                                    print (deeper ind) (snd kv)) l')))).
    { clear Hp El' kv l. induction IH as [|[k x] l Hx _ IHl]; [cbn; lia|].
      cbn [fold_right fst snd] in Hwf, Hx |- *. destruct Hwf as (_ & Hwx & Hwl).
      specialize (Hx (deeper ind) Hwx). specialize (IHl Hwl).
      destruct l as [|y l]; [cbn [map join fst snd fold_right] in *; rewrite !length_app; lia|].
      remember (y :: l) as l2.
      change (map (fun kv => quoted (fst kv) ++ bytes_of ":" ++ sp ind ++ print (deeper ind) (snd kv))
                  ((k, x) :: l2))
        with ((quoted k ++ bytes_of ":" ++ sp ind ++ print (deeper ind) x) ::
              map (fun kv => quoted (fst kv) ++ bytes_of ":" ++ sp ind ++
                             print (deeper ind) (snd kv)) l2).
      assert (Hjn : forall (sep a : bytes) (bs : list bytes), bs <> [] ->
                     join sep (a :: bs) = a ++ sep ++ join sep bs)
        by (intros sep a [|b bs] Hbs; [done|reflexivity]).
      rewrite Hjn by (subst l2; discriminate).
      rewrite !length_app. change (length (bytes_of ",")) with 1%nat. lia. }
    lia.
Qed.

(** A printed tree is a valid JSON text, and [parse] gives its value. *)
Lemma parse_print (ind : option nat) (t : tree) :
  wf t -> (height t <= maxNestingDepth)%N -> parse (print ind t) = Some (value_of ind t).
Proof.
  intros Hwf Hh. unfold parse.
  pose proof (print_parses t Hwf ind (S (length (print ind t))) 0%N []) as Hp.
  rewrite app_nil_r in Hp. rewrite Hp; [reflexivity| |lia|done].
  pose proof (size_print ind t Hwf). lia.
Qed.

End ParsingTrees.

Section Indenting.
Import json syntax.

(** ** [Indent] on a compact tree *)

Lemma join_flat (s1 s2 a : bytes) (bs : list bytes) :
  join (s1 ++ s2) (a :: bs) = a ++ flat_map (fun b => s1 ++ s2 ++ b) bs.
Proof.
  revert a. induction bs as [|b bs IH]; intros a; [by rewrite app_nil_r|].
  change (join (s1 ++ s2) (a :: b :: bs)) with (a ++ (s1 ++ s2) ++ join (s1 ++ s2) (b :: bs)).
  rewrite IH. cbn [flat_map]. by rewrite <- !app_assoc.
Qed.

Lemma indent_scalar_char (c : ascii) (need : bool) (d : nat) (r : bytes) :
  scalar_char c = true ->
  indent_loop Outside need d (c :: r)
  = (if need then newline (S d) else []) ++
    c :: indent_loop Outside false (if need then S d else d) r.
Proof.
  intros Hc. unfold scalar_char in Hc. cbn [existsb bytes_of list_ascii_of_string] in Hc.
  apply andb_true_iff in Hc as [Hs Hc]. apply negb_true_iff in Hs, Hc.
  repeat (apply orb_false_iff in Hc as [? Hc]).
  cbn [indent_loop step_string]. rewrite Hs.
  repeat match goal with H : Ascii.eqb c _ = false |- _ => rewrite H; clear H end.
  cbn [orb]. reflexivity.
Qed.

Lemma indent_scalar (text : bytes) : forallb scalar_char text = true ->
  forall (d : nat) (rest : bytes),
    indent_loop Outside false d (text ++ rest) = text ++ indent_loop Outside false d rest.
Proof.
  induction text as [|c text IH]; intros Hall d rest; [done|].
  cbn [forallb] in Hall. apply andb_true_iff in Hall as [Hc Hall]. cbn [app].
  rewrite indent_scalar_char by done. cbn [app]. by rewrite IH.
Qed.

Lemma numchar_scalar_char (c : ascii) : numchar c = true -> scalar_char c = true.
Proof. destruct c as [[] [] [] [] [] [] [] []]; try discriminate; reflexivity. Qed.

Lemma scalar_chars (text : bytes) (v : value) :
  scalar text v -> text <> [] /\ forallb scalar_char text = true.
Proof.
  intros [[-> _]|[[-> _]|[[-> _]|[(Hhd & Hch & _) _]]]];
    [split; [discriminate|reflexivity]..|].
  split; [destruct Hhd as (c & r & -> & _); discriminate|].
  clear Hhd. induction text as [|c text IH]; [done|]. cbn [forallb] in *.
  apply andb_true_iff in Hch as [Hc Hch]. rewrite (numchar_scalar_char c Hc). cbn [andb].
  by apply IH.
Qed.

Lemma indent_open (c : string) (need : bool) (d : nat) (r : bytes) :
  c = "[" \/ c = "{" ->
  indent_loop Outside need d (bytes_of c ++ r)
  = (if need then newline (S d) else []) ++
    bytes_of c ++ indent_loop Outside true (if need then S d else d) r.
Proof. intros [-> | ->]; reflexivity. Qed.

Lemma indent_close (c : string) (need : bool) (d : nat) (r : bytes) :
  c = "]" \/ c = "}" ->
  indent_loop Outside need d (bytes_of c ++ r)
  = if need then bytes_of c ++ indent_loop Outside false d r
    else newline (d - 1) ++ bytes_of c ++ indent_loop Outside false (d - 1) r.
Proof. intros [-> | ->]; reflexivity. Qed.

Lemma indent_comma (d : nat) (r : bytes) :
  indent_loop Outside false d (bytes_of "," ++ r)
  = bytes_of "," ++ newline d ++ indent_loop Outside false d r.
Proof. reflexivity. Qed.

Lemma indent_colon (d : nat) (r : bytes) :
  indent_loop Outside false d (bytes_of ":" ++ r)
  = bytes_of ":" ++ sp (Some d) ++ indent_loop Outside false d r.
Proof. reflexivity. Qed.

Lemma indent_quoted (k : bytes) (need : bool) (d : nat) (r : bytes) :
  literal k ->
  indent_loop Outside need d (quoted k ++ r)
  = (if need then newline (S d) else []) ++
    quoted k ++ indent_loop Outside false (if need then S d else d) r.
Proof.
  intros Hk. unfold quoted. cbn [app]. rewrite <- !app_assoc. cbn [app].
  change (indent_loop Outside need d (dquote :: k ++ dquote :: r))
    with ((if need then newline (S d) else []) ++
          dquote :: indent_loop Inside false (if need then S d else d) (k ++ dquote :: r)).
  by rewrite (literal_indent k Hk).
Qed.

Lemma indent_elements (l : list tree) :
  Forall indents l ->
  forall (d : nat) (close : string) (rest : bytes),
    close = "]" \/ close = "}" ->
    indent_loop Outside false (S d)
      (flat_map (fun b => bytes_of "," ++ nl None ++ b) (map (print None) l) ++
       nl None ++ bytes_of close ++ rest)
    = flat_map (fun b => bytes_of "," ++ nl (Some (S d)) ++ b) (map (print (Some (S d))) l) ++
      nl (Some d) ++ bytes_of close ++ indent_loop Outside false d rest.
Proof.
  induction 1 as [|x l Hx _ IH]; intros d close rest Hclose.
  - cbn [map flat_map nl app]. rewrite indent_close by done.
    by replace (S d - 1)%nat with d by lia.
  - cbn [map flat_map]. rewrite <- !app_assoc.
    rewrite indent_comma. cbn [nl app]. rewrite (Hx false (S d)). cbn [app].
    cbn [nl app] in IH. rewrite IH by done. reflexivity.
Qed.

Lemma indent_member (k : bytes) (x : tree) (need : bool) (d : nat) (rest : bytes) :
  literal k -> indents x ->
  indent_loop Outside need d
    (quoted k ++ bytes_of ":" ++ sp None ++ print (deeper None) x ++ rest)
  = (if need then newline (S d) else []) ++
    quoted k ++ bytes_of ":" ++ sp (Some d) ++ print (Some (if need then S d else d)) x ++
    indent_loop Outside false (if need then S d else d) rest.
Proof.
  intros Hk Hx. rewrite indent_quoted by done. rewrite indent_colon.
  cbn [sp deeper option_map app]. rewrite (Hx false). reflexivity.
Qed.

Lemma indent_members (l : list (bytes * tree)) :
  Forall (fun kv => indents (snd kv)) l ->
  fold_right (fun kv acc => literal (fst kv) /\ wf (snd kv) /\ acc) True l ->
  forall (d : nat) (close : string) (rest : bytes),
    close = "]" \/ close = "}" ->
    indent_loop Outside false (S d)
      (flat_map (fun b => bytes_of "," ++ nl None ++ b)
                (map (fun kv => quoted (fst kv) ++ bytes_of ":" ++ sp None ++
                                print (deeper None) (snd kv)) l) ++
       nl None ++ bytes_of close ++ rest)
    = flat_map (fun b => bytes_of "," ++ nl (Some (S d)) ++ b)
               (map (fun kv => quoted (fst kv) ++ bytes_of ":" ++ sp (Some d) ++
                               print (Some (S d)) (snd kv)) l) ++
      nl (Some d) ++ bytes_of close ++ indent_loop Outside false d rest.
Proof.
  induction 1 as [|[k x] l Hx _ IH]; intros Hwf d close rest Hclose.
  - cbn [map flat_map nl app]. rewrite indent_close by done.
    by replace (S d - 1)%nat with d by lia.
  - cbn [fold_right fst snd] in Hwf, Hx. destruct Hwf as (Hk & _ & Hwf).
    cbn [map flat_map fst snd]. rewrite <- !app_assoc.
    rewrite indent_comma. cbn [nl app].
    rewrite (indent_member k x false (S d) _ Hk Hx).
    cbn [nl app] in IH. rewrite IH by done. cbn [app]. reflexivity.
Qed.

Lemma print_array_cons (ind : option nat) (x : tree) (l : list tree) :
  print ind (TArray (x :: l))
  = bytes_of "[" ++ nl (deeper ind) ++ print (deeper ind) x ++
    flat_map (fun b => bytes_of "," ++ nl (deeper ind) ++ b) (map (print (deeper ind)) l) ++
    nl ind ++ bytes_of "]".
Proof.
  change (print ind (TArray (x :: l)))
    with (bytes_of "[" ++ nl (deeper ind) ++
          join (bytes_of "," ++ nl (deeper ind)) (map (print (deeper ind)) (x :: l)) ++
          nl ind ++ bytes_of "]").
  cbn [map]. rewrite join_flat, <- app_assoc. reflexivity.
Qed.

Lemma print_object_cons (ind : option nat) (kv : bytes * tree) (l : list (bytes * tree)) :
  print ind (TObject (kv :: l))
  = bytes_of "{" ++ nl (deeper ind) ++
    quoted (fst kv) ++ bytes_of ":" ++ sp ind ++ print (deeper ind) (snd kv) ++
    flat_map (fun b => bytes_of "," ++ nl (deeper ind) ++ b)
             (map (fun kv => quoted (fst kv) ++ bytes_of ":" ++ sp ind ++
                             print (deeper ind) (snd kv)) l) ++
    nl ind ++ bytes_of "}".
Proof.
  change (print ind (TObject (kv :: l)))
    with (bytes_of "{" ++ nl (deeper ind) ++
          join (bytes_of "," ++ nl (deeper ind))
               (map (fun kv => quoted (fst kv) ++ bytes_of ":" ++ sp ind ++
                               print (deeper ind) (snd kv)) (kv :: l)) ++
          nl ind ++ bytes_of "}").
  cbn [map]. rewrite join_flat, <- !app_assoc. reflexivity.
Qed.

(** The indenter turns the compact layout of a tree into the indented
    one. *)
Lemma print_indents (t : tree) : wf t -> indents t.
Proof.
  induction t as [text v|raw|l IH|l IH] using tree_ind'; intros Hwf need d rest.
  - cbn [print]. cbn [wf] in Hwf. destruct (scalar_chars text v Hwf) as [Hne Hch].
    destruct text as [|c text]; [done|]. cbn [forallb] in Hch.
    apply andb_true_iff in Hch as [Hc Hch]. cbn [app].
    rewrite indent_scalar_char by done. by rewrite indent_scalar.
  - cbn [wf] in Hwf. change (print None (TString raw)) with (quoted raw).
    change (print (Some (if need then S d else d)) (TString raw)) with (quoted raw).
    rewrite indent_quoted by done. rewrite <- ?app_assoc. reflexivity.
  - cbn [wf] in Hwf. destruct l as [|x l].
    + change (print None (TArray [])) with (bytes_of "[" ++ bytes_of "]").
      change (print (Some (if need then S d else d)) (TArray []))
        with (bytes_of "[" ++ bytes_of "]").
      rewrite <- !app_assoc. rewrite indent_open by (by left).
      by rewrite indent_close by (by left).
    + rewrite !print_array_cons. cbn [deeper option_map]. rewrite <- !app_assoc.
      rewrite indent_open by (by left). cbn [nl app].
      apply Forall_cons in IH as [Hx IH]. destruct Hwf as [Hwx Hwl].
      rewrite (Hx Hwx true).
      assert (Hl : Forall indents l).
      { clear -IH Hwl. induction IH as [|y l Hy _ IHl]; constructor.
        - apply Hy, Hwl.
        - apply IHl, Hwl. }
      pose proof (indent_elements l Hl (if need then S d else d) "]" rest (or_introl eq_refl))
        as He.
      cbn [nl app] in He. rewrite He. reflexivity.
  - cbn [wf] in Hwf. destruct l as [|[k x] l].
    + change (print None (TObject [])) with (bytes_of "{" ++ bytes_of "}").
      change (print (Some (if need then S d else d)) (TObject []))
        with (bytes_of "{" ++ bytes_of "}").
      rewrite <- !app_assoc. rewrite indent_open by (by right).
      by rewrite indent_close by (by right).
    + rewrite !print_object_cons. cbn [deeper option_map fst snd]. rewrite <- !app_assoc.
      rewrite indent_open by (by right). cbn [nl app].
      apply Forall_cons in IH as [Hx IH]. cbn [fst snd] in Hx. destruct Hwf as (Hk & Hwx & Hwl).
      rewrite (indent_member k x true _ _ Hk (Hx Hwx)).
      assert (Hl : Forall (fun kv => indents (snd kv)) l).
      { clear -IH Hwl. induction IH as [|[k' y] l Hy _ IHl]; constructor.
        - apply Hy, Hwl.
        - apply IHl, Hwl. }
      pose proof (indent_members l Hl Hwl (if need then S d else d) "}" rest
                                 (or_intror eq_refl)) as He.
      cbn [nl app deeper option_map] in He. rewrite He. reflexivity.
Qed.

(** [Indent] on the compact layout of a tree gives its indented layout. *)
Lemma Indent_print (t : tree) :
  wf t -> (height t <= maxNestingDepth)%N ->
  Indent (print None t) = Ok (print (Some 0%nat) t).
Proof.
  intros Hwf Hh. unfold Indent, checkValid. rewrite (parse_print None t Hwf Hh).
  pose proof (print_indents t Hwf false 0%nat []) as Hi.
  rewrite !app_nil_r in Hi. cbn [app] in Hi. by rewrite Hi.
Qed.

End Indenting.

Section Literals.
Import json syntax.
Local Open Scope Z_scope.

(** ** The encoder writes well formed string literals *)

Lemma high_literal (c : ascii) (e : bytes) : high c = true -> literal e -> literal (c :: e).
Proof.
  unfold high. intros Hc He. apply literal_byte; [lia| | |done];
    intros ->; vm_compute in Hc; discriminate.
Qed.

Lemma cont_high (c : ascii) : utf8.cont c = true -> high c = true.
Proof. unfold utf8.cont, high. lia. Qed.

Lemma between_high (lo hi : Z) (c : ascii) :
  128 <= lo -> utf8.between lo hi c = true -> high c = true.
Proof. unfold utf8.between, high. lia. Qed.

(** The bytes of a rune after its first are outside ASCII. *)
Lemma DecodeRune_high (c : ascii) (r : bytes) :
  forallb high (firstn (snd (utf8.DecodeRune (c :: r)) - 1) r) = true /\
  (1 <= snd (utf8.DecodeRune (c :: r)))%nat.
Proof.
  unfold utf8.DecodeRune.
  assert (H0 : forall rr : Z, forallb high (firstn (snd (rr, 1%nat) - 1) r) = true /\
                       (1 <= snd (rr, 1%nat))%nat) by (intros; split; [reflexivity|cbn; lia]).
  destruct (byte_val c <? 128); [apply H0|].
  destruct (utf8.between 194 223 c).
  { destruct r as [|c1 r]; [apply H0|]. destruct (utf8.cont c1) eqn:E1; [|apply H0].
    cbn. rewrite (cont_high c1 E1). split; [reflexivity|lia]. }
  destruct (utf8.between 224 239 c).
  { destruct r as [|c1 [|c2 r]]; try apply H0.
    destruct (utf8.between _ _ c1 && utf8.cont c2) eqn:E; [|apply H0].
    apply andb_true_iff in E as [E1 E2]. cbn.
    assert (Hh1 : high c1 = true).
    { eapply between_high; [|exact E1]. destruct (byte_val c =? 224); lia. }
    rewrite (cont_high c2 E2), Hh1. split; [reflexivity|lia]. }
  destruct (utf8.between 240 244 c); [|apply H0].
  destruct r as [|c1 [|c2 [|c3 r]]]; try apply H0.
  destruct (utf8.between _ _ c1 && utf8.cont c2 && utf8.cont c3) eqn:E; [|apply H0].
  apply andb_true_iff in E as [E E3]. apply andb_true_iff in E as [E1 E2]. cbn.
  assert (Hh1 : high c1 = true).
  { eapply between_high; [|exact E1]. destruct (byte_val c =? 240); lia. }
  rewrite (cont_high c2 E2), (cont_high c3 E3), Hh1. split; [reflexivity|lia].
Qed.

Lemma digit_is_hex (n : Z) : is_hex (hex.digit n) = true.
Proof.
  unfold hex.digit. destruct (Z.to_nat n) as [|k]; [reflexivity|].
  do 15 (destruct k as [|k]; [reflexivity|]). cbn. by destruct k.
Qed.

Lemma escape_ascii_literal (c : ascii) (e : bytes) :
  literal e -> literal (escape_ascii c ++ e).
Proof.
  intros He. unfold escape_ascii.
  destruct (Ascii.eqb c backslash || Ascii.eqb c dquote) eqn:E1.
  { cbn [app]. apply literal_escape; [|done].
    apply orb_true_iff in E1 as [->%Ascii.eqb_eq| ->%Ascii.eqb_eq]; reflexivity. }
  repeat (match goal with |- context [if Ascii.eqb c ?x then _ else _] =>
            destruct (Ascii.eqb c x); [by apply literal_escape|] end).
  unfold u00. cbn [app bytes_of list_ascii_of_string].
  apply literal_unicode; try reflexivity; try apply digit_is_hex. done.
Qed.

Lemma htmlSafe_literal (c : ascii) (e : bytes) :
  htmlSafe c = true -> literal e -> literal (c :: e).
Proof.
  unfold htmlSafe. intros Hc He.
  apply andb_true_iff in Hc as [Hc Hx]. apply andb_true_iff in Hc as [Hlo Hhi].
  apply negb_true_iff in Hx. cbn [existsb bytes_of list_ascii_of_string] in Hx.
  repeat (apply orb_false_iff in Hx as [? Hx]).
  apply literal_byte; [lia| | |done]; by apply Ascii.eqb_neq.
Qed.

Lemma encode_chars_literal (n : nat) : forall (s : bytes) (k : nat),
  (length s <= n)%nat -> forallb high (firstn k s) = true -> literal (encode_chars k s).
Proof.
  induction n as [|n IH]; intros s k Hn Hk.
  { destruct s; [|cbn in Hn; lia]. constructor. }
  destruct s as [|c r]; [constructor|]. cbn [length] in Hn. cbn [encode_chars].
  destruct k as [|k].
  - destruct (byte_val c <? 128) eqn:Elo.
    { destruct (htmlSafe c) eqn:Es.
      - cbn [app]. apply htmlSafe_literal; [done|]. apply IH; [lia|done].
      - apply escape_ascii_literal. apply IH; [lia|done]. }
    destruct (DecodeRune_high c r) as [Hh H1].
    destruct (utf8.DecodeRune (c :: r)) as [rr size]. cbn [snd] in Hh, H1.
    destruct ((rr =? utf8.RuneError) && (size =? 1)%nat).
    { cbn [app bytes_of list_ascii_of_string]. apply literal_unicode; try reflexivity.
      apply IH; [lia|done]. }
    destruct ((rr =? 8232) || (rr =? 8233)).
    { destruct r as [|c1 [|c2 r']]; [apply literal_nil|apply literal_nil|].
      cbn [app bytes_of list_ascii_of_string].
      apply literal_unicode; try reflexivity; [apply digit_is_hex|].
      apply IH; [cbn [length] in Hn; lia|done]. }
    apply high_literal; [unfold high; lia|]. apply IH; [lia|done].
  - cbn [firstn forallb] in Hk. apply andb_true_iff in Hk as [Hc Hk].
    apply high_literal; [done|]. apply IH; [lia|done].
Qed.

(** [json.Marshal] writes a string as a well formed literal. *)
Lemma encoded_literal (s : bytes) : literal (encode_chars 0 s).
Proof. by apply (encode_chars_literal (length s)). Qed.

End Literals.

Section Numbers.
Import json syntax.
Local Open Scope Z_scope.

(** ** The encoder writes integers the parser reads back *)

Local Abbreviation digits_of d := (bytes_of (NilEmpty.string_of_uint d)).

Lemma delimited_not_digit (rest : bytes) :
  delimited rest ->
  digits rest = ([], rest) /\ scan_frac [] rest = Some ([], rest) /\
  forall pre, scan_frac pre rest = Some (pre, rest).
Proof.
  destruct rest as [|c rest]; [done|]. cbn [delimited].
  intros Hc.
  assert (Hd : http.is_digit c = false /\ Ascii.eqb c "." = false /\
               (Ascii.eqb c "e" || Ascii.eqb c "E") = false).
  { destruct Hc as [Hc|[->|[->| ->]]]; try done.
    unfold is_space in Hc.
    repeat (apply orb_true_iff in Hc as [Hc|Hc]); apply Ascii.eqb_eq in Hc; by subst. }
  destruct Hd as (H1 & H2 & H3).
  unfold scan_frac, scan_exp. cbn [digits]. by rewrite H1, H2, H3.
Qed.

Lemma digits_uint (d : Decimal.uint) (rest : bytes) :
  delimited rest -> digits (digits_of d ++ rest) = (digits_of d, rest).
Proof.
  intros Hrest.
  induction d as [|d IH|d IH|d IH|d IH|d IH|d IH|d IH|d IH|d IH|d IH];
    cbn [NilEmpty.string_of_uint list_ascii_of_string app];
    [apply (delimited_not_digit rest Hrest)|..];
    cbn [digits]; rewrite IH; reflexivity.
Qed.

Lemma uint_digits (d : Decimal.uint) : forallb http.is_digit (digits_of d) = true.
Proof.
  induction d as [|d IH|d IH|d IH|d IH|d IH|d IH|d IH|d IH|d IH|d IH];
    cbn [NilEmpty.string_of_uint list_ascii_of_string forallb]; [done|..]; exact IH.
Qed.

Lemma fold_digits (d : Decimal.uint) : forall acc : positive,
  fold_left (fun acc c => acc * 10 + (byte_val c - 48)) (digits_of d) (Z.pos acc)
  = Z.pos (Pos.of_uint_acc d acc).
Proof.
  induction d as [|d IH|d IH|d IH|d IH|d IH|d IH|d IH|d IH|d IH|d IH]; intros acc;
    cbn [NilEmpty.string_of_uint list_ascii_of_string fold_left Pos.of_uint_acc];
    [reflexivity|..];
    match goal with |- fold_left _ _ ?z = Z.pos (Pos.of_uint_acc _ ?a) =>
      replace z with (Z.pos a) by (vm_compute (byte_val _); lia) end;
    apply IH.
Qed.

(** The decimal digits of a positive number start with a digit that is
    not zero. *)
Lemma to_uint_head (p : positive) :
  exists (c : ascii) (l : Decimal.uint) (k : positive),
    digits_of (Pos.to_uint p) = c :: digits_of l /\
    http.is_digit c = true /\ Ascii.eqb c "0" = false /\ Ascii.eqb c "-" = false /\
    byte_val c - 48 = Z.pos k /\ Pos.of_uint_acc l k = p.
Proof.
  pose proof (DecimalPos.Unsigned.of_to p) as Hof.
  pose proof (DecimalZ.to_of (Z.to_int (Z.pos p))) as Hn.
  rewrite DecimalZ.of_to in Hn. cbn [Z.to_int Decimal.norm] in Hn.
  injection Hn as Hn.
  pose proof (DecimalPos.Unsigned.to_uint_nonzero p) as Hnz.
  pose proof (DecimalFacts.nzhead_nonzero (Pos.to_uint p)) as Hh.
  unfold Decimal.unorm in Hn.
  destruct (Pos.to_uint p) as [|l|l|l|l|l|l|l|l|l|l] eqn:E.
  - discriminate.
  - exfalso. cbn [Decimal.nzhead] in Hn, Hh.
    destruct (Decimal.nzhead l) eqn:En; try discriminate.
    + injection Hn as ->. by apply Hnz.
    + by apply (Hh u).
  - exists "1"%char, l, 1%positive. cbn in Hof. injection Hof as Hof. by repeat split.
  - exists "2"%char, l, 2%positive. cbn in Hof. injection Hof as Hof. by repeat split.
  - exists "3"%char, l, 3%positive. cbn in Hof. injection Hof as Hof. by repeat split.
  - exists "4"%char, l, 4%positive. cbn in Hof. injection Hof as Hof. by repeat split.
  - exists "5"%char, l, 5%positive. cbn in Hof. injection Hof as Hof. by repeat split.
  - exists "6"%char, l, 6%positive. cbn in Hof. injection Hof as Hof. by repeat split.
  - exists "7"%char, l, 7%positive. cbn in Hof. injection Hof as Hof. by repeat split.
  - exists "8"%char, l, 8%positive. cbn in Hof. injection Hof as Hof. by repeat split.
  - exists "9"%char, l, 9%positive. cbn in Hof. injection Hof as Hof. by repeat split.
Qed.

Lemma digit_numchar (l : bytes) : forallb http.is_digit l = true -> forallb numchar l = true.
Proof.
  induction l as [|c l IH]; [done|]. cbn [forallb]. intros [Hc Hl]%andb_true_iff.
  unfold numchar at 1. rewrite Hc. cbn [orb andb]. by apply IH.
Qed.

(** The text of an [int] is a number literal. *)
Lemma encode_int_number (z : Z) : number (storage.encode_int z).
Proof.
  unfold storage.encode_int.
  destruct z as [|p|p]; cbn [Z.to_int NilZero.string_of_int].
  - split; [eexists _, _; split; [reflexivity|by right]|]. split; [reflexivity|].
    intros rest Hrest. cbn [NilZero.string_of_uint NilEmpty.string_of_uint
                            list_ascii_of_string app].
    unfold scan_number. cbn [Ascii.eqb Bool.eqb app].
    change (Ascii.eqb "0" "-") with false. change (Ascii.eqb "0" "0") with true. cbv iota.
    cbn [app]. apply (delimited_not_digit rest Hrest).
  - destruct (to_uint_head p) as (c & l & k & Ht & Hd & H0 & Hm & _).
    assert (Hs : NilZero.string_of_uint (Pos.to_uint p) = NilEmpty.string_of_uint (Pos.to_uint p)).
    { pose proof (DecimalPos.Unsigned.to_uint_nonnil p). by destruct (Pos.to_uint p). }
    rewrite Hs, Ht.
    split; [eexists _, _; split; [reflexivity|by right]|]. split.
    { rewrite <- Ht. apply digit_numchar, uint_digits. }
    intros rest Hrest. unfold scan_number. cbn [app]. rewrite Hm, H0, Hd.
    rewrite (digits_uint l rest Hrest). cbn [app].
    apply (delimited_not_digit rest Hrest).
  - destruct (to_uint_head p) as (c & l & k & Ht & Hd & H0 & Hm & _).
    assert (Hs : NilZero.string_of_uint (Pos.to_uint p) = NilEmpty.string_of_uint (Pos.to_uint p)).
    { pose proof (DecimalPos.Unsigned.to_uint_nonnil p). by destruct (Pos.to_uint p). }
    cbn [list_ascii_of_string]. rewrite Hs, Ht.
    split; [eexists _, _; split; [reflexivity|by left]|]. split.
    { assert (Hall : forallb numchar (c :: digits_of l) = true)
        by (rewrite <- Ht; apply digit_numchar, uint_digits).
      cbn [forallb] in Hall |- *. change (numchar "-") with true. exact Hall. }
    intros rest Hrest. unfold scan_number. cbn [app].
    change (Ascii.eqb "-" "-") with true. cbv iota. rewrite H0, Hd.
    rewrite (digits_uint l rest Hrest). cbn [app].
    apply (delimited_not_digit rest Hrest).
Qed.

(** [ParseInt] reads the text of an [int] back. *)
Lemma ParseInt_encode_int (z : Z) :
  - 2 ^ 63 <= z < 2 ^ 63 -> storage.ParseInt (storage.encode_int z) = Some z.
Proof.
  intros Hz. unfold storage.encode_int, storage.ParseInt.
  destruct z as [|p|p]; cbn [Z.to_int NilZero.string_of_int].
  - reflexivity.
  - destruct (to_uint_head p) as (c & l & k & Ht & Hd & H0 & Hm & Hk & Hp).
    assert (Hs : NilZero.string_of_uint (Pos.to_uint p) = NilEmpty.string_of_uint (Pos.to_uint p)).
    { pose proof (DecimalPos.Unsigned.to_uint_nonnil p). by destruct (Pos.to_uint p). }
    rewrite Hs, Ht, Hm. cbn [forallb length Nat.eqb negb fold_left].
    rewrite Hd, (uint_digits l). cbn [andb].
    replace (0 * 10 + (byte_val c - 48)) with (Z.pos k) by lia.
    rewrite fold_digits, Hp.
    replace ((- 2 ^ 63 <=? Z.pos p) && (Z.pos p <? 2 ^ 63)) with true by lia. reflexivity.
  - destruct (to_uint_head p) as (c & l & k & Ht & Hd & H0 & Hm & Hk & Hp).
    assert (Hs : NilZero.string_of_uint (Pos.to_uint p) = NilEmpty.string_of_uint (Pos.to_uint p)).
    { pose proof (DecimalPos.Unsigned.to_uint_nonnil p). by destruct (Pos.to_uint p). }
    cbn [list_ascii_of_string]. change (Ascii.eqb "-" "-") with true. cbv iota.
    rewrite Hs, Ht. cbn [forallb length Nat.eqb negb fold_left].
    rewrite Hd, (uint_digits l). cbn [andb].
    replace (0 * 10 + (byte_val c - 48)) with (Z.pos k) by lia.
    rewrite fold_digits, Hp.
    replace ((- 2 ^ 63 <=? - Z.pos p) && (- Z.pos p <? 2 ^ 63)) with true by lia. reflexivity.
Qed.

End Numbers.

Section Utf8.
Import json syntax spec_utf.
Local Open Scope Z_scope.

(** ** A string that is valid UTF-8 is read back as it was written *)

Ltac dlia := Z.to_euclidean_division_equations; lia.

Lemma valid_loop_skip (k : nat) : forall p : bytes, valid_loop k p = valid_loop 0 (skipn k p).
Proof. induction k as [|k IH]; intros [|c r]; try reflexivity. cbn [valid_loop skipn]. apply IH. Qed.

Lemma unquote_skip (k : nat) : forall t : bytes, unquote k t = unquote 0 (skipn k t).
Proof. induction k as [|k IH]; intros [|c r]; try reflexivity. cbn [unquote skipn]. apply IH. Qed.

Lemma encode_chars_skip (k : nat) : forall s : bytes,
  encode_chars k s = firstn k s ++ encode_chars 0 (skipn k s).
Proof.
  induction k as [|k IH]; intros [|c r]; try reflexivity.
  cbn [encode_chars firstn skipn app]. by rewrite IH.
Qed.

Lemma unquote_ascii (c : ascii) (t : bytes) :
  (byte_val c <? 128) = true ->
  unquote 0 ((if htmlSafe c then [c] else escape_ascii c) ++ t) = c :: unquote 0 t.
Proof. destruct c as [[] [] [] [] [] [] [] []]; try discriminate; intros _; reflexivity. Qed.

Lemma EncodeRune_2 (c0 c1 : ascii) :
  utf8.between 194 223 c0 = true -> utf8.cont c1 = true ->
  utf8.EncodeRune ((byte_val c0 mod 32) * 64 + byte_val c1 mod 64) = [c0; c1].
Proof.
  unfold utf8.between, utf8.cont, utf8.EncodeRune, utf8.RuneError. intros H0 H1.
  set (b0 := byte_val c0) in *. set (b1 := byte_val c1) in *.
  set (r := b0 mod 32 * 64 + b1 mod 64).
  assert (Hr : 128 <= r < 2048) by (subst r; dlia).
  replace ((r <? 0) || (1114111 <? r) || (55296 <=? r) && (r <=? 57343)) with false by lia.
  replace (r <? 128) with false by lia. replace (r <? 2048) with true by lia.
  f_equal; [|f_equal]; apply byte_of_val_mod; fold b0 b1; subst r; dlia.
Qed.

Lemma EncodeRune_3 (c0 c1 c2 : ascii) :
  utf8.between 224 239 c0 = true ->
  utf8.between (if byte_val c0 =? 224 then 160 else 128)
               (if byte_val c0 =? 237 then 159 else 191) c1 = true ->
  utf8.cont c2 = true ->
  utf8.EncodeRune ((byte_val c0 mod 16) * 4096 + (byte_val c1 mod 64) * 64 + byte_val c2 mod 64)
  = [c0; c1; c2].
Proof.
  unfold utf8.between, utf8.cont, utf8.EncodeRune, utf8.RuneError. intros H0 H1 H2.
  set (b0 := byte_val c0) in *. set (b1 := byte_val c1) in *. set (b2 := byte_val c2) in *.
  set (r := b0 mod 16 * 4096 + b1 mod 64 * 64 + b2 mod 64).
  assert (Hr : 2048 <= r < 65536 /\ ~ (55296 <= r <= 57343)).
  { subst r. destruct (b0 =? 224) eqn:E1; destruct (b0 =? 237) eqn:E2; dlia. }
  replace ((r <? 0) || (1114111 <? r) || (55296 <=? r) && (r <=? 57343)) with false by lia.
  replace (r <? 128) with false by lia. replace (r <? 2048) with false by lia.
  replace (r <? 65536) with true by lia.
  assert (Hb : 128 <= b1 <= 191) by (destruct (b0 =? 224); destruct (b0 =? 237); lia).
  clear H1.
  f_equal; [|f_equal; [|f_equal]]; apply byte_of_val_mod; fold b0 b1 b2; subst r; dlia.
Qed.

Lemma EncodeRune_4 (c0 c1 c2 c3 : ascii) :
  utf8.between 240 244 c0 = true ->
  utf8.between (if byte_val c0 =? 240 then 144 else 128)
               (if byte_val c0 =? 244 then 143 else 191) c1 = true ->
  utf8.cont c2 = true -> utf8.cont c3 = true ->
  utf8.EncodeRune ((byte_val c0 mod 8) * 262144 + (byte_val c1 mod 64) * 4096 +
                   (byte_val c2 mod 64) * 64 + byte_val c3 mod 64)
  = [c0; c1; c2; c3].
Proof.
  unfold utf8.between, utf8.cont, utf8.EncodeRune, utf8.RuneError. intros H0 H1 H2 H3.
  set (b0 := byte_val c0) in *. set (b1 := byte_val c1) in *. set (b2 := byte_val c2) in *.
  set (b3 := byte_val c3) in *.
  set (r := b0 mod 8 * 262144 + b1 mod 64 * 4096 + b2 mod 64 * 64 + b3 mod 64).
  assert (Hb : 128 <= b1 <= 191) by (destruct (b0 =? 240); destruct (b0 =? 244); lia).
  assert (Hr : 65536 <= r <= 1114111).
  { subst r. destruct (b0 =? 240) eqn:E1; destruct (b0 =? 244) eqn:E2; dlia. }
  clear H1.
  replace ((r <? 0) || (1114111 <? r) || (55296 <=? r) && (r <=? 57343)) with false by lia.
  replace (r <? 128) with false by lia. replace (r <? 2048) with false by lia.
  replace (r <? 65536) with false by lia.
  f_equal; [|f_equal; [|f_equal; [|f_equal]]]; apply byte_of_val_mod; fold b0 b1 b2 b3;
    subst r; dlia.
Qed.

(** A rune that decodes: its bytes are there, [EncodeRune] writes them
    back, and the bytes behind them do not matter. *)
Lemma DecodeRune_valid (c : ascii) (r : bytes) (rr : Z) (size : nat) :
  (byte_val c <? 128) = false ->
  utf8.DecodeRune (c :: r) = (rr, size) ->
  (rr =? utf8.RuneError) && (size =? 1)%nat = false ->
  (size - 1 <= length r)%nat /\ (1 <= size)%nat /\
  utf8.EncodeRune rr = c :: firstn (size - 1) r /\
  (forall x, utf8.DecodeRune (c :: firstn (size - 1) r ++ x) = (rr, size)) /\
  ((rr =? 8232) || (rr =? 8233) = true -> size = 3%nat).
Proof.
  intros Hlo Hd Hv.
  assert (Hbad : (utf8.RuneError, 1%nat) = (rr, size) -> False).
  { intros Heq. injection Heq as <- <-. discriminate. }
  unfold utf8.DecodeRune in Hd |- *. rewrite Hlo in Hd |- *.
  destruct (utf8.between 194 223 c) eqn:E2.
  { destruct r as [|c1 r]; [by destruct Hbad|].
    destruct (utf8.cont c1) eqn:E1; [|by destruct Hbad].
    injection Hd as <- <-. cbn [Nat.sub firstn length app].
    split; [lia|]. split; [lia|]. split; [by apply EncodeRune_2|].
    split; [intros x; by rewrite E1|].
    unfold utf8.between, utf8.cont in *. intros Hrr. exfalso.
    set (b0 := byte_val c) in *. set (b1 := byte_val c1) in *.
    assert (b0 mod 32 * 64 + b1 mod 64 < 2048) by dlia. lia. }
  destruct (utf8.between 224 239 c) eqn:E3.
  { destruct r as [|c1 [|c2 r]]; try by destruct Hbad.
    destruct (utf8.between _ _ c1 && utf8.cont c2) eqn:E; [|by destruct Hbad].
    injection Hd as <- <-. cbn [Nat.sub firstn length app].
    pose proof E as E'. apply andb_true_iff in E' as [E1 E2'].
    split; [lia|]. split; [lia|]. split; [by apply EncodeRune_3|].
    split; [intros x; by rewrite E|]. done. }
  destruct (utf8.between 240 244 c) eqn:E4; [|by destruct Hbad].
  destruct r as [|c1 [|c2 [|c3 r]]]; try by destruct Hbad.
  destruct (utf8.between _ _ c1 && utf8.cont c2 && utf8.cont c3) eqn:E; [|by destruct Hbad].
  injection Hd as <- <-. cbn [Nat.sub firstn length app].
  pose proof E as E'. apply andb_true_iff in E' as [E' E3'].
  apply andb_true_iff in E' as [E1 E2'].
  split; [lia|]. split; [lia|]. split; [by apply EncodeRune_4|].
  split; [intros x; by rewrite E|].
  unfold utf8.between, utf8.cont in *. intros Hrr. exfalso.
  set (b0 := byte_val c) in *. set (b1 := byte_val c1) in *.
  set (b2 := byte_val c2) in *. set (b3 := byte_val c3) in *.
  assert (128 <= b1) by (destruct (b0 =? 240); lia).
  assert (65536 <= b0 mod 8 * 262144 + b1 mod 64 * 4096 + b2 mod 64 * 64 + b3 mod 64).
  { clear Hrr E. destruct (b0 =? 240) eqn:E0; destruct (b0 =? 244) eqn:E44; dlia. }
  lia.
Qed.

Lemma unquote_encode_aux (n : nat) : forall s : bytes,
  (length s <= n)%nat -> valid_loop 0 s = true -> unquote 0 (encode_chars 0 s) = s.
Proof.
  induction n as [|n IH]; intros s Hn Hv.
  { destruct s; [reflexivity|cbn in Hn; lia]. }
  destruct s as [|c r]; [reflexivity|]. cbn [length] in Hn.
  cbn [valid_loop] in Hv. cbn [encode_chars].
  destruct (byte_val c <? 128) eqn:Hlo.
  { assert (Hd : utf8.DecodeRune (c :: r) = (byte_val c, 1%nat))
      by (unfold utf8.DecodeRune; by rewrite Hlo).
    rewrite Hd in Hv.
    replace ((byte_val c =? utf8.RuneError) && (1 =? 1)%nat) with false in Hv
      by (unfold utf8.RuneError; lia).
    cbn [Nat.sub] in Hv.
    rewrite unquote_ascii by done. f_equal. apply IH; [lia|done]. }
  destruct (utf8.DecodeRune (c :: r)) as [rr size] eqn:Hd.
  destruct ((rr =? utf8.RuneError) && (size =? 1)%nat) eqn:Herr; [discriminate|].
  destruct (DecodeRune_valid c r rr size Hlo Hd Herr) as (Hlen & H1 & Henc & Hloc & H3).
  destruct ((rr =? 8232) || (rr =? 8233)) eqn:Hsep.
  - specialize (H3 eq_refl). subst size.
    destruct r as [|c1 [|c2 r']]; [cbn in Hlen; lia..|].
    cbn [Nat.sub valid_loop] in Hv. cbn [Nat.sub firstn] in Henc.
    assert (Hrest : unquote 0 (encode_chars 0 r') = r') by (apply IH; [cbn in Hn; lia|done]).
    assert (Hcase : rr = 8232 \/ rr = 8233) by lia.
    destruct Hcase as [-> | ->]; cbn [app bytes_of list_ascii_of_string].
    + match goal with |- unquote 0 ?t = _ =>
        change (unquote 0 t) with (utf8.EncodeRune 8232 ++ unquote 0 (encode_chars 0 r')) end.
      rewrite Henc, Hrest. reflexivity.
    + match goal with |- unquote 0 ?t = _ =>
        change (unquote 0 t) with (utf8.EncodeRune 8233 ++ unquote 0 (encode_chars 0 r')) end.
      rewrite Henc, Hrest. reflexivity.
  - rewrite encode_chars_skip.
    change (unquote 0 (c :: firstn (size - 1) r ++ encode_chars 0 (skipn (size - 1) r)))
      with (if Ascii.eqb c backslash
            then match firstn (size - 1) r ++ encode_chars 0 (skipn (size - 1) r) with
                 | e :: r'0 =>
                     if Ascii.eqb e "u" then
                       let rr := getu4 r'0 in
                       if IsSurrogate rr then
                         let dec := utf16_DecodeRune rr (getu4_escaped (skipn 4 r'0)) in
                         if (dec =? utf8.RuneError)%Z
                         then utf8.EncodeRune utf8.RuneError ++
                              unquote 5 (firstn (size - 1) r ++
                                         encode_chars 0 (skipn (size - 1) r))
                         else utf8.EncodeRune dec ++
                              unquote 11 (firstn (size - 1) r ++
                                          encode_chars 0 (skipn (size - 1) r))
                       else utf8.EncodeRune rr ++
                            unquote 5 (firstn (size - 1) r ++
                                       encode_chars 0 (skipn (size - 1) r))
                     else unescape e :: unquote 1 (firstn (size - 1) r ++
                                                   encode_chars 0 (skipn (size - 1) r))
                 | [] => []
                 end
            else if (byte_val c <? 128)%Z
                 then c :: unquote 0 (firstn (size - 1) r ++ encode_chars 0 (skipn (size - 1) r))
                 else let '(rr, size0) :=
                        utf8.DecodeRune (c :: firstn (size - 1) r ++
                                         encode_chars 0 (skipn (size - 1) r)) in
                      utf8.EncodeRune rr ++
                      unquote (size0 - 1) (firstn (size - 1) r ++
                                           encode_chars 0 (skipn (size - 1) r))).
    assert (Hb : Ascii.eqb c backslash = false).
    { apply Ascii.eqb_neq. intros ->. vm_compute in Hlo. discriminate. }
    rewrite Hb, Hlo, Hloc, Henc.
    rewrite unquote_skip, skipn_app, length_firstn.
    replace (size - 1 - Nat.min (size - 1) (length r))%nat with 0%nat by lia.
    rewrite skipn_all2 by (rewrite length_firstn; lia). cbn [skipn app].
    rewrite valid_loop_skip in Hv. rewrite (skipn_O (encode_chars 0 _)).
    rewrite IH; [|rewrite length_skipn; lia|done].
    cbn [app]. by rewrite firstn_skipn.
Qed.

(** [unquote] reads a string that is valid UTF-8 back from the literal
    [json.Marshal] writes for it. *)
Lemma unquote_encode (s : string) :
  valid_utf8 s = true -> string_of (unquote 0 (encode_chars 0 (bytes_of s))) = s.
Proof.
  intros Hv. rewrite (unquote_encode_aux (length (bytes_of s))) by done.
  apply string_of_list_ascii_of_string.
Qed.

End Utf8.

(* ===================================================================== *)
(** * A record through the store *)
(* ===================================================================== *)

Section RecordText.
Import json syntax spec_utf record_syntax.
Context `{F : json.Float64}.

(** ** The text of a record *)

Lemma print_string_tree (ind : option nat) (s : string) :
  print ind (string_tree s) = encode_string (bytes_of s).
Proof. reflexivity. Qed.

Lemma print_strings_tree (l : list string) :
  print None (strings_tree l) = storage.encode_strings l.
Proof.
  unfold storage.encode_strings, strings_tree. destruct l as [|s l]; [reflexivity|].
  remember (s :: l) as l' eqn:El.
  assert (Hp : forall ts, ts <> [] ->
            print None (TArray ts)
            = bytes_of "[" ++ join (bytes_of ",") (map (print None) ts) ++ bytes_of "]").
  { intros [|t ts] Hne; [done|]. reflexivity. }
  rewrite Hp by (subst l'; discriminate). rewrite map_map. reflexivity.
Qed.

Lemma print_headers_tree (h : http.Header) :
  print None (headers_tree h) = storage.encode_headers h.
Proof.
  unfold storage.encode_headers, headers_tree.
  destruct (storage.sorted_entries h) as [|kv l]; [reflexivity|].
  remember (kv :: l) as l' eqn:El.
  assert (Hp : forall ms, ms <> [] ->
            print None (TObject ms)
            = bytes_of "{" ++
              join (bytes_of ",")
                   (map (fun kv => quoted (fst kv) ++ bytes_of ":" ++ print None (snd kv)) ms) ++
              bytes_of "}").
  { intros [|m ms] Hne; [done|]. reflexivity. }
  rewrite Hp by (subst l'; discriminate). rewrite map_map. cbn [fst snd].
  f_equal. f_equal. f_equal. apply map_ext. intros [k vs]. cbn [fst snd].
  by rewrite print_strings_tree.
Qed.

Lemma print_record_tree (c : storage.CachedResponse) (body : tree) :
  print None (record_tree c body)
  = lit "{'method':" ++ encode_string (bytes_of (storage.Method c)) ++
    lit ",'path':" ++ encode_string (bytes_of (storage.Path c)) ++
    lit ",'status_code':" ++ storage.encode_int (storage.StatusCode c) ++
    lit ",'headers':" ++ storage.encode_headers (storage.Headers c) ++
    lit ",'body':" ++ print None body ++ lit "}".
Proof.
  rewrite <- print_headers_tree.
  unfold record_tree, string_tree, int_tree, encode_string.
  cbn [print map join fst snd nl sp deeper option_map]. unfold quoted.
  repeat match goal with |- context [lit ?x] =>
    let v := eval vm_compute in (lit x) in change (lit x) with v end.
  rewrite <- !app_assoc. cbn [app bytes_of list_ascii_of_string]. reflexivity.
Qed.

End RecordText.

Section RecordDecoding.
Import json syntax spec_utf record_syntax.
Local Open Scope Z_scope.

(** ** Well formed record texts *)

Lemma key_literal (s : bytes) : encode_chars 0 s = s -> literal s.
Proof. intros <-. apply encoded_literal. Qed.

Lemma wf_strings_tree (l : list string) : wf (strings_tree l).
Proof.
  unfold strings_tree. cbn [wf]. induction l as [|s l IH]; [done|].
  cbn [map fold_right]. split; [apply encoded_literal|exact IH].
Qed.

Lemma wf_headers_tree (h : http.Header) : wf (headers_tree h).
Proof.
  unfold headers_tree. cbn [wf]. induction (storage.sorted_entries h) as [|[k vs] l IH]; [done|].
  cbn [map fold_right fst snd]. split; [apply encoded_literal|]. split; [apply wf_strings_tree|].
  exact IH.
Qed.

Lemma wf_record_tree (c : storage.CachedResponse) (body : tree) :
  wf body -> wf (record_tree c body).
Proof.
  intros Hb. unfold record_tree. cbn [wf fold_right fst snd].
  repeat split; try (apply key_literal; reflexivity); try apply encoded_literal;
    try apply wf_headers_tree; try exact Hb.
  right. right. right. split; [apply encode_int_number|reflexivity].
Qed.

Lemma height_strings_tree (l : list string) : (height (strings_tree l) <= 1)%N.
Proof.
  unfold strings_tree. cbn [height].
  assert (fold_right (fun x acc => N.max (height x) acc) 0%N (map string_tree l) = 0%N).
  { induction l as [|s l IH]; [done|]. cbn [map fold_right]. rewrite IH. reflexivity. }
  lia.
Qed.

Lemma height_headers_tree (h : http.Header) : (height (headers_tree h) <= 2)%N.
Proof.
  unfold headers_tree. cbn [height].
  assert (fold_right (fun kv acc => N.max (height (snd kv)) acc) 0%N
            (map (fun kv => (encode_chars 0 (bytes_of (fst kv)), strings_tree (snd kv)))
                 (storage.sorted_entries h)) <= 1)%N.
  { induction (storage.sorted_entries h) as [|[k vs] l IH]; [done|].
    cbn [map fold_right fst snd]. pose proof (height_strings_tree vs). lia. }
  lia.
Qed.

Lemma height_record_tree (c : storage.CachedResponse) (body : tree) :
  (height (record_tree c body) <= 1 + N.max 2 (height body))%N.
Proof.
  unfold record_tree. cbn [height fold_right snd].
  pose proof (height_headers_tree (storage.Headers c)).
  change (height (string_tree _)) with 0%N. change (height (int_tree _)) with 0%N. lia.
Qed.

(** ** The entries of a map in the order of their keys *)

Lemma map_store_perm {V} (k : string) (v : V) (m : list (string * V)) :
  k ∉ m.*1 -> map_store k v m ≡ₚ (k, v) :: m.
Proof.
  induction m as [|[k' v'] m IH]; intros Hk; [done|]. cbn [map_store].
  rewrite fmap_cons in Hk. apply not_elem_of_cons in Hk as [Hne Hk].
  destruct (String.compare k k') eqn:E.
  - apply String.compare_eq_iff in E. done.
  - done.
  - rewrite IH by done. apply perm_swap.
Qed.

Lemma sorted_entries_perm (h : http.Header) : storage.sorted_entries h ≡ₚ map_to_list h.
Proof.
  unfold storage.sorted_entries.
  pose proof (NoDup_fst_map_to_list h) as Hnd.
  induction (map_to_list h) as [|[k v] l IH]; [done|].
  rewrite fmap_cons in Hnd. apply NoDup_cons in Hnd as [Hk Hnd].
  cbn [fold_right fst snd]. specialize (IH Hnd).
  rewrite map_store_perm; [by rewrite IH|]. by rewrite IH.
Qed.

(** ** Decoding *)

Lemma decode_strings_tree (ind : option nat) (l : list string) :
  Forall (fun v => valid_utf8 v = true) l ->
  storage.decode_strings (value_of ind (strings_tree l)) = Some l.
Proof.
  intros Hl. unfold strings_tree. cbn [value_of storage.decode_strings].
  induction Hl as [|s l Hs _ IH]; [done|].
  cbn [map fold_right]. rewrite IH.
  cbn [value_of string_tree storage.decode_string].
  by rewrite (unquote_encode s Hs).
Qed.

Lemma decode_headers_tree (ind : option nat) (h : http.Header) :
  (forall k vs, h !! k = Some vs ->
                valid_utf8 k = true /\ Forall (fun v => valid_utf8 v = true) vs) ->
  storage.decode_headers (value_of ind (headers_tree h)) ∅ = Some h.
Proof.
  intros Hv. unfold headers_tree. cbn [value_of storage.decode_headers]. rewrite map_map.
  cbn [fst snd].
  assert (Hin : forall kv, kv ∈ storage.sorted_entries h -> h !! fst kv = Some (snd kv)).
  { intros [k vs] Hkv. rewrite sorted_entries_perm in Hkv. by apply elem_of_map_to_list. }
  assert (Hnd : NoDup ((storage.sorted_entries h).*1)).
  { rewrite sorted_entries_perm. apply NoDup_fst_map_to_list. }
  assert (Hall : list_to_map (storage.sorted_entries h) = h).
  { rewrite <- (list_to_map_to_list h) at 2.
    apply list_to_map_proper; [done|apply sorted_entries_perm]. }
  revert Hin Hnd Hall. generalize (storage.sorted_entries h). intros l Hin Hnd Hall.
  assert (Hfold : forall acc : http.Header,
            fold_left (fun acc m =>
                         match acc, storage.decode_strings (snd m) with
                         | Some h0, Some vs => Some (<[string_of (fst (fst m)) := vs]> h0)
                         | _, _ => None
                         end)
                      (map (fun kv => (unquote 0 (encode_chars 0 (bytes_of (fst kv))),
                                       print (deeper ind) (strings_tree (snd kv)),
                                       value_of (deeper ind) (strings_tree (snd kv)))) l)
                      (Some acc)
            = Some (fold_left (fun h0 kv => <[fst kv := snd kv]> h0) l acc)).
  { clear Hnd Hall. induction l as [|[k vs] l IH]; intros acc; [done|].
    cbn [map fold_left fst snd].
    destruct (Hv k vs (Hin (k, vs) ltac:(by left))) as [Hk Hvs].
    rewrite decode_strings_tree by done. rewrite (unquote_encode k Hk).
    apply IH. intros kv Hkv. apply Hin. by right. }
  rewrite Hfold. rewrite insert_all_union by done.
  by rewrite (right_id_L ∅ (∪)), Hall.
Qed.

Lemma decode_member_method c raw v :
  storage.decode_member c (unquote 0 (bytes_of "method"), raw, v)
  = option_map (fun x => storage.mkCachedResponse x (storage.Path c) (storage.StatusCode c)
                                                  (storage.Headers c) (storage.Body c))
               (storage.decode_string v (storage.Method c)).
Proof. reflexivity. Qed.

Lemma decode_member_path c raw v :
  storage.decode_member c (unquote 0 (bytes_of "path"), raw, v)
  = option_map (fun x => storage.mkCachedResponse (storage.Method c) x (storage.StatusCode c)
                                                  (storage.Headers c) (storage.Body c))
               (storage.decode_string v (storage.Path c)).
Proof. reflexivity. Qed.

Lemma decode_member_status_code c raw v :
  storage.decode_member c (unquote 0 (bytes_of "status_code"), raw, v)
  = option_map (fun x => storage.mkCachedResponse (storage.Method c) (storage.Path c) x
                                                  (storage.Headers c) (storage.Body c))
               (storage.decode_int v (storage.StatusCode c)).
Proof. reflexivity. Qed.

Lemma decode_member_headers c raw v :
  storage.decode_member c (unquote 0 (bytes_of "headers"), raw, v)
  = option_map (fun x => storage.mkCachedResponse (storage.Method c) (storage.Path c)
                                                  (storage.StatusCode c) x (storage.Body c))
               (storage.decode_headers v (storage.Headers c)).
Proof. reflexivity. Qed.

Lemma decode_member_body c raw v :
  storage.decode_member c (unquote 0 (bytes_of "body"), raw, v)
  = Some (storage.mkCachedResponse (storage.Method c) (storage.Path c) (storage.StatusCode c)
                                   (storage.Headers c) (storage.UnmarshalJSON raw)).
Proof. reflexivity. Qed.

(** [json.Unmarshal] on the indented text of a record. *)
Lemma Unmarshal_record_tree (c : storage.CachedResponse) (body : tree) :
  wf body -> (height body <= 9999)%N -> utf8_record c -> int64 (storage.StatusCode c) ->
  storage.Unmarshal_CachedResponse (print (Some 0%nat) (record_tree c body))
  = Ok (storage.mkCachedResponse (storage.Method c) (storage.Path c) (storage.StatusCode c)
                                 (storage.Headers c)
                                 (storage.UnmarshalJSON (print (Some 1%nat) body))).
Proof.
  intros Hb Hh (Hm & Hp & Hhd) Hz. unfold storage.Unmarshal_CachedResponse.
  rewrite parse_print.
  2:{ by apply wf_record_tree. }
  2:{ pose proof (height_record_tree c body). unfold maxNestingDepth. lia. }
  unfold record_tree. cbn [value_of map fst snd deeper option_map fold_left].
  rewrite decode_member_method. cbn [value_of string_tree storage.decode_string option_map].
  rewrite decode_member_path. cbn [value_of string_tree storage.decode_string option_map
                                   storage.Method storage.Path storage.StatusCode
                                   storage.Headers storage.Body].
  rewrite decode_member_status_code.
  cbn [value_of int_tree storage.decode_int option_map
       storage.Method storage.Path storage.StatusCode storage.Headers storage.Body].
  rewrite (ParseInt_encode_int _ Hz). cbn [option_map].
  rewrite decode_member_headers.
  cbn [storage.Method storage.Path storage.StatusCode storage.Headers storage.Body
       storage.zero].
  rewrite (decode_headers_tree _ _ Hhd). cbn [option_map].
  rewrite decode_member_body.
  cbn [storage.Method storage.Path storage.StatusCode storage.Headers storage.Body].
  by rewrite (unquote_encode _ Hm), (unquote_encode _ Hp).
Qed.

End RecordDecoding.

Section SaveLoad.
Import json syntax spec_utf record_syntax spec.
Context `{F : json.Float64}.

(** The tree of the text [MarshalJSON] writes for a body that is not
    JSON. *)
Lemma plain_literal (t : bytes) : Forall plain t -> literal t.
Proof. intros Ht. rewrite <- (encode_chars_plain t Ht). apply encoded_literal. Qed.

Lemma MarshalJSON_opaque (rb : storage.ResponseBody) :
  (forall v, Unmarshal_any rb <> Ok v) ->
  exists body : tree,
    wf body /\ height body = 0%N /\
    storage.MarshalJSON rb = Ok (print None body) /\
    compact (print None body) = Ok (print None body) /\
    storage.UnmarshalJSON (print (Some 1%nat) body) = rb.
Proof.
  intros Hn. unfold storage.MarshalJSON. destruct rb as [|b rb'].
  { exists (TScalar (bytes_of "null") JNull). repeat split; try (vm_compute; reflexivity).
    left. done. }
  cbn [length Nat.eqb]. set (rb := b :: rb') in *.
  destruct (Unmarshal_any rb) as [v|e] eqn:E; [by destruct (Hn v)|].
  pose proof (Encode_plain rb) as Hp.
  exists (TString (base64.Encode rb)). cbn [wf height print]. unfold quoted.
  split; [by apply plain_literal|]. split; [done|]. split; [|split].
  - unfold Marshal_string, encode_string, base64.EncodeToString.
    rewrite list_ascii_of_string_of_list_ascii, encode_chars_plain by done. reflexivity.
  - by apply compact_plain_literal.
  - unfold storage.UnmarshalJSON, Unmarshal_string.
    rewrite parse_plain_literal by done. unfold base64.DecodeString.
    rewrite list_ascii_of_string_of_list_ascii, base64_decode_encode. reflexivity.
Qed.

(** [Save] writes the indented text of the record's tree. *)
Lemma Save_record_tree (st : storage.Storage) (fs : os.FS) (hash : string)
    (c : storage.CachedResponse) (body : tree) :
  wf body -> (height body <= 9999)%N ->
  storage.MarshalJSON (storage.Body c) = Ok (print None body) ->
  compact (print None body) = Ok (print None body) ->
  os.writable fs = true ->
  storage.Save st fs hash c
  = (Ok tt, os.mkFS (<[storage.getFilename st hash := print (Some 0%nat) (record_tree c body)]>
                       (os.files fs)) true).
Proof.
  intros Hwf Hh Hm Hc Hw.
  unfold storage.Save, storage.MarshalIndent_CachedResponse, storage.Marshal_CachedResponse.
  rewrite Hm, Hc, <- print_record_tree, Indent_print.
  - unfold os.WriteFile. by rewrite Hw.
  - by apply wf_record_tree.
  - pose proof (height_record_tree c body). unfold maxNestingDepth. lia.
Qed.

Lemma Load_record_tree (st : storage.Storage) (fs : os.FS) (hash : string)
    (c : storage.CachedResponse) (body : tree) :
  wf body -> (height body <= 9999)%N -> utf8_record c -> int64 (storage.StatusCode c) ->
  os.files fs !! storage.getFilename st hash = Some (print (Some 0%nat) (record_tree c body)) ->
  storage.Load st fs hash
  = Ok (storage.mkCachedResponse (storage.Method c) (storage.Path c) (storage.StatusCode c)
                                 (storage.Headers c)
                                 (storage.UnmarshalJSON (print (Some 1%nat) body))).
Proof.
  intros Hwf Hh Hu Hz Hf. unfold storage.Load, os.ReadFile. rewrite Hf.
  by rewrite Unmarshal_record_tree.
Qed.

(** [Save] followed by [Load], for a body that is not JSON. *)
Lemma Save_Load_opaque (st : storage.Storage) (fs : os.FS) (hash : string)
    (c : storage.CachedResponse) :
  os.writable fs = true -> utf8_record c -> int64 (storage.StatusCode c) ->
  (forall v, Unmarshal_any (storage.Body c) <> Ok v) ->
  exists fs', storage.Save st fs hash c = (Ok tt, fs') /\ storage.Load st fs' hash = Ok c.
Proof.
  intros Hw Hu Hz Hn.
  destruct (MarshalJSON_opaque (storage.Body c) Hn) as (body & Hwf & Hh & Hm & Hc & Hb).
  eexists. split.
  - apply (Save_record_tree st fs hash c body); [done|lia|done..].
  - erewrite (Load_record_tree st _ hash c body); [|done|lia|done|done|].
    + rewrite Hb. by destruct c.
    + cbn [os.files]. apply lookup_insert_eq.
Qed.

End SaveLoad.

Section SaveLoadClaims.
Import json syntax spec_utf record_syntax spec.

(** A record whose strings are valid UTF-8, whose status is an int64
    and whose body is not JSON (the empty body included) is written by
    [Save] on a writable file system, and [Load] of the same hash then
    returns that record, field by field. *)
Theorem Save_then_Load `{F : json.Float64} (st : storage.Storage) (fs : os.FS) (hash : string)
    (c : storage.CachedResponse) :
  os.writable fs = true -> utf8_record c -> int64 (storage.StatusCode c) ->
  (forall v, Unmarshal_any (storage.Body c) <> Ok v) ->
  exists fs', storage.Save st fs hash c = (Ok tt, fs') /\ storage.Load st fs' hash = Ok c.
Proof. apply Save_Load_opaque. Qed.

End SaveLoadClaims.

(* ===================================================================== *)
(** * Record, then replay *)
(* ===================================================================== *)

Section RecordReplay.
Import http proxy spec json syntax spec_utf record_syntax.
Context `{F : json.Float64} `{R : MapRange}.

(** The world a plain exchange leaves in record mode. *)
Lemma record_plain_world (cfg : config.Config) (st : storage.Storage)
    (backendURL : URL) (transport : Request -> list rwop) (r : Request) (fs : os.FS)
    requestHash bodyBytes (pre post : list rwop) (code : Z) :
  config.Mode_ cfg = config.ModeRecord ->
  requestHash_of r = Ok (requestHash, bodyBytes) ->
  transport (outgoing backendURL (restored r bodyBytes)) = pre ++ OpWriteHeader code :: post ->
  forallb header_op pre = true -> forallb write_op post = true -> final_code code = true ->
  let hd := fold_left apply_op pre ∅ in
  let s' := exec (ServeHTTP (New cfg st backendURL transport) r) (new_world fs) in
  disk s' = snd (storage.Save st fs requestHash
                   (storage.mkCachedResponse (Method r) (Path (URL_ r)) code hd
                                             (concat (writes post)))) /\
  status (client s') = code /\ sentHeader (client s') = hd /\
  body (client s') = (if bodyAllowedForStatus code then concat (writes post) else []).
Proof.
  intros Hm Hh Ht Hpre Hpost Hf. cbv zeta. unfold exec.
  rewrite (ServeHTTP_record (New cfg st backendURL transport) r requestHash bodyBytes Hm Hh).
  rewrite run_bind. cbn [logf]. rewrite handleRecord_run.
  unfold capture, ReverseProxy_ServeHTTP. cbn [New proxy_ Director Transport config_ storage_].
  rewrite Hm. rewrite run_bind. cbn [logf]. rewrite run_bind, run_bind.
  change (mkRequest (Method (restored r bodyBytes)) (URL_ (restored r bodyBytes))
                    (Header_ (restored r bodyBytes)) (bytes_NewReader bodyBytes)
                    (Host (restored r bodyBytes)) (RemoteAddr (restored r bodyBytes)))
    with (restored r bodyBytes).
  match goal with |- context [director _ ?u ?q ?w] =>
    destruct (director_record_run u q w) as (l & ->) end.
  rewrite run_bind. cbn [contact]. rewrite Ht.
  rewrite capturer_plain_exchange by done.
  cbv zeta. unfold mret, M_ret, with_client, with_logs.
  cbn -[bodyAllowedForStatus storage.Save].
  repeat split; reflexivity.
Qed.

Lemma bodiless_allowed (code : Z) : bodiless code = negb (bodyAllowedForStatus code).
Proof.
  unfold bodiless, bodyAllowedForStatus.
  destruct (code =? 204)%Z eqn:E1, (code =? 304)%Z eqn:E2,
           (100 <=? code)%Z eqn:E3, (code <? 200)%Z eqn:E4, (code <=? 199)%Z eqn:E5;
    cbn; try reflexivity; lia.
Qed.

Lemma string_of_inj (a b : bytes) : string_of a = string_of b -> a = b.
Proof.
  intros Hs. apply (f_equal list_ascii_of_string) in Hs. unfold string_of in Hs.
  by rewrite !list_ascii_of_string_of_list_ascii in Hs.
Qed.

(** The replay of a record with a final status code, canonical header
    names and a body other than the four bytes [null]. *)
Lemma replay_plain_record (h : Handler) (r : Request) (fs : os.FS) requestHash bodyBytes
    (cached : storage.CachedResponse) :
  config.Mode_ (config_ h) = config.ModeReplay ->
  requestHash_of r = Ok (requestHash, bodyBytes) ->
  storage.Load (storage_ h) fs requestHash = Ok cached ->
  canonical_keys (storage.Headers cached) ->
  final_code (storage.StatusCode cached) = true ->
  storage.Body cached <> bytes_of "null" ->
  let w := client (exec (ServeHTTP h r) (new_world fs)) in
  status w = storage.StatusCode cached /\
  sentHeader w = filter replayed_entry (storage.Headers cached) /\
  body w = (if bodyAllowedForStatus (storage.StatusCode cached) then storage.Body cached else []).
Proof.
  intros Hm Hh HL Hc Hf Hn. cbv zeta.
  rewrite (replay_hit_client h r fs requestHash bodyBytes cached Hm Hh HL).
  rewrite (replayed_headers _ Hc). unfold replay_response.
  unfold final_code in Hf. apply andb_true_iff in Hf as [-> Hf].
  apply negb_true_iff in Hf. rewrite Hf. cbn [negb].
  unfold writes_body. rewrite bodiless_allowed, negb_involutive.
  destruct (bodyAllowedForStatus (storage.StatusCode cached)); cbn [andb]; [|done].
  destruct (storage.Body cached) as [|c b] eqn:Eb; [done|].
  cbn [length Nat.ltb Nat.leb andb].
  destruct (String.eqb_spec (string_of (c :: b)) "null") as [Hnull|_].
  { exfalso. by apply (string_of_inj (c :: b) (bytes_of "null")) in Hnull. }
  destruct (String.eqb_spec (string_of (c :: b)) "") as [He|_]; [discriminate|].
  done.
Qed.

End RecordReplay.

Section RecordReplayClaims.
Import http proxy spec json syntax spec_utf record_syntax.
Context `{F : json.Float64} `{R : MapRange}.

(** A request is served in record mode on a writable store, and the
    reverse proxy makes the calls of a plain exchange: operations on the
    header map, one status write with a final code, body writes. The body
    is not JSON, and the method, the path and the headers are valid UTF-8.
    Then a handler in replay mode on the store that was left answers every
    request with the same fingerprint with the status and the body the
    first client received, and with the headers it received except
    [Content-Length] and the names without a value; it contacts no
    backend. *)
Theorem record_then_replay (cfg : config.Config) (st : storage.Storage)
    (backendURL : URL) (transport : Request -> list rwop) (r : Request) (fs : os.FS)
    requestHash bodyBytes (pre post : list rwop) (code : Z)
    (h2 : Handler) (r2 : Request) (bodyBytes2 : bytes) :
  config.Mode_ cfg = config.ModeRecord ->
  requestHash_of r = Ok (requestHash, bodyBytes) ->
  transport (outgoing backendURL (restored r bodyBytes)) = pre ++ OpWriteHeader code :: post ->
  forallb header_op pre = true -> forallb write_op post = true -> final_code code = true ->
  os.writable fs = true ->
  utf8_record (storage.mkCachedResponse (Method r) (Path (URL_ r)) code
                                        (fold_left apply_op pre ∅) (concat (writes post))) ->
  (forall v, Unmarshal_any (concat (writes post)) <> Ok v) ->
  config.Mode_ (config_ h2) = config.ModeReplay -> storage_ h2 = st ->
  requestHash_of r2 = Ok (requestHash, bodyBytes2) ->
  let s1 := exec (ServeHTTP (New cfg st backendURL transport) r) (new_world fs) in
  let s2 := exec (ServeHTTP h2 r2) (new_world (disk s1)) in
  status (client s2) = status (client s1) /\
  body (client s2) = body (client s1) /\
  sentHeader (client s2) = filter replayed_entry (sentHeader (client s1)) /\
  contacted s2 = [].
Proof.
  intros Hm Hh Ht Hpre Hpost Hf Hw Hu Hn Hm2 Hst Hh2. cbv zeta.
  destruct (record_plain_world cfg st backendURL transport r fs requestHash bodyBytes
              pre post code Hm Hh Ht Hpre Hpost Hf) as (Hd & Hs & Hhd & Hb).
  set (cached := storage.mkCachedResponse (Method r) (Path (URL_ r)) code
                   (fold_left apply_op pre ∅) (concat (writes post))) in *.
  assert (Hz : int64 (storage.StatusCode cached)).
  { unfold int64, cached, final_code, valid_code in *. cbn [storage.StatusCode]. lia. }
  destruct (Save_Load_opaque st fs requestHash cached Hw Hu Hz Hn) as (fs' & HS & HL).
  rewrite Hd, HS. cbn [snd]. subst st.
  destruct (replay_plain_record h2 r2 fs' requestHash bodyBytes2 cached Hm2 Hh2 HL)
    as (H1 & H2 & H3); [| exact Hf | |].
  { apply canonical_keys_apply_ops, canonical_keys_empty. }
  { intros Hnull. apply (Hn ANil). cbn [storage.Body cached] in Hnull. by rewrite Hnull. }
  rewrite H1, H2, H3, Hs, Hhd, Hb. repeat split.
  destruct (local_ServeHTTP_replay h2 r2 Hm2) as [Hc _]. apply (Hc (new_world fs')).
Qed.

End RecordReplayClaims.

Section RecordReplayWitnesses.
Import http proxy spec json syntax spec_utf record_syntax.
Import Examples RecordExamples FingerprintExamples ScenarioExamples.

Lemma Save_then_Load_witness :
  exists fs', @storage.Save literal_floats st writable_store hash_get_a binary_body_record
              = (Ok tt, fs') /\
              storage.Load st fs' hash_get_a = Ok binary_body_record.
Proof.
  apply (@Save_then_Load literal_floats st writable_store hash_get_a binary_body_record).
  - reflexivity.
  - split; [reflexivity|]. split; [reflexivity|]. intros k vs Hk.
    unfold binary_body_record in Hk. cbn [storage.Headers] in Hk.
    by rewrite lookup_empty in Hk.
  - unfold int64. cbn [storage.StatusCode binary_body_record]. lia.
  - intros v. vm_compute. discriminate.
Defined.

Lemma record_then_replay_witness :
  let s1 := recorded answer_raw post_john in
  let s2 := replayed answer_raw post_john in
  status (client s2) = status (client s1) /\
  body (client s2) = body (client s1) /\
  sentHeader (client s2) = filter replayed_entry (sentHeader (client s1)) /\
  contacted s2 = [].
Proof.
  apply (@record_then_replay literal_floats range_in_order
           (cfg config.ModeRecord) st backendURL answer_raw post_john writable_store
           (match requestHash_of post_john with Ok (x, _) => x | Err _ => EmptyString end)
           (lit "{'name':'John'}")
           [OpHeaderAdd "Content-Type" "application/octet-stream"]
           [OpWrite (firstn 2 raw_bytes); OpWrite (skipn 2 raw_bytes)] 200%Z
           (handler config.ModeReplay) post_john (lit "{'name':'John'}")).
  - reflexivity.
  - vm_compute. reflexivity.
  - reflexivity.
  - reflexivity.
  - reflexivity.
  - reflexivity.
  - reflexivity.
  - split; [reflexivity|]. split; [reflexivity|]. intros k vs Hk.
    cbn [storage.Headers] in Hk.
    change (fold_left apply_op [OpHeaderAdd "Content-Type" "application/octet-stream"] ∅)
      with (<["Content-Type" := ["application/octet-stream"]]> (∅ : Header)) in Hk.
    apply lookup_insert_Some in Hk as [[<- <-]|[_ Hk]].
    + split; [reflexivity|]. repeat constructor.
    + by rewrite lookup_empty in Hk.
  - intros v. vm_compute. discriminate.
  - reflexivity.
  - reflexivity.
  - vm_compute. reflexivity.
Defined.

End RecordReplayWitnesses.

(* ===================================================================== *)
(** * Bodies that are JSON *)
(* ===================================================================== *)

Section AnyTrees.
Import json syntax spec_utf record_syntax any_syntax.
Context `{F : Float64}.

Lemma any_ind' (P : any -> Prop) :
  P ANil -> (forall b, P (ABool b)) -> (forall f, P (AFloat f)) -> (forall s, P (AString s)) ->
  (forall l, Forall P l -> P (ASlice l)) ->
  (forall m, Forall (fun kv => P (snd kv)) m -> P (AMap m)) ->
  forall a, P a.
Proof.
  intros Hn Hb Hf Hs Hl Hm. fix IH 1. intros [|b|f|s|l|m].
  - apply Hn.
  - apply Hb.
  - apply Hf.
  - apply Hs.
  - apply Hl. induction l as [|x l IHl]; constructor; [apply IH|exact IHl].
  - apply Hm. induction m as [|[k x] m IHm]; constructor; [apply IH|exact IHm].
Qed.

Lemma value_ind' (P : value -> Prop) :
  P JNull -> (forall b, P (JBool b)) -> (forall l, P (JNumber l)) -> (forall s, P (JString s)) ->
  (forall l, Forall P l -> P (JArray l)) ->
  (forall l, Forall (fun m => P (snd m)) l -> P (JObject l)) ->
  forall v, P v.
Proof.
  intros Hn Hb Hf Hs Hl Hm. fix IH 1. intros [|b|f|s|l|m].
  - apply Hn.
  - apply Hb.
  - apply Hf.
  - apply Hs.
  - apply Hl. induction l as [|x l IHl]; constructor; [apply IH|exact IHl].
  - apply Hm. induction m as [|[k x] m IHm]; constructor; [apply IH|exact IHm].
Qed.

(** ** The text of a value *)

Lemma print_array (ts : list tree) :
  print None (TArray ts) = bytes_of "[" ++ join (bytes_of ",") (map (print None) ts) ++ bytes_of "]".
Proof. by destruct ts. Qed.

Lemma print_object (ms : list (bytes * tree)) :
  print None (TObject ms)
  = bytes_of "{" ++
    join (bytes_of ",")
         (map (fun kv => quoted (fst kv) ++ bytes_of ":" ++ print None (snd kv)) ms) ++
    bytes_of "}".
Proof. by destruct ms. Qed.

Lemma print_tree_of (a : any) : print None (tree_of a) = encode_any a.
Proof.
  induction a as [|[|]|f|s|l IH|m IH] using any_ind'; try reflexivity.
  - cbn [tree_of encode_any]. rewrite print_array, map_map. do 3 f_equal.
    induction IH as [|x l Hx _ IHl]; [done|]. cbn [map]. by rewrite Hx, IHl.
  - cbn [tree_of encode_any]. rewrite print_object, map_map. do 3 f_equal.
    induction IH as [|[k x] l Hx _ IHl]; [done|]. cbn [map fst snd] in *. by rewrite Hx, IHl.
Qed.

Lemma wf_tree_of (a : any) : formats_numbers -> wf (tree_of a).
Proof.
  intros Hf.
  induction a as [|[|]|f|s|l IH|m IH] using any_ind'; cbn [tree_of wf].
  - by left.
  - right. by left.
  - right. right. by left.
  - right. right. right. split; [apply Hf|done].
  - apply encoded_literal.
  - induction IH as [|x l Hx _ IHl]; [done|]. cbn [map fold_right]. by split.
  - induction IH as [|[k x] l Hx _ IHl]; [done|]. cbn [map fold_right fst snd] in *.
    split; [apply encoded_literal|]. by split.
Qed.

Lemma height_tree_of (a : any) : height (tree_of a) = nesting a.
Proof.
  induction a as [|[|]|f|s|l IH|m IH] using any_ind'; try reflexivity.
  - cbn [tree_of height nesting]. f_equal.
    induction IH as [|x l Hx _ IHl]; [done|]. cbn [map fold_right]. by rewrite Hx, IHl.
  - cbn [tree_of height nesting]. f_equal.
    induction IH as [|[k x] l Hx _ IHl]; [done|]. cbn [map fold_right fst snd] in *.
    by rewrite Hx, IHl.
Qed.

End AnyTrees.

Section Compacting.
Import json syntax spec_utf record_syntax any_syntax.
Local Open Scope Z_scope.

(** ** [Compact] on the text of the encoder *)

Lemma compact_step (w : where_) (c : ascii) (r : bytes) :
  special c = false ->
  compact_loop w 0 (c :: r)
  = if match w with Outside => is_space c | _ => false end
    then compact_loop (step_string w c) 0 r
    else c :: compact_loop (step_string w c) 0 r.
Proof.
  unfold special. intros [Hs He]%orb_false_iff. cbn [compact_loop]. rewrite Hs, He.
  cbn [andb]. by destruct r as [|? [|? ?]].
Qed.

Lemma compact_rune (c1 c2 : ascii) (r : bytes) :
  (byte_val c1 =? 128) && ((byte_val c2 =? 168) || (byte_val c2 =? 169)) = false ->
  compact_loop Inside 0 (byte_of 226 :: c1 :: c2 :: r)
  = byte_of 226 :: compact_loop Inside 0 (c1 :: c2 :: r).
Proof.
  intros Hn. remember (c1 :: c2 :: r) as rr eqn:E. cbn [compact_loop].
  change (existsb (Ascii.eqb (byte_of 226)) (bytes_of "<>&")) with false.
  change (byte_val (byte_of 226) =? 226) with true.
  change (step_string Inside (byte_of 226)) with Inside. cbv iota.
  rewrite E at 1. cbv match. cbn [andb]. by rewrite Hn.
Qed.

Lemma tidy_compact (l : bytes) :
  tidy l -> forall rest,
  compact_loop Inside 0 (l ++ dquote :: rest) = l ++ dquote :: compact_loop Outside 0 rest.
Proof.
  induction 1 as [|c e Hs Hq Hb _ IH|c e Hs _ IH|c1 c2 e Hn _ IH]; intros rest; cbn [app].
  - rewrite compact_step by reflexivity. reflexivity.
  - rewrite compact_step by done. cbn [step_string].
    apply Ascii.eqb_neq in Hq, Hb. rewrite Hq, Hb. by rewrite IH.
  - rewrite compact_step by reflexivity. cbn [step_string].
    change (Ascii.eqb backslash dquote) with false.
    change (Ascii.eqb backslash backslash) with true. cbv iota.
    rewrite compact_step by done. cbn [step_string]. by rewrite IH.
  - specialize (IH rest). cbn [app] in IH. apply negb_true_iff in Hn.
    rewrite compact_rune by done. by rewrite IH.
Qed.

Lemma outside_compact (text : bytes) :
  forallb outside_char text = true -> forall rest,
  compact_loop Outside 0 (text ++ rest) = text ++ compact_loop Outside 0 rest.
Proof.
  induction text as [|c text IH]; intros Hall rest; [done|].
  cbn [forallb] in Hall. apply andb_true_iff in Hall as [Hc Hall].
  unfold outside_char in Hc. apply andb_true_iff in Hc as [Hc Hq].
  apply andb_true_iff in Hc as [Hsp Hs]. apply negb_true_iff in Hsp, Hs, Hq.
  cbn [app]. rewrite compact_step by done. rewrite Hsp. cbn [step_string]. rewrite Hq.
  by rewrite IH.
Qed.

Lemma quoted_compact (raw : bytes) :
  tidy raw -> forall rest,
  compact_loop Outside 0 (quoted raw ++ rest) = quoted raw ++ compact_loop Outside 0 rest.
Proof.
  intros Hr rest. unfold quoted. cbn [app]. rewrite <- !app_assoc. cbn [app].
  rewrite compact_step by reflexivity. change (is_space dquote) with false. cbv iota.
  change (step_string Outside dquote) with Inside. by rewrite tidy_compact.
Qed.

Lemma join_compact (xs : list bytes) :
  Forall (fun x => forall rest,
            compact_loop Outside 0 (x ++ rest) = x ++ compact_loop Outside 0 rest) xs ->
  forall rest,
  compact_loop Outside 0 (join (bytes_of ",") xs ++ rest)
  = join (bytes_of ",") xs ++ compact_loop Outside 0 rest.
Proof.
  induction 1 as [|x xs Hx Hxs IH]; intros rest; [done|].
  destruct xs as [|y ys]; [apply Hx|].
  change (join (bytes_of ",") (x :: y :: ys))
    with (x ++ bytes_of "," ++ join (bytes_of ",") (y :: ys)).
  rewrite <- !app_assoc, Hx. f_equal.
  rewrite (outside_compact (bytes_of ",")) by reflexivity. f_equal. apply IH.
Qed.

Lemma tidy_tree_compact (t : tree) :
  tidy_tree t -> forall rest,
  compact_loop Outside 0 (print None t ++ rest) = print None t ++ compact_loop Outside 0 rest.
Proof.
  induction t as [text v|raw|l IH|l IH] using tree_ind'; intros Ht rest.
  - by apply outside_compact.
  - by apply quoted_compact.
  - rewrite print_array, <- !app_assoc.
    rewrite (outside_compact (bytes_of "[")) by reflexivity. f_equal.
    rewrite join_compact.
    + f_equal. by rewrite (outside_compact (bytes_of "]")).
    + cbn [tidy_tree] in Ht. clear rest.
      induction IH as [|x l Hx _ IHl]; [constructor|]. cbn [fold_right] in Ht.
      destruct Ht as [Ht1 Ht2]. cbn [map]. constructor; [by apply Hx|by apply IHl].
  - rewrite print_object, <- !app_assoc.
    rewrite (outside_compact (bytes_of "{")) by reflexivity. f_equal.
    rewrite join_compact.
    + f_equal. by rewrite (outside_compact (bytes_of "}")).
    + cbn [tidy_tree] in Ht. clear rest.
      induction IH as [|[k x] l Hx _ IHl]; [constructor|]. cbn [fold_right fst snd] in Ht, Hx.
      destruct Ht as (Hk & Ht1 & Ht2). cbn [map fst snd]. constructor; [|by apply IHl].
      intros rest. rewrite <- !app_assoc. rewrite quoted_compact by done. f_equal.
      rewrite (outside_compact (bytes_of ":")) by reflexivity. f_equal. by apply Hx.
Qed.

(** [Compact] leaves the compact text of a tidy tree as it is. *)
Lemma compact_print (t : tree) :
  wf t -> tidy_tree t -> (height t <= maxNestingDepth)%N ->
  compact (print None t) = Ok (print None t).
Proof.
  intros Hwf Ht Hh. unfold compact, checkValid. rewrite (parse_print None t Hwf Hh).
  pose proof (tidy_tree_compact t Ht []) as Hc. rewrite !app_nil_r in Hc. by rewrite Hc.
Qed.

End Compacting.

Section TidyText.
Import json syntax spec_utf record_syntax any_syntax.
Local Open Scope Z_scope.

(** ** The encoder writes tidy texts *)

Lemma DecodeRune_cont (c : ascii) (r : bytes) :
  forallb utf8.cont (firstn (snd (utf8.DecodeRune (c :: r)) - 1) r) = true /\
  (1 <= snd (utf8.DecodeRune (c :: r)))%nat.
Proof.
  unfold utf8.DecodeRune.
  assert (H0 : forall rr : Z, forallb utf8.cont (firstn (snd (rr, 1%nat) - 1) r) = true /\
                       (1 <= snd (rr, 1%nat))%nat) by (intros; split; [reflexivity|cbn; lia]).
  assert (Hb : forall lo hi c1, 128 <= lo -> hi <= 191 ->
                                utf8.between lo hi c1 = true -> utf8.cont c1 = true).
  { unfold utf8.between, utf8.cont. intros. lia. }
  destruct (byte_val c <? 128); [apply H0|].
  destruct (utf8.between 194 223 c).
  { destruct r as [|c1 r]; [apply H0|]. destruct (utf8.cont c1) eqn:E1; [|apply H0].
    cbn. rewrite E1. split; [reflexivity|lia]. }
  destruct (utf8.between 224 239 c).
  { destruct r as [|c1 [|c2 r]]; try apply H0.
    destruct (utf8.between _ _ c1 && utf8.cont c2) eqn:E; [|apply H0].
    apply andb_true_iff in E as [E1 E2]. cbn.
    assert (Hh1 : utf8.cont c1 = true).
    { eapply Hb; [| |exact E1]; [destruct (byte_val c =? 224)|destruct (byte_val c =? 237)]; lia. }
    rewrite E2, Hh1. split; [reflexivity|lia]. }
  destruct (utf8.between 240 244 c); [|apply H0].
  destruct r as [|c1 [|c2 [|c3 r]]]; try apply H0.
  destruct (utf8.between _ _ c1 && utf8.cont c2 && utf8.cont c3) eqn:E; [|apply H0].
  apply andb_true_iff in E as [E E3]. apply andb_true_iff in E as [E1 E2]. cbn.
  assert (Hh1 : utf8.cont c1 = true).
  { eapply Hb; [| |exact E1]; [destruct (byte_val c =? 240)|destruct (byte_val c =? 244)]; lia. }
  rewrite E2, E3, Hh1. split; [reflexivity|lia].
Qed.

Lemma high_tidy (c : ascii) (e : bytes) :
  128 <= byte_val c -> byte_val c <> 226 -> tidy e -> tidy (c :: e).
Proof.
  intros Hc Hn He. apply tidy_byte; [| | |done].
  - unfold special. apply orb_false_iff. split; [|lia].
    cbn [existsb bytes_of list_ascii_of_string].
    repeat (apply orb_false_iff; split); try reflexivity;
      apply Ascii.eqb_neq; intros ->; vm_compute in Hc; by apply Hc.
  - intros ->. vm_compute in Hc. by apply Hc.
  - intros ->. vm_compute in Hc. by apply Hc.
Qed.

Lemma cont_tidy (c : ascii) (e : bytes) : utf8.cont c = true -> tidy e -> tidy (c :: e).
Proof. unfold utf8.cont. intros Hc He. apply high_tidy; [lia|lia|done]. Qed.

Lemma hex_digit_tidy (n : Z) (e : bytes) : tidy e -> tidy (hex.digit n :: e).
Proof.
  intros He. unfold hex.digit. destruct (Z.to_nat n) as [|k]; [by apply tidy_byte|].
  do 15 (destruct k as [|k]; [by apply tidy_byte|]). cbn. destruct k; by apply tidy_byte.
Qed.

Lemma escape_ascii_tidy (c : ascii) (e : bytes) :
  (byte_val c <? 128) = true -> tidy e -> tidy (escape_ascii c ++ e).
Proof.
  intros Hc He. unfold escape_ascii.
  destruct (Ascii.eqb c backslash || Ascii.eqb c dquote) eqn:E1.
  { cbn [app]. apply tidy_escape; [|done].
    apply orb_true_iff in E1 as [->%Ascii.eqb_eq| ->%Ascii.eqb_eq]; reflexivity. }
  repeat (match goal with |- context [if Ascii.eqb c ?x then _ else _] =>
            destruct (Ascii.eqb c x); [by apply tidy_escape|] end).
  unfold u00. cbn [app bytes_of list_ascii_of_string].
  apply tidy_escape; [reflexivity|]. do 2 (apply tidy_byte; [reflexivity|done|done|]).
  by do 2 apply hex_digit_tidy.
Qed.

Lemma htmlSafe_tidy (c : ascii) (e : bytes) : htmlSafe c = true -> tidy e -> tidy (c :: e).
Proof.
  unfold htmlSafe. intros Hc He.
  apply andb_true_iff in Hc as [Hc Hx]. apply andb_true_iff in Hc as [Hlo Hhi].
  apply negb_true_iff in Hx. cbn [existsb bytes_of list_ascii_of_string] in Hx.
  repeat (apply orb_false_iff in Hx as [? Hx]).
  apply tidy_byte; [| | |done]; try by apply Ascii.eqb_neq.
  unfold special. cbn [existsb bytes_of list_ascii_of_string].
  repeat (apply orb_false_iff; split); try done. lia.
Qed.

Lemma encode_chars_tidy (n : nat) : forall (s : bytes) (k : nat),
  (length s <= n)%nat -> forallb utf8.cont (firstn k s) = true -> tidy (encode_chars k s).
Proof.
  induction n as [|n IH]; intros s k Hn Hk.
  { destruct s; [|cbn in Hn; lia]. constructor. }
  destruct s as [|c r]; [constructor|]. cbn [length] in Hn. cbn [encode_chars].
  destruct k as [|k].
  - destruct (byte_val c <? 128) eqn:Elo.
    { destruct (htmlSafe c) eqn:Es.
      - cbn [app]. apply htmlSafe_tidy; [done|]. apply IH; [lia|done].
      - apply escape_ascii_tidy; [done|]. apply IH; [lia|done]. }
    destruct (DecodeRune_cont c r) as [Hh H1].
    destruct (utf8.DecodeRune (c :: r)) as [rr size] eqn:Ed. cbn [snd] in Hh, H1.
    destruct ((rr =? utf8.RuneError) && (size =? 1)%nat) eqn:Ev.
    { cbn [app bytes_of list_ascii_of_string]. apply tidy_escape; [reflexivity|].
      do 4 (apply tidy_byte; [reflexivity|done|done|]). apply IH; [lia|done]. }
    destruct ((rr =? 8232) || (rr =? 8233)) eqn:Eu.
    { destruct r as [|c1 [|c2 r']]; [apply tidy_nil|apply tidy_nil|].
      cbn [app bytes_of list_ascii_of_string].
      apply tidy_escape; [reflexivity|]. do 3 (apply tidy_byte; [reflexivity|done|done|]).
      apply hex_digit_tidy. apply IH; [cbn [length] in Hn; lia|done]. }
    destruct (Z.eq_dec (byte_val c) 226) as [He|Hne].
    + assert (Hc : c = byte_of 226) by (rewrite <- He; symmetry; apply byte_of_val).
      subst c. unfold utf8.DecodeRune in Ed.
      change (byte_val (byte_of 226) <? 128) with false in Ed.
      change (utf8.between 194 223 (byte_of 226)) with false in Ed.
      change (utf8.between 224 239 (byte_of 226)) with true in Ed. cbv iota in Ed.
      assert (Hbad : (utf8.RuneError, 1%nat) = (rr, size) -> False).
      { intros Heq. injection Heq as <- <-. discriminate. }
      destruct r as [|c1 [|c2 r']]; try by destruct Hbad.
      change (byte_val (byte_of 226) =? 224) with false in Ed.
      change (byte_val (byte_of 226) =? 237) with false in Ed.
      change (byte_val (byte_of 226)) with 226 in Ed.
      destruct (utf8.between 128 191 c1 && utf8.cont c2) eqn:E; [|by destruct Hbad].
      injection Ed as <- <-. cbn [Nat.sub encode_chars].
      apply andb_true_iff in E as [E1 E2]. cbn [firstn forallb] in Hh.
      apply tidy_rune.
      * unfold utf8.between, utf8.cont in E1, E2. apply negb_true_iff.
        set (b1 := byte_val c1) in *. set (b2 := byte_val c2) in *.
        destruct (b1 =? 128) eqn:F1; [|reflexivity].
        destruct (b2 =? 168) eqn:F2.
        { exfalso. clear Ev Hh. assert (b1 = 128) by lia. assert (b2 = 168) by lia.
          replace b1 with 128 in Eu by lia. replace b2 with 168 in Eu by lia.
          vm_compute in Eu. discriminate. }
        destruct (b2 =? 169) eqn:F3; [|reflexivity].
        exfalso. clear Ev Hh. replace b1 with 128 in Eu by lia. replace b2 with 169 in Eu by lia.
        vm_compute in Eu. discriminate.
      * apply cont_tidy; [done|]. apply cont_tidy; [done|].
        apply IH; [cbn [length] in Hn; lia|done].
    + apply high_tidy; [lia|done|]. apply IH; [lia|done].
  - cbn [firstn forallb] in Hk. apply andb_true_iff in Hk as [Hc Hk].
    apply cont_tidy; [done|]. apply IH; [lia|done].
Qed.

Lemma encoded_tidy (s : bytes) : tidy (encode_chars 0 s).
Proof. by apply (encode_chars_tidy (length s)). Qed.

Lemma numchar_outside (c : ascii) : numchar c = true -> outside_char c = true.
Proof. destruct c as [[] [] [] [] [] [] [] []]; try discriminate; reflexivity. Qed.

Lemma tidy_tree_of `{F : Float64} (a : any) : formats_numbers -> tidy_tree (tree_of a).
Proof.
  intros Hf.
  induction a as [|[|]|f|s|l IH|m IH] using any_ind'; cbn [tree_of tidy_tree]; try reflexivity.
  - destruct (Hf f) as (_ & Hall & _). clear -Hall.
    induction (FormatFloat f) as [|c t IHt]; [done|]. cbn [forallb] in *.
    apply andb_true_iff in Hall as [Hc Ht]. by rewrite (numchar_outside c Hc), IHt.
  - apply encoded_tidy.
  - induction IH as [|x l Hx _ IHl]; [done|]. cbn [map fold_right]. by split.
  - induction IH as [|[k x] l Hx _ IHl]; [done|]. cbn [map fold_right fst snd] in *.
    split; [apply encoded_tidy|]. by split.
Qed.

(** [Compact] leaves the text of [json.Marshal] as it is. *)
Lemma compact_encode_any `{F : Float64} (a : any) :
  formats_numbers -> (nesting a <= maxNestingDepth)%N ->
  compact (encode_any a) = Ok (encode_any a).
Proof.
  intros Hf Hn. rewrite <- print_tree_of. apply compact_print.
  - by apply wf_tree_of.
  - by apply tidy_tree_of.
  - by rewrite height_tree_of.
Qed.

End TidyText.

Section ValidStrings.
Import json syntax spec_utf record_syntax any_syntax.
Local Open Scope Z_scope.

(** ** The strings the parser decodes are valid UTF-8 *)

Ltac dlia := Z.to_euclidean_division_equations; lia.

Lemma byte_val_of (z : Z) : byte_val (byte_of z) = z mod 256.
Proof.
  unfold byte_val, byte_of. rewrite N_ascii_embedding.
  - apply Z2N.id. dlia.
  - apply N2Z.inj_lt. rewrite Z2N.id by dlia. change (Z.of_N 256) with 256. dlia.
Qed.

Lemma valid_ascii (c : ascii) (x : bytes) :
  (byte_val c <? 128) = true -> valid_loop 0 (c :: x) = valid_loop 0 x.
Proof.
  intros Hc. cbn [valid_loop]. unfold utf8.DecodeRune. rewrite Hc.
  replace ((byte_val c =? utf8.RuneError) && (1 =? 1)%nat) with false
    by (unfold utf8.RuneError; lia).
  reflexivity.
Qed.

(** What [EncodeRune] writes is valid. *)
Lemma valid_EncodeRune (r : Z) (x : bytes) :
  valid_loop 0 (utf8.EncodeRune r ++ x) = valid_loop 0 x.
Proof.
  unfold utf8.EncodeRune.
  set (r' := if (r <? 0) || (1114111 <? r) || (55296 <=? r) && (r <=? 57343)
             then utf8.RuneError else r).
  assert (Hr : 0 <= r' <= 1114111 /\ ~ (55296 <= r' <= 57343)).
  { subst r'. unfold utf8.RuneError.
    destruct ((r <? 0) || (1114111 <? r) || (55296 <=? r) && (r <=? 57343)) eqn:E; lia. }
  clearbody r'. clear r.
  destruct (r' <? 128) eqn:E1.
  { cbn [app]. apply valid_ascii. rewrite byte_val_of. rewrite Z.mod_small by lia. exact E1. }
  destruct (r' <? 2048) eqn:E2.
  { cbn [app valid_loop]. unfold utf8.DecodeRune.
    set (b0 := byte_of (192 + r' / 64)). set (b1 := byte_of (128 + r' mod 64)).
    assert (H0 : byte_val b0 = 192 + r' / 64) by (subst b0; rewrite byte_val_of; dlia).
    assert (H1 : byte_val b1 = 128 + r' mod 64) by (subst b1; rewrite byte_val_of; dlia).
    unfold utf8.between, utf8.cont. rewrite H0, H1.
    replace (192 + r' / 64 <? 128) with false by dlia.
    replace ((194 <=? 192 + r' / 64) && (192 + r' / 64 <=? 223)) with true by dlia.
    replace ((128 <=? 128 + r' mod 64) && (128 + r' mod 64 <=? 191)) with true by dlia.
    rewrite andb_false_r. reflexivity. }
  destruct (r' <? 65536) eqn:E3.
  { cbn [app valid_loop]. unfold utf8.DecodeRune.
    set (b0 := byte_of (224 + r' / 4096)). set (b1 := byte_of (128 + r' / 64 mod 64)).
    set (b2 := byte_of (128 + r' mod 64)).
    assert (H0 : byte_val b0 = 224 + r' / 4096) by (subst b0; rewrite byte_val_of; dlia).
    assert (H1 : byte_val b1 = 128 + r' / 64 mod 64) by (subst b1; rewrite byte_val_of; dlia).
    assert (H2 : byte_val b2 = 128 + r' mod 64) by (subst b2; rewrite byte_val_of; dlia).
    unfold utf8.between, utf8.cont. rewrite H0, H1, H2.
    replace (224 + r' / 4096 <? 128) with false by dlia.
    replace ((194 <=? 224 + r' / 4096) && (224 + r' / 4096 <=? 223)) with false by dlia.
    replace ((224 <=? 224 + r' / 4096) && (224 + r' / 4096 <=? 239)) with true by dlia.
    replace (((if 224 + r' / 4096 =? 224 then 160 else 128) <=? 128 + r' / 64 mod 64) &&
             (128 + r' / 64 mod 64 <=? (if 224 + r' / 4096 =? 237 then 159 else 191)) &&
             ((128 <=? 128 + r' mod 64) && (128 + r' mod 64 <=? 191))) with true.
    - rewrite andb_false_r. reflexivity.
    - symmetry. destruct (224 + r' / 4096 =? 224) eqn:F1;
        destruct (224 + r' / 4096 =? 237) eqn:F2; dlia. }
  cbn [app valid_loop]. unfold utf8.DecodeRune.
  set (b0 := byte_of (240 + r' / 262144)). set (b1 := byte_of (128 + r' / 4096 mod 64)).
  set (b2 := byte_of (128 + r' / 64 mod 64)). set (b3 := byte_of (128 + r' mod 64)).
  assert (H0 : byte_val b0 = 240 + r' / 262144) by (subst b0; rewrite byte_val_of; dlia).
  assert (H1 : byte_val b1 = 128 + r' / 4096 mod 64) by (subst b1; rewrite byte_val_of; dlia).
  assert (H2 : byte_val b2 = 128 + r' / 64 mod 64) by (subst b2; rewrite byte_val_of; dlia).
  assert (H3 : byte_val b3 = 128 + r' mod 64) by (subst b3; rewrite byte_val_of; dlia).
  unfold utf8.between, utf8.cont. rewrite H0, H1, H2, H3.
  replace (240 + r' / 262144 <? 128) with false by dlia.
  replace ((194 <=? 240 + r' / 262144) && (240 + r' / 262144 <=? 223)) with false by dlia.
  replace ((224 <=? 240 + r' / 262144) && (240 + r' / 262144 <=? 239)) with false by dlia.
  replace ((240 <=? 240 + r' / 262144) && (240 + r' / 262144 <=? 244)) with true by dlia.
  replace (((if 240 + r' / 262144 =? 240 then 144 else 128) <=? 128 + r' / 4096 mod 64) &&
           (128 + r' / 4096 mod 64 <=? (if 240 + r' / 262144 =? 244 then 143 else 191)) &&
           ((128 <=? 128 + r' / 64 mod 64) && (128 + r' / 64 mod 64 <=? 191)) &&
           ((128 <=? 128 + r' mod 64) && (128 + r' mod 64 <=? 191))) with true.
  - rewrite andb_false_r. reflexivity.
  - symmetry. destruct (240 + r' / 262144 =? 240) eqn:F1;
      destruct (240 + r' / 262144 =? 244) eqn:F2; dlia.
Qed.

End ValidStrings.

Section ValidLiterals.
Import json syntax spec_utf record_syntax any_syntax.
Local Open Scope Z_scope.

Lemma unquote_0 (c : ascii) (r : bytes) :
  unquote 0 (c :: r) =
  if Ascii.eqb c backslash then
    match r with
    | e :: r' =>
        if Ascii.eqb e "u" then
          let rr := getu4 r' in
          if IsSurrogate rr then
            let dec := utf16_DecodeRune rr (getu4_escaped (skipn 4 r')) in
            if (dec =? utf8.RuneError)%Z
            then utf8.EncodeRune utf8.RuneError ++ unquote 5 r
            else utf8.EncodeRune dec ++ unquote 11 r
          else utf8.EncodeRune rr ++ unquote 5 r
        else unescape e :: unquote 1 r
    | [] => []
    end
  else if (byte_val c <? 128)%Z then c :: unquote 0 r
  else
    let '(rr, size) := utf8.DecodeRune (c :: r) in
    utf8.EncodeRune rr ++ unquote (size - 1) r.
Proof. reflexivity. Qed.

Lemma literal_tail_cont (c : ascii) (e : bytes) :
  utf8.cont c = true -> literal (c :: e) -> literal e.
Proof.
  intros Hc Hl. inversion Hl as [|c' e' H1 H2 H3 He|c' e' H1 He|a b c' d e' H1 H2 H3 H4 He]; subst.
  - exact He.
  - vm_compute in Hc. discriminate.
  - vm_compute in Hc. discriminate.
Qed.

Lemma literal_skip_cont (k : nat) : forall e : bytes,
  forallb utf8.cont (firstn k e) = true -> literal e -> literal (skipn k e).
Proof.
  induction k as [|k IH]; intros [|c e] Hk Hl; try done.
  cbn [firstn forallb] in Hk. apply andb_true_iff in Hk as [Hc Hk]. cbn [skipn].
  apply IH; [done|]. by apply (literal_tail_cont c).
Qed.

(** A literal that starts with a [\u] escape. *)
Lemma literal_skip_escape (e : bytes) :
  literal e -> getu4_escaped e <> -1 -> literal (skipn 6 e).
Proof.
  intros Hl Hg. unfold getu4_escaped in Hg.
  destruct e as [|b [|u r]]; try done.
  destruct (Ascii.eqb b backslash && Ascii.eqb u "u") eqn:E; [|done].
  apply andb_true_iff in E as [->%Ascii.eqb_eq ->%Ascii.eqb_eq].
  inversion Hl as [|c' e' H1 H2 Hb H3|c' e' Hc H1|a b c' d e' H1 H2 H3 H4 He]; subst.
  - done.
  - vm_compute in Hc. discriminate.
  - exact He.
Qed.

Lemma unescape_ascii (c : ascii) :
  existsb (Ascii.eqb c) (dquote :: bytes_of "bfnrt\/") = true ->
  Ascii.eqb c "u" = false /\ (byte_val (unescape c) <? 128) = true.
Proof.
  cbn [existsb bytes_of list_ascii_of_string]. intros Hc.
  repeat (apply orb_true_iff in Hc as [Hc|Hc]); try discriminate;
    apply Ascii.eqb_eq in Hc; subst c; split; reflexivity.
Qed.

Lemma unquote_valid (n : nat) : forall raw : bytes,
  (length raw <= n)%nat -> literal raw -> valid_loop 0 (unquote 0 raw) = true.
Proof.
  induction n as [|n IH]; intros raw Hn Hl.
  { destruct raw; [reflexivity|cbn in Hn; lia]. }
  inversion Hl as [|c e H32 Hq Hb He|c e Hc He|a b c d e Ha Hbh Hch Hd He]; subst.
  - reflexivity.
  - cbn [length] in Hn. rewrite unquote_0.
    apply Ascii.eqb_neq in Hb. rewrite Hb.
    destruct (byte_val c <? 128) eqn:Hlo.
    { rewrite valid_ascii by done. apply IH; [lia|done]. }
    destruct (DecodeRune_cont c e) as [Hcont H1].
    destruct (utf8.DecodeRune (c :: e)) as [rr size]. cbn [snd] in Hcont, H1.
    rewrite valid_EncodeRune, unquote_skip. apply IH.
    + rewrite length_skipn. lia.
    + by apply literal_skip_cont.
  - cbn [length] in Hn. rewrite unquote_0.
    change (Ascii.eqb backslash backslash) with true. cbv iota.
    destruct (unescape_ascii c Hc) as [Hu Ha]. rewrite Hu.
    rewrite valid_ascii by done. change (unquote 1 (c :: e)) with (unquote 0 e).
    apply IH; [lia|done].
  - cbn [length] in Hn. rewrite unquote_0.
    change (Ascii.eqb backslash backslash) with true.
    change (Ascii.eqb "u" "u") with true. cbv iota zeta.
    change (skipn 4 (a :: b :: c :: d :: e)) with e.
    change (unquote 5 ("u"%char :: a :: b :: c :: d :: e)) with (unquote 0 e).
    assert (He' : valid_loop 0 (unquote 0 e) = true) by (apply IH; [lia|done]).
    destruct (IsSurrogate _).
    + destruct (utf16_DecodeRune _ _ =? utf8.RuneError) eqn:Ed.
      * by rewrite valid_EncodeRune.
      * rewrite valid_EncodeRune.
        change (unquote 11 ("u"%char :: a :: b :: c :: d :: e)) with (unquote 6 e).
        rewrite unquote_skip. apply IH.
        -- rewrite length_skipn. lia.
        -- apply literal_skip_escape; [done|]. intros Hg. rewrite Hg in Ed.
           unfold utf16_DecodeRune in Ed.
           replace ((56320 <=? -1)) with false in Ed by lia.
           rewrite andb_false_r in Ed. cbn [andb] in Ed. vm_compute in Ed. discriminate.
    + by rewrite valid_EncodeRune.
Qed.

(** ** The scanner accepts well formed literals only *)

Lemma scan_string_literal (s : bytes) : forall (st : strstate) (raw rest : bytes),
  scan_string st s = Some (raw, rest) ->
  match st with
  | SNormal => literal raw
  | SEscape => literal (backslash :: raw)
  | SUnicode n =>
      exists h e, raw = h ++ e /\ length h = Nat.max 1 n /\ forallb is_hex h = true /\ literal e
  end.
Proof.
  induction s as [|c r IH]; intros st raw rest Hs; [discriminate|].
  cbn [scan_string] in Hs. destruct st as [| |n].
  - destruct (Ascii.eqb c dquote) eqn:Eq.
    { injection Hs as <- <-. constructor. }
    destruct (Ascii.eqb c backslash) eqn:Eb.
    { apply Ascii.eqb_eq in Eb. subst c.
      destruct (scan_string SEscape r) as [[l b]|] eqn:E; [|discriminate].
      injection Hs as <- <-. apply (IH SEscape _ _ E). }
    destruct (byte_val c <? 32) eqn:E32; [discriminate|].
    destruct (scan_string SNormal r) as [[l b]|] eqn:E; [|discriminate].
    injection Hs as <- <-. apply literal_byte; [lia| | |apply (IH SNormal _ _ E)];
      by apply Ascii.eqb_neq.
  - destruct (existsb (Ascii.eqb c) (dquote :: bytes_of "bfnrt\/")) eqn:Ec.
    { destruct (scan_string SNormal r) as [[l b]|] eqn:E; [|discriminate].
      injection Hs as <- <-. apply literal_escape; [done|apply (IH SNormal _ _ E)]. }
    destruct (Ascii.eqb c "u") eqn:Eu; [|discriminate].
    apply Ascii.eqb_eq in Eu. subst c.
    destruct (scan_string (SUnicode 4) r) as [[l b]|] eqn:E; [|discriminate].
    injection Hs as <- <-.
    destruct (IH (SUnicode 4) _ _ E) as (h & e & -> & Hlen & Hh & He).
    destruct h as [|h1 [|h2 [|h3 [|h4 [|h5 h]]]]]; try discriminate.
    cbn [forallb] in Hh. repeat (apply andb_true_iff in Hh as [? Hh]).
    cbn [app]. by apply literal_unicode.
  - destruct (is_hex c) eqn:Eh; [|discriminate].
    destruct n as [|[|k]].
    + destruct (scan_string SNormal r) as [[l b]|] eqn:E; [|discriminate].
      injection Hs as <- <-. exists [c], l. repeat split; [cbn [forallb]; by rewrite Eh|apply (IH SNormal _ _ E)].
    + destruct (scan_string SNormal r) as [[l b]|] eqn:E; [|discriminate].
      injection Hs as <- <-. exists [c], l. repeat split; [cbn [forallb]; by rewrite Eh|apply (IH SNormal _ _ E)].
    + destruct (scan_string (SUnicode (S k)) r) as [[l b]|] eqn:E; [|discriminate].
      injection Hs as <- <-. destruct (IH (SUnicode (S k)) _ _ E) as (h & e & -> & Hlen & Hh & He).
      exists (c :: h), e. repeat split; [cbn [length]; lia|cbn [forallb]; by rewrite Eh|done].
Qed.

Lemma scanned_valid (s raw rest : bytes) :
  scan_string SNormal s = Some (raw, rest) -> valid_loop 0 (unquote 0 raw) = true.
Proof.
  intros Hs. apply (unquote_valid (length raw)); [done|]. apply (scan_string_literal s SNormal _ _ Hs).
Qed.

End ValidLiterals.

Section DecodedValues.
Import json syntax spec_utf record_syntax any_syntax.

(** ** What the parser returns *)

Lemma elements_ok_app (l1 l2 : list value) :
  fold_right (fun x acc => value_ok x /\ acc) True l1 ->
  fold_right (fun x acc => value_ok x /\ acc) True l2 ->
  fold_right (fun x acc => value_ok x /\ acc) True (l1 ++ l2).
Proof. induction l1 as [|x l1 IH]; [done|]. cbn [fold_right app]. intros [? ?] ?. split; auto. Qed.

Lemma members_ok_app (l1 l2 : list (bytes * bytes * value)) :
  fold_right (fun m acc => valid_loop 0 (fst (fst m)) = true /\ value_ok (snd m) /\ acc) True l1 ->
  fold_right (fun m acc => valid_loop 0 (fst (fst m)) = true /\ value_ok (snd m) /\ acc) True l2 ->
  fold_right (fun m acc => valid_loop 0 (fst (fst m)) = true /\ value_ok (snd m) /\ acc) True
             (l1 ++ l2).
Proof.
  induction l1 as [|x l1 IH]; [done|]. cbn [fold_right app]. intros (? & ? & ?) ?.
  repeat split; auto.
Qed.

Lemma parse_ok (fuel : nat) :
  (forall depth s v r, parse_value fuel depth s = Some (v, r) -> value_ok v) /\
  (forall depth s acc v r,
     value_ok (JObject acc) -> parse_members fuel depth s acc = Some (v, r) -> value_ok v) /\
  (forall depth s acc v r,
     value_ok (JArray acc) -> parse_elements fuel depth s acc = Some (v, r) -> value_ok v).
Proof.
  induction fuel as [|fuel (IHv & IHm & IHe)]; [by repeat split|].
  split; [|split].
  - intros depth s v r. rewrite parse_value_S.
    destruct (skip_space s) as [|c t]; [discriminate|].
    destruct (Ascii.eqb c "{").
    { destruct (maxNestingDepth <? depth + 1)%N; [discriminate|].
      destruct (skip_space t) as [|c' t']; [discriminate|].
      destruct (Ascii.eqb c' "}"); [intros [= <- <-]; done|].
      by apply IHm. }
    destruct (Ascii.eqb c "[").
    { destruct (maxNestingDepth <? depth + 1)%N; [discriminate|].
      destruct (skip_space t) as [|c' t']; [discriminate|].
      destruct (Ascii.eqb c' "]"); [intros [= <- <-]; done|].
      by apply IHe. }
    destruct (Ascii.eqb c dquote).
    { destruct (scan_string SNormal t) as [[raw t']|] eqn:E; [|discriminate].
      intros [= <- <-]. cbn [value_ok]. by apply (scanned_valid t raw t'). }
    destruct (Ascii.eqb c "-" || http.is_digit c).
    { destruct (scan_number (c :: t)) as [[l t']|]; [|discriminate]. by intros [= <- <-]. }
    destruct (Ascii.eqb c "t").
    { destruct (strip_prefix _ t); [|discriminate]. by intros [= <- <-]. }
    destruct (Ascii.eqb c "f").
    { destruct (strip_prefix _ t); [|discriminate]. by intros [= <- <-]. }
    destruct (Ascii.eqb c "n"); [|discriminate].
    destruct (strip_prefix _ t); [|discriminate]. by intros [= <- <-].
  - intros depth s acc v r Hacc. rewrite parse_members_S.
    destruct (skip_space s) as [|q t]; [discriminate|].
    destruct (Ascii.eqb q dquote); [|discriminate].
    destruct (scan_string SNormal t) as [[kraw t1]|] eqn:Ek; [|discriminate].
    destruct (skip_space t1) as [|c t2]; [discriminate|].
    destruct (Ascii.eqb c ":"); [|discriminate]. cbv zeta.
    destruct (parse_value fuel depth (skip_space t2)) as [[x t3]|] eqn:Ev; [|discriminate].
    assert (Hacc' : value_ok (JObject (acc ++ [(unquote 0 kraw,
                       firstn (length (skip_space t2) - length t3) (skip_space t2), x)]))).
    { cbn [value_ok] in *. apply members_ok_app; [done|]. cbn [fold_right fst snd].
      split; [by apply (scanned_valid t kraw t1)|]. split; [by apply (IHv _ _ _ _ Ev)|done]. }
    destruct (skip_space t3) as [|c' t4]; [discriminate|].
    destruct (Ascii.eqb c' ","); [by apply IHm|].
    destruct (Ascii.eqb c' "}"); [|discriminate]. by intros [= <- <-].
  - intros depth s acc v r Hacc. rewrite parse_elements_S.
    destruct (parse_value fuel depth s) as [[x t]|] eqn:Ev; [|discriminate]. cbv zeta.
    assert (Hacc' : value_ok (JArray (acc ++ [x]))).
    { cbn [value_ok] in *. apply elements_ok_app; [done|]. cbn [fold_right].
      split; [by apply (IHv _ _ _ _ Ev)|done]. }
    destruct (skip_space t) as [|c t']; [discriminate|].
    destruct (Ascii.eqb c ","); [by apply IHe|].
    destruct (Ascii.eqb c "]"); [|discriminate]. by intros [= <- <-].
Qed.

Lemma parse_value_ok (data : bytes) (v : value) : parse data = Some v -> value_ok v.
Proof.
  unfold parse. destruct (parse_value _ 0 data) as [[x r]|] eqn:E; [|discriminate].
  destruct (skip_space r); [|discriminate]. intros [= <-].
  by apply (proj1 (parse_ok _) _ _ _ _ E).
Qed.

(** ** The order of the keys *)

Lemma ascii_compare_trans (a b c : ascii) :
  Ascii.compare a b = Lt -> Ascii.compare b c = Lt -> Ascii.compare a c = Lt.
Proof. unfold Ascii.compare. rewrite !N.compare_lt_iff. lia. Qed.

Lemma compare_trans (s1 : string) : forall s2 s3 : string,
  String.compare s1 s2 = Lt -> String.compare s2 s3 = Lt -> String.compare s1 s3 = Lt.
Proof.
  induction s1 as [|a s1 IH]; intros [|b s2] [|c s3]; cbn [String.compare]; try done.
  destruct (Ascii.compare a b) eqn:Eab; try done.
  - apply Ascii.compare_eq_iff in Eab. subst b.
    destruct (Ascii.compare a c); try done. apply IH.
  - intros _. destruct (Ascii.compare b c) eqn:Ebc; try done.
    + apply Ascii.compare_eq_iff in Ebc. subst c. by rewrite Eab.
    + by rewrite (ascii_compare_trans a b c Eab Ebc).
Qed.

Lemma compare_gt (k k' : string) : String.compare k k' = Gt -> String.compare k' k = Lt.
Proof. intros H. rewrite String.compare_antisym, H. reflexivity. Qed.

Lemma compare_lt_gt (k k' : string) : String.compare k' k = Lt -> String.compare k k' = Gt.
Proof. intros H. rewrite String.compare_antisym, H. reflexivity. Qed.

Lemma map_store_keys {V} (Q : string -> Prop) (k : string) (v : V) (m : list (string * V)) :
  Q k -> Forall Q (map fst m) -> Forall Q (map fst (map_store k v m)).
Proof.
  intros Hk. induction m as [|[k' v'] m IH]; cbn [map_store map fst]; intros Hm.
  - by constructor.
  - apply Forall_cons in Hm as [Hk' Hm].
    destruct (String.compare k k'); cbn [map fst]; repeat constructor; auto.
Qed.

Lemma map_store_entries {V} (Q : string * V -> Prop) (k : string) (v : V) (m : list (string * V)) :
  Q (k, v) -> Forall Q m -> Forall Q (map_store k v m).
Proof.
  intros Hk. induction m as [|[k' v'] m IH]; cbn [map_store]; intros Hm.
  - by constructor.
  - apply Forall_cons in Hm as [Hk' Hm].
    destruct (String.compare k k'); repeat constructor; auto.
Qed.

Lemma map_store_ascending {V} (k : string) (v : V) (m : list (string * V)) :
  ascending (map fst m) -> ascending (map fst (map_store k v m)).
Proof.
  induction m as [|[k' v'] m IH]; cbn [map_store map fst ascending]; intros Hm.
  - by repeat constructor.
  - destruct Hm as [Hlt Hm]. destruct (String.compare k k') eqn:E; cbn [map fst ascending].
    + apply String.compare_eq_iff in E. subst k'. by split.
    + split; [|by split]. constructor; [done|].
      eapply Forall_impl; [exact Hlt|]. intros k'' Hk''. cbn in Hk''.
      by apply (compare_trans k k' k'').
    + split; [|by apply IH]. apply map_store_keys; [by apply compare_gt|done].
Qed.

Lemma map_store_last {V} (k : string) (v : V) (m : list (string * V)) :
  Forall (fun k' => String.compare k' k = Lt) (map fst m) -> map_store k v m = m ++ [(k, v)].
Proof.
  induction m as [|[k' v'] m IH]; cbn [map_store map fst app]; intros Hm; [done|].
  apply Forall_cons in Hm as [Hk' Hm]. rewrite (compare_lt_gt k k' Hk'). by rewrite IH.
Qed.

Lemma ascending_app (l1 : list string) (k : string) (l2 : list string) :
  ascending (l1 ++ k :: l2) -> Forall (fun k' => String.compare k' k = Lt) l1.
Proof.
  induction l1 as [|k1 l1 IH]; cbn [app ascending]; [by constructor|].
  intros [Hlt Ha]. constructor; [|by apply IH].
  apply Forall_app in Hlt as [_ Hlt]. by apply Forall_cons in Hlt as [? _].
Qed.

End DecodedValues.

Section RoundTrip.
Import json syntax spec_utf record_syntax any_syntax.
Context `{F : Float64}.

(** ** The values [json.Unmarshal] makes *)

Lemma members_last (l : list (bytes * bytes * value)) :
  fold_left (fun acc m => match acc, to_any (snd m) with
                          | Some m', Some a => Some (map_store (string_of (fst (fst m))) a m')
                          | _, _ => None
                          end) l None = None.
Proof. induction l as [|y l IHl]; [done|]. apply IHl. Qed.

Lemma to_any_ok (v : value) : forall a, value_ok v -> to_any v = Some a -> any_ok a.
Proof.
  induction v as [|b|l|s|l IH|l IH] using value_ind'; intros a Hv Ha; cbn [to_any] in Ha.
  - by injection Ha as <-.
  - by injection Ha as <-.
  - destruct (ParseFloat l); [|discriminate]. by injection Ha as <-.
  - injection Ha as <-. cbn [any_ok]. unfold valid_utf8.
    by rewrite list_ascii_of_string_of_list_ascii.
  - cbn [value_ok] in Hv.
    destruct (fold_right _ _ l) as [l'|] eqn:E in Ha; [|discriminate]. injection Ha as <-.
    cbn [any_ok]. revert l' E. induction IH as [|x l Hx _ IHl]; intros l' E.
    + cbn in E. by injection E as <-.
    + cbn [fold_right] in E, Hv. destruct Hv as [Hvx Hvl].
      destruct (to_any x) as [ax|] eqn:Ex; [|discriminate].
      destruct (fold_right _ _ l) as [l0|] eqn:E0 in E; [|discriminate].
      injection E as <-. cbn [fold_right]. split; [by apply Hx|by apply IHl].
  - cbn [value_ok] in Hv.
    destruct (fold_left _ l _) as [m|] eqn:E in Ha; [|discriminate]. injection Ha as <-.
    assert (Hgen : forall m0 m1 : list (string * any),
              any_ok (AMap m0) ->
              fold_left (fun acc m => match acc, to_any (snd m) with
                                      | Some m', Some a =>
                                          Some (map_store (string_of (fst (fst m))) a m')
                                      | _, _ => None
                                      end) l (Some m0) = Some m1 ->
              any_ok (AMap m1)).
    { clear E m. induction IH as [|x l Hx _ IHl]; intros m0 m1 H0 E.
      - cbn in E. by injection E as <-.
      - cbn [fold_left fold_right] in E, Hv. destruct Hv as (Hk & Hvx & Hvl).
        destruct (to_any (snd x)) as [ax|] eqn:Ex.
        + refine (IHl Hvl _ m1 _ E). cbn [any_ok] in H0 |- *. destruct H0 as [Hasc Hent].
          split; [by apply map_store_ascending|].
          assert (Hall : Forall (fun kv => valid_utf8 (fst kv) = true /\ any_ok (snd kv))
                                (map_store (string_of (fst (fst x))) ax m0)).
          { apply map_store_entries.
            - cbn [fst snd]. split; [|by apply Hx]. unfold valid_utf8.
              by rewrite list_ascii_of_string_of_list_ascii.
            - clear -Hent. induction m0 as [|kv m0 IHm]; [constructor|].
              cbn [fold_right] in Hent. destruct Hent as (? & ? & ?). constructor; auto. }
          clear -Hall. induction Hall as [|kv m [? ?] _ IHm]; [done|]. cbn [fold_right]. auto.
        + by rewrite members_last in E. }
    apply (Hgen [] m); [|exact E]. cbn [any_ok map ascending fold_right]. done.
Qed.

(** ** Reading the text of a value back *)

Lemma to_any_tree_of (a : any) : forall ind : option nat,
  parses_back -> any_ok a -> to_any (value_of ind (tree_of a)) = Some a.
Proof.
  induction a as [|[|]|f|s|l IH|m IH] using any_ind'; intros ind Hp Ha; try reflexivity.
  - cbn [tree_of value_of to_any]. by rewrite Hp.
  - cbn [tree_of string_tree value_of to_any]. cbn [any_ok] in Ha.
    by rewrite (unquote_encode s Ha).
  - cbn [tree_of value_of to_any]. cbn [any_ok] in Ha. rewrite map_map.
    assert (Hl : fold_right (fun x acc => match to_any x, acc with
                                          | Some a, Some l' => Some (a :: l')
                                          | _, _ => None
                                          end) (Some [])
                            (map (fun x => value_of (deeper ind) (tree_of x)) l) = Some l).
    { induction IH as [|x l Hx _ IHl]; [done|]. cbn [fold_right map] in Ha |- *.
      destruct Ha as [Hax Hal]. by rewrite (Hx _ Hp Hax), (IHl Hal). }
    by rewrite Hl.
  - cbn [tree_of value_of to_any]. cbn [any_ok] in Ha. destruct Ha as [Hasc Hent].
    rewrite map_map. cbn [fst snd].
    assert (Hgen : forall m1 : list (string * any),
              ascending (map fst (m1 ++ m)) ->
              fold_left (fun acc mm => match acc, to_any (snd mm) with
                                       | Some m', Some a =>
                                           Some (map_store (string_of (fst (fst mm))) a m')
                                       | _, _ => None
                                       end)
                        (map (fun kv => (unquote 0 (encode_chars 0 (bytes_of (fst kv))),
                                         print (deeper ind) (tree_of (snd kv)),
                                         value_of (deeper ind) (tree_of (snd kv)))) m)
                        (Some m1) = Some (m1 ++ m)).
    { clear Hasc. induction IH as [|[k x] m Hx _ IHm]; intros m1 Hasc.
      - by rewrite app_nil_r.
      - cbn [fold_right fst snd] in Hent, Hx. destruct Hent as (Hk & Hax & Hent).
        cbn [map fold_left fst snd]. rewrite (Hx _ Hp Hax), (unquote_encode k Hk).
        rewrite map_store_last.
        + rewrite (IHm Hent (m1 ++ [(k, x)])); rewrite <- app_assoc; [done|exact Hasc].
        + rewrite map_app in Hasc. cbn [map fst] in Hasc. by apply ascending_app in Hasc. }
    by rewrite (Hgen [] Hasc).
Qed.

(** [json.Unmarshal] reads the text of a value, in both layouts, as that
    value. *)
Lemma Unmarshal_tree_of (a : any) (ind : option nat) :
  formats_numbers -> parses_back -> any_ok a -> (nesting a <= maxNestingDepth)%N ->
  Unmarshal_any (print ind (tree_of a)) = Ok a.
Proof.
  intros Hf Hp Ha Hn. unfold Unmarshal_any.
  rewrite parse_print; [|by apply wf_tree_of|by rewrite height_tree_of].
  by rewrite to_any_tree_of.
Qed.

Lemma Unmarshal_any_ok (data : bytes) (a : any) : Unmarshal_any data = Ok a -> any_ok a.
Proof.
  unfold Unmarshal_any. destruct (parse data) as [v|] eqn:E; [|discriminate].
  destruct (to_any v) as [a'|] eqn:Ea; [|discriminate]. intros [= <-].
  apply (to_any_ok v); [by apply (parse_value_ok data)|done].
Qed.

End RoundTrip.

Section JsonBodies.
Import http proxy spec json syntax spec_utf record_syntax any_syntax.
Context `{F : Float64} `{R : MapRange}.

(** ** Bodies that are JSON *)

(** [UnmarshalJSON] keeps the text of a value that is neither [null] nor a
    string. *)
Lemma UnmarshalJSON_kept (a : any) (ind : option nat) :
  formats_numbers -> kept a = true -> (nesting a <= maxNestingDepth)%N ->
  storage.UnmarshalJSON (print ind (tree_of a)) = print ind (tree_of a).
Proof.
  intros Hf Hk Hn. unfold storage.UnmarshalJSON, Unmarshal_string.
  rewrite parse_print; [|by apply wf_tree_of|by rewrite height_tree_of].
  destruct a as [|[|]|f|s|l|m]; try discriminate; reflexivity.
Qed.

Lemma MarshalJSON_json (rb : storage.ResponseBody) (a : any) :
  Unmarshal_any rb = Ok a -> storage.MarshalJSON rb = Ok (print None (tree_of a)).
Proof.
  intros Ha. unfold storage.MarshalJSON. destruct rb as [|c rb]; [discriminate|].
  cbn [length Nat.eqb]. rewrite Ha. unfold Marshal_any. by rewrite print_tree_of.
Qed.

(** [Save] followed by [Load], for a body that is JSON. *)
Lemma Save_Load_json (st : storage.Storage) (fs : os.FS) (hash : string)
    (c : storage.CachedResponse) (a : any) :
  os.writable fs = true -> utf8_record c -> int64 (storage.StatusCode c) ->
  Unmarshal_any (storage.Body c) = Ok a -> kept a = true ->
  (nesting a < maxNestingDepth)%N -> formats_numbers ->
  exists fs',
    storage.Save st fs hash c = (Ok tt, fs') /\
    storage.Load st fs' hash
    = Ok (storage.mkCachedResponse (storage.Method c) (storage.Path c) (storage.StatusCode c)
                                   (storage.Headers c) (print (Some 1%nat) (tree_of a))).
Proof.
  intros Hw Hu Hz Ha Hk Hn Hf.
  assert (Hh : (height (tree_of a) <= 9999)%N).
  { rewrite height_tree_of. unfold maxNestingDepth in Hn. lia. }
  eexists. split.
  - apply (Save_record_tree st fs hash c (tree_of a)); [by apply wf_tree_of|done| | |done].
    + by apply MarshalJSON_json.
    + rewrite print_tree_of. apply compact_encode_any; [done|]. unfold maxNestingDepth in *. lia.
  - erewrite (Load_record_tree st _ hash c (tree_of a)); [|by apply wf_tree_of|done..|].
    + rewrite UnmarshalJSON_kept; [done..|]. unfold maxNestingDepth in *. lia.
    + cbn [os.files]. apply lookup_insert_eq.
Qed.

End JsonBodies.

Section JsonClaims.
Import http proxy spec json syntax spec_utf record_syntax any_syntax.
Context `{F : Float64} `{R : MapRange}.

(** A record whose body is JSON, with a value that is neither [null]
    nor a string and is nested less than 10000 levels deep, is written by
    [Save] on a writable file system, and [Load] of the same hash returns
    the record with a body that decodes to the same value; the other
    fields are the fields that were saved. The strings of the record are
    valid UTF-8, its status is an int64, and the formatting of floats
    writes JSON numbers that parse back to the same float. *)
Theorem Save_then_Load_json (st : storage.Storage) (fs : os.FS) (hash : string)
    (c : storage.CachedResponse) (a : any) :
  os.writable fs = true -> utf8_record c -> int64 (storage.StatusCode c) ->
  Unmarshal_any (storage.Body c) = Ok a -> kept a = true ->
  (nesting a < maxNestingDepth)%N -> formats_numbers -> parses_back ->
  exists fs' body',
    storage.Save st fs hash c = (Ok tt, fs') /\
    storage.Load st fs' hash
    = Ok (storage.mkCachedResponse (storage.Method c) (storage.Path c) (storage.StatusCode c)
                                   (storage.Headers c) body') /\
    Unmarshal_any body' = Ok a.
Proof.
  intros Hw Hu Hz Ha Hk Hn Hf Hp.
  destruct (Save_Load_json st fs hash c a Hw Hu Hz Ha Hk Hn Hf) as (fs' & HS & HL).
  exists fs', (print (Some 1%nat) (tree_of a)). split; [done|]. split; [done|].
  apply Unmarshal_tree_of; [done|done|by apply (Unmarshal_any_ok (storage.Body c))|].
  unfold maxNestingDepth in *. lia.
Qed.

(** Record then replay of a JSON answer: a request is served in
    record mode on a writable store, and the reverse proxy makes the calls
    of a plain exchange whose body is JSON, with a value that is neither
    [null] nor a string. Then a handler in replay mode on the store that
    was left answers every request with the same fingerprint with the
    status the first client received, with its headers except
    [Content-Length] and the names without a value, and, when the status
    allows a body, with a body that decodes to the same value; it contacts
    no backend. *)
Theorem record_then_replay_by_value (cfg : config.Config) (st : storage.Storage)
    (backendURL : URL) (transport : Request -> list rwop) (r : Request) (fs : os.FS)
    requestHash bodyBytes (pre post : list rwop) (code : Z) (a : any)
    (h2 : Handler) (r2 : Request) (bodyBytes2 : bytes) :
  config.Mode_ cfg = config.ModeRecord ->
  requestHash_of r = Ok (requestHash, bodyBytes) ->
  transport (outgoing backendURL (restored r bodyBytes)) = pre ++ OpWriteHeader code :: post ->
  forallb header_op pre = true -> forallb write_op post = true -> final_code code = true ->
  os.writable fs = true ->
  utf8_record (storage.mkCachedResponse (Method r) (Path (URL_ r)) code
                                        (fold_left apply_op pre ∅) (concat (writes post))) ->
  Unmarshal_any (concat (writes post)) = Ok a -> kept a = true ->
  (nesting a < maxNestingDepth)%N -> formats_numbers -> parses_back ->
  config.Mode_ (config_ h2) = config.ModeReplay -> storage_ h2 = st ->
  requestHash_of r2 = Ok (requestHash, bodyBytes2) ->
  let s1 := exec (ServeHTTP (New cfg st backendURL transport) r) (new_world fs) in
  let s2 := exec (ServeHTTP h2 r2) (new_world (disk s1)) in
  status (client s2) = status (client s1) /\
  (if bodyAllowedForStatus code
   then Unmarshal_any (body (client s2)) = Unmarshal_any (body (client s1))
   else body (client s2) = body (client s1)) /\
  sentHeader (client s2) = filter replayed_entry (sentHeader (client s1)) /\
  contacted s2 = [].
Proof.
  intros Hm Hh Ht Hpre Hpost Hfc Hw Hu Ha Hk Hn Hf Hp Hm2 Hst Hh2. cbv zeta.
  destruct (record_plain_world cfg st backendURL transport r fs requestHash bodyBytes
              pre post code Hm Hh Ht Hpre Hpost Hfc) as (Hd & Hs & Hhd & Hb).
  set (cached := storage.mkCachedResponse (Method r) (Path (URL_ r)) code
                   (fold_left apply_op pre ∅) (concat (writes post))) in *.
  assert (Hz : int64 (storage.StatusCode cached)).
  { unfold int64, cached, final_code, valid_code in *. cbn [storage.StatusCode]. lia. }
  destruct (Save_Load_json st fs requestHash cached a Hw Hu Hz Ha Hk Hn Hf) as (fs' & HS & HL).
  rewrite Hd, HS. cbn [snd]. subst st.
  cbn [cached storage.Method storage.Path storage.StatusCode storage.Headers] in HL.
  assert (Hv : Unmarshal_any (print (Some 1%nat) (tree_of a)) = Ok a).
  { apply Unmarshal_tree_of; [done|done|by apply (Unmarshal_any_ok (concat (writes post)))|].
    unfold maxNestingDepth in *. lia. }
  destruct (replay_plain_record h2 r2 fs' requestHash bodyBytes2 _ Hm2 Hh2 HL)
    as (H1 & H2 & H3).
  - apply canonical_keys_apply_ops, canonical_keys_empty.
  - exact Hfc.
  - cbn [storage.Body]. intros Hnull. rewrite Hnull in Hv.
    change (Unmarshal_any (bytes_of "null")) with (Ok ANil) in Hv.
    injection Hv as <-. discriminate.
  - cbn [storage.StatusCode storage.Headers storage.Body] in H1, H2, H3.
    rewrite H1, H2, H3, Hs, Hhd, Hb. split; [done|]. split.
    + destruct (bodyAllowedForStatus code); [by rewrite Hv, Ha|done].
    + split; [done|].
      destruct (local_ServeHTTP_replay h2 r2 Hm2) as [Hc _]. apply (Hc (new_world fs')).
Qed.

End JsonClaims.

Section IntegerFloats.
Import http proxy spec json syntax spec_utf record_syntax any_syntax.
Import Examples RecordExamples ScenarioExamples JsonExamples.
Local Open Scope Z_scope.

(** ** An instance of [Float64] that keeps the laws *)

Lemma parse_integer_encode_int (z : Z) : parse_integer (storage.encode_int z) = Some z.
Proof.
  unfold storage.encode_int, parse_integer.
  destruct z as [|p|p]; cbn [Z.to_int NilZero.string_of_int].
  - reflexivity.
  - destruct (to_uint_head p) as (c & l & k & Ht & Hd & H0 & Hm & Hk & Hp).
    assert (Hs : NilZero.string_of_uint (Pos.to_uint p) = NilEmpty.string_of_uint (Pos.to_uint p)).
    { pose proof (DecimalPos.Unsigned.to_uint_nonnil p). by destruct (Pos.to_uint p). }
    rewrite Hs, Ht, Hm. cbn [forallb length Nat.eqb negb fold_left].
    rewrite Hd, (uint_digits l). cbn [andb].
    replace (0 * 10 + (byte_val c - 48)) with (Z.pos k) by lia.
    by rewrite fold_digits, Hp.
  - destruct (to_uint_head p) as (c & l & k & Ht & Hd & H0 & Hm & Hk & Hp).
    assert (Hs : NilZero.string_of_uint (Pos.to_uint p) = NilEmpty.string_of_uint (Pos.to_uint p)).
    { pose proof (DecimalPos.Unsigned.to_uint_nonnil p). by destruct (Pos.to_uint p). }
    cbn [list_ascii_of_string]. change (Ascii.eqb "-" "-") with true. cbv iota.
    rewrite Hs, Ht. cbn [forallb length Nat.eqb negb fold_left].
    rewrite Hd, (uint_digits l). cbn [andb].
    replace (0 * 10 + (byte_val c - 48)) with (Z.pos k) by lia.
    by rewrite fold_digits, Hp.
Qed.

Lemma integer_floats_format : @formats_numbers integer_floats.
Proof. intros f. apply encode_int_number. Qed.

Lemma integer_floats_parse : @parses_back integer_floats.
Proof. intros f. apply parse_integer_encode_int. Qed.

Lemma Save_then_Load_json_witness :
  exists fs' body',
    @storage.Save integer_floats st writable_store hash_get_a json_body_record = (Ok tt, fs') /\
    storage.Load st fs' hash_get_a
    = Ok (storage.mkCachedResponse "GET" "/a" 200 ∅ body') /\
    @Unmarshal_any integer_floats body' = Ok json_body_value.
Proof.
  apply (@Save_then_Load_json integer_floats st writable_store hash_get_a json_body_record
           json_body_value).
  - reflexivity.
  - split; [reflexivity|]. split; [reflexivity|]. intros k vs Hk.
    unfold json_body_record in Hk. cbn [storage.Headers] in Hk.
    by rewrite lookup_empty in Hk.
  - unfold int64. cbn [storage.StatusCode json_body_record]. lia.
  - reflexivity.
  - reflexivity.
  - reflexivity.
  - exact integer_floats_format.
  - exact integer_floats_parse.
Defined.

Lemma record_then_replay_by_value_witness :
  status (client replayed_json) = status (client recorded_json) /\
  @Unmarshal_any integer_floats (body (client replayed_json))
  = @Unmarshal_any integer_floats (body (client recorded_json)) /\
  sentHeader (client replayed_json) = filter replayed_entry (sentHeader (client recorded_json)) /\
  contacted replayed_json = [].
Proof.
  apply (@record_then_replay_by_value integer_floats range_in_order
           (cfg config.ModeRecord) st backendURL answer_json post_john writable_store
           (match requestHash_of post_john with Ok (x, _) => x | Err _ => EmptyString end)
           (lit "{'name':'John'}")
           [OpHeaderAdd "Content-Type" "application/json"]
           [OpWrite (lit "{'b': [1, "); OpWrite (lit "true], 'a': 'x'}")] 200%Z
           json_body_value
           (handler config.ModeReplay) post_john (lit "{'name':'John'}")).
  - reflexivity.
  - vm_compute. reflexivity.
  - reflexivity.
  - reflexivity.
  - reflexivity.
  - reflexivity.
  - reflexivity.
  - split; [reflexivity|]. split; [reflexivity|]. intros k vs Hk.
    cbn [storage.Headers] in Hk.
    change (fold_left apply_op [OpHeaderAdd "Content-Type" "application/json"] ∅)
      with (<["Content-Type" := ["application/json"]]> (∅ : Header)) in Hk.
    apply lookup_insert_Some in Hk as [[<- <-]|[_ Hk]].
    + split; [reflexivity|]. repeat constructor.
    + by rewrite lookup_empty in Hk.
  - reflexivity.
  - reflexivity.
  - reflexivity.
  - exact integer_floats_format.
  - exact integer_floats_parse.
  - reflexivity.
  - reflexivity.
  - vm_compute. reflexivity.
Defined.

(** The body that is replayed is not the body that was recorded, byte for
    byte: the keys are in order and the text is indented. *)
Example replayed_json_text :
  string_of (body (client recorded_json)) = string_of (lit "{'b': [1, true], 'a': 'x'}") /\
  string_of (body (client replayed_json)) = string_of (lit "{
    'a': 'x',
    'b': [
      1,
      true
    ]
  }").
Proof. vm_compute. split; reflexivity. Qed.

End IntegerFloats.

Section Depth.
Import json syntax spec_utf record_syntax any_syntax.

(** ** How deep the parser goes *)

Lemma elements_depth (n : N) (l : list value) :
  Forall (fun x => (value_depth x <= n)%N) l ->
  (fold_right (fun x acc => N.max (value_depth x) acc) 0%N l <= n)%N.
Proof. induction 1 as [|x l Hx _ IH]; cbn [fold_right]; lia. Qed.

Lemma members_depth (n : N) (l : list (bytes * bytes * value)) :
  Forall (fun m => (value_depth (snd m) <= n)%N) l ->
  (fold_right (fun m acc => N.max (value_depth (snd m)) acc) 0%N l <= n)%N.
Proof. induction 1 as [|x l Hx _ IH]; cbn [fold_right]; lia. Qed.

Lemma parse_depth (fuel : nat) :
  (forall depth s v r,
     (depth <= maxNestingDepth)%N ->
     parse_value fuel depth s = Some (v, r) -> (depth + value_depth v <= maxNestingDepth)%N) /\
  (forall d s acc v r,
     (d + 1 <= maxNestingDepth)%N ->
     Forall (fun m => (d + 1 + value_depth (snd m) <= maxNestingDepth)%N) acc ->
     parse_members fuel (d + 1) s acc = Some (v, r) ->
     (d + value_depth v <= maxNestingDepth)%N) /\
  (forall d s acc v r,
     (d + 1 <= maxNestingDepth)%N ->
     Forall (fun x => (d + 1 + value_depth x <= maxNestingDepth)%N) acc ->
     parse_elements fuel (d + 1) s acc = Some (v, r) ->
     (d + value_depth v <= maxNestingDepth)%N).
Proof.
  induction fuel as [|fuel (IHv & IHm & IHe)]; [by repeat split|].
  split; [|split].
  - intros depth s v r Hdepth. rewrite parse_value_S.
    destruct (skip_space s) as [|c t]; [discriminate|].
    destruct (Ascii.eqb c "{").
    { destruct (maxNestingDepth <? depth + 1)%N eqn:Ed; [discriminate|].
      apply N.ltb_ge in Ed. destruct (skip_space t) as [|c' t']; [discriminate|].
      destruct (Ascii.eqb c' "}"); [intros [= <- <-]; cbn [value_depth fold_right]; lia|].
      apply IHm; [lia|constructor]. }
    destruct (Ascii.eqb c "[").
    { destruct (maxNestingDepth <? depth + 1)%N eqn:Ed; [discriminate|].
      apply N.ltb_ge in Ed. destruct (skip_space t) as [|c' t']; [discriminate|].
      destruct (Ascii.eqb c' "]"); [intros [= <- <-]; cbn [value_depth fold_right]; lia|].
      apply IHe; [lia|constructor]. }
    destruct (Ascii.eqb c dquote).
    { destruct (scan_string SNormal t) as [[raw t']|]; [|discriminate].
      intros [= <- <-]. cbn [value_depth]. lia. }
    destruct (Ascii.eqb c "-" || http.is_digit c).
    { destruct (scan_number (c :: t)) as [[l t']|]; [|discriminate].
      intros [= <- <-]. cbn [value_depth]. lia. }
    destruct (Ascii.eqb c "t").
    { destruct (strip_prefix _ t); [|discriminate]. intros [= <- <-]. cbn [value_depth]. lia. }
    destruct (Ascii.eqb c "f").
    { destruct (strip_prefix _ t); [|discriminate]. intros [= <- <-]. cbn [value_depth]. lia. }
    destruct (Ascii.eqb c "n"); [|discriminate].
    destruct (strip_prefix _ t); [|discriminate]. intros [= <- <-]. cbn [value_depth]. lia.
  - intros d s acc v r Hd Hacc. rewrite parse_members_S.
    destruct (skip_space s) as [|q t]; [discriminate|].
    destruct (Ascii.eqb q dquote); [|discriminate].
    destruct (scan_string SNormal t) as [[kraw t1]|]; [|discriminate].
    destruct (skip_space t1) as [|c t2]; [discriminate|].
    destruct (Ascii.eqb c ":"); [|discriminate]. cbv zeta.
    destruct (parse_value fuel (d + 1) (skip_space t2)) as [[x t3]|] eqn:Ev; [|discriminate].
    pose proof (IHv _ _ _ _ Hd Ev) as Hx.
    assert (Hacc' : Forall (fun m => (d + 1 + value_depth (snd m) <= maxNestingDepth)%N)
                           (acc ++ [(unquote 0 kraw,
                                     firstn (length (skip_space t2) - length t3) (skip_space t2),
                                     x)])).
    { apply Forall_app. split; [done|]. by repeat constructor. }
    destruct (skip_space t3) as [|c' t4]; [discriminate|].
    destruct (Ascii.eqb c' ","); [by apply IHm|].
    destruct (Ascii.eqb c' "}"); [|discriminate]. intros [= <- <-]. cbn [value_depth].
    assert (Hall : Forall (fun m => (value_depth (snd m) <= maxNestingDepth - (d + 1))%N)
                          (acc ++ [(unquote 0 kraw,
                                    firstn (length (skip_space t2) - length t3) (skip_space t2),
                                    x)])).
    { eapply Forall_impl; [exact Hacc'|]. intros m Hm. cbn beta in Hm. lia. }
    apply members_depth in Hall. lia.
  - intros d s acc v r Hd Hacc. rewrite parse_elements_S.
    destruct (parse_value fuel (d + 1) s) as [[x t]|] eqn:Ev; [|discriminate]. cbv zeta.
    pose proof (IHv _ _ _ _ Hd Ev) as Hx.
    assert (Hacc' : Forall (fun x => (d + 1 + value_depth x <= maxNestingDepth)%N) (acc ++ [x])).
    { apply Forall_app. split; [done|]. by repeat constructor. }
    destruct (skip_space t) as [|c t']; [discriminate|].
    destruct (Ascii.eqb c ","); [by apply IHe|].
    destruct (Ascii.eqb c "]"); [|discriminate]. intros [= <- <-]. cbn [value_depth].
    assert (Hall : Forall (fun x => (value_depth x <= maxNestingDepth - (d + 1))%N) (acc ++ [x])).
    { eapply Forall_impl; [exact Hacc'|]. intros m Hm. cbn beta in Hm. lia. }
    apply elements_depth in Hall. lia.
Qed.

Lemma to_any_nesting `{F : Float64} (v : value) : forall a,
  to_any v = Some a -> (nesting a <= value_depth v)%N.
Proof.
  induction v as [|b|l|s|l IH|l IH] using value_ind'; intros a Ha; cbn [to_any] in Ha.
  - injection Ha as <-. reflexivity.
  - injection Ha as <-. reflexivity.
  - destruct (ParseFloat l); [|discriminate]. injection Ha as <-. reflexivity.
  - injection Ha as <-. reflexivity.
  - destruct (fold_right _ _ l) as [l'|] eqn:E in Ha; [|discriminate]. injection Ha as <-.
    cbn [nesting value_depth]. apply N.add_le_mono_l.
    revert l' E. induction IH as [|x l Hx _ IHl]; intros l' E.
    + cbn in E. injection E as <-. reflexivity.
    + cbn [fold_right] in E.
      destruct (to_any x) as [ax|] eqn:Ex; [|discriminate].
      destruct (fold_right _ _ l) as [l0|] eqn:E0 in E; [|discriminate].
      injection E as <-. cbn [fold_right].
      specialize (Hx ax eq_refl). specialize (IHl l0 E0). lia.
  - destruct (fold_left _ l _) as [m|] eqn:E in Ha; [|discriminate]. injection Ha as <-.
    cbn [nesting value_depth]. apply N.add_le_mono_l.
    set (n := fold_right (fun m0 acc => N.max (value_depth (snd m0)) acc) 0%N l).
    assert (Hl : Forall (fun mm => forall a, to_any (snd mm) = Some a -> (nesting a <= n)%N) l).
    { subst n. clear E. induction IH as [|x l Hx _ IHl]; constructor.
      - intros a Ha. specialize (Hx a Ha). cbn [fold_right]. lia.
      - eapply Forall_impl; [exact IHl|]. intros mm Hmm a Ha. cbn [fold_right] in *.
        specialize (Hmm a Ha). lia. }
    clearbody n. clear IH.
    assert (Hgen : forall m0 : list (string * any),
              Forall (fun kv => (nesting (snd kv) <= n)%N) m0 ->
              fold_left (fun acc mm => match acc, to_any (snd mm) with
                                       | Some m', Some a =>
                                           Some (map_store (string_of (fst (fst mm))) a m')
                                       | _, _ => None
                                       end) l (Some m0) = Some m ->
              Forall (fun kv => (nesting (snd kv) <= n)%N) m).
    { clear E. induction Hl as [|x l Hx _ IHl]; intros m0 H0 E.
      - cbn in E. by injection E as <-.
      - cbn [fold_left] in E. destruct (to_any (snd x)) as [ax|] eqn:Ex.
        + apply (IHl _ (map_store_entries _ _ _ _ (Hx ax eq_refl) H0) E).
        + by rewrite members_last in E. }
    specialize (Hgen [] ltac:(constructor) E). clear -Hgen.
    induction Hgen as [|kv m Hkv _ IHm]; cbn [fold_right]; lia.
Qed.

(** A value that [json.Unmarshal] accepts is nested at most 10000
    levels deep. *)
Lemma Unmarshal_any_nesting `{F : Float64} (data : bytes) (a : any) :
  Unmarshal_any data = Ok a -> (nesting a <= maxNestingDepth)%N.
Proof.
  unfold Unmarshal_any, parse.
  destruct (parse_value _ 0 data) as [[v r]|] eqn:E; [|discriminate].
  destruct (skip_space r); [|discriminate].
  destruct (to_any v) as [a'|] eqn:Ea; [|discriminate]. intros [= <-].
  pose proof (proj1 (parse_depth _) 0%N data v r ltac:(unfold maxNestingDepth; lia) E).
  pose proof (to_any_nesting v a' Ea). lia.
Qed.

End Depth.

(* ===================================================================== *)
(** * Loading the configuration *)
(* ===================================================================== *)

Section Loading.
Import config.
Context `{U : strings.Unicode}.
Local Open Scope Z_scope.

(** ** What [Load] returns *)

Lemma Validate_ok (c : Config) :
  Validate c = None ->
  BackendURL c <> "" /\ 1 <= Port c <= 65535 /\ StoragePath c <> "".
Proof.
  unfold Validate.
  destruct (String.eqb_spec (BackendURL c) ""); [discriminate|].
  destruct ((Port c <? 1) || (65535 <? Port c)) eqn:Ep; [discriminate|].
  destruct (String.eqb_spec (StoragePath c) ""); [discriminate|].
  intros _. repeat split; try done; lia.
Qed.

(** [Load] up to the validation: no error of the mode or of the port, and
    the configuration that is validated has the mode of the environment. *)
Lemma Load_steps (env : string -> string) (opts : option LoadOptions) (cfg : Config) :
  Load env opts = Ok cfg ->
  Validate cfg = None /\
  (Mode_ cfg = ModeRecord \/ Mode_ cfg = ModeReplay \/ Mode_ cfg = ModePassthrough).
Proof.
  intros HL. unfold Load in HL.
  destruct (String.eqb (env "MODE") "") eqn:Emode; cbn [negb andb] in HL.
  - repeat (match type of HL with
            | context [cli_backend opts] => destruct (cli_backend opts) eqn:?
            | context [cli_port opts] => destruct (cli_port opts) eqn:?
            | context [String.eqb ?a ""] => destruct (String.eqb a "") eqn:?
            | context [strconv.Atoi ?a] => destruct (strconv.Atoi a) eqn:?
            | context [(?a <? 1) || (65535 <? ?a)] => destruct ((a <? 1) || (65535 <? a)) eqn:?
            | context [Validate ?c] => destruct (Validate c) eqn:Ev
            end; cbn [negb andb] in HL; try discriminate);
      injection HL as <-; (split; [exact Ev|by left]).
  - destruct (String.eqb_spec (strings.ToLower (env "MODE")) ModeRecord) as [Hr|_];
      [|destruct (String.eqb_spec (strings.ToLower (env "MODE")) ModeReplay) as [Hr|_];
        [|destruct (String.eqb_spec (strings.ToLower (env "MODE")) ModePassthrough) as [Hr|_];
          [|discriminate]]];
      cbn [negb andb] in HL;
      repeat (match type of HL with
              | context [cli_backend opts] => destruct (cli_backend opts) eqn:?
              | context [cli_port opts] => destruct (cli_port opts) eqn:?
              | context [String.eqb ?a ""] => destruct (String.eqb a "") eqn:?
              | context [strconv.Atoi ?a] => destruct (strconv.Atoi a) eqn:?
              | context [(?a <? 1) || (65535 <? ?a)] => destruct ((a <? 1) || (65535 <? a)) eqn:?
              | context [Validate ?c] => destruct (Validate c) eqn:Ev
              end; cbn [negb andb] in HL; try discriminate);
      injection HL as <-; (split; [exact Ev|]);
      cbn [Mode_ with_Mode with_BackendURL with_Port with_StoragePath]; rewrite Hr; auto.
Qed.

Lemma Load_backend (env : string -> string) (opts : option LoadOptions) (cfg : Config)
    (b : string) :
  Load env opts = Ok cfg -> cli_backend opts = Some b -> BackendURL cfg = normalizeBackendURL b.
Proof.
  intros HL Hb. unfold Load in HL. rewrite Hb in HL.
  repeat (match type of HL with
          | context [if ?c then Err _ else _] => destruct c eqn:?
          | context [cli_port opts] => destruct (cli_port opts) eqn:?
          | context [String.eqb ?a ""] => destruct (String.eqb a "") eqn:?
          | context [strconv.Atoi ?a] => destruct (strconv.Atoi a) eqn:?
          | context [(?a <? 1) || (65535 <? ?a)] => destruct ((a <? 1) || (65535 <? a)) eqn:?
          | context [Validate ?c] => destruct (Validate c) eqn:Ev
          end; cbn [negb andb] in HL; try discriminate);
    injection HL as <-; reflexivity.
Qed.

Lemma prefix_app (p s : string) : String.prefix p (p +:+ s) = true.
Proof.
  induction p as [|c p IH]; simpl; [by destruct s|]. by destruct (ascii_dec c c).
Qed.

End Loading.

Section LoadingClaims.
Import config.
Context `{U : strings.Unicode}.
Local Open Scope Z_scope.

(** Every configuration that [Load] returns is well formed, whatever
    the environment and the command line: the mode is one of [record],
    [replay] and [passthrough], the port is between 1 and 65535, and the
    backend URL and the storage path are not empty. *)
Theorem Load_returns_a_valid_configuration (env : string -> string)
    (opts : option LoadOptions) (cfg : Config) :
  Load env opts = Ok cfg ->
  (Mode_ cfg = ModeRecord \/ Mode_ cfg = ModeReplay \/ Mode_ cfg = ModePassthrough) /\
  1 <= Port cfg <= 65535 /\ BackendURL cfg <> "" /\ StoragePath cfg <> "".
Proof.
  intros HL. destruct (Load_steps env opts cfg HL) as (Hv & Hmode).
  destruct (Validate_ok cfg Hv) as (Hb & Hp & Hs). done.
Qed.

(** [Load] reads four variables of the environment and no other, and
    the command line takes precedence: the result is the same for two
    environments that agree on [MODE] and [STORAGE_PATH], on [PORT] unless
    the command line gives a port, and on [BACKEND_URL] unless the command
    line gives a backend that is not empty. In particular a [PORT] that is
    not a number is no error when the command line gives the port. *)
Theorem Load_command_line_takes_precedence (env env' : string -> string)
    (opts : option LoadOptions) :
  env "MODE" = env' "MODE" -> env "STORAGE_PATH" = env' "STORAGE_PATH" ->
  (cli_port opts = None -> env "PORT" = env' "PORT") ->
  (cli_backend opts = None -> env "BACKEND_URL" = env' "BACKEND_URL") ->
  Load env opts = Load env' opts.
Proof.
  intros Hm Hs Hp Hb. unfold Load. rewrite <- Hm, <- Hs.
  destruct (cli_port opts) as [p|]; destruct (cli_backend opts) as [b|];
    try rewrite <- (Hp eq_refl); try rewrite <- (Hb eq_refl); reflexivity.
Qed.

(** A backend given on the command line is stored with a scheme: when
    [Load] returns a configuration and the options give a backend that is
    not empty, the backend URL is that backend as [normalizeBackendURL]
    writes it, and it starts with [http://] or [https://]. A backend of the
    [BACKEND_URL] variable is stored as it stands. *)
Theorem Load_gives_the_command_line_backend_a_scheme (env : string -> string)
    (opts : option LoadOptions) (cfg : Config) (b : string) :
  Load env opts = Ok cfg -> cli_backend opts = Some b ->
  BackendURL cfg = normalizeBackendURL b /\
  strings.HasPrefix (BackendURL cfg) "http://" || strings.HasPrefix (BackendURL cfg) "https://"
  = true.
Proof.
  intros HL Hb. pose proof (Load_backend env opts cfg b HL Hb) as Hu.
  destruct (Load_steps env opts cfg HL) as (Hv & _).
  destruct (Validate_ok cfg Hv) as (Hne & _). split; [exact Hu|].
  rewrite Hu in Hne |- *. unfold normalizeBackendURL in *.
  destruct (String.eqb_spec (strings.TrimSpace b) "") as [He|_]; [by rewrite He in Hne|].
  destruct (strings.HasPrefix (strings.TrimSpace b) "http://" ||
            strings.HasPrefix (strings.TrimSpace b) "https://") eqn:Ep; [exact Ep|].
  unfold strings.HasPrefix at 1. by rewrite prefix_app.
Qed.

End LoadingClaims.

Section LoadingWitnesses.
Import config ConfigExamples.

Lemma Load_returns_a_valid_configuration_witness :
  let cfg := mkConfig ModeReplay "http://localhost:8080" 8080 "./recordings" in
  (Mode_ cfg = ModeRecord \/ Mode_ cfg = ModeReplay \/ Mode_ cfg = ModePassthrough) /\
  (1 <= Port cfg <= 65535)%Z /\ BackendURL cfg <> "" /\ StoragePath cfg <> "".
Proof.
  apply (@Load_returns_a_valid_configuration ascii_strings replay_env None).
  vm_compute. reflexivity.
Defined.

Lemma Load_command_line_takes_precedence_witness :
  @Load ascii_strings replay_env cli_options = @Load ascii_strings noisy_env cli_options.
Proof.
  apply (@Load_command_line_takes_precedence ascii_strings replay_env noisy_env cli_options).
  - reflexivity.
  - reflexivity.
  - discriminate.
  - discriminate.
Defined.

Lemma Load_gives_the_command_line_backend_a_scheme_witness :
  let cfg := mkConfig ModeReplay "http://api.example.com" 9000 "./recordings" in
  BackendURL cfg = @normalizeBackendURL ascii_strings " api.example.com " /\
  strings.HasPrefix (BackendURL cfg) "http://" || strings.HasPrefix (BackendURL cfg) "https://"
  = true.
Proof.
  apply (@Load_gives_the_command_line_backend_a_scheme ascii_strings noisy_env cli_options).
  - vm_compute. reflexivity.
  - reflexivity.
Defined.

(** The configuration of that command line: the backend is trimmed and
    given a scheme, and the port of the environment is not read. *)
Example Load_command_line :
  @Load ascii_strings noisy_env cli_options
  = Ok (mkConfig ModeReplay "http://api.example.com" 9000 "./recordings") /\
  (exists e, @Load ascii_strings noisy_env None = Err e).
Proof. split; [|eexists]; vm_compute; reflexivity. Qed.

End LoadingWitnesses.

(* ===================================================================== *)
(** * The documentation generator *)
(* ===================================================================== *)

Section Docs.
Import json syntax spec_utf record_syntax any_syntax gendocs.
Context `{F : Float64} `{U : strings.Unicode}.

(** ** The documentation generator on a JSON body *)

Lemma pretty_json (data : bytes) (a : any) :
  formats_numbers -> Unmarshal_any data = Ok a ->
  pretty data = Some (string_of (print (Some 0%nat) (tree_of a))).
Proof.
  intros Hf Ha. unfold pretty, MarshalIndent_any, Marshal_any. rewrite Ha.
  rewrite <- print_tree_of, Indent_print; [done|by apply wf_tree_of|].
  rewrite height_tree_of. by apply (Unmarshal_any_nesting data).
Qed.

End Docs.

Section DocsClaims.
Import json syntax spec_utf record_syntax any_syntax gendocs.
Context `{F : Float64} `{U : strings.Unicode}.

(** [formatBody] shows every body that is valid JSON as JSON: the
    type is [json], and the text is valid JSON that decodes to the value
    of the body. The formatting of floats writes JSON numbers that parse
    back to the same float. *)
Theorem formatBody_shows_json (body : storage.ResponseBody) (a : any) :
  formats_numbers -> parses_back -> Unmarshal_any body = Ok a ->
  exists text, formatBody body = (text, "json") /\ Unmarshal_any (bytes_of text) = Ok a.
Proof.
  intros Hf Hp Ha. exists (string_of (print (Some 0%nat) (tree_of a))). split.
  - unfold formatBody. destruct body as [|c body]; [discriminate|].
    cbn [length Nat.eqb]. by rewrite (pretty_json _ a Hf Ha).
  - rewrite list_ascii_of_string_of_list_ascii.
    apply Unmarshal_tree_of; [done|done|by apply (Unmarshal_any_ok body)|].
    by apply (Unmarshal_any_nesting body).
Qed.

End DocsClaims.

Section DocsWitnesses.
Import json syntax spec_utf record_syntax any_syntax gendocs.
Import JsonExamples ConfigExamples.

Lemma formatBody_shows_json_witness :
  exists text,
    @formatBody integer_floats ascii_strings (storage.Body json_body_record) = (text, "json") /\
    @Unmarshal_any integer_floats (bytes_of text) = Ok json_body_value.
Proof.
  apply (@formatBody_shows_json integer_floats ascii_strings (storage.Body json_body_record)
           json_body_value).
  - exact integer_floats_format.
  - exact integer_floats_parse.
  - reflexivity.
Defined.

End DocsWitnesses.
